(* ===== verification/_CoqProject ===== *)
-Q . S2P
Prelude.v
GoRuntime.v
Types.v
NetUrl.v
Fmt.v
Url.v
Engine.v
Scheduler.v
Service.v
Getter.v
Putter.v
Roundtrip.v
Protocol.v
Facade.v
Session.v
Concurrent.v
Transfer.v
Program.v
Interleaved.v
Client.v
System.v
Atomic.v
Progress.v
