(* ===== verification/Prelude.v ===== *)
(** * s3gof3r: a verification development for the streaming S3 client

    The program.  [src/s3gof3r.go] is the public face of a streaming client
    for an S3-compatible object store: the account, bucket and configuration
    types ([Keys], [S3], [Bucket], [Config]), the package variables
    [DefaultConfig] and [DefaultDomain], the constant [clientTimeout], and the
    entry points [New], [S3.Bucket], [Bucket.GetReader], [Bucket.PutWriter]
    and [Bucket.Url].  The entry points hand over to
    the transfer engine ([newGetter], [newPutter]) and to the HTTP client
    factory ([ClientWithTimeout]), whose code is not part of [src/]; the
    design document ([spec.md]) describes them.

    The files, in dependency order.

    - [Prelude] (this file): the outcome of running Go code ([outcome]:
      a value, a panic, or a fault of the model), the state-and-panic monad
      [Go] with its notation in [go_scope], the hint and
      rewrite databases [go] the other files use, machine-integer ranges, and
      the string library ([str_mem], [str_cut]) behind the URL round trip.
    - [GoRuntime]: nilable pointers, typed object stores ([gmap addr T]),
      [load], [store], [update] and [alloc] with their laws.  Go pointers
      are modelled as [option addr]; a shared object is one cell of a store,
      so two pointers to it observe each other's writes.
    - [Types]: the struct types of [src/s3gof3r.go] as records, the constants
      and initial values of the package variables, the program [state] (one
      store per struct type, the two package variables, and the state of the
      engine), the state after package initialisation [init_state], the
      well-formedness of the heap [heap_ok] and the equivalence [same_heap]
      of states that differ in the engine's part only; and the typing of
      the heap ([config_typed], [heap_typed]): the integer fields of every
      configuration and the time-out of every client within their Go types.
    - [NetUrl]: Go's [url.URL] with its user information, and the
      interface [UrlParser] for [url.Parse]; [go_url] is the instance that
      follows the steps of Go's parser: control bytes refused, fragment,
      scheme (lowered), query, opaque form, authority with user
      information, host and port, and the percent escapes each part
      admits.
    - [Fmt]: [fmt.Sprintf] on string operands, for the verbs [%s], [%v]
      and [%%], with the markers the library prints for a missing operand,
      operands left over and a format that ends in a percent sign.
    - [Url]: the method [Bucket.Url], its format string [Url_format], and
      the theorems on it: when it returns, when it panics and with what,
      that it only reads, that the closed form [Url_format] is what
      [Sprintf] computes on the format string of the source, that the
      format splits back into its parts, and that a bucket sees a change of
      its account.
    - [Engine]: the interface [Engine] of [newGetter] and [newPutter], the
      frame [EngineFrame] the design promises of them, [ClientWithTimeout],
      and an engine without a network for the examples.
    - [Scheduler]: the part scheduler of the design document: the error
      taxonomy [failure] and the write-once error slot [record_error], the
      partition of an object into parts of [PartSize] bytes ([partition],
      [parts_of]), and the retry loop of one part with at most [NTry] attempts
      ([attempts], [run_part]).
    - [Service]: one bucket of the object store, from section 6 of the
      design document: the objects by key and the open multipart uploads,
      with the requests as atomic operations ([stat], [get_range],
      [initiate_upload], [upload_part], [complete_upload], [abort_upload],
      [put_object]); the digest of an object is the object [md5_path key],
      the place the comment of [Md5Check] names.
    - [Getter]: the downloader of the design document.  The state shared by
      the workers and the reader is the record [getter]; [Issue], [Finish],
      [Read] and [Close] are the atomic operations on it; goroutines are
      modelled by interleaving, a run being a list of [event]s executed by
      [run].
    - [Putter]: the uploader of the design document.  The record [putter]
      is the state of an upload; [Write], [Emit], [Uploaded], [PutClose]
      and [Complete] are the atomic operations on it, the blocking calls
      [Write] and [Close] of the writer being split at the points where
      they wait; a run is a list of [put_event]s executed by [put_run].
    - [Roundtrip]: [Putter] and [Getter] run against [Service] behind a
      network that loses requests or replies ([delivery]).  A [world] is an
      upload and the service; [world_step] is a step of the upload with
      what its requests do to the service.  The PUT of the digest is a
      step of its own, taken only when [Md5Check] is set; and the request
      to abort is sent once and may be lost ([AbortLost]), the upload
      ending as aborted either way.
    - [Protocol]: the wire below the two requests of the data path:
      requests and replies with status, headers and body, the [Range] and
      [Content-Range] headers printed and parsed, the interface [Signer] of
      the request factory, the service on a request ([handle]), what a
      worker makes of a reply ([classify_get], [classify_put]), and one
      request of a worker from end to end ([wire_get], [wire_put]).
    - [Facade]: [New], [S3.Bucket], [Bucket.GetReader] and
      [Bucket.PutWriter], each whole.  The part the two entry points share
      (nil configuration replaced by [DefaultConfig], nil [c.Client] replaced
      by a new client) is [prepare], with the closed form [prepare_result];
      the theorems give the outcome and final state of both entry points on
      every path, and what they write to the shared configuration object.
    - [Session]: client programs as sequences of calls of the package and
      of assignments to what it exports ([call], [steps], [reachable]);
      heap well-formedness and the typing of the heap as invariants of
      every reachable state, the documented defaults and the bound on the
      clients as invariants of the programs that assign nothing, proved by
      induction on [steps].
    - [Concurrent]: [GetReader] and [PutWriter] one statement at a time
      ([pc], [thread_step]), called from several goroutines: a [pool] of
      threads over one state, run under a schedule ([pool_step],
      [pool_run]).  The code takes no lock, so every interleaving of the
      statements is a run.
    - [Transfer]: the engine of the design as an instance of the interface
      [Engine].  Its share of the program state holds the downloads and
      uploads that are open and what the service holds, by host ([site]);
      [newGetter] sends the first request and registers a [getter],
      [newPutter] has the service open a multipart upload and registers a
      [putter], each with a copy of the configuration; and the proof that
      this engine satisfies [EngineFrame].
    - [Program]: the readers and writers of a program, run at the service
      in its state: [writer_step] and [reader_step] are the steps of
      [Roundtrip] and [Getter] on the bucket of the transfer's host, and the
      theorems follow an upload from the call of [PutWriter] to the object
      in the bucket and a download from the call of [GetReader] to the last
      byte read.
    - [Interleaved]: any number of readers and writers of one process,
      their steps in any order ([transfer_event], [transfers_step]); the
      invariant [sound] that ties every upload to its own multipart upload
      at the bucket of its host, and what a step stores among the objects
      ([published]).
    - [Client]: programs made of the statements of [Session] and of steps
      of transfers ([action], [act], [perform]), what a statement may do to
      the transfers and the service ([opened]), and the invariant
      [consistent] of a program.
    - [System]: goroutines that start calls of [GetReader] and [PutWriter]
      at any time and take them one statement at a time, as in
      [Concurrent], with the steps of the transfers in between ([move],
      [system_step]); the invariant [well] and what the calls own
      ([owned]).
    - [Atomic]: what the transfers promise to a client that looks at the
      buckets only, as an abstract specification: an object store
      ([shelves], a [shelf] of objects and headers per host) with the
      atomic operations [Put] and [PutDigest] ([store_step], [store_run]),
      stores being compared shelf by shelf ([same_store]).  The
      abstraction of a state of the transfers ([abstraction]), the
      operation a step amounts to ([effect]) and the operations of a run
      in order ([linearization], and [program_linearization] and
      [system_linearization] for the runs of [Client] and [System]).
    - [Progress]: the scheduler that brings an upload to its end from any
      state ([next], [schedule], [finish]), with the measure [distance]
      that every step of it decreases; and the same for a download
      ([advance], [approach], [read_out], [remaining]).

    What is modelled, and how state corresponds to the code.  Package
    variables and every object reachable through a pointer live in the
    program [state]; an operation is a function in the monad [Go state]
    that returns the outcome together with the state it leaves behind, so
    that writes made before a panic stay visible, as they do in Go.  A Go
    function [f] of [src/s3gof3r.go] is the definition [f] of [Facade] or
    [Url] (the method [Bucket] of [S3] is [S3_Bucket], since the struct
    type has the name); each statement that dereferences is a [load] or an
    [update], each [&T{...}] an [alloc].

    The transfer engine is not in [src/].  [Scheduler], [Getter], [Putter],
    [Transfer], [Program], [Interleaved], [Client], [System] and
    [Progress] are written from the design document, and
    what ties them to the code is the configuration and the calls: they
    take a [Config] and read its fields [Concurrency], [PartSize], [NTry]
    and [Md5Check], and the constructors have the arguments and results of
    the calls in [GetReader] and [PutWriter].  In [Getter] and [Putter] the
    service is a parameter (a function from the index of a part and the
    number of a request to a [response]); [Roundtrip] and [Protocol]
    instantiate it with the service of [Service], behind the network and
    the wire, and [Program] with the service in the state of the program.
    The digest function, the entity tags of the service, the network and
    the signing algorithm stay parameters.

    What the theorems show.
    - [Url]: functional behaviour on every path ([Url_returns_iff],
      [Url_nil_account], [Url_parse_error]), that a bucket reads its
      account through the pointer ([Bucket_aliases_account]), and, with
      the parser of [NetUrl], the URL returned when scheme, host and path
      are made of bytes the parser takes as they are ([Url_go]): its host
      is [name.domain] and its path the key up to the first question
      mark.  The examples show what the parser makes of a bucket name
      with an at sign, a percent sign or a space.
    - [Facade]: the entry points return what the engine returns for the
      right URL, configuration and bucket; they write at most the [Client]
      field, and they do write it, into the caller's object or into the
      object [DefaultConfig] points to, also on the paths that panic.
    - [Session]: no sequence of calls and assignments makes a pointer
      dangle or stores an integer outside its Go type when the client
      stores none; and no sequence of calls removes an object or changes a
      default other than by that one write.
    - [Concurrent]: run alone, the statements of a call compute the
      function of [Facade], and the calls in sequence are one of the
      schedules; under every schedule the heap stays well
      formed, nothing but the [Client] field changes and every call ends
      within five statements; two calls on a configuration without a
      client can both pass the test [c.Client == nil], make two clients and
      lose one, which no order of the calls run one after the other does;
      on a configuration that has its client no schedule leads to a race.
    - [Scheduler]: the parts tile the object and their bytes put together
      are the object; a part costs at most [NTry] requests, its outcome is
      the first answer that is not a transient failure, and with no
      attempt allowed no request is made ([run_part_requests],
      [run_part_outcome]).
    - [Getter]: for every interleaving, the bytes delivered are a prefix of
      the object in order, the parts held are at most [Concurrency], the
      first error stays; a read that waits can be served (no deadlock), the
      sequential schedule finishes, end of stream means the whole object was
      read, and [Close] gives the verdict of the integrity check.  A
      [Close] before the end cancels the download: reads are unblocked, no
      part is started, the buffers are released.  A concurrency below one
      is a download that never starts.
    - [Putter]: for every interleaving, an upload that completes lists in
      index order the parts of the bytes written with their entity tags,
      and stores the digest of those bytes; an upload with a failed part
      ends by the request to abort and in no other way; the parts that
      upload are at most [Concurrency], of at most [PartSize] bytes; a
      closed writer takes nothing more; the sequential schedule finishes.
    - [Service]: a part uploaded twice is a part uploaded once; the
      requests of an upload leave the objects alone until the completion,
      which makes the object of the listed parts and closes the upload.
    - [Roundtrip]: an upload is atomic at the service ([upload_atomic]):
      the objects are unchanged while it is open; when it has completed
      the bucket holds the bytes written, and their digest when
      [Md5Check] is set; when it has aborted the objects are as before,
      and the multipart upload is gone unless the request to abort was
      lost, in which case it stays open at the service.  A download of
      what was uploaded reads the bytes written and passes the integrity
      check, and other bytes of that length fail it; between the
      completion and the PUT of the digest a download is checked against
      the digest of the object that was replaced, and after an upload
      without [Md5Check] it is checked against that digest for good
      ([unchecked_upload_stale]).  And transfers finish:
      when one of the [NTry] requests allowed for every part is
      delivered, the sequential upload of any bytes and the sequential
      download after it run to their ends and give the bytes back
      ([transfer_finishes]).
    - [Protocol]: headers and decimal numbers are read back as written;
      the wire refines the service, for the ranged GET and the PUT of a
      part, also when the reply is lost; a download over the wire reads
      the object.  These hold for every signer that satisfies [Signer].
    - [Program]: from [PutWriter] on an upload is atomic at the service
      under every schedule, in the sense of [upload_atomic], and stores
      the headers of the caller with the object ([writer_atomic]); from [GetReader] on, under every schedule,
      a download that reaches the end of the stream has read the object and
      [Close] gives the verdict of the integrity check ([reader_reads]);
      and a program that stores bytes under a path and then fetches the
      path reads the bytes and is given the headers it gave
      ([store_and_fetch]).  With the parser of Go, what is written for a
      path is stored under the path up to its first question mark, and
      read back by a download of any path that is the same up to there
      ([query_ends_key]).
    - [Interleaved]: every step of a transfer, whatever the others did in
      between, keeps the uploads attached to the service and stores nothing
      but, at a completion, the object of all the bytes given to the writer
      and, after it, their digest ([transfers_step_sound]), so no object is
      ever a part of an upload ([no_torn_object]); a reader among writers
      of other objects reads what it would read alone
      ([reader_among_writers]), and a reader whose object is replaced
      while it reads is warned by [Close] when the check is on and the
      object had a digest ([reader_warned]).  Two writers of one key leave
      objects that are whole but may not belong together
      ([crossed_digest]).
    - [Client]: a statement opens at most one transfer and stores no
      object ([statement_opens]); in every state of every program every
      object of the service is one it had at the start, or the whole of the
      bytes given to a writer that has completed, or their digest
      ([program_objects_whole]); and an upload whose answer was lost stays
      open at the service whatever the program does ([lost_answer_leaks]).
    - [System]: with calls from several goroutines, statement by
      statement, and transfers that step in between, the heap stays well
      formed, the uploads attached and the objects whole
      ([system_objects_whole]), and every call is returned a transfer of
      its own ([system_owned]).
    - [Atomic]: a refinement.  Every step of a transfer is one operation
      of the abstract store or none, so the buckets and headers a run
      leaves are those of the store after the linearization of the run
      ([transfers_step_refines], [uploads_linearizable]); no operation
      occurs twice in a linearization, and a writer has its [Put] in it
      exactly when it has completed.  The same holds for programs
      ([program_refines_store]) and for goroutines
      ([system_refines_store]), whose statements store nothing.  The
      three are instances of one forward simulation over [run_steps]
      ([run_steps_simulation], in this file).  On the side of the store,
      the last [Put] for a key wins ([last_put_wins]), hence the writer
      that completes last ([last_writer_wins]); and a download whose run
      shows no operation for its key reads one object, also while
      writers of that key send their parts ([reader_between_puts]).
    - [Progress]: an upload that has not ended can always take the next
      step of the scheduler and comes closer to its end with it, so it
      can be ended from every state ([upload_can_end]), also among the
      other transfers of a program, whatever they have done
      ([writer_can_end]); with a concurrency of zero it is stuck
      ([upload_stuck]).  A download comes to the end of its stream or to
      its error from every state, whatever the server answers
      ([download_can_end]), also among the other transfers
      ([reader_can_end]).
    The theorems of [Facade], [Session] and [Concurrent] hold for every
    engine that satisfies [EngineFrame] and every parser; those of
    [Interleaved], [Client], [System], [Atomic] and [Progress] for every
    digest function, tagging of the parts and network, and for the
    configurations with [PartSize > 0] ([sized]), the only ones an upload
    is defined for.

    Bounds and fuel.  Go's [int64] is [Z] with the range predicate
    [int64_range]; [int] is [Z] with [int_range], at the 64 bits
    ([int_bits]) of the platforms the client is built for.  The defaults
    are in range
    ([defaults_in_range]), and the offsets of the part plan stay in range
    when the object's length does ([part_in_range]).  Allocation always
    finds a fresh address ([alloc_total]), the stores being finite maps
    over the positive numbers.  Two definitions recurse on a counter.
    [attempt_part] recurses on the attempts left, which is the policy
    itself; that a part is answered within them is the hypothesis
    [gets_through] of the theorems on transfers that finish.  [drain]
    takes fuel: [arrive] gives it one more than the number of parts in the
    reorder buffer, and since every delivery removes a part from the
    buffer this is enough for [drain] to stop because the next part is
    missing ([drain_drained]), never because the fuel ran out.  [solo]
    runs a call for a number of statements; five are enough, a call having
    five statements ([solo_entry_point], and [interleaved_bounded] under a
    schedule).  [schedule] takes as many steps as it is given fuel;
    [finish] gives it the [distance] of the upload, twice the bytes
    pending plus the parts uploading plus three, which is enough because
    every step of the scheduler lowers the distance by one at least
    ([next_closer]) and an upload at distance zero has ended.  In the
    same way [read_out] gives [approach] the weight [remaining] of the
    download: four for a part not started, three for a part in flight,
    two for a part in the reorder buffer and one for a part in the
    queue, so that every step lowers it ([advance_closer]).
    [Sprintf] is [None] on a format outside its fragment, and the format of
    the source is inside it ([Url_format_Sprintf]).  Decimal numbers on the
    wire are unbounded ([dec], [undec]); the offsets printed are those of
    the part plan.

    Assumptions.  Where the design leaves a choice open the development
    names the one it takes.  [NTry] counts the attempts on a part, the
    first included, as the comment of the field says; the design's
    wording of a first attempt followed by [NTry] retries is one request
    more.  The first request of a transfer (the HEAD of a download, the
    request that opens a multipart upload) is made once, the retry policy
    being stated for parts.  The request that completes an upload is
    taken to arrive; the request to abort may be lost.  The part size is
    [PartSize] for every part.  A call of a constructor of the engine is
    one step of the calling goroutine.  The object a URL addresses is
    named by the path of the URL ([url_key]), the bucket by its host.
    The unit [mb] of the default part size, declared outside [src/], is
    [2^20].  The frame [EngineFrame] is a hypothesis of the theorems of
    [Facade], [Session] and [Concurrent], taken from the design's
    description of the constructors; [Transfer] proves it of the engine
    modelled here.

    Not modelled: the signing algorithm (the interface [Signer] states
    what the transfers need of it), connections and time-outs of the HTTP
    transport.  Go's [net/url] and [fmt] are libraries the source calls:
    [go_url] and [Sprintf] are executable models of the calls made, not
    verified against the libraries.  Of the wire, the requests that initiate, complete and
    abort an upload and the first request of a download are operations of
    [Service] without a message format: their bodies are XML documents the
    design does not describe.  Concurrency is interleaving of atomic
    steps over one memory; the memory model of Go below the statement is
    not modelled, and the requests of two transfers that overlap in time
    reach the service in some order, each whole.  A blocking call is an
    operation that is not enabled; time, cancellation grace periods, the
    digest function itself and the command-line front end [gof3r] are
    outside the model.  The abstract store of [Atomic] has no operation
    for a download: a download is several requests, and the bytes it
    reads need not be those of one state of the store ([reader_warned]).
    Everything of [src/s3gof3r.go] that is code is modelled; the lines
    the development does not translate are the package clause, the
    imports, comments and blank lines. *)

From Stdlib Require Import ZArith String Ascii List Lia.
From stdpp Require Import base tactics option list gmap strings numbers.

Declare Scope go_scope.
Delimit Scope go_scope with go.

Create HintDb go discriminated.
Create Rewrite HintDb go.

(** ** Outcomes of Go code *)

(** A Go [error] value; [option GoError] is an [error] that may be nil. *)
Record GoError := mkError { error_msg : string }.

(** What a panic carries: the runtime's nil-pointer error, or the value a
    [panic(err)] statement was given. *)
Inductive panic_value :=
| NilDereference
| PanicValue (e : GoError).

(** [Fault] is not a behaviour of Go: it marks a dereference of an address
    that no object occupies.  The heap invariant excludes it. *)
Inductive outcome (A : Type) : Type :=
| Ret (a : A)
| Panic (v : panic_value)
| Fault.
Arguments Ret {A} a.
Arguments Panic {A} v.
Arguments Fault {A}.

#[export] Instance GoError_eq_dec : EqDecision GoError.
Proof. solve_decision. Defined.

#[export] Instance panic_value_eq_dec : EqDecision panic_value.
Proof. solve_decision. Defined.

#[export] Instance outcome_eq_dec `{EqDecision A} : EqDecision (outcome A).
Proof. solve_decision. Defined.

Definition is_Ret {A} (o : outcome A) : bool :=
  match o with Ret _ => true | _ => false end.

Definition outcome_map {A B} (f : A → B) (o : outcome A) : outcome B :=
  match o with
  | Ret a => Ret (f a)
  | Panic v => Panic v
  | Fault => Fault
  end.

(** ** The state-and-panic monad *)

(** A computation over a state [S]: it always returns the state it leaves,
    also when it panics. *)
Definition Go (S A : Type) : Type := S → outcome A * S.

Definition ret {S A} (a : A) : Go S A := λ s, (Ret a, s).

Definition bind {S A B} (m : Go S A) (k : A → Go S B) : Go S B :=
  λ s, match m s with
       | (Ret a, s') => k a s'
       | (Panic v, s') => (Panic v, s')
       | (Fault, s') => (Fault, s')
       end.

Definition panic {S A} (v : panic_value) : Go S A := λ s, (Panic v, s).

Definition fault {S A} : Go S A := λ s, (Fault, s).

Definition get {S} : Go S S := λ s, (Ret s, s).

Definition gets {S A} (f : S → A) : Go S A := λ s, (Ret (f s), s).

(** A computation run for its effect: the result is dropped. *)
Definition forget {S A} (m : Go S A) : Go S unit :=
  λ s, (outcome_map (λ _, tt) (m s).1, (m s).2).

Notation "x <- m ;; k" := (bind m (λ x, k))
  (at level 100, m at next level, right associativity) : go_scope.
Notation "m ;;; k" := (bind m (λ _, k))
  (at level 100, right associativity) : go_scope.

Open Scope go_scope.

Section monad_laws.
Context {S A B C : Type}.
Implicit Types (m : Go S A) (k : A → Go S B) (h : B → Go S C) (s : S).

Lemma bind_ret_l (a : A) k s : bind (ret a) k s = k a s.
Proof. done. Qed.

Lemma bind_ret_r m s : bind m ret s = m s.
Proof. unfold bind, ret. by destruct (m s) as [[] ?]. Qed.

Lemma bind_assoc m k h s :
  bind (bind m k) h s = bind m (λ a, bind (k a) h) s.
Proof. unfold bind. by destruct (m s) as [[] ?]. Qed.

Lemma bind_panic_l v k s : bind (panic v) k s = (Panic v, s).
Proof. done. Qed.

Lemma bind_fault_l k s : bind fault k s = (Fault, s).
Proof. done. Qed.

(** Two continuations that agree where the first half returns give the
    same bind. *)
Lemma bind_ext m k k' s :
  (∀ a s1, m s = (Ret a, s1) → k a s1 = k' a s1) → bind m k s = bind m k' s.
Proof. unfold bind. destruct (m s) as [[a|v|] s1]; auto. Qed.

(** What the first half leaves of the state and the second half keeps is
    left by the bind. *)
Lemma bind_keeps (I : S → Prop) m k s :
  I (m s).2 → (∀ a s1, m s = (Ret a, s1) → I s1 → I (k a s1).2) →
  I (bind m k s).2.
Proof. unfold bind. destruct (m s) as [[a|v|] s1]; simpl; eauto. Qed.

(** Dropping the result keeps the kind of outcome. *)
Lemma forget_Fault m s : (forget m s).1 = Fault ↔ (m s).1 = Fault.
Proof. unfold forget. simpl. by destruct (m s).1. Qed.

End monad_laws.

#[export] Hint Rewrite @bind_ret_l @bind_panic_l @bind_fault_l : go.

(** ** Machine integers *)

Local Open Scope Z_scope.

(** Go's [int64]. *)
Definition int64_range (z : Z) : Prop := - 2 ^ 63 ≤ z < 2 ^ 63.
#[export] Instance int64_range_dec z : Decision (int64_range z).
Proof. unfold int64_range. apply _. Defined.

(** Go's [int] has the size of a machine word: 64 bits on the amd64 and
    arm64 ports, which the development takes, 32 bits on the 32-bit
    ports. *)
Definition int_bits : Z := 64.
Definition int_range (z : Z) : Prop :=
  - 2 ^ (int_bits - 1) ≤ z < 2 ^ (int_bits - 1).
#[export] Instance int_range_dec z : Decision (int_range z).
Proof. unfold int_range. apply _. Defined.

Local Close Scope Z_scope.

(** ** Strings *)

(** [str_mem c s]: the byte [c] occurs in [s]. *)
Fixpoint str_mem (c : ascii) (s : string) : bool :=
  match s with
  | EmptyString => false
  | String d s' => if decide (c = d) then true else str_mem c s'
  end.

Fixpoint str_drop (n : nat) (s : string) : string :=
  match n, s with
  | O, _ => s
  | Datatypes.S n', String _ s' => str_drop n' s'
  | Datatypes.S _, EmptyString => EmptyString
  end.

(** Go's [strings.Cut]: the text before and after the first [sep]. *)
Fixpoint str_cut (sep s : string) : option (string * string) :=
  if String.prefix sep s then Some (EmptyString, str_drop (String.length sep) s)
  else match s with
       | EmptyString => None
       | String c s' =>
           match str_cut sep s' with
           | Some (a, b) => Some (String c a, b)
           | None => None
           end
       end.

Section strings.
Implicit Types (a b s sep : string) (c d : ascii).

Lemma str_app_cons c a b : String c a +:+ b = String c (a +:+ b).
Proof. done. Qed.

Lemma str_app_nil_r s : s +:+ "" = s.
Proof. induction s; rewrite ?str_app_cons; [done | congruence]. Qed.

Lemma str_app_assoc a b s : (a +:+ b) +:+ s = a +:+ b +:+ s.
Proof. induction a; rewrite ?str_app_cons; [done | congruence]. Qed.

Lemma str_length_app a b :
  String.length (a +:+ b) = String.length a + String.length b.
Proof. induction a; rewrite ?str_app_cons; simpl; [done | congruence]. Qed.

Lemma str_mem_app c a b : str_mem c (a +:+ b) = str_mem c a || str_mem c b.
Proof.
  induction a; rewrite ?str_app_cons; simpl; [done|]. by case_decide.
Qed.

Lemma str_prefix_app sep b : String.prefix sep (sep +:+ b) = true.
Proof.
  induction sep as [|c sep IH]; rewrite ?str_app_cons; simpl; [by destruct b|].
  by destruct (ascii_dec c c).
Qed.

Lemma str_drop_app sep b : str_drop (String.length sep) (sep +:+ b) = b.
Proof. induction sep; rewrite ?str_app_cons; simpl; [done | congruence]. Qed.

(** A separator cannot start where its first byte does not occur. *)
Lemma str_prefix_head_ne d sep c s :
  d ≠ c → String.prefix (String d sep) (String c s) = false.
Proof. intros ?. simpl. by destruct (ascii_dec d c). Qed.

(** [str_cut] finds the separator that follows a text free of the
    separator's first byte. *)
Lemma str_cut_app d sep a b :
  str_mem d a = false →
  str_cut (String d sep) (a +:+ String d sep +:+ b) = Some (a, b).
Proof.
  induction a as [|c a IH]; intros Hmem.
  - change ("" +:+ String d sep +:+ b) with (String d sep +:+ b).
    pose proof (str_prefix_app (String d sep) b) as Hp.
    pose proof (str_drop_app (String d sep) b) as Hd.
    rewrite str_app_cons in Hp, Hd |- *. cbn [str_cut]. by rewrite Hp, Hd.
  - simpl in Hmem. case_decide; [done|].
    rewrite str_app_cons. cbn [str_cut].
    rewrite str_prefix_head_ne by done. by rewrite IH.
Qed.

(** Where the first byte of the separator does not occur there is nothing
    to cut. *)
Lemma str_cut_None d sep s :
  str_mem d s = false → str_cut (String d sep) s = None.
Proof.
  induction s as [|c s IH]; [done|]. simpl. case_decide; [done|]. intros Hs.
  destruct (ascii_dec d c); [done|]. fold str_cut. by rewrite IH.
Qed.

End strings.

#[export] Hint Rewrite str_app_nil_r str_app_assoc str_length_app
  str_mem_app : go.

(** ** Byte slices *)

(** [[]byte]; [slice data off len] is Go's [data[off : off+len]] for an
    offset and a length within the data (Go panics outside; [slice] returns
    what is there). *)
Abbreviation bytes := (list Byte.byte).

#[export] Instance byte_eq_dec : EqDecision Byte.byte := Byte.byte_eq_dec.

Definition slice {A} (data : list A) (off len : Z) : list A :=
  take (Z.to_nat len) (drop (Z.to_nat off) data).

Section slices.
Context {A : Type}.
Implicit Types (data : list A) (off len : Z).

Lemma slice_length data off len :
  (0 ≤ off)%Z → (0 ≤ len)%Z → (off + len ≤ Z.of_nat (length data))%Z →
  Z.of_nat (length (slice data off len)) = len.
Proof. intros. unfold slice. rewrite length_take, length_drop. lia. Qed.

Lemma take_slice data off len :
  (0 ≤ off)%Z → (0 ≤ len)%Z →
  take (Z.to_nat off) data ++ slice data off len
  = take (Z.to_nat (off + len)) data.
Proof.
  intros. unfold slice. rewrite take_take_drop. f_equal. lia.
Qed.

End slices.

(** The sum of a list of integers. *)
Definition sumZ (l : list Z) : Z := foldr Z.add 0%Z l.

Lemma sumZ_app l k : sumZ (l ++ k) = (sumZ l + sumZ k)%Z.
Proof. induction l as [|x l IH]; simpl; [done|]. rewrite IH. lia. Qed.

(** ** Sizes of finite sets *)

Lemma size_add_fresh (X : gset nat) i :
  i ∉ X → size ({[i]} ∪ X) = S (size X).
Proof.
  intros. rewrite size_union, size_singleton by set_solver. done.
Qed.

Lemma size_remove (X : gset nat) i :
  i ∈ X → S (size (X ∖ {[i]})) = size X.
Proof.
  intros Hi. rewrite size_difference, size_singleton by set_solver.
  assert (size X ≠ 0%nat); [|lia].
  apply size_non_empty_iff. set_solver.
Qed.

Lemma map_size_delete_S `{Countable K} {A} (m : gmap K A) i x :
  m !! i = Some x → S (size (delete i m)) = size m.
Proof.
  intros Hi. rewrite map_size_delete, Hi.
  assert (size m ≠ 0%nat); [|lia]. apply map_size_ne_0_lookup. eauto.
Qed.

(** ** Runs of a step function *)

(** A system whose steps are named by events: [step ev s] is the state
    after the event, or [None] when the event is not enabled in [s].  A run
    executes a list of events as long as each is enabled. *)
Section runs.
Context {S E : Type} (step : E → S → option S).

Fixpoint run_steps (evs : list E) (s : S) : option S :=
  match evs with
  | [] => Some s
  | ev :: evs => s' ← step ev s; run_steps evs s'
  end.

Lemma run_steps_cons ev evs s :
  run_steps (ev :: evs) s = step ev s ≫= run_steps evs.
Proof. done. Qed.

Lemma run_steps_app evs1 evs2 s :
  run_steps (evs1 ++ evs2) s = run_steps evs1 s ≫= run_steps evs2.
Proof.
  revert s. induction evs1 as [|ev evs IH]; intros s; simpl; [done|].
  destruct (step ev s); simpl; [apply IH|done].
Qed.

(** An invariant of the steps is an invariant of the runs. *)
Lemma run_steps_invariant (P : S → Prop) evs s s' :
  (∀ ev s s', P s → step ev s = Some s' → P s') →
  P s → run_steps evs s = Some s' → P s'.
Proof.
  intros Hstep. revert s. induction evs as [|ev evs IH]; intros s Hs; simpl.
  - by intros [= <-].
  - destruct (step ev s) as [s1|] eqn:H1; [|done]. simpl. eauto.
Qed.

(** And for the runs whose events are all of one kind. *)
Lemma run_steps_invariant_on (Q : E → Prop) (P : S → Prop) evs s s' :
  (∀ ev s s', Q ev → P s → step ev s = Some s' → P s') →
  Forall Q evs → P s → run_steps evs s = Some s' → P s'.
Proof.
  intros Hstep Hall. revert s. induction Hall as [|ev evs Hev _ IH]; intros s Hs; simpl.
  - by intros [= <-].
  - destruct (step ev s) as [s1|] eqn:H1; [|done]. simpl. eauto.
Qed.

(** *** What a run shows, and simulations *)

Section trace.
Context {L : Type} (label : E → S → list L).

(** The labels of a run: those of each step, given the state the step
    leads to, in the order of the run. *)
Fixpoint run_trace (evs : list E) (s : S) : list L :=
  match evs with
  | [] => []
  | ev :: evs =>
      match step ev s with
      | Some s' => label ev s' ++ run_trace evs s'
      | None => []
      end
  end.

Lemma run_trace_cons ev evs s :
  run_trace (ev :: evs) s
  = match step ev s with
    | Some s' => label ev s' ++ run_trace evs s'
    | None => []
    end.
Proof. done. Qed.

Context {A : Type} (astep : A → L → A) (abs : S → A) (R : relation A).
Context `{!Equivalence R} `{!∀ l, Proper (R ==> R) (λ a, astep a l)}.

Lemma foldl_proper ls : Proper (R ==> R) (λ a, foldl astep a ls).
Proof.
  induction ls as [|l ls IH]; intros a a' Ha; [done|]. simpl.
  by apply IH, (_ : Proper (R ==> R) (λ a, astep a l)).
Qed.

(** A forward simulation.  When every step of the system, taken from a
    state of the invariant, keeps the invariant and is matched by the
    abstract steps of its labels, a run is matched by the abstract steps
    of its trace. *)
Lemma run_steps_simulation (Q : E → Prop) (I : S → Prop) evs s s' :
  (∀ ev s s', Q ev → I s → step ev s = Some s' →
              I s' ∧ R (abs s') (foldl astep (abs s) (label ev s'))) →
  Forall Q evs → I s → run_steps evs s = Some s' →
  R (abs s') (foldl astep (abs s) (run_trace evs s)).
Proof.
  intros Hstep Hall. revert s.
  induction Hall as [|ev evs Hev _ IH]; intros s Hs.
  - by intros [= <-].
  - rewrite run_steps_cons, run_trace_cons.
    destruct (step ev s) as [s1|] eqn:H1; [|done]. simpl. intros Hrun.
    destruct (Hstep ev s s1 Hev Hs H1) as [Hs1 Hsim].
    rewrite foldl_app, (IH s1 Hs1 Hrun). by apply foldl_proper.
Qed.

End trace.

End runs.
