(* ===== verification/GoRuntime.v ===== *)
(** * GoRuntime: pointers and object stores

    Go's pointers are nilable addresses.  Every object a pointer can reach is
    a cell of a store, a finite map from addresses to values of one type, and
    the stores are fields of the program state.  A [Store] instance names one
    such field by its getter and setter, with the lens laws; [load], [store]
    and [alloc] are the three memory operations of the modelled code:

    - [load p] is the dereference [*p]: it panics on nil;
    - [store p v] is the assignment [*p = v]: it panics on nil;
    - [alloc v] is [&T{...}] (or [new]): a fresh cell, never nil.

    An address outside the store is a [Fault]: Go's garbage collector keeps
    every reachable object alive, so no execution of Go dereferences one, and
    the theorems of [Facade] show that the model does not either. *)

From Stdlib Require Import ZArith String.
From stdpp Require Import base tactics option gmap.
From S2P Require Import Prelude.

Definition addr := positive.

(** A Go pointer: [None] is nil. *)
Definition ptr := option addr.

Definition is_nil (p : ptr) : bool :=
  match p with None => true | Some _ => false end.

(** A field of the state [S] that holds the objects of type [T]. *)
Class Store (S T : Type) := {
  sel : S → gmap addr T;
  upd : gmap addr T → S → S;
  sel_upd m s : sel (upd m s) = m;
  upd_sel s : upd (sel s) s = s;
  upd_upd m m' s : upd m (upd m' s) = upd m s;
}.
Arguments sel {S T} _ s : rename.
Arguments upd {S T} _ m s : rename.

Section memory.
Context {S T : Type} (L : Store S T).
Implicit Types (s : S) (p : ptr) (a : addr) (v : T).

(** [*p] *)
Definition load (p : ptr) : Go S T :=
  λ s, match p with
       | None => (Panic NilDereference, s)
       | Some a =>
           match sel L s !! a with
           | Some v => (Ret v, s)
           | None => (Fault, s)
           end
       end.

(** [*p = v] *)
Definition store (p : ptr) (v : T) : Go S unit :=
  λ s, match p with
       | None => (Panic NilDereference, s)
       | Some a =>
           match sel L s !! a with
           | Some _ => (Ret tt, upd L (<[a := v]> (sel L s)) s)
           | None => (Fault, s)
           end
       end.

(** [p.f = x], with [g] the change to the object: the object is read when
    the assignment happens. *)
Definition update (p : ptr) (g : T → T) : Go S unit :=
  λ s, match p with
       | None => (Panic NilDereference, s)
       | Some a =>
           match sel L s !! a with
           | Some v => (Ret tt, upd L (<[a := g v]> (sel L s)) s)
           | None => (Fault, s)
           end
       end.

(** [&T{...}]: the address is one no object of the store occupies. *)
Definition alloc (v : T) : Go S ptr :=
  λ s, let a := fresh (dom (sel L s)) in
       (Ret (Some a), upd L (<[a := v]> (sel L s)) s).

(** [p] is nil or points to an object of the store. *)
Definition valid (s : S) (p : ptr) : Prop :=
  match p with
  | None => True
  | Some a => is_Some (sel L s !! a)
  end.

#[export] Instance valid_dec s p : Decision (valid s p).
Proof. destruct p; simpl; apply _. Defined.

Lemma load_nil s : load None s = (Panic NilDereference, s).
Proof. done. Qed.

Lemma load_Some a v s : sel L s !! a = Some v → load (Some a) s = (Ret v, s).
Proof. unfold load. by intros ->. Qed.

(** A dereference never writes. *)
Lemma load_state p s : (load p s).2 = s.
Proof. unfold load. by repeat case_match. Qed.

Lemma load_Ret_inv p s v s' :
  load p s = (Ret v, s') → ∃ a, p = Some a ∧ sel L s !! a = Some v ∧ s' = s.
Proof. unfold load. intros. repeat case_match; simplify_eq. eauto. Qed.

(** A dereference followed by more code: the three ways it can go. *)
Lemma bind_load {B} p (k : T → Go S B) s :
  bind (load p) k s =
  match p with
  | None => (Panic NilDereference, s)
  | Some a =>
      match sel L s !! a with
      | Some v => k v s
      | None => (Fault, s)
      end
  end.
Proof. unfold bind, load. destruct p as [a|]; [|done]. by destruct (sel L s !! a). Qed.

(** Code that starts with a dereference leaves the state when what follows
    does. *)
Lemma bind_load_state {B} p (k : T → Go S B) s :
  (∀ v, (k v s).2 = s) → (bind (load p) k s).2 = s.
Proof. intros Hk. rewrite bind_load. by repeat case_match. Qed.

(** Under [valid], a dereference panics exactly on nil and never faults. *)
Lemma load_valid p s :
  valid s p →
  match p with
  | None => load p s = (Panic NilDereference, s)
  | Some a => ∃ v, sel L s !! a = Some v ∧ load p s = (Ret v, s)
  end.
Proof.
  destruct p as [a|]; simpl; [|done]. intros [v Hv].
  exists v. by rewrite Hv.
Qed.

Lemma store_nil v s : store None v s = (Panic NilDereference, s).
Proof. done. Qed.

Lemma store_Some a v s :
  is_Some (sel L s !! a) →
  store (Some a) v s = (Ret tt, upd L (<[a := v]> (sel L s)) s).
Proof. unfold store. by intros [? ->]. Qed.

(** Reading back what was written. *)
Lemma load_store a v s s' :
  store (Some a) v s = (Ret tt, s') → load (Some a) s' = (Ret v, s').
Proof.
  unfold store, load. case_match; [|done]. intros [= <-].
  by rewrite sel_upd, lookup_insert_eq.
Qed.

(** A write leaves the other cells alone, and the set of cells as it was. *)
Lemma store_other a b v s s' :
  store (Some a) v s = (Ret tt, s') → a ≠ b →
  sel L s' !! b = sel L s !! b.
Proof.
  unfold store. case_match; [|done]. intros [= <-] ?.
  by rewrite sel_upd, lookup_insert_ne.
Qed.

Lemma store_dom a v s s' :
  store (Some a) v s = (Ret tt, s') → dom (sel L s') = dom (sel L s).
Proof.
  unfold store. case_match eqn:Ha; [|done]. intros [= <-].
  rewrite sel_upd, dom_insert_L.
  apply (elem_of_dom_2 (D := gset addr)) in Ha.
  apply (anti_symm (⊆)); [|apply union_subseteq_r].
  apply union_least; [by apply singleton_subseteq_l | done].
Qed.

(** Allocation returns a pointer that is not nil, to a cell that was free,
    and changes no cell that was occupied. *)
Lemma alloc_spec v s :
  ∃ a, alloc v s = (Ret (Some a), upd L (<[a := v]> (sel L s)) s)
       ∧ sel L s !! a = None.
Proof.
  exists (fresh (dom (sel L s))). split; [done|].
  apply (not_elem_of_dom (D := gset addr)), is_fresh.
Qed.

Lemma alloc_Ret_inv v s p s' :
  alloc v s = (Ret p, s') →
  ∃ a, p = Some a ∧ sel L s !! a = None ∧ sel L s' = <[a := v]> (sel L s).
Proof.
  destruct (alloc_spec v s) as (a & -> & Hfree). intros [= <- <-].
  exists a. by rewrite sel_upd.
Qed.

(** An allocation followed by more code. *)
Lemma bind_alloc {B} v (k : ptr → Go S B) s :
  bind (alloc v) k s =
  let a := fresh (dom (sel L s)) in
  k (Some a) (upd L (<[a := v]> (sel L s)) s).
Proof. done. Qed.

(** A write followed by more code. *)
Lemma bind_store {B} p v (k : unit → Go S B) s :
  bind (store p v) k s =
  match p with
  | None => (Panic NilDereference, s)
  | Some a =>
      match sel L s !! a with
      | Some _ => k tt (upd L (<[a := v]> (sel L s)) s)
      | None => (Fault, s)
      end
  end.
Proof. unfold bind, store. destruct p as [a|]; [|done]. by destruct (sel L s !! a). Qed.

(** A field assignment followed by more code. *)
Lemma bind_update {B} p g (k : unit → Go S B) s :
  bind (update p g) k s =
  match p with
  | None => (Panic NilDereference, s)
  | Some a =>
      match sel L s !! a with
      | Some v => k tt (upd L (<[a := g v]> (sel L s)) s)
      | None => (Fault, s)
      end
  end.
Proof. unfold bind, update. destruct p as [a|]; [|done]. by destruct (sel L s !! a). Qed.

(** A field assignment is the write of the changed object. *)
Lemma update_store a g v s :
  sel L s !! a = Some v → update (Some a) g s = store (Some a) (g v) s.
Proof. unfold update, store. by intros ->. Qed.

Lemma alloc_total v s : is_Ret (alloc v s).1 = true.
Proof. done. Qed.

Lemma load_alloc v s p s' :
  alloc v s = (Ret p, s') → load p s' = (Ret v, s').
Proof.
  intros (a & -> & _ & Hs')%alloc_Ret_inv. apply load_Some.
  by rewrite Hs', lookup_insert_eq.
Qed.

(** Pointers that were valid stay valid across an allocation. *)
Lemma alloc_valid_mono v s p s' q :
  alloc v s = (Ret p, s') → valid s q → valid s' q.
Proof.
  intros (a & -> & Hfree & Hs')%alloc_Ret_inv. destruct q as [b|]; simpl; [|done].
  rewrite Hs'. intros [w Hw]. destruct (decide (a = b)) as [->|]; [congruence|].
  rewrite lookup_insert_ne by done. eauto.
Qed.

Lemma alloc_valid v s p s' : alloc v s = (Ret p, s') → valid s' p.
Proof.
  intros (a & -> & _ & Hs')%alloc_Ret_inv. simpl.
  rewrite Hs', lookup_insert_eq. eauto.
Qed.

(** A pointer stays valid when a cell is written or added. *)
Lemma valid_insert a v s p :
  valid s p → valid (upd L (<[a := v]> (sel L s)) s) p.
Proof.
  destruct p as [b|]; simpl; [|done]. rewrite sel_upd, lookup_insert_is_Some'.
  by right.
Qed.

Lemma valid_insert_eq a v s : valid (upd L (<[a := v]> (sel L s)) s) (Some a).
Proof. simpl. by rewrite sel_upd, lookup_insert_eq. Qed.

(** Two allocations give two objects. *)
Lemma alloc_alloc_ne v w s p s' q s'' :
  alloc v s = (Ret p, s') → alloc w s' = (Ret q, s'') → p ≠ q.
Proof.
  intros (a & -> & _ & Hs')%alloc_Ret_inv (b & -> & Hb & _)%alloc_Ret_inv.
  intros [= ->]. by rewrite Hs', lookup_insert_eq in Hb.
Qed.

End memory.

#[export] Hint Resolve alloc_valid alloc_valid_mono load_alloc
  valid_insert valid_insert_eq : go.
#[export] Hint Rewrite @sel_upd @upd_sel @upd_upd : go.
