(* ===== verification/Types.v ===== *)
(** * Types: the data model of [src/s3gof3r.go]

    The struct types of the package ([Keys], [S3], [Bucket], [Config]), its
    constants and package variables, and the program [state]: one store per
    struct type that the code reaches through a pointer, the two package
    variables [DefaultConfig] and [DefaultDomain], and the state [E] of the
    transfer engine, which this file leaves abstract.

    An embedded field of a Go struct is named after its type; where that
    name is taken by the type itself the field carries the struct's name as
    a prefix ([S3_Keys], [Bucket_S3]).  [Config]'s embedded [*http.Client] is
    the field [Client], as the code writes it ([c.Client]).

    Two invariants of the heap are defined here, each decidable:
    [heap_ok], every stored pointer is nil or points to an object, and
    [heap_typed], the integer fields of every configuration and the
    time-out of every client are within their Go types. *)

From Stdlib Require Import ZArith String.
From stdpp Require Import base tactics option gmap strings.
From S2P Require Import Prelude GoRuntime.

Local Open Scope Z_scope.

(** ** Struct types *)

(** [type Keys struct] *)
Record Keys := mkKeys {
  AccessKey : string;
  SecretKey : string;
}.

(** [type S3 struct]: the domain and, embedded by value, the keys. *)
Record S3 := mkS3 {
  Domain : string;
  S3_Keys : Keys;
}.

(** [type Bucket struct]: an embedded pointer to the account, and the name. *)
Record Bucket := mkBucket {
  Bucket_S3 : ptr;
  Name : string;
}.

(** [http.Client], as far as this package configures it: its timeout. *)
Record HttpClient := mkHttpClient {
  Timeout : Z;
}.

(** [type Config struct] *)
Record Config := mkConfig {
  Client : ptr;
  Concurrency : Z;
  PartSize : Z;
  NTry : Z;
  Md5Check : bool;
  Scheme : string;
}.

#[export] Instance Keys_eq_dec : EqDecision Keys.
Proof. solve_decision. Defined.
#[export] Instance S3_eq_dec : EqDecision S3.
Proof. solve_decision. Defined.
#[export] Instance Bucket_eq_dec : EqDecision Bucket.
Proof. solve_decision. Defined.
#[export] Instance HttpClient_eq_dec : EqDecision HttpClient.
Proof. solve_decision. Defined.
#[export] Instance Config_eq_dec : EqDecision Config.
Proof. solve_decision. Defined.

(** The fields Go promotes from the embedded structs. *)
Definition S3_AccessKey (s : S3) : string := AccessKey (S3_Keys s).
Definition S3_SecretKey (s : S3) : string := SecretKey (S3_Keys s).

(** [c.Client = p] on a [Config] value. *)
Definition set_Client (p : ptr) (c : Config) : Config :=
  {| Client := p; Concurrency := Concurrency c; PartSize := PartSize c;
     NTry := NTry c; Md5Check := Md5Check c; Scheme := Scheme c |}.

(** [s3.Domain = d] on an [S3] value. *)
Definition set_Domain (d : string) (a : S3) : S3 :=
  {| Domain := d; S3_Keys := S3_Keys a |}.

(** ** Constants and the initial values of the package variables *)

(** One mebibyte, the unit of [PartSize]. *)
Definition mb : Z := 1024 * 1024.

(** [time.Second], in nanoseconds, the unit of [time.Duration]. *)
Definition time_Second : Z := 1000000000.

(** [const clientTimeout = 5 * time.Second] *)
Definition clientTimeout : Z := 5 * time_Second.

(** The struct literal [DefaultConfig] is initialised with; the field the
    literal leaves out, [Client], has its zero value, nil. *)
Definition DefaultConfig_value : Config :=
  {| Client := None;
     Concurrency := 10;
     PartSize := 20 * mb;
     NTry := 10;
     Md5Check := true;
     Scheme := "https" |}.

(** The string [DefaultDomain] is initialised with. *)
Definition DefaultDomain_value : string := "s3.amazonaws.com".

(** ** Program state *)

(** The objects of each struct type, the package variables, and the state of
    the transfer engine. *)
Record state {E : Type} := mkState {
  s3s : gmap addr S3;
  buckets : gmap addr Bucket;
  configs : gmap addr Config;
  clients : gmap addr HttpClient;
  DefaultConfig : ptr;
  DefaultDomain : string;
  engine : E;
}.
Arguments state : clear implicits.
Arguments mkState {E}.

Section state.
Context {E : Type}.
Implicit Types (s : state E).

Definition with_s3s (m : gmap addr S3) s : state E :=
  mkState m (buckets s) (configs s) (clients s)
    (DefaultConfig s) (DefaultDomain s) (engine s).

Definition with_buckets (m : gmap addr Bucket) s : state E :=
  mkState (s3s s) m (configs s) (clients s)
    (DefaultConfig s) (DefaultDomain s) (engine s).

Definition with_configs (m : gmap addr Config) s : state E :=
  mkState (s3s s) (buckets s) m (clients s)
    (DefaultConfig s) (DefaultDomain s) (engine s).

Definition with_clients (m : gmap addr HttpClient) s : state E :=
  mkState (s3s s) (buckets s) (configs s) m
    (DefaultConfig s) (DefaultDomain s) (engine s).

Definition with_engine (e : E) s : state E :=
  mkState (s3s s) (buckets s) (configs s) (clients s)
    (DefaultConfig s) (DefaultDomain s) e.

(** Assignments to the package variables. *)
Definition with_DefaultConfig (c : ptr) s : state E :=
  mkState (s3s s) (buckets s) (configs s) (clients s)
    c (DefaultDomain s) (engine s).

Definition with_DefaultDomain (domain : string) s : state E :=
  mkState (s3s s) (buckets s) (configs s) (clients s)
    (DefaultConfig s) domain (engine s).

#[export] Instance S3s : Store (state E) S3.
Proof. by refine {| sel := s3s; upd := with_s3s |}; intros; try destruct s. Defined.

#[export] Instance Buckets : Store (state E) Bucket.
Proof. by refine {| sel := buckets; upd := with_buckets |}; intros; try destruct s. Defined.

#[export] Instance Configs : Store (state E) Config.
Proof. by refine {| sel := configs; upd := with_configs |}; intros; try destruct s. Defined.

#[export] Instance Clients : Store (state E) HttpClient.
Proof. by refine {| sel := clients; upd := with_clients |}; intros; try destruct s. Defined.

(** The state after package initialisation: [DefaultConfig] points to the
    one [Config] object there is, and no account or bucket exists yet. *)
Definition init_state (e : E) : state E :=
  {| s3s := ∅; buckets := ∅;
     configs := {[ 1%positive := DefaultConfig_value ]};
     clients := ∅;
     DefaultConfig := Some 1%positive;
     DefaultDomain := DefaultDomain_value;
     engine := e |}.

(** ** The heap invariant *)

(** Every pointer stored in the state is nil or points to an object: the
    variable [DefaultConfig], the account of every bucket, the client of
    every configuration. *)
Record heap_ok s : Prop := {
  ok_DefaultConfig : valid Configs s (DefaultConfig s);
  ok_buckets : map_Forall (λ _ b, valid S3s s (Bucket_S3 b)) (buckets s);
  ok_configs : map_Forall (λ _ c, valid Clients s (Client c)) (configs s);
}.

#[export] Instance heap_ok_dec s : Decision (heap_ok s).
Proof.
  refine (cast_if (decide
    (valid Configs s (DefaultConfig s)
     ∧ map_Forall (λ _ b, valid S3s s (Bucket_S3 b)) (buckets s)
     ∧ map_Forall (λ _ c, valid Clients s (Client c)) (configs s))));
    abstract (first [by destruct_and?; split | by intros []; tauto]).
Defined.

(** Two states agree on everything but the engine's part. *)
Definition same_heap s s' : Prop :=
  s3s s' = s3s s ∧ buckets s' = buckets s ∧ configs s' = configs s ∧
  clients s' = clients s ∧ DefaultConfig s' = DefaultConfig s ∧
  DefaultDomain s' = DefaultDomain s.

#[export] Instance same_heap_equiv : Equivalence same_heap.
Proof.
  unfold same_heap. split.
  - by intros s.
  - intros s s' (?&?&?&?&?&?). by repeat split.
  - intros s1 s2 s3 (?&?&?&?&?&?) (?&?&?&?&?&?). repeat split; congruence.
Qed.

Lemma heap_ok_same_heap s s' : same_heap s s' → heap_ok s → heap_ok s'.
Proof.
  destruct s, s'. intros (?&?&?&?&?&?) [Hd Hb Hc]; simpl in *; subst.
  by split.
Qed.

#[export] Instance heap_ok_proper : Proper (same_heap ==> iff) heap_ok.
Proof.
  intros s s' Hs. split; apply heap_ok_same_heap; [done | by symmetry].
Qed.

(** ** Typed objects *)

(** The integer fields hold values of their Go types: [Concurrency] and
    [NTry] are [int], a machine word ([int_range]), [PartSize] is [int64],
    and the [Timeout] of a client is a [time.Duration], an [int64]. *)
Definition config_typed (c : Config) : Prop :=
  int_range (Concurrency c) ∧ int64_range (PartSize c) ∧ int_range (NTry c).

Definition client_typed (h : HttpClient) : Prop := int64_range (Timeout h).

#[export] Instance config_typed_dec c : Decision (config_typed c).
Proof. unfold config_typed. apply _. Defined.

#[export] Instance client_typed_dec h : Decision (client_typed h).
Proof. unfold client_typed. apply _. Defined.

(** Every object of the state is typed. *)
Record heap_typed s : Prop := {
  typed_configs : map_Forall (λ _, config_typed) (configs s);
  typed_clients : map_Forall (λ _, client_typed) (clients s);
}.

#[export] Instance heap_typed_dec s : Decision (heap_typed s).
Proof.
  refine (cast_if (decide
    (map_Forall (λ _, config_typed) (configs s)
     ∧ map_Forall (λ _, client_typed) (clients s))));
    abstract (first [by destruct_and?; split | by intros []; tauto]).
Defined.

Lemma heap_typed_same_heap s s' : same_heap s s' → heap_typed s → heap_typed s'.
Proof. intros (_ & _ & Hc & Hcl & _) []. split; by rewrite ?Hc, ?Hcl. Qed.

(** Setting the client leaves the integers of a configuration alone. *)
Lemma set_Client_typed p c : config_typed (set_Client p c) ↔ config_typed c.
Proof. done. Qed.

Lemma init_state_typed e : heap_typed (init_state e).
Proof.
  split; simpl; [|apply map_Forall_empty].
  apply map_Forall_singleton. by apply (bool_decide_unpack _).
Qed.

Lemma init_state_ok e : heap_ok (init_state e).
Proof.
  split; simpl.
  - by rewrite lookup_singleton_eq.
  - apply map_Forall_empty.
  - by apply map_Forall_singleton.
Qed.

End state.

#[export] Hint Resolve init_state_ok init_state_typed : go.

(** The defaults are values of their types, on the 32-bit ports too (the
    [int] fields hold 10), and the client time-out, a count of
    nanoseconds, needs the 64 bits of [time.Duration]. *)
Example defaults_in_range :
  int_range (Concurrency DefaultConfig_value) ∧
  int64_range (PartSize DefaultConfig_value) ∧
  int_range (NTry DefaultConfig_value) ∧
  Concurrency DefaultConfig_value < 2 ^ 31 ∧ NTry DefaultConfig_value < 2 ^ 31 ∧
  int64_range clientTimeout ∧ ¬ (clientTimeout < 2 ^ 31)%Z.
Proof. split_and!; by vm_compute. Qed.

