(* ===== verification/NetUrl.v ===== *)
(** * NetUrl: what the package needs of Go's [net/url]

    [Bucket.Url] formats a string and hands it to [url.Parse], a function of
    Go's standard library.  The development does not verify the standard
    library: [UrlParser] is the interface the package programs against, a
    function from the raw string to a [URL] or an error, and the theorems
    of [Url] and [Facade] hold for every instance of it.

    [go_url] is the instance the examples and [Url_go] run with.  It
    follows [url.Parse] step by step, as the current releases of Go
    document and implement it:

    - a control byte in the text before the fragment is an error;
    - the fragment is cut at the first hash sign and percent-decoded;
    - the text [*] is the path [*];
    - the scheme ends at the first colon, is made of letters, digits, plus,
      minus and dot, and is lower-cased ([get_scheme]);
    - the query is cut at the first question mark;
    - a rootless text after a scheme is opaque, and without a scheme a
      colon in its first segment is an error;
    - after two slashes comes the authority, up to the next slash
      ([parse_authority]): the user information is what precedes the last
      at sign (checked, decoded, split at its first colon), the host is
      what follows it ([parse_host]): a port must be digits, an address in
      brackets must be closed, and the host is percent-decoded in the mode
      of hosts, in which an escape of an ASCII byte and a byte that a host
      cannot hold are errors;
    - the path is percent-decoded, an escape that is not a percent sign and
      two hexadecimal digits being an error.

    Of the record [url.URL] the fields that [Parse] computes from the text
    alone are here; [RawPath], [RawFragment], [ForceQuery] and [OmitHost],
    which only tell [String] how to print the URL again, are not.  An error
    of [Parse] is a [*url.Error] that wraps the cause with the text; the
    model keeps the message of the cause.

    [go_url_Parse_format] is what this parser reads from a string of the
    form [scheme://host/path] whose host is made of letters, digits, minus,
    dot, underscore and tilde. *)

From Stdlib Require Import ZArith NArith String Ascii.
From stdpp Require Import base tactics option strings.
From S2P Require Import Prelude.

(** [url.Userinfo]: a user name and, when there is a colon, a password. *)
Record Userinfo := mkUserinfo {
  ui_username : string;
  ui_password : option string;
}.

#[export] Instance Userinfo_eq_dec : EqDecision Userinfo.
Proof. solve_decision. Defined.

(** [url.URL] *)
Record URL := mkURL {
  url_Scheme : string;
  url_Opaque : string;
  url_User : option Userinfo;
  url_Host : string;
  url_Path : string;
  url_RawQuery : string;
  url_Fragment : string;
}.

#[export] Instance URL_eq_dec : EqDecision URL.
Proof. solve_decision. Defined.

(** [url.Parse]: the parsed URL, or the error. *)
Class UrlParser := {
  url_Parse : string → URL + GoError;
}.

(** ** Bytes and texts *)

Definition byte_in (lo hi c : ascii) : bool :=
  (N.leb (N_of_ascii lo) (N_of_ascii c) && N.leb (N_of_ascii c) (N_of_ascii hi))%bool.

Definition is_letter (c : ascii) : bool :=
  (byte_in "a" "z" c || byte_in "A" "Z" c)%bool.

Definition is_digit (c : ascii) : bool := byte_in "0" "9" c.

Definition is_scheme_tail (c : ascii) : bool :=
  (is_digit c || bool_decide (c = "+"%char)
   || bool_decide (c = "-"%char) || bool_decide (c = "."%char))%bool.

(** A control byte: below the space, or DEL. *)
Definition is_ctl (c : ascii) : bool :=
  (N.ltb (N_of_ascii c) 32 || N.eqb (N_of_ascii c) 127)%bool.

(** The marks among the unreserved bytes. *)
Definition is_mark (c : ascii) : bool := str_mem c "-_.~".

(** Every byte of the text passes the test. *)
Fixpoint str_all (f : ascii → bool) (s : string) : bool :=
  match s with
  | EmptyString => true
  | String c s' => f c && str_all f s'
  end.

(** The text before and after the last [c]. *)
Fixpoint str_rcut (c : ascii) (s : string) : option (string * string) :=
  match s with
  | EmptyString => None
  | String d s' =>
      match str_rcut c s' with
      | Some (a, b) => Some (String d a, b)
      | None => if decide (d = c) then Some (EmptyString, s') else None
      end
  end.

(** [strings.ToLower] on the bytes of a scheme. *)
Definition lower (c : ascii) : ascii :=
  if byte_in "A" "Z" c then ascii_of_N (N_of_ascii c + 32) else c.

Fixpoint str_lower (s : string) : string :=
  match s with
  | EmptyString => EmptyString
  | String c s' => String (lower c) (str_lower s')
  end.

(** Cut at the first separator; the whole text when there is none. *)
Definition cut_or_all (sep s : string) : string * string :=
  match str_cut sep s with
  | Some (a, b) => (a, b)
  | None => (s, EmptyString)
  end.

(** ** The steps of [url.Parse] *)

(** [getScheme]: the scheme and what follows its colon; no scheme when a
    byte that cannot be part of one comes before any colon. *)
Fixpoint get_scheme_go (first : bool) (acc s whole : string)
  : (string * string) + GoError :=
  match s with
  | EmptyString => inl (EmptyString, whole)
  | String c s' =>
      if is_letter c then get_scheme_go false (acc +:+ String c EmptyString) s' whole
      else if is_scheme_tail c then
        if first then inl (EmptyString, whole)
        else get_scheme_go false (acc +:+ String c EmptyString) s' whole
      else if bool_decide (c = ":"%char) then
        if first then inr (mkError "missing protocol scheme")
        else inl (acc, s')
      else inl (EmptyString, whole)
  end.

Definition get_scheme (s : string) : (string * string) + GoError :=
  get_scheme_go true EmptyString s s.

Definition hex_value (c : ascii) : option N :=
  if is_digit c then Some (N_of_ascii c - 48)%N
  else if byte_in "a" "f" c then Some (N_of_ascii c - 87)%N
  else if byte_in "A" "F" c then Some (N_of_ascii c - 55)%N
  else None.

(** The parts of a URL that [Parse] decodes; they differ in what an
    escape may stand for and in the bytes that may stand unescaped. *)
Inductive encoding := encodePath | encodeHost | encodeZone | encodeUserPassword
                    | encodeFragment.

#[export] Instance encoding_eq_dec : EqDecision encoding.
Proof. solve_decision. Defined.

(** [shouldEscape] in the mode of hosts: what a host cannot hold as it
    is.  Letters, digits and marks may stand, and so may the sub-delimiters
    and the bytes of a port and of an address in brackets. *)
Definition should_escape_host (c : ascii) : bool :=
  negb (is_letter c || is_digit c || str_mem c "!$&'()*+,;=:[]<>" ||
        bool_decide (c = "034"%char) || is_mark c).

Definition in_host (m : encoding) : bool :=
  bool_decide (m = encodeHost ∨ m = encodeZone).

(** May the escape [%hl], of value [v], stand in this part? *)
Definition escape_allowed (m : encoding) (h l : ascii) (x v : N) : bool :=
  match m with
  | encodeHost =>
      negb (N.ltb x 8) || bool_decide (h = "2"%char ∧ l = "5"%char)
  | encodeZone =>
      bool_decide (h = "2"%char ∧ l = "5"%char) || N.eqb v 32
      || negb (should_escape_host (ascii_of_N v))
  | _ => true
  end.

(** [unescape]: percent-decoding in the mode of a part. *)
Fixpoint unescape_in (m : encoding) (s : string) : string + GoError :=
  match s with
  | EmptyString => inl EmptyString
  | String c s' =>
      if bool_decide (c = "%"%char) then
        match s' with
        | String h (String l s'') =>
            match hex_value h, hex_value l with
            | Some x, Some y =>
                if escape_allowed m h l x (16 * x + y) then
                  match unescape_in m s'' with
                  | inl r => inl (String (ascii_of_N (16 * x + y)) r)
                  | inr e => inr e
                  end
                else inr (mkError "invalid URL escape")
            | _, _ => inr (mkError "invalid URL escape")
            end
        | _ => inr (mkError "invalid URL escape")
        end
      else if in_host m && N.ltb (N_of_ascii c) 128 && should_escape_host c
      then inr (mkError "invalid character in host name")
      else
        match unescape_in m s' with
        | inl r => inl (String c r)
        | inr e => inr e
        end
  end.

(** Percent-decoding of a path. *)
Definition unescape : string → string + GoError := unescape_in encodePath.

(** [validOptionalPort]: nothing, or a colon and digits. *)
Definition valid_optional_port (port : string) : bool :=
  match port with
  | EmptyString => true
  | String c digits => bool_decide (c = ":"%char) && str_all is_digit digits
  end.

(** [parseHost] *)
Definition parse_host (host : string) : string + GoError :=
  if String.prefix "[" host then
    match str_rcut "]" host with
    | None => inr (mkError "missing ']' in host")
    | Some (lit, port) =>
        if valid_optional_port port then
          match str_cut "%25" lit with
          | Some (h1, zone) =>
              match unescape_in encodeHost h1,
                    unescape_in encodeZone ("%25" +:+ zone),
                    unescape_in encodeHost (String "]" port) with
              | inl a, inl b, inl c => inl (a +:+ b +:+ c)
              | inr e, _, _ | _, inr e, _ | _, _, inr e => inr e
              end
          | None => unescape_in encodeHost host
          end
        else inr (mkError "invalid port after host")
    end
  else
    match str_rcut ":" host with
    | Some (_, port) =>
        if valid_optional_port (String ":" port)
        then unescape_in encodeHost host
        else inr (mkError "invalid port after host")
    | None => unescape_in encodeHost host
    end.

(** [validUserinfo] *)
Definition valid_userinfo (s : string) : bool :=
  str_all (λ c, is_letter c || is_digit c || str_mem c "-._:~!$&'()*+,;=%@") s.

(** [parseAuthority]: the user information before the last at sign, the
    host after it. *)
Definition parse_authority (authority : string)
  : (option Userinfo * string) + GoError :=
  match str_rcut "@" authority with
  | None =>
      match parse_host authority with
      | inl h => inl (None, h)
      | inr e => inr e
      end
  | Some (userinfo, host) =>
      match parse_host host with
      | inr e => inr e
      | inl h =>
          if valid_userinfo userinfo then
            match str_cut ":" userinfo with
            | None =>
                match unescape_in encodeUserPassword userinfo with
                | inl u => inl (Some (mkUserinfo u None), h)
                | inr e => inr e
                end
            | Some (name, pass) =>
                match unescape_in encodeUserPassword name,
                      unescape_in encodeUserPassword pass with
                | inl u, inl p => inl (Some (mkUserinfo u (Some p)), h)
                | inr e, _ | _, inr e => inr e
                end
            end
          else inr (mkError "net/url: invalid userinfo")
      end
  end.

(** The path of a URL, decoded. *)
Definition with_path (scheme : string) (user : option Userinfo)
    (host rest query : string) : URL + GoError :=
  match unescape rest with
  | inl p => inl (mkURL scheme EmptyString user host p query EmptyString)
  | inr e => inr e
  end.

(** [parse], on the text before the fragment. *)
Definition parse_go (raw : string) : URL + GoError :=
  if negb (str_all (λ c, negb (is_ctl c)) raw)
  then inr (mkError "net/url: invalid control character in URL")
  else if bool_decide (raw = "*")
  then inl (mkURL EmptyString EmptyString None EmptyString "*" EmptyString
              EmptyString)
  else
    match get_scheme raw with
    | inr e => inr e
    | inl (scheme, rest) =>
        let scheme := str_lower scheme in
        let '(rest, query) := cut_or_all "?" rest in
        if negb (String.prefix "/" rest) && negb (bool_decide (scheme = EmptyString))
        then inl (mkURL scheme rest None EmptyString EmptyString query
                    EmptyString)
        else if negb (String.prefix "/" rest)
                && str_mem ":" (cut_or_all "/" rest).1
        then inr (mkError "first path segment in URL cannot contain colon")
        else if String.prefix "//" rest
                && (negb (bool_decide (scheme = EmptyString))
                    || negb (String.prefix "///" rest))
        then
          let authority := str_drop 2 rest in
          let '(authority, rest) :=
            match str_cut "/" authority with
            | Some (a, p) => (a, String "/" p)
            | None => (authority, EmptyString)
            end in
          match parse_authority authority with
          | inl (user, host) => with_path scheme user host rest query
          | inr e => inr e
          end
        else with_path scheme None EmptyString rest query
    end.

(** [Parse]: the fragment is cut off, the rest parsed, and the fragment
    decoded. *)
Definition go_url_Parse (raw : string) : URL + GoError :=
  match str_cut "#" raw with
  | None => parse_go raw
  | Some (u, frag) =>
      match parse_go u with
      | inr e => inr e
      | inl url =>
          match unescape_in encodeFragment frag with
          | inl f =>
              inl (mkURL (url_Scheme url) (url_Opaque url) (url_User url)
                     (url_Host url) (url_Path url) (url_RawQuery url) f)
          | inr e => inr e
          end
      end
  end.

#[export] Instance go_url : UrlParser := {| url_Parse := go_url_Parse |}.

(** ** The parser on the package's URLs *)

Example go_url_bucket :
  url_Parse "https://logs.s3.amazonaws.com/2013/a.gz"
  = inl (mkURL "https" "" None "logs.s3.amazonaws.com" "/2013/a.gz" "" "").
Proof. vm_compute. reflexivity. Qed.

Example go_url_escape :
  url_Parse "https://logs.s3.amazonaws.com/a%20b"
  = inl (mkURL "https" "" None "logs.s3.amazonaws.com" "/a b" "" "").
Proof. vm_compute. reflexivity. Qed.

Example go_url_bad_escape :
  url_Parse "https://logs.s3.amazonaws.com/100%"
  = inr (mkError "invalid URL escape").
Proof. vm_compute. reflexivity. Qed.

Example go_url_no_scheme :
  url_Parse "://logs.s3.amazonaws.com/k" = inr (mkError "missing protocol scheme").
Proof. vm_compute. reflexivity. Qed.

(** The scheme is lower-cased. *)
Example go_url_upper_scheme :
  url_Parse "HTTPS://logs.s3.amazonaws.com/k"
  = inl (mkURL "https" "" None "logs.s3.amazonaws.com" "/k" "" "").
Proof. vm_compute. reflexivity. Qed.

(** A service on a port: the port is part of the host. *)
Example go_url_port :
  url_Parse "http://logs.localhost:9000/k"
  = inl (mkURL "http" "" None "logs.localhost:9000" "/k" "" "").
Proof. vm_compute. reflexivity. Qed.

(** What precedes an at sign is not part of the host. *)
Example go_url_userinfo :
  url_Parse "https://logs@eu.s3.amazonaws.com/k"
  = inl (mkURL "https" "" (Some (mkUserinfo "logs" None)) "eu.s3.amazonaws.com"
           "/k" "" "").
Proof. vm_compute. reflexivity. Qed.

(** A percent sign in the host is an error, and so is a space. *)
Example go_url_host_escape :
  url_Parse "https://lo%67s.s3.amazonaws.com/k"
  = inr (mkError "invalid URL escape").
Proof. vm_compute. reflexivity. Qed.

Example go_url_host_space :
  url_Parse "https://my logs.s3.amazonaws.com/k"
  = inr (mkError "invalid character in host name").
Proof. vm_compute. reflexivity. Qed.

(** A line feed in the key is an error. *)
Example go_url_control :
  url_Parse ("https://logs.s3.amazonaws.com/a" +:+ String "010" "b")
  = inr (mkError "net/url: invalid control character in URL").
Proof. vm_compute. reflexivity. Qed.

(** ** Texts the decoding leaves as they are *)

Lemma str_all_app f a b : str_all f (a +:+ b) = str_all f a && str_all f b.
Proof.
  induction a as [|c a IH]; [done|]. rewrite str_app_cons. simpl.
  by rewrite IH, andb_assoc.
Qed.

Lemma str_all_impl (f g : ascii → bool) s :
  (∀ c, f c = true → g c = true) → str_all f s = true → str_all g s = true.
Proof.
  intros Hfg. induction s as [|c s IH]; [done|]. simpl.
  intros [Hc Hs]%andb_prop. by rewrite (Hfg c Hc), IH.
Qed.

Lemma str_all_mem f c s : str_all f s = true → f c = false → str_mem c s = false.
Proof.
  induction s as [|d s IH]; [done|]. simpl. intros [Hd Hs]%andb_prop Hc.
  case_decide; [congruence|]. by apply IH.
Qed.

Lemma str_rcut_None c s : str_mem c s = false → str_rcut c s = None.
Proof.
  induction s as [|d s IH]; [done|]. simpl. case_decide; [done|].
  intros Hs. rewrite IH by done. by rewrite decide_False.
Qed.

(** A path without a percent sign decodes to itself. *)
Lemma unescape_plain s : str_mem "%" s = false → unescape s = inl s.
Proof.
  unfold unescape. induction s as [|c s IH]; [done|]. simpl.
  case_decide as Hc; [done|].
  intros Hs. rewrite bool_decide_eq_false_2 by congruence. by rewrite IH.
Qed.

(** The bytes of a plain host name: letters, digits and marks. *)
Definition host_byte (c : ascii) : bool := is_letter c || is_digit c || is_mark c.

(** The test [f] holds of no byte of the host names. *)
Local Ltac host_bytes :=
  intros c; unfold host_byte, is_letter, is_digit, is_mark, byte_in;
  destruct c as [[] [] [] [] [] [] [] []]; done.

Lemma host_byte_stands c : host_byte c = true → should_escape_host c = false.
Proof. revert c. host_bytes. Qed.

Lemma host_byte_not_ctl c : host_byte c = true → negb (is_ctl c) = true.
Proof. revert c. host_bytes. Qed.

Lemma host_byte_ne c d :
  str_mem d "/?#@:[%" = true → host_byte c = true → c ≠ d.
Proof.
  intros Hd Hc ->. revert Hd Hc. unfold host_byte, is_letter, is_digit, is_mark, byte_in.
  destruct d as [[] [] [] [] [] [] [] []]; done.
Qed.

Lemma host_mem d s :
  str_mem d "/?#@:[%" = true → str_all host_byte s = true → str_mem d s = false.
Proof.
  intros Hd. induction s as [|c s IH]; [done|]. simpl.
  intros [Hc Hs]%andb_prop. rewrite decide_False; [by apply IH|].
  intros ->. by apply (host_byte_ne c c).
Qed.

(** A plain host name is decoded to itself. *)
Lemma unescape_host s :
  str_all host_byte s = true → unescape_in encodeHost s = inl s.
Proof.
  induction s as [|c s IH]; [done|]. cbn [str_all unescape_in].
  intros [Hc Hs]%andb_prop.
  rewrite bool_decide_eq_false_2 by (by apply (host_byte_ne c "%")).
  rewrite (host_byte_stands c Hc), andb_false_r. by rewrite IH.
Qed.

(** A plain host name is a host, with no user information. *)
Lemma parse_authority_host s :
  str_all host_byte s = true → parse_authority s = inl (None, s).
Proof.
  intros Hs. unfold parse_authority, parse_host.
  rewrite (str_rcut_None "@"), (str_rcut_None ":") by (by apply host_mem).
  replace (String.prefix "[" s) with false; [by rewrite unescape_host|].
  destruct s as [|c s]; [done|]. cbn [str_all] in Hs.
  apply andb_prop in Hs as [Hc _]. symmetry. apply str_prefix_head_ne.
  apply not_eq_sym. by apply host_byte_ne.
Qed.

(** ** The parser on a formatted URL *)

(** A scheme as [url.Parse] reads one: a letter, then letters, digits,
    plus, minus and dot. *)
Definition is_scheme (s : string) : bool :=
  match s with
  | EmptyString => false
  | String c s' =>
      is_letter c && str_all (λ c, is_letter c || is_scheme_tail c) s'
  end.

Lemma is_scheme_all f s :
  (∀ c, is_letter c || is_scheme_tail c = true → f c = true) →
  is_scheme s = true → str_all f s = true.
Proof.
  intros Hf. destruct s as [|c s]; [done|]. simpl. intros [Hc Hs]%andb_prop.
  rewrite Hf by (by rewrite Hc). by apply (str_all_impl _ _ _ Hf).
Qed.

Lemma is_scheme_mem c s :
  is_scheme s = true → is_letter c || is_scheme_tail c = false →
  str_mem c s = false.
Proof.
  destruct s as [|d s]; [done|]. simpl. intros [Hd Hs]%andb_prop Hc.
  case_decide as Heq; [|by eapply str_all_mem].
  rewrite Heq in Hc. apply orb_false_elim in Hc as [? _]. congruence.
Qed.

Lemma scheme_byte_not_ctl c :
  is_letter c || is_scheme_tail c = true → negb (is_ctl c) = true.
Proof.
  unfold is_letter, is_scheme_tail, is_digit, byte_in.
  destruct c as [[] [] [] [] [] [] [] []]; done.
Qed.

Lemma lower_letter c : is_letter c || is_scheme_tail c = true → lower c ≠ ":"%char.
Proof.
  unfold is_letter, is_scheme_tail, is_digit, byte_in, lower.
  destruct c as [[] [] [] [] [] [] [] []]; done.
Qed.

(** The scheme runs to the first colon. *)
Lemma get_scheme_go_tail acc sch rest whole :
  str_all (λ c, is_letter c || is_scheme_tail c) sch = true →
  get_scheme_go false acc (sch +:+ String ":" rest) whole
  = inl (acc +:+ sch, rest).
Proof.
  revert acc. induction sch as [|c sch IH]; intros acc.
  - intros _. by rewrite str_app_nil_r.
  - cbn [str_all]. intros [Hc Hs]%andb_prop.
    rewrite str_app_cons. cbn [get_scheme_go].
    replace (acc +:+ String c sch) with ((acc +:+ String c "") +:+ sch)
      by by rewrite str_app_assoc.
    destruct (is_letter c); [by apply IH|]. simpl in Hc. rewrite Hc. by apply IH.
Qed.

Lemma get_scheme_format sch rest :
  is_scheme sch = true →
  get_scheme (sch +:+ String ":" rest) = inl (sch, rest).
Proof.
  destruct sch as [|c sch]; [done|]. cbn [is_scheme]. intros [Hc Hs]%andb_prop.
  unfold get_scheme. rewrite str_app_cons. cbn [get_scheme_go]. rewrite Hc.
  by rewrite get_scheme_go_tail.
Qed.

(** A scheme is not empty, also in lower case, and is not the text [*]. *)
Lemma str_lower_scheme sch :
  is_scheme sch = true → str_lower sch ≠ EmptyString.
Proof. by destruct sch. Qed.

Lemma scheme_not_star sch rest : is_scheme sch = true → sch +:+ rest ≠ "*".
Proof.
  destruct sch as [|c sch]; [done|]. simpl. intros [Hc _]%andb_prop [= -> _].
  done.
Qed.

(** A cut after a text that has nothing to cut. *)
Lemma cut_or_all_app d a s :
  str_mem d a = false →
  cut_or_all (String d "") (a +:+ s)
  = (a +:+ (cut_or_all (String d "") s).1, (cut_or_all (String d "") s).2).
Proof.
  intros Ha. unfold cut_or_all. induction a as [|c a IH].
  - change ("" +:+ s) with s. by destruct (str_cut _ s) as [[??]|].
  - simpl in Ha. case_decide; [done|]. rewrite str_app_cons. cbn [str_cut].
    rewrite str_prefix_head_ne by done. specialize (IH Ha).
    destruct (str_cut _ (a +:+ s)) as [[??]|], (str_cut _ s) as [[??]|];
      simplify_eq/=; by rewrite ?str_app_cons.
Qed.

Lemma cut_or_all_None d s :
  str_mem d s = false → cut_or_all (String d "") s = (s, "").
Proof. intros Hs. unfold cut_or_all. by rewrite str_cut_None. Qed.

Lemma str_prefix_slash s : String.prefix "/" ("//" +:+ s) = true.
Proof. apply (str_prefix_app "/" ("/" +:+ s)). Qed.

(** The formatted text has no control byte when its path has none. *)
Lemma format_no_ctl scheme host path :
  is_scheme scheme = true → str_all host_byte host = true →
  str_all (λ c, negb (is_ctl c)) path = true →
  str_all (λ c, negb (is_ctl c)) (scheme +:+ "://" +:+ host +:+ "/" +:+ path)
  = true.
Proof.
  intros Hsch Hhost Hpath. rewrite !str_all_app, Hpath.
  rewrite (is_scheme_all _ _ scheme_byte_not_ctl Hsch).
  by rewrite (str_all_impl _ _ _ host_byte_not_ctl Hhost).
Qed.

(** The parser, before the fragment, on [scheme://host/path]. *)
Lemma parse_go_format scheme host path :
  is_scheme scheme = true → str_all host_byte host = true →
  str_all (λ c, negb (is_ctl c)) path = true →
  str_mem "%" (cut_or_all "?" path).1 = false →
  parse_go (scheme +:+ "://" +:+ host +:+ "/" +:+ path)
  = inl (mkURL (str_lower scheme) "" None host
           ("/" +:+ (cut_or_all "?" path).1) (cut_or_all "?" path).2 "").
Proof.
  intros Hsch Hhost Hctl Hesc. unfold parse_go.
  rewrite format_no_ctl by done. cbn [negb].
  rewrite bool_decide_eq_false_2 by (by apply scheme_not_star).
  change ("://" +:+ host +:+ "/" +:+ path)
    with (String ":" ("//" +:+ host +:+ "/" +:+ path)).
  rewrite get_scheme_format by done.
  rewrite <-(str_app_assoc host "/" path), <-(str_app_assoc "//" _ path).
  rewrite cut_or_all_app
    by (rewrite !str_mem_app; by rewrite (host_mem "?" host)).
  destruct (cut_or_all "?" path) as [p q]. cbn [fst snd] in *.
  rewrite !str_app_assoc.
  rewrite (bool_decide_eq_false_2 (str_lower scheme = "")) by (by apply str_lower_scheme).
  rewrite str_prefix_slash, (str_prefix_app "//").
  cbn [negb andb orb]. rewrite (str_drop_app "//").
  rewrite str_cut_app by (by apply host_mem).
  rewrite parse_authority_host by done. unfold with_path.
  rewrite unescape_plain; [done|]. cbn [str_mem]. by rewrite decide_False.
Qed.

(** The parser on [scheme://host/path]: the scheme, in lower case, and
    the host are read back; the path is cut at the first question mark,
    and what follows it is the query. *)
Lemma go_url_Parse_format scheme host path :
  is_scheme scheme = true → str_all host_byte host = true →
  str_all (λ c, negb (is_ctl c)) path = true →
  str_mem "#" path = false →
  str_mem "%" (cut_or_all "?" path).1 = false →
  go_url_Parse (scheme +:+ "://" +:+ host +:+ "/" +:+ path)
  = inl (mkURL (str_lower scheme) "" None host
           ("/" +:+ (cut_or_all "?" path).1) (cut_or_all "?" path).2 "").
Proof.
  intros Hsch Hhost Hctl Hfrag Hesc. unfold go_url_Parse.
  rewrite str_cut_None; [by apply parse_go_format|].
  rewrite !str_mem_app, Hfrag, (host_mem "#" host) by done.
  by rewrite (is_scheme_mem "#" scheme).
Qed.
