(* ===== verification/Fmt.v ===== *)
(** * Fmt: what the package needs of Go's [fmt]

    [Bucket.Url] builds its string with [fmt.Sprintf] and a format of four
    [%s] verbs.  [Sprintf] is the part of that function the package runs,
    for operands that are strings and verbs that carry no flag, width or
    precision: a byte of the format is copied, [%%] is a percent sign, [%s]
    and [%v] are the next operand; an operand that is missing, a percent
    sign at the end of the format and operands that are left over print as
    the [%!] markers of the library.  A format with any other verb is
    outside the model, and [Sprintf] is [None] on it.

    The lemmas say what a format does from its parts ([Sprintf_lit],
    [Sprintf_s]); [Url_format_Sprintf] in [Url] uses them to show that the
    closed form of the package's URL is what the format string computes. *)

From Stdlib Require Import String Ascii List.
From stdpp Require Import base tactics option list strings.
From S2P Require Import Prelude.

(** [%!(EXTRA string=a, string=b)]: the operands no verb has used. *)
Fixpoint extra_operands (args : list string) : string :=
  match args with
  | [] => ""
  | [a] => "string=" +:+ a
  | a :: args' => "string=" +:+ a +:+ ", " +:+ extra_operands args'
  end.

Definition extra (args : list string) : string :=
  match args with
  | [] => ""
  | _ => "%!(EXTRA " +:+ extra_operands args +:+ ")"
  end.

(** One verb, on the operands that are left. *)
Definition verb (v : ascii) (args : list string)
  : option (string * list string) :=
  if decide (v = "%"%char) then Some ("%", args)
  else if decide (v = "s"%char ∨ v = "v"%char) then
    match args with
    | a :: args' => Some (a, args')
    | [] => Some ("%!" +:+ String v "(MISSING)", [])
    end
  else None.

(** [fmt.Sprintf(format, args...)] *)
Fixpoint Sprintf (format : string) (args : list string) : option string :=
  match format with
  | EmptyString => Some (extra args)
  | String c rest =>
      if decide (c = "%"%char) then
        match rest with
        | EmptyString => Some ("%!(NOVERB)" +:+ extra args)
        | String v rest' =>
            '(out, args') ← verb v args;
            String.append out <$> Sprintf rest' args'
        end
      else String c <$> Sprintf rest args
  end.

(** ** A format from its parts *)

(** Text without a percent sign is copied. *)
Lemma Sprintf_lit lit format args :
  str_mem "%" lit = false →
  Sprintf (lit +:+ format) args = String.append lit <$> Sprintf format args.
Proof.
  induction lit as [|c lit IH]; intros Hlit.
  - change ("" +:+ format) with format. by destruct (Sprintf format args).
  - simpl in Hlit. case_decide as Hc; [done|].
    rewrite str_app_cons. cbn [Sprintf].
    rewrite decide_False by congruence. rewrite IH by done.
    by destruct (Sprintf format args).
Qed.

(** [%s] is the next operand. *)
Lemma Sprintf_s format a args :
  Sprintf ("%s" +:+ format) (a :: args) = String.append a <$> Sprintf format args.
Proof. done. Qed.

(** A format that ends when its operands do adds nothing. *)
Lemma Sprintf_end : Sprintf "" [] = Some "".
Proof. done. Qed.

(** With no verb at all the format is the result. *)
Lemma Sprintf_plain format :
  str_mem "%" format = false → Sprintf format [] = Some format.
Proof.
  intros Hf. rewrite <-(str_app_nil_r format) at 1.
  rewrite Sprintf_lit, Sprintf_end by done. simpl.
  by rewrite str_app_nil_r.
Qed.

(** ** The markers of the library *)

Example Sprintf_missing :
  Sprintf "%s://%s" ["https"] = Some "https://%!s(MISSING)".
Proof. vm_compute. reflexivity. Qed.

Example Sprintf_extra :
  Sprintf "%s." ["a"; "b"; "c"] = Some "a.%!(EXTRA string=b, string=c)".
Proof. vm_compute. reflexivity. Qed.

Example Sprintf_noverb : Sprintf "100%" [] = Some "100%!(NOVERB)".
Proof. vm_compute. reflexivity. Qed.

Example Sprintf_percent : Sprintf "100%%" [] = Some "100%".
Proof. vm_compute. reflexivity. Qed.

Example Sprintf_outside : Sprintf "%5d" ["a"] = None.
Proof. vm_compute. reflexivity. Qed.
