(* ===== verification/Url.v ===== *)
(** * Url: [Bucket.Url] and the format of the package's URLs

    [Url_format] is the [fmt.Sprintf] of [Bucket.Url], the virtual-hosted
    address [scheme://name.domain/path]; [Url] is the method: it reads the
    scheme through [c], the name through [b], the domain through [b.S3],
    parses the formatted string and panics with the parser's error.

    The theorems: [Url] never writes; it returns exactly when its three
    dereferences succeed and the parser accepts the string; each nil pointer
    is a nil-dereference panic and a parse error is a panic with that error;
    under the heap invariant it never faults.  [Url_format_Sprintf] shows
    that the closed form [Url_format] is what [Fmt.Sprintf] computes on the
    format string of the source.  [Url_unformat] splits a formatted string
    back into its four parts: the round trip holds when the scheme has no
    colon, the name no dot or slash and the domain no slash, and
    [Url_format_dot] shows why a dot in the bucket name breaks it.  A
    bucket holds a pointer to its account: [Bucket_aliases_account] shows
    that a domain assigned to the account afterwards is the domain of the
    bucket's next URL.  [Url_go] is [Url] with the parser of [NetUrl]:
    the scheme and the host [name.domain] of the URL it returns, when the
    name and the domain are host names, and its path, which is the key
    only as far as the key has no question mark. *)

From Stdlib Require Import ZArith String Ascii.
From stdpp Require Import base tactics option gmap strings.
From S2P Require Import Prelude GoRuntime Types NetUrl Fmt.

(** [fmt.Sprintf("%s://%s.%s/%s", scheme, name, domain, path)] *)
Definition Url_format (scheme name domain path : string) : string :=
  scheme +:+ "://" +:+ name +:+ "." +:+ domain +:+ "/" +:+ path.

(** The four parts of a formatted URL, cut at the first [://], the first
    slash after it and the first dot of the host. *)
Definition Url_unformat (s : string)
  : option (string * string * string * string) :=
  match str_cut "://" s with
  | Some (scheme, rest) =>
      match str_cut "/" rest with
      | Some (host, path) =>
          match str_cut "." host with
          | Some (name, domain) => Some (scheme, name, domain, path)
          | None => None
          end
      | None => None
      end
  | None => None
  end.

Section url.
Context {E : Type} {P : UrlParser}.
Implicit Types (s : state E) (b c : ptr) (path : string).

(** [func (b *Bucket) Url(path string, c *Config) url.URL] *)
Definition Url b path c : Go (state E) URL :=
  cfg <- load Configs c ;;
  bkt <- load Buckets b ;;
  acc <- load S3s (Bucket_S3 bkt) ;;
  match url_Parse (Url_format (Scheme cfg) (Name bkt) (Domain acc) path) with
  | inl u => ret u
  | inr err => panic (PanicValue err)
  end.

(** What [Url] reads: the configuration, the bucket and its account. *)
Definition Url_reads s b c (cfg : Config) (bkt : Bucket) (acc : S3) : Prop :=
  ∃ ac ab aa, c = Some ac ∧ configs s !! ac = Some cfg ∧
              b = Some ab ∧ buckets s !! ab = Some bkt ∧
              Bucket_S3 bkt = Some aa ∧ s3s s !! aa = Some acc.

(** They are reads of the heap: the engine's part of the state is not
    looked at. *)
Lemma Url_reads_same_heap s s' b c cfg bkt acc :
  same_heap s s' → Url_reads s b c cfg bkt acc → Url_reads s' b c cfg bkt acc.
Proof.
  intros (Hs & Hb & Hc & _) (ac & ab & aa & ? & ? & ? & ? & ? & ?).
  exists ac, ab, aa. by rewrite Hs, Hb, Hc.
Qed.

(** What [Url] does when its reads succeed. *)
Lemma Url_reads_run s b c cfg bkt acc path :
  Url_reads s b c cfg bkt acc →
  Url b path c s =
  match url_Parse (Url_format (Scheme cfg) (Name bkt) (Domain acc) path) with
  | inl u => (Ret u, s)
  | inr err => (Panic (PanicValue err), s)
  end.
Proof.
  intros (ac & ab & aa & -> & Hc & -> & Hb & Ha & Hs).
  unfold Url. rewrite bind_load; simpl. rewrite Hc, bind_load; simpl.
  rewrite Hb, bind_load, Ha; simpl. rewrite Hs. by destruct (url_Parse _).
Qed.

(** [Url] leaves the state it was given. *)
Lemma Url_state b path c s : (Url b path c s).2 = s.
Proof.
  unfold Url. repeat (apply bind_load_state; intros).
  by repeat case_match.
Qed.

(** [Url] only reads: it has an outcome (a URL, a panic) and the state
    it leaves is the state it was given, on every path. *)
Theorem Url_pure b path c s : ∃ o, Url b path c s = (o, s).
Proof.
  exists (Url b path c s).1. rewrite <- (Url_state b path c s) at 3.
  by destruct (Url b path c s).
Qed.

(** C35: [Url] returns a URL exactly when [c], [b] and [b.S3] point to
    objects and the parser accepts the formatted string; the URL is the
    parser's, and the state is untouched. *)
Theorem Url_returns_iff b path c s u s' :
  Url b path c s = (Ret u, s') ↔
  ∃ cfg bkt acc, Url_reads s b c cfg bkt acc ∧ s' = s ∧
    url_Parse (Url_format (Scheme cfg) (Name bkt) (Domain acc) path) = inl u.
Proof.
  split.
  - unfold Url. rewrite bind_load.
    destruct c as [ac|]; [|done]. destruct (configs s !! ac) as [cfg|] eqn:Hc;
      simpl; rewrite Hc; [|done].
    rewrite bind_load. destruct b as [ab|]; [|done].
    destruct (buckets s !! ab) as [bkt|] eqn:Hb; simpl; rewrite Hb; [|done].
    rewrite bind_load. destruct (Bucket_S3 bkt) as [aa|] eqn:Ha; [|done].
    destruct (s3s s !! aa) as [acc|] eqn:Hs; simpl; rewrite Hs; [|done].
    destruct (url_Parse _) eqn:Hp; [|done]. intros [= -> <-].
    exists cfg, bkt, acc. repeat split; [|done]. by exists ac, ab, aa.
  - intros (cfg & bkt & acc & Hr & -> & Hp).
    by rewrite (Url_reads_run _ _ _ _ _ _ _ Hr), Hp.
Qed.

(** One of the pointers [Url] dereferences is nil. *)
Definition Url_nil s b c : Prop :=
  c = None ∨ b = None ∨
  ∃ ab bkt, b = Some ab ∧ buckets s !! ab = Some bkt ∧ Bucket_S3 bkt = None.

(** In a well-formed heap [Url] either meets a nil pointer, and panics, or
    reads its three objects. *)
Lemma Url_cases b path c s :
  heap_ok s → valid Buckets s b → valid Configs s c →
  (Url_nil s b c ∧ Url b path c s = (Panic NilDereference, s))
  ∨ ∃ cfg bkt acc, Url_reads s b c cfg bkt acc.
Proof.
  intros Hok Hb Hc. destruct c as [ac|]; [|left; split; [by left | done]].
  destruct Hc as [cfg Hcfg]; simpl in Hcfg.
  destruct b as [ab|]; [|left; split; [by right; left|]].
  2: { unfold Url. rewrite bind_load; simpl. by rewrite Hcfg. }
  destruct Hb as [bkt Hbkt]; simpl in Hbkt.
  destruct (Bucket_S3 bkt) as [aa|] eqn:Ha.
  - right. pose proof (ok_buckets _ Hok _ _ Hbkt) as Hv. simpl in Hv. rewrite Ha in Hv.
    destruct Hv as [acc Hacc]. by exists cfg, bkt, acc, ac, ab, aa.
  - left. split; [right; right; eauto|].
    unfold Url. rewrite bind_load; simpl. rewrite Hcfg, bind_load; simpl.
    by rewrite Hbkt, bind_load, Ha.
Qed.

Lemma Url_reads_not_nil s b c cfg bkt acc :
  Url_reads s b c cfg bkt acc → ¬ Url_nil s b c.
Proof.
  intros (ac & ab & aa & -> & ? & -> & ? & ? & ?) [?|[?|(?&?&?&?&?)]];
    simplify_eq.
Qed.

(** In a well-formed heap, with [b] and [c] nil or pointing to objects,
    [Url] never dereferences a dangling address. *)
Lemma Url_safe b path c s :
  heap_ok s → valid Buckets s b → valid Configs s c →
  (Url b path c s).1 ≠ Fault.
Proof.
  intros Hok Hb Hc.
  destruct (Url_cases b path c s Hok Hb Hc) as [[_ ->]|(cfg&bkt&acc&Hr)]; [done|].
  rewrite (Url_reads_run _ _ _ _ _ _ _ Hr). by destruct (url_Parse _).
Qed.

(** [Url] panics with the runtime's nil-pointer error exactly when
    [c], [b] or the bucket's account pointer [b.S3] is nil, and leaves the
    state as it was. *)
Theorem Url_nil_panics b path c s :
  heap_ok s → valid Buckets s b → valid Configs s c →
  Url b path c s = (Panic NilDereference, s) ↔ Url_nil s b c.
Proof.
  intros Hok Hb Hc.
  destruct (Url_cases b path c s Hok Hb Hc) as [[? ->]|(cfg&bkt&acc&Hr)]; [done|].
  rewrite (Url_reads_run _ _ _ _ _ _ _ Hr). split.
  - by destruct (url_Parse _).
  - intros ?. by destruct (Url_reads_not_nil _ _ _ _ _ _ Hr).
Qed.

(** When the parser rejects the formatted string, [Url] does not return
    an error: it panics, and the panic carries the parser's error. *)
Theorem Url_parse_error_panics b path c s cfg bkt acc err :
  Url_reads s b c cfg bkt acc →
  url_Parse (Url_format (Scheme cfg) (Name bkt) (Domain acc) path) = inr err →
  Url b path c s = (Panic (PanicValue err), s).
Proof. intros Hr Hp. by rewrite (Url_reads_run _ _ _ _ _ _ _ Hr), Hp. Qed.

(** C34: a bucket holds a pointer to its account, not a copy: a domain
    assigned to the account after the bucket was made is the domain of the
    bucket's next URL. *)
Theorem Bucket_aliases_account b path c d cfg bkt acc s :
  Url_reads s b c cfg bkt acc →
  ((update S3s (Bucket_S3 bkt) (set_Domain d) ;;; Url b path c) s).1
  = match url_Parse (Url_format (Scheme cfg) (Name bkt) d path) with
    | inl u => Ret u
    | inr err => Panic (PanicValue err)
    end.
Proof.
  intros (ac & ab & aa & -> & Hc & -> & Hb & Ha & Hs).
  rewrite bind_update, Ha. simpl. rewrite Hs.
  rewrite (Url_reads_run _ _ _ cfg bkt (set_Domain d acc)).
  - by destruct (url_Parse _).
  - exists ac, ab, aa. simpl. split_and!; try done. by rewrite lookup_insert_eq.
Qed.

End url.

(** ** The format *)

(** The format string.  [fmt.Sprintf] on the format of the source,
    ["%s://%s.%s/%s"], and the scheme, the name, the domain and the path,
    is the closed form [Url_format]: each verb takes its operand, in the
    order of the call, no operand is missing and none is left over. *)
Theorem Url_format_Sprintf scheme name domain path :
  Sprintf "%s://%s.%s/%s" [scheme; name; domain; path]
  = Some (Url_format scheme name domain path).
Proof.
  unfold Url_format.
  rewrite (Sprintf_s "://%s.%s/%s"), (Sprintf_lit "://" "%s.%s/%s") by done.
  rewrite (Sprintf_s ".%s/%s"), (Sprintf_lit "." "%s/%s") by done.
  rewrite (Sprintf_s "/%s"), (Sprintf_lit "/" "%s") by done.
  rewrite (Sprintf_s ""), Sprintf_end. simpl. by rewrite str_app_nil_r.
Qed.

(** A formatted URL splits back into the scheme, bucket name, domain
    and path it was built from, provided the scheme has no colon, the name
    neither dot nor slash, and the domain no slash. *)
Theorem Url_format_roundtrip scheme name domain path :
  str_mem ":" scheme = false →
  str_mem "." name = false → str_mem "/" name = false →
  str_mem "/" domain = false →
  Url_unformat (Url_format scheme name domain path)
  = Some (scheme, name, domain, path).
Proof.
  intros Hs Hn1 Hn2 Hd. unfold Url_format, Url_unformat.
  rewrite (str_cut_app ":" "//" scheme _ Hs).
  rewrite <- !str_app_assoc, (str_app_assoc _ "/" path).
  rewrite (str_cut_app "/" "" _ path).
  - by rewrite str_app_assoc, (str_cut_app "." "" name domain Hn1).
  - by rewrite !str_mem_app, Hn2, Hd.
Qed.

(** A dot in the bucket name makes the format ambiguous: the bucket
    [n1.n2] of a domain and the bucket [n1] of the domain prefixed with [n2]
    have the same URL. *)
Theorem Url_format_dot scheme n1 n2 domain path :
  Url_format scheme (n1 +:+ "." +:+ n2) domain path
  = Url_format scheme n1 (n2 +:+ "." +:+ domain) path.
Proof. unfold Url_format. by autorewrite with go. Qed.

(** ** The URL of an object, with the parser of Go *)

(** What [url.Parse] reads from the formatted string, when the scheme is
    one, the host is made of letters, digits, minus, dot, underscore and
    tilde, and the path has no control byte and no hash sign. *)
Lemma Url_format_parsed scheme name domain path :
  is_scheme scheme = true →
  str_all host_byte (name +:+ "." +:+ domain) = true →
  str_all (λ c, negb (is_ctl c)) path = true →
  str_mem "#" path = false →
  str_mem "%" (cut_or_all "?" path).1 = false →
  url_Parse (UrlParser := go_url) (Url_format scheme name domain path)
  = inl (mkURL (str_lower scheme) "" None (name +:+ "." +:+ domain)
           ("/" +:+ (cut_or_all "?" path).1) (cut_or_all "?" path).2 "").
Proof.
  intros Hsch Hhost Hctl Hfrag Hesc. unfold Url_format.
  rewrite <-(str_app_assoc "." domain), <-(str_app_assoc name).
  cbn [url_Parse go_url].
  by rewrite go_url_Parse_format.
Qed.

(** C12: the URL of an object.  With the parser that follows [url.Parse],
    a scheme that is one, a bucket name and a domain made of letters,
    digits, minus, dot, underscore and tilde, and a path without control
    byte and hash sign: [Url] returns the URL with that scheme, in lower
    case, the host [name.domain] and no user information.  Its path is
    the key up to the first question mark, and what follows the question
    mark is the query: a key without question mark, hash and percent sign
    is the path of the URL, and a key with a question mark is not, the URL
    addresses another object. *)
Theorem Url_go {E} (s : state E) b c cfg bkt acc path :
  Url_reads s b c cfg bkt acc →
  is_scheme (Scheme cfg) = true →
  str_all host_byte (Name bkt +:+ "." +:+ Domain acc) = true →
  str_all (λ c, negb (is_ctl c)) path = true →
  str_mem "#" path = false →
  str_mem "%" (cut_or_all "?" path).1 = false →
  Url (P := go_url) b path c s
  = (Ret (mkURL (str_lower (Scheme cfg)) "" None
            (Name bkt +:+ "." +:+ Domain acc)
            ("/" +:+ (cut_or_all "?" path).1) (cut_or_all "?" path).2 ""), s).
Proof.
  intros Hr Hsch Hhost Hctl Hfrag Hesc.
  rewrite (Url_reads_run _ _ _ _ _ _ _ Hr).
  by rewrite Url_format_parsed.
Qed.

(** A bucket name that is not a host name.  What precedes an at sign in
    the bucket name is user information, not part of the host: the URL of
    a bucket [a@b] is a URL of the bucket [b], and the request goes to
    another bucket than the one named.  A percent sign or a space in the
    name is an error, and [Url] panics. *)
Example Url_format_at_sign :
  url_Parse (UrlParser := go_url) (Url_format "https" "logs@eu" "s3.amazonaws.com" "k")
  = inl (mkURL "https" "" (Some (mkUserinfo "logs" None)) "eu.s3.amazonaws.com"
           "/k" "" "").
Proof. vm_compute. reflexivity. Qed.

Example Url_format_percent :
  url_Parse (UrlParser := go_url) (Url_format "https" "50%" "s3.amazonaws.com" "k")
  = inr (mkError "invalid URL escape").
Proof. vm_compute. reflexivity. Qed.

(** ** Examples *)

(** A heap with one account, one bucket of it, and the default
    configuration. *)
Definition url_example : state unit :=
  {| s3s := {[ 1%positive := mkS3 "s3.amazonaws.com" (mkKeys "AK" "SK") ]};
     buckets := {[ 1%positive := mkBucket (Some 1%positive) "logs";
                   2%positive := mkBucket None "orphan" ]};
     configs := {[ 1%positive := DefaultConfig_value ]};
     clients := ∅;
     DefaultConfig := Some 1%positive;
     DefaultDomain := DefaultDomain_value;
     engine := tt |}.

Lemma url_example_ok : heap_ok url_example.
Proof. by apply (bool_decide_unpack _). Qed.

Lemma url_example_reads :
  Url_reads url_example (Some 1%positive) (Some 1%positive)
    DefaultConfig_value (mkBucket (Some 1%positive) "logs")
    (mkS3 "s3.amazonaws.com" (mkKeys "AK" "SK")).
Proof. by exists 1%positive, 1%positive, 1%positive. Qed.

Example Url_example_run :
  Url (Some 1%positive) "2013/a.gz" (Some 1%positive) url_example
  = (Ret (mkURL "https" "" None "logs.s3.amazonaws.com" "/2013/a.gz" "" ""),
     url_example).
Proof. by rewrite (Url_reads_run _ _ _ _ _ _ _ url_example_reads). Qed.

Lemma Url_nil_panics_witness :
  Url (Some 2%positive) "k" (Some 1%positive) url_example
  = (Panic NilDereference, url_example).
Proof.
  apply Url_nil_panics; [exact url_example_ok | by eexists | by eexists |].
  right; right. by exists 2%positive, (mkBucket None "orphan").
Defined.

Lemma Url_parse_error_panics_witness :
  Url (Some 1%positive) "100%" (Some 1%positive) url_example
  = (Panic (PanicValue (mkError "invalid URL escape")), url_example).
Proof.
  by apply (Url_parse_error_panics _ _ _ _ _ _ _ _ url_example_reads).
Defined.

Lemma Url_format_roundtrip_witness :
  Url_unformat (Url_format "https" "logs" "s3.amazonaws.com" "2013/a.gz")
  = Some ("https", "logs", "s3.amazonaws.com", "2013/a.gz").
Proof. by apply Url_format_roundtrip. Defined.

Lemma Bucket_aliases_account_witness :
  ((update S3s (Some 1%positive) (set_Domain "example.org") ;;;
    Url (Some 1%positive) "k" (Some 1%positive)) url_example).1
  = Ret (mkURL "https" "" None "logs.example.org" "/k" "" "").
Proof.
  by rewrite (Bucket_aliases_account _ "k" _ "example.org" _ _ _ _ url_example_reads).
Defined.

(** The key [2013/a.gz?v=2] addresses the object [2013/a.gz]. *)
Lemma Url_go_witness :
  Url (P := go_url) (Some 1%positive) "2013/a.gz?v=2" (Some 1%positive) url_example
  = (Ret (mkURL "https" "" None "logs.s3.amazonaws.com" "/2013/a.gz" "v=2" ""),
     url_example).
Proof.
  exact (Url_go url_example _ _ _ _ _ "2013/a.gz?v=2" url_example_reads
           eq_refl eq_refl eq_refl eq_refl eq_refl).
Defined.
