(* ===== verification/Engine.v ===== *)
(** * Engine: what the entry points need of the code behind them

    [GetReader] and [PutWriter] end in a call of [newGetter] and [newPutter],
    and both build their HTTP client with [ClientWithTimeout].  None of the
    three is in [src/]; the design document describes them.

    - [ClientWithTimeout] is defined here from its description: a new
      client with the timeout it is given.
    - [Engine] is the interface of the transfer engine: the two
      constructors, as functions in the monad of the program state whose
      engine part is the type [E].
    - [EngineFrame] states what the design promises the entry points: a
      transfer takes a snapshot of its configuration and never writes to the
      caller's objects, so a constructor leaves every store of the package
      and both package variables as they were, and it dereferences only
      pointers it was given.

    The theorems of [Facade] are proved for every engine with these
    properties; [offline] is the smallest one, an engine whose constructors
    fail with an error, and the examples of [Facade] run with it. *)

From Stdlib Require Import ZArith String.
From stdpp Require Import base tactics option gmap strings.
From S2P Require Import Prelude GoRuntime Types NetUrl.

(** [http.Header] *)
Abbreviation Header := (gmap string (list string)).

(** [GetReader]'s results [(r, h, err)] and [PutWriter]'s [(w, err)]: the
    reader or writer is a pointer into the engine's state, nil on error. *)
Definition GetResult : Type := ptr * Header * option GoError.
Definition PutResult : Type := ptr * option GoError.

Section engine.
Context {E : Type}.

(** [ClientWithTimeout(timeout)]: a new [http.Client]. *)
Definition ClientWithTimeout (timeout : Z) : Go (state E) ptr :=
  alloc Clients {| Timeout := timeout |}.

Lemma ClientWithTimeout_spec timeout (s : state E) :
  ClientWithTimeout timeout s =
  let a := fresh (dom (clients s)) in
  (Ret (Some a), with_clients (<[a := mkHttpClient timeout]> (clients s)) s).
Proof. done. Qed.

End engine.

(** The constructors of the transfer engine. *)
Class Engine (E : Type) := {
  newGetter : URL → ptr → ptr → Go (state E) GetResult;
  newPutter : URL → Header → ptr → ptr → Go (state E) PutResult;
}.

(** What the entry points rely on. *)
Class EngineFrame {E : Type} (G : Engine E) : Prop := {
  newGetter_frame u c b s : same_heap s (newGetter u c b s).2;
  newPutter_frame u h c b s : same_heap s (newPutter u h c b s).2;
  newGetter_safe u c b s :
    heap_ok s → valid Configs s c → valid Buckets s b →
    (newGetter u c b s).1 ≠ Fault;
  newPutter_safe u h c b s :
    heap_ok s → valid Configs s c → valid Buckets s b →
    (newPutter u h c b s).1 ≠ Fault;
}.

(** ** An engine with no network *)

Definition offline_error : GoError := mkError "dial tcp: no route to host".

#[export] Instance offline : Engine unit := {|
  newGetter _ _ _ := ret (None, ∅, Some offline_error);
  newPutter _ _ _ _ := ret (None, Some offline_error);
|}.

#[export] Instance offline_frame : EngineFrame offline.
Proof. by split. Qed.
