(* ===== verification/Scheduler.v ===== *)
(** * Scheduler: parts, the retry policy and the error slot

    The part scheduler is not in [src/]; this file follows its description
    in the design document (sections 3, 4.1 and 7).  What it takes from the
    code is the configuration: the part size is the field [PartSize] of
    [Config] and the number of attempts of a part its field [NTry].

    - [failure] is the taxonomy of fatal errors and [record_error] the
      error slot of a transfer: the first error recorded stays.
    - [partition] cuts the bytes [0, total) of an object into parts of the
      configured size, the last one possibly shorter; [parts_of] is the
      partition a configuration gives.
    - [run_part] is what one worker does for one part: the exchange is
      repeated while it fails with a transient error and attempts are
      left; it returns the outcome and the number of requests made.  The
      number of attempts is [NTry], as the comment of the field says
      ("maximum attempts for each part"); the design document counts
      retries after the first request in one place and attempts in
      another.

    The theorems: the parts tile the object ([parts_tile]), their bytes
    put together are the object ([parts_concat]), a part takes at most
    [NTry] requests ([run_part_requests]) and its outcome is the first
    answer that is not a transient failure ([run_part_outcome]). *)

From Stdlib Require Import ZArith String List Lia.
From stdpp Require Import base tactics option list numbers strings.
From S2P Require Import Prelude Types.

Local Open Scope Z_scope.

(** ** Failures and the error slot *)

(** The kinds of fatal error of a transfer: a transient transport error
    that outlived its retries, a malformed or unexpected response, a digest
    or length mismatch, a misuse of the interface, a transfer closed by its
    caller. *)
Inductive failure :=
| Unreachable (e : GoError)
| ProtocolError (e : GoError)
| IntegrityError
| UsageError
| Cancelled.

#[export] Instance failure_eq_dec : EqDecision failure.
Proof. solve_decision. Defined.

(** The error slot of a transfer is written once: the first error wins,
    later ones are discarded. *)
Definition record_error (slot : option failure) (f : failure) : option failure :=
  match slot with
  | Some _ => slot
  | None => Some f
  end.

(** ** Parts *)

(** A part: its index, and the bytes [part_off, part_off + part_len) of the
    object. *)
Record Part := mkPart { part_index : nat; part_off : Z; part_len : Z }.

#[export] Instance Part_eq_dec : EqDecision Part.
Proof. solve_decision. Defined.

(** The number of parts: [total / partSize], rounded up. *)
Definition part_count (partSize total : Z) : nat :=
  Z.to_nat ((total + partSize - 1) / partSize).

(** Part [i] starts at [i * partSize] and is [partSize] long, or as long as
    what is left of the object. *)
Definition part_at (partSize total : Z) (i : nat) : Part :=
  {| part_index := i;
     part_off := Z.of_nat i * partSize;
     part_len := Z.min partSize (total - Z.of_nat i * partSize) |}.

Definition partition (partSize total : Z) : list Part :=
  part_at partSize total <$> seq 0 (part_count partSize total).

(** The parts of an object of [total] bytes under a configuration. *)
Definition parts_of (c : Config) (total : Z) : list Part :=
  partition (PartSize c) total.

(** The bytes of a part. *)
Definition part_bytes {A} (data : list A) (p : Part) : list A :=
  slice data (part_off p) (part_len p).

(** ** The retry policy *)

(** What one HTTP exchange for a part gives: the result, a transient
    failure (network error, 5xx), or a response that retrying cannot fix. *)
Inductive response (R : Type) :=
| Done (r : R)
| Transient (e : GoError)
| Malformed (e : GoError).
Arguments Done {R}.
Arguments Transient {R}.
Arguments Malformed {R}.

(** How an exchange ends when it is not tried again. *)
Definition settle {R} (r : response R) : R + failure :=
  match r with
  | Done r => inl r
  | Transient e => inr (Unreachable e)
  | Malformed e => inr (ProtocolError e)
  end.

(** The attempts a part is allowed: the field [NTry] of the
    configuration, "maximum attempts for each part" (src/s3gof3r.go, line
    34).  A negative number allows none. *)
Definition attempts (c : Config) : nat := Z.to_nat (NTry c).

(** A worker's loop for one part.  [exchange k] is the response to request
    number [k] for the part (every request is the same: same range, same
    payload); [left] is the number of attempts left and [last] the error
    the loop ends with when none is left: the error of the last attempt.
    The result comes with the number of requests made so far. *)
Fixpoint attempt_part {R} (exchange : nat → response R)
    (left : nat) (k : nat) (last : failure) : (R + failure) * nat :=
  match left with
  | O => (inr last, k)
  | S n =>
      match exchange k with
      | Transient e => attempt_part exchange n (S k) (Unreachable e)
      | r => (settle r, S k)
      end
  end.

(** A part under a configuration: at most [NTry] requests.  A
    configuration that allows no attempt is a misuse: the part fails
    without a request. *)
Definition run_part {R} (c : Config) (exchange : nat → response R)
    : (R + failure) * nat :=
  attempt_part exchange (attempts c) 0 UsageError.

(** ** The error slot *)

Lemma record_error_Some slot f : is_Some (record_error slot f).
Proof. destruct slot; simpl; eauto. Qed.

Lemma record_error_first e f : record_error (Some e) f = Some e.
Proof. done. Qed.

Lemma record_error_idem slot f g :
  record_error (record_error slot f) g = record_error slot f.
Proof. by destruct slot. Qed.

(** ** The parts tile the object *)

Section partition.
Context (partSize total : Z).
Context (Hsize : 0 < partSize) (Htotal : 0 ≤ total).

Let n := Z.of_nat (part_count partSize total).

Lemma part_count_bounds : n * partSize - partSize < total ≤ n * partSize.
Proof.
  subst n. unfold part_count.
  pose proof (Z.div_mod (total + partSize - 1) partSize ltac:(lia)).
  pose proof (Z.mod_pos_bound (total + partSize - 1) partSize Hsize).
  assert (0 ≤ (total + partSize - 1) / partSize)
    by (apply Z.div_pos; lia).
  rewrite Z2Nat.id by done. nia.
Qed.

Lemma part_count_0 : n = 0 ↔ total = 0.
Proof. pose proof part_count_bounds. nia. Qed.

Lemma part_before_end i : i < n → i * partSize < total.
Proof. pose proof part_count_bounds. nia. Qed.

Lemma part_full i : i + 1 < n → i * partSize + partSize < total.
Proof. pose proof part_count_bounds. nia. Qed.

Lemma part_last i : i + 1 = n → total ≤ i * partSize + partSize.
Proof. pose proof part_count_bounds. nia. Qed.

Lemma part_count_unique (m : nat) :
  Z.of_nat m * partSize - partSize < total ≤ Z.of_nat m * partSize →
  part_count partSize total = m.
Proof. pose proof part_count_bounds. subst n. nia. Qed.

Lemma partition_length :
  length (partition partSize total) = part_count partSize total.
Proof. unfold partition. by rewrite length_fmap, length_seq. Qed.

Lemma partition_lookup (i : nat) :
  Z.of_nat i < n → partition partSize total !! i = Some (part_at partSize total i).
Proof.
  intros. unfold partition. by rewrite list_lookup_fmap, lookup_seq_lt by lia.
Qed.

Lemma partition_lookup_inv (i : nat) p :
  partition partSize total !! i = Some p →
  Z.of_nat i < n ∧ p = part_at partSize total i.
Proof.
  intros Hp. pose proof (lookup_lt_Some _ _ _ Hp) as Hi.
  rewrite partition_length in Hi. rewrite partition_lookup in Hp by lia.
  split; [lia|congruence].
Qed.

Lemma part_at_len (i : nat) :
  Z.of_nat i < n →
  0 < part_len (part_at partSize total i) ≤ partSize ∧
  part_off (part_at partSize total i) + part_len (part_at partSize total i)
  = Z.min ((Z.of_nat i + 1) * partSize) total.
Proof. intros Hi. pose proof (part_before_end _ Hi). simpl. lia. Qed.

(** The offsets the plan computes stay in [int64] when the object's length
    does: a part's end is at most the length, so a part's range is formed
    without wrap-around. *)
Lemma part_in_range p :
  int64_range total → p ∈ partition partSize total →
  int64_range (part_off p) ∧ int64_range (part_len p) ∧
  int64_range (part_off p + part_len p) ∧ part_off p + part_len p ≤ total.
Proof.
  intros Ht [i [Hi ->]%partition_lookup_inv]%list_elem_of_lookup.
  destruct (part_at_len i Hi) as [? Hend].
  pose proof (part_before_end _ Hi). unfold int64_range in *.
  rewrite Hend. simpl in *. lia.
Qed.

Lemma partition_take_S (k : nat) :
  Z.of_nat k < n →
  take (S k) (partition partSize total)
  = take k (partition partSize total) ++ [part_at partSize total k].
Proof. intros. by apply take_S_r, partition_lookup. Qed.

(** The first [k * partSize] bytes and the bytes of part [k] are the first
    [(k + 1) * partSize] bytes. *)
Lemma take_part {A} (data : list A) (k : nat) :
  Z.of_nat (length data) = total → Z.of_nat k < n →
  take (Z.to_nat (Z.of_nat k * partSize)) data
    ++ part_bytes data (part_at partSize total k)
  = take (Z.to_nat (Z.of_nat (S k) * partSize)) data.
Proof.
  intros Hd Hk. unfold part_bytes.
  destruct (part_at_len k Hk) as [? Hend].
  rewrite take_slice by (simpl in *; lia). rewrite Hend.
  destruct (decide ((Z.of_nat k + 1) * partSize ≤ total)).
  - f_equal. lia.
  - rewrite !take_ge; [done|lia..].
Qed.

(** The slices of the first [k] parts, put together, are the first
    [k * partSize] bytes. *)
Lemma parts_prefix {A} (data : list A) (k : nat) :
  Z.of_nat (length data) = total → Z.of_nat k ≤ n →
  concat (part_bytes data <$> take k (partition partSize total))
  = take (Z.to_nat (Z.of_nat k * partSize)) data.
Proof.
  intros Hd. induction k as [|k IH]; intros Hk.
  - by rewrite take_0.
  - rewrite partition_take_S, fmap_app, concat_app, IH by lia. simpl.
    rewrite app_nil_r. apply take_part; [done|lia].
Qed.

(** Once every part is counted the prefix is the whole object. *)
Lemma take_parts_all {A} (data : list A) :
  Z.of_nat (length data) = total →
  take (Z.to_nat (n * partSize)) data = data.
Proof. intros. pose proof part_count_bounds. apply take_ge. lia. Qed.

Lemma part_bytes_length {A} (data : list A) (k : nat) :
  Z.of_nat (length data) = total → Z.of_nat k < n →
  Z.of_nat (length (part_bytes data (part_at partSize total k)))
  = part_len (part_at partSize total k).
Proof.
  intros Hd Hk. destruct (part_at_len k Hk) as [? Hend].
  apply slice_length; simpl in *; lia.
Qed.

(** The lengths of the first [k] parts add up to [k * partSize], or to the
    length of the object. *)
Lemma parts_len_prefix (k : nat) :
  Z.of_nat k ≤ n →
  sumZ (part_len <$> take k (partition partSize total))
  = Z.min (Z.of_nat k * partSize) total.
Proof.
  induction k as [|k IH]; intros Hk; [simpl; lia|].
  rewrite partition_take_S, fmap_app, sumZ_app, IH by lia.
  pose proof (part_before_end (Z.of_nat k) ltac:(lia)). simpl. lia.
Qed.

End partition.

(** ** The retry policy *)

Section retry.
Context {R : Type}.
Implicit Types (exchange : nat → response R).

Definition is_Transient (r : response R) : Prop :=
  match r with Transient _ => True | _ => False end.

#[export] Instance is_Transient_dec r : Decision (is_Transient r).
Proof. destruct r; apply _. Defined.

(** What the loop returns.  It makes at most [left] requests; every
    response before the last was a transient failure; with no request made
    it returns the error it was given; otherwise it returns the last
    response, which is a transient failure only when no attempt is left. *)
Lemma attempt_part_spec exchange left k last res m :
  attempt_part exchange left k last = (res, m) →
  (k ≤ m ≤ k + left)%nat ∧
  (∀ j, (k ≤ j < m - 1)%nat → is_Transient (exchange j)) ∧
  (m = k → left = 0%nat ∧ res = inr last) ∧
  ((k < m)%nat → res = settle (exchange (m - 1)%nat) ∧
     (is_Transient (exchange (m - 1)%nat) → m = (k + left)%nat)).
Proof.
  revert k last. induction left as [|n IH]; intros k last; simpl.
  { intros [= <- <-]. split_and!; first [done | intros; lia]. }
  destruct (exchange k) eqn:Hk;
    try (intros [= <- <-]; replace (S k - 1)%nat with k by lia; rewrite Hk;
         split_and!; first [done | intros; lia]).
  intros (? & Htr & H0 & Hlast)%IH.
  destruct (decide (m = S k)) as [->|].
  - destruct (H0 eq_refl) as [-> ->]. replace (S k - 1)%nat with k by lia.
    rewrite Hk. split_and!; first [by intros; split; [|lia] | intros; lia].
  - destruct Hlast as [-> Hlast]; [lia|].
    split_and!; [lia..| |intros; lia|split; [done|intros ?%Hlast; lia]].
    intros j ?. destruct (decide (j = k)) as [->|]; [by rewrite Hk|].
    apply Htr. lia.
Qed.

(** The first answer that is not a transient failure ends the loop, and
    so does the last attempt. *)
Lemma attempt_part_settled exchange left k last (d : nat) :
  (∀ j, (k ≤ j < k + d)%nat → is_Transient (exchange j)) →
  (d < left)%nat →
  ¬ is_Transient (exchange (k + d)%nat) ∨ S d = left →
  attempt_part exchange left k last
  = (settle (exchange (k + d)%nat), S (k + d)).
Proof.
  revert left k last. induction d as [|d IH]; intros [|n] k last Htr Hd Hend;
    try lia; simpl.
  - rewrite Nat.add_0_r in *.
    destruct (exchange k) eqn:Hk; simpl in *; try done.
    destruct Hend as [Hn|[= <-]]; [by destruct Hn|done].
  - pose proof (Htr k ltac:(lia)) as Hk.
    destruct (exchange k); [done| |done].
    rewrite (IH n (S k)); [by rewrite Nat.add_succ_comm| |lia|].
    + intros j ?. apply Htr. lia.
    + rewrite Nat.add_succ_comm. destruct Hend; [by left|right; lia].
Qed.

(** When every answer is the result [r] or a transient failure, and one
    of the requests the attempts allow is answered, the part has the
    result. *)
Lemma attempt_part_answered exchange left j last r :
  (∀ k, exchange k = Done r ∨ is_Transient (exchange k)) →
  (∃ k, (j ≤ k < j + left)%nat ∧ exchange k = Done r) →
  (attempt_part exchange left j last).1 = inl r.
Proof.
  intros Hall. revert j last.
  induction left as [|n IH]; intros j last (k & Hk & Hr); simpl; [lia|].
  destruct (Hall j) as [Hj|Hj]; [by rewrite Hj|].
  destruct (exchange j) eqn:Hej; try done. apply IH. exists k.
  split; [|done]. destruct (decide (k = j)) as [->|]; [congruence|lia].
Qed.

(** A result is the answer to one of the requests. *)
Lemma run_part_Done c exchange r :
  (run_part c exchange).1 = inl r → ∃ k, exchange k = Done r.
Proof.
  unfold run_part. destruct (attempt_part _ _ _ _) as [res m] eqn:Hrun.
  apply attempt_part_spec in Hrun as (_ & _ & H0 & Hm). simpl. intros ->.
  destruct (decide (m = 0%nat)) as [Hz|]; [by destruct (H0 Hz)|].
  destruct Hm as [Hm _]; [lia|]. exists (m - 1)%nat.
  by destruct (exchange (m - 1)%nat); simplify_eq/=.
Qed.

(** A configuration that allows no attempt: the part fails without a
    request. *)
Lemma run_part_none c exchange :
  NTry c ≤ 0 → run_part c exchange = (inr UsageError, 0%nat).
Proof.
  intros. unfold run_part, attempts. by replace (Z.to_nat (NTry c)) with 0%nat by lia.
Qed.

(** C33: a part costs at most [NTry] requests, the maximum of
    attempts the comment of the field gives.  Whatever the exchanges
    answer, the worker stops after at most [NTry] requests, and after at
    least one when [NTry] allows one; it returns the answer to the last
    request, every request before that one met a transient failure, and
    it gives up on a transient failure only if that was request number
    [NTry]. *)
Theorem run_part_requests c exchange res m :
  run_part c exchange = (res, m) →
  Z.of_nat m ≤ Z.max 0 (NTry c) ∧
  (∀ j, (j < m - 1)%nat → is_Transient (exchange j)) ∧
  (1 ≤ NTry c →
     (1 ≤ m)%nat ∧ res = settle (exchange (m - 1)%nat) ∧
     (is_Transient (exchange (m - 1)%nat) → Z.of_nat m = NTry c)).
Proof.
  intros (? & Htr & H0 & Hm)%attempt_part_spec. unfold attempts in *.
  split_and!; [lia|intros j ?; apply Htr; lia|]. intros Hn.
  assert (0 < m)%nat as [? Hlast]%Hm.
  { destruct (decide (m = 0%nat)) as [[]%H0|]; lia. }
  split_and!; [lia|done|intros ?%Hlast; lia].
Qed.

(** The outcome of a part is the first answer that is not a
    transient failure, if it comes within [NTry] attempts: a result is
    returned (the attempts before it leave no trace), a malformed response
    is fatal at once and is not tried again.  If request number [NTry]
    still fails the part fails with that last error. *)
Theorem run_part_outcome c exchange (k : nat) :
  Z.of_nat k < NTry c →
  (∀ j, (j < k)%nat → is_Transient (exchange j)) →
  ¬ is_Transient (exchange k) ∨ Z.of_nat k + 1 = NTry c →
  run_part c exchange = (settle (exchange k), S k).
Proof.
  intros Hk Htr Hlast. unfold run_part, attempts.
  apply (attempt_part_settled _ _ 0 _ k); [intros; apply Htr|..]; [lia..|].
  destruct Hlast; [by left|right; lia].
Qed.

End retry.

(** ** Parts under a configuration *)

Section parts_of.
Context (c : Config) (total : Z).
Context (Hsize : 0 < PartSize c) (Htotal : 0 ≤ total).

(** The parts tile the object.  Part [i] has index [i], starts at
    [i * PartSize], is not empty and no longer than [PartSize]; every part
    but the last has exactly [PartSize] bytes, and the last one ends where
    the object ends. *)
Theorem parts_tile (i : nat) p :
  parts_of c total !! i = Some p →
  part_index p = i ∧ part_off p = Z.of_nat i * PartSize c ∧
  0 < part_len p ≤ PartSize c ∧
  (is_Some (parts_of c total !! S i) → part_len p = PartSize c) ∧
  (parts_of c total !! S i = None → part_off p + part_len p = total).
Proof.
  intros Hp. apply partition_lookup_inv in Hp as [Hi ->]; [|done..].
  destruct (part_at_len _ _ Hsize Htotal i Hi) as [? Hend].
  split_and!; [done..|lia|lia| |].
  - intros [q Hq]. apply partition_lookup_inv in Hq as [Hq _]; [|done..].
    pose proof (part_full _ _ Hsize Htotal (Z.of_nat i) ltac:(lia)). simpl. lia.
  - intros Hn. apply lookup_ge_None_1 in Hn. unfold parts_of in Hn.
    rewrite partition_length in Hn.
    pose proof (part_last _ _ Hsize Htotal (Z.of_nat i) ltac:(lia)).
    simpl in *. lia.
Qed.

(** Completeness.  The bytes of the parts, put together in index
    order, are the object: nothing is lost, repeated or out of place. *)
Theorem parts_concat {A} (data : list A) :
  Z.of_nat (length data) = total →
  concat (part_bytes data <$> parts_of c total) = data.
Proof.
  intros Hd. unfold parts_of.
  rewrite <-(firstn_all (partition _ _)), partition_length.
  rewrite (parts_prefix _ _ Hsize Htotal) by (done || lia).
  by apply take_parts_all.
Qed.

(** The lengths of the parts add up to the length of the object. *)
Lemma parts_total : sumZ (part_len <$> parts_of c total) = total.
Proof.
  unfold parts_of. rewrite <-(firstn_all (partition _ _)), partition_length.
  rewrite (parts_len_prefix _ _ Hsize Htotal) by lia.
  pose proof (part_count_bounds _ _ Hsize Htotal). lia.
Qed.

End parts_of.

(** ** Examples *)

(** Scenario A of the design: an object of twice the part size has two
    full parts. *)
Lemma parts_of_double c :
  0 < PartSize c →
  parts_of c (2 * PartSize c)
  = [mkPart 0 0 (PartSize c); mkPart 1 (PartSize c) (PartSize c)].
Proof.
  intros. unfold parts_of, partition, part_count.
  replace (2 * PartSize c + PartSize c - 1)
    with (2 * PartSize c + (PartSize c - 1)) by lia.
  rewrite Z.div_add_l, Z.div_small by lia. simpl. unfold part_at. simpl.
  repeat f_equal; lia.
Qed.

(** Scenario B: an object one byte short of the part size is one part. *)
Lemma parts_of_short c :
  1 < PartSize c →
  parts_of c (PartSize c - 1) = [mkPart 0 0 (PartSize c - 1)].
Proof.
  intros. unfold parts_of, partition, part_count.
  replace (PartSize c - 1 + PartSize c - 1)
    with (1 * PartSize c + (PartSize c - 2)) by lia.
  rewrite Z.div_add_l, Z.div_small by lia. simpl. unfold part_at. simpl.
  repeat f_equal; lia.
Qed.

(** An object of 50 MiB under the default configuration: 20 + 20 + 10. *)
Example parts_of_default :
  parts_of DefaultConfig_value (50 * mb)
  = [mkPart 0 0 (20 * mb); mkPart 1 (20 * mb) (20 * mb);
     mkPart 2 (40 * mb) (10 * mb)].
Proof. by vm_compute. Qed.

(** A configuration with parts of four bytes and three attempts. *)
Definition small_config : Config :=
  {| Client := None; Concurrency := 2; PartSize := 4; NTry := 3;
     Md5Check := true; Scheme := "https" |}.

Definition hello : bytes := list_byte_of_string "hello, S3!".

(** A server that answers the third request. *)
Definition flaky (k : nat) : response bytes :=
  if decide (k < 2)%nat then Transient (mkError "connection reset")
  else Done hello.

(** A server that is down. *)
Definition down (k : nat) : response bytes :=
  Transient (mkError "connection reset").

Lemma parts_tile_witness :
  part_index (mkPart 2 8 2) = 2%nat ∧ part_off (mkPart 2 8 2) = Z.of_nat 2 * 4 ∧
  0 < part_len (mkPart 2 8 2) ≤ 4 ∧
  (is_Some (parts_of small_config 10 !! 3%nat) → part_len (mkPart 2 8 2) = 4) ∧
  (parts_of small_config 10 !! 3%nat = None → 8 + 2 = 10).
Proof.
  apply (parts_tile small_config 10 ltac:(done) ltac:(done) 2 (mkPart 2 8 2)).
  reflexivity.
Defined.

Lemma parts_concat_witness :
  concat (part_bytes hello <$> parts_of small_config 10) = hello.
Proof. apply (parts_concat small_config 10); [done..|reflexivity]. Defined.

Lemma run_part_requests_witness :
  Z.of_nat 3 ≤ Z.max 0 3 ∧
  (∀ j, (j < 3 - 1)%nat → is_Transient (flaky j)) ∧
  (1 ≤ 3 →
     (1 ≤ 3)%nat ∧ inl hello = settle (flaky (3 - 1)%nat) ∧
     (is_Transient (flaky (3 - 1)%nat) → Z.of_nat 3 = 3)).
Proof. apply (run_part_requests small_config flaky (inl hello) 3). reflexivity. Defined.

(** Three attempts and no more: a server that is down costs three
    requests, and a server that would answer the fourth is not asked. *)
Lemma run_part_outcome_witness :
  run_part small_config down
  = (inr (Unreachable (mkError "connection reset")), 3%nat).
Proof.
  apply (run_part_outcome small_config down 2); [done| |by right].
  intros; exact I.
Defined.

(** A server that answers the fourth request. *)
Definition late (k : nat) : response bytes :=
  if decide (k < 3)%nat then Transient (mkError "connection reset")
  else Done hello.

Example run_part_late :
  run_part small_config late
  = (inr (Unreachable (mkError "connection reset")), 3%nat).
Proof. reflexivity. Qed.

(** No attempt allowed, no request made. *)
Definition idle_attempts : Config :=
  {| Client := None; Concurrency := 2; PartSize := 4; NTry := 0;
     Md5Check := true; Scheme := "https" |}.

Example run_part_no_attempt :
  run_part idle_attempts flaky = (inr UsageError, 0%nat).
Proof. reflexivity. Qed.
