(* ===== verification/Service.v ===== *)
(** * Service: the object store the transfers talk to

    The service is not in [src/]; this file follows what the design
    document says of its protocol (section 6) and of the digest kept beside
    an object (sections 3, 4.2 and 4.3).  From the code it takes the place
    of that digest, which the comment of [Md5Check] gives: the object
    [.md5/<key>] of the same bucket.

    A [service] is the contents of one bucket: the objects by key, and the
    multipart uploads that are open, each with the parts it has received,
    by index.  A request is one atomic operation: [stat] is the first
    request of a download (the length of the object, and the stored digest
    if there is one), [get_range] a ranged GET, [initiate_upload],
    [upload_part], [complete_upload] and [abort_upload] the four requests
    of a multipart upload, [put_object] a plain PUT.  [etag] is the
    service's function from the bytes of a part to its entity tag.

    The lemmas are the facts the transfers rely on: a part uploaded twice
    is a part uploaded once; the requests of an upload leave the objects
    alone until the completion; a completion that lists, in index order,
    the tags of parts the upload holds makes the object of their bytes and
    closes the upload; nothing is left of an aborted upload. *)

From Stdlib Require Import ZArith String List Lia.
From stdpp Require Import base tactics option list numbers strings gmap.
From S2P Require Import Prelude Types Scheduler.

Local Open Scope Z_scope.

(** ** State *)

(** The digest of the object [key] is the object [.md5/key]. *)
Definition md5_path (key : string) : string := ".md5/" +:+ key.

(** An open multipart upload: the key it will be stored under, and the
    parts received. *)
Record multipart := mkMultipart {
  m_key : string;
  m_parts : gmap nat bytes;
}.

Record service := mkService {
  objects : gmap string bytes;
  multiparts : gmap positive multipart;
}.

Definition no_such_key : GoError := mkError "404 NoSuchKey".
Definition invalid_range : GoError := mkError "416 InvalidRange".
Definition no_such_upload : GoError := mkError "404 NoSuchUpload".
Definition invalid_part : GoError := mkError "400 InvalidPart".
Definition invalid_part_order : GoError := mkError "400 InvalidPartOrder".

(** ** Requests *)

(** The first request of a download: the length of the object, and its
    stored digest when the bucket has one. *)
Definition stat (key : string) (svc : service) : option (Z * option string) :=
  data ← objects svc !! key;
  Some (Z.of_nat (length data),
        string_of_list_byte <$> objects svc !! md5_path key).

(** A ranged GET: the bytes of the range that the object has. *)
Definition get_range (key : string) (off len : Z) (svc : service)
    : response bytes :=
  match objects svc !! key with
  | Some data =>
      if decide (0 ≤ off < Z.of_nat (length data))
      then Done (slice data off len)
      else Malformed invalid_range
  | None => Malformed no_such_key
  end.

Definition put_object (key : string) (b : bytes) (svc : service) : service :=
  mkService (<[key := b]> (objects svc)) (multiparts svc).

(** The request that initiates an upload: a new upload identifier. *)
Definition initiate_upload (key : string) (svc : service) : positive * service :=
  let uid := fresh (dom (multiparts svc)) in
  (uid, mkService (objects svc) (<[uid := mkMultipart key ∅]> (multiparts svc))).

Definition abort_upload (uid : positive) (svc : service) : service :=
  mkService (objects svc) (delete uid (multiparts svc)).

(** Indices in strictly ascending order. *)
Fixpoint ascending (l : list nat) : bool :=
  match l with
  | i :: (j :: _) as l' => bool_decide (i < j)%nat && ascending l'
  | _ => true
  end.

Section service.
Context (etag : bytes → string).

(** Part [i] of an upload: the part is stored, over what the upload had
    under that index, and its entity tag is the answer. *)
Definition upload_part (uid : positive) (i : nat) (b : bytes) (svc : service)
    : response string * service :=
  match multiparts svc !! uid with
  | Some m =>
      (Done (etag b),
       mkService (objects svc)
         (<[uid := mkMultipart (m_key m) (<[i := b]> (m_parts m))]>
            (multiparts svc)))
  | None => (Malformed no_such_upload, svc)
  end.

(** The bytes of a listed part: the upload has the part and the tag is
    its tag. *)
Definition listed (parts : gmap nat bytes) (it : nat * string) : option bytes :=
  b ← parts !! it.1; if decide (etag b = it.2) then Some b else None.

(** The completion request.  The list is in ascending order of index and
    every entry names a part of the upload with its tag: the object is the
    bytes of the listed parts, in that order, and the upload is no more.
    Otherwise the request fails and nothing changes. *)
Definition complete_upload (uid : positive) (l : list (nat * string))
    (svc : service) : option GoError * service :=
  match multiparts svc !! uid with
  | None => (Some no_such_upload, svc)
  | Some m =>
      if ascending l.*1 then
        match mapM (listed (m_parts m)) l with
        | Some bs =>
            (None, mkService (<[m_key m := concat bs]> (objects svc))
                     (delete uid (multiparts svc)))
        | None => (Some invalid_part, svc)
        end
      else (Some invalid_part_order, svc)
  end.

(** ** Facts *)

Lemma md5_path_ne key : md5_path key ≠ key.
Proof.
  intros Heq%(f_equal String.length). unfold md5_path in Heq.
  rewrite str_length_app in Heq. simpl in Heq. lia.
Qed.

(** The digest of an object is stored as the bytes of its text, and read
    back as that text. *)
Lemma stat_put_digest key data d svc :
  objects svc !! key = Some data →
  stat key (put_object (md5_path key) (list_byte_of_string d) svc)
  = Some (Z.of_nat (length data), Some d).
Proof.
  intros Hk. unfold stat, put_object. simpl.
  rewrite (lookup_insert_ne _ (md5_path key) key) by apply md5_path_ne.
  rewrite Hk. simpl.
  rewrite lookup_insert_eq. simpl. by rewrite string_of_list_byte_of_string.
Qed.

(** A range request within the object answers with the bytes of the
    range. *)
Lemma get_range_Done key off len svc b :
  get_range key off len svc = Done b →
  ∃ data, objects svc !! key = Some data ∧ b = slice data off len.
Proof.
  unfold get_range. destruct (objects svc !! key) as [data|]; [|done].
  case_decide; [|done]. intros [= <-]. eauto.
Qed.

(** Uploading a part again, with the same bytes, changes nothing and gets
    the same answer. *)
Lemma upload_part_idempotent uid i b svc :
  upload_part uid i b (upload_part uid i b svc).2 = upload_part uid i b svc.
Proof.
  unfold upload_part. destruct (multiparts svc !! uid) as [m|] eqn:Hm; simpl.
  - rewrite lookup_insert_eq. simpl. by rewrite !insert_insert_eq.
  - by rewrite Hm.
Qed.

Lemma upload_part_open uid i b svc m :
  multiparts svc !! uid = Some m →
  (upload_part uid i b svc).1 = Done (etag b) ∧
  objects (upload_part uid i b svc).2 = objects svc ∧
  multiparts (upload_part uid i b svc).2 !! uid
  = Some (mkMultipart (m_key m) (<[i := b]> (m_parts m))).
Proof. intros Hm. unfold upload_part. rewrite Hm. simpl. by rewrite lookup_insert_eq. Qed.

Lemma initiate_upload_open key svc :
  multiparts svc !! (initiate_upload key svc).1 = None ∧
  multiparts (initiate_upload key svc).2 !! (initiate_upload key svc).1
  = Some (mkMultipart key ∅) ∧
  objects (initiate_upload key svc).2 = objects svc.
Proof.
  simpl. rewrite lookup_insert_eq. split_and!; [|done..].
  apply (not_elem_of_dom (D := gset positive)), is_fresh.
Qed.

(** The parts a completion list names, when each is there with its tag. *)
Lemma mapM_listed (parts : gmap nat bytes) (f : nat → bytes) (l : list nat) :
  (∀ i, i ∈ l → parts !! i = Some (f i)) →
  mapM (listed parts) ((λ i, (i, etag (f i))) <$> l) = Some (f <$> l).
Proof.
  intros Hall. apply mapM_Some, Forall2_fmap_l, Forall2_fmap_r.
  apply Forall_Forall2_diag, Forall_forall. intros i Hi.
  unfold listed. simpl. rewrite (Hall i Hi). simpl. by rewrite decide_True.
Qed.

Lemma ascending_seq (j n : nat) : ascending (seq j n) = true.
Proof.
  revert j. induction n as [|n IH]; intros j; [done|].
  destruct n as [|n]; [done|]. specialize (IH (S j)). simpl in *.
  rewrite IH. by rewrite bool_decide_eq_true_2 by lia.
Qed.

(** A completion that lists the first [n] parts with their tags. *)
Lemma complete_upload_all uid key (parts : gmap nat bytes) (f : nat → bytes)
    (n : nat) svc :
  multiparts svc !! uid = Some (mkMultipart key parts) →
  (∀ i, (i < n)%nat → parts !! i = Some (f i)) →
  complete_upload uid ((λ i, (i, etag (f i))) <$> seq 0 n) svc
  = (None, mkService (<[key := concat (f <$> seq 0 n)]> (objects svc))
             (delete uid (multiparts svc))).
Proof.
  intros Hm Hall. unfold complete_upload. rewrite Hm. simpl.
  rewrite <-list_fmap_compose, (list_fmap_ext _ id (seq 0 n)) by done.
  rewrite list_fmap_id, ascending_seq, mapM_listed; [done|].
  intros i ?%elem_of_seq. apply Hall. lia.
Qed.

End service.
