(* ===== verification/Getter.v ===== *)
(** * Getter: the downloader

    The downloader is not in [src/]; this file follows its description in
    the design document (sections 3, 4.2, 5 and 7).  From the code it takes
    the configuration: [Concurrency] bounds the parts in flight or waiting
    to be read, [PartSize] cuts the object into parts, [NTry] is the number
    of attempts of a part and [Md5Check] turns the integrity check on.

    A download is a [getter]: the snapshot of the configuration, the length
    of the object and the stored digest (both known after the first
    request), and what the workers and the reader share: the parts in
    flight, the reorder buffer, the index of the next part the stream
    expects, the parts delivered in order and not read yet, the bytes fed to
    the running digest, the bytes the caller has read, the error slot.

    Goroutines are modelled by interleaving.  What a worker or the caller
    does to the shared state is one atomic operation (the design asks for
    a mutex around each): [Issue] hands the next part to a worker, [Finish]
    is a worker done with its part (after the attempts of [run_part]),
    [Read] and [Close] are the caller's calls.  An [event] names one of
    them; a run of the downloader is a list of events, in any order the
    guards of the operations allow, and [run] executes it.  A [Read] that
    has to wait is an event that is not enabled.

    The theorems hold for every run: the bytes delivered are a prefix of
    the object, in order ([download_in_order]); the parts that hold memory
    are at most [Concurrency] ([download_bounded]); the first error stays
    ([download_first_error]); a read that waits can be served
    ([download_progress]); a [Close] before the end cancels the download
    and releases what it holds ([close_cancels]).  And a download can
    finish: the schedule [sequential] runs to the end of the stream when
    the server answers every part within the attempts
    ([sequential_download]).  Whatever the server answers, the digest has
    seen the bytes the reader was given ([accounted], [step_accounted]),
    so that a reader that is told of no error has read bytes of the stored
    digest ([accounted_verdict]). *)

From Stdlib Require Import ZArith String List Lia.
From stdpp Require Import base tactics option list numbers strings gmap sets.
From S2P Require Import Prelude Types Scheduler.

Local Open Scope Z_scope.
#[local] Set Warnings "-clear-no-such-hyp".

(** ** State *)

Record getter := mkGetter {
  g_config : Config;          (* the configuration at the start *)
  g_total : Z;                (* the length of the object *)
  g_md5 : option string;      (* the stored digest, if there is one *)
  g_issued : nat;             (* parts handed to workers: those below *)
  g_inflight : gset nat;      (* parts in flight *)
  g_buffer : gmap nat bytes;  (* reorder buffer: arrived, not in order yet *)
  g_next : nat;               (* the next index the stream expects *)
  g_queue : list bytes;       (* parts delivered in order, not read yet *)
  g_hash : bytes;             (* the bytes fed to the running digest *)
  g_read : bytes;             (* the bytes the caller has read *)
  g_err : option failure;     (* the error slot *)
  g_closed : bool;
}.

(** What a call of [Read] returns. *)
Inductive read_result :=
| ReadBytes (b : bytes)
| ReadEOF
| ReadErr (f : failure).

(** The steps of a download. *)
Inductive event :=
| EvIssue
| EvFinish (i : nat)
| EvRead (n : nat)
| EvClose.

#[export] Instance event_eq_dec : EqDecision event.
Proof. solve_decision. Defined.

(** ** Operations *)

(** A download right after its first request. *)
Definition open_getter (c : Config) (total : Z) (md5 : option string) : getter :=
  mkGetter c total md5 0 ∅ ∅ 0 [] [] [] None false.

Definition g_count (g : getter) : nat :=
  part_count (PartSize (g_config g)) (g_total g).

Definition g_part (g : getter) (i : nat) : Part :=
  part_at (PartSize (g_config g)) (g_total g) i.

(** The parts that hold memory: in flight, in the reorder buffer, or
    delivered and not read. *)
Definition g_load (g : getter) : nat :=
  (size (g_inflight g) + size (g_buffer g) + length (g_queue g))%nat.

(** The scheduler starts a part when the transfer is live, a part is left
    and the configured concurrency leaves room for it. *)
Definition can_issue (g : getter) : bool :=
  bool_decide (g_closed g = false ∧ g_err g = None ∧
               (g_issued g < g_count g)%nat ∧
               Z.of_nat (g_load g) < Concurrency (g_config g)).

Definition Issue (g : getter) : option getter :=
  if can_issue g then
    let '(mkGetter c t m iss infl buf nx q h r e cl) := g in
    Some (mkGetter c t m (S iss) ({[iss]} ∪ infl) buf nx q h r e cl)
  else None.

(** The part the stream expects leaves the reorder buffer for the reader's
    queue, and its bytes go into the digest. *)
Definition deliver (g : getter) : option getter :=
  let '(mkGetter c t m iss infl buf nx q h r e cl) := g in
  b ← buf !! nx;
  Some (mkGetter c t m iss infl (delete nx buf) (S nx) (q ++ [b]) (h ++ b) r e cl).

(** All the parts that are next in line, one after the other. *)
Fixpoint drain (fuel : nat) (g : getter) : getter :=
  match fuel with
  | O => g
  | S n => match deliver g with
           | Some g' => drain n g'
           | None => g
           end
  end.

(** A fatal error goes into the error slot. *)
Definition fail (f : failure) (g : getter) : getter :=
  let '(mkGetter c t m iss infl buf nx q h r e cl) := g in
  mkGetter c t m iss infl buf nx q h r (record_error e f) cl.

(** Part [i] goes into the reorder buffer. *)
Definition insert_part (i : nat) (b : bytes) (g : getter) : getter :=
  let '(mkGetter c t m iss infl buf nx q h r e cl) := g in
  mkGetter c t m iss infl (<[i := b]> buf) nx q h r e cl.

(** A part arrives: it is buffered, and what is in order is delivered. *)
Definition arrive (i : nat) (b : bytes) (g : getter) : getter :=
  let g' := insert_part i b g in
  drain (S (size (g_buffer g'))) g'.

Definition release (i : nat) (g : getter) : getter :=
  let '(mkGetter c t m iss infl buf nx q h r e cl) := g in
  mkGetter c t m iss (infl ∖ {[i]}) buf nx q h r e cl.

(** A worker is done with part [i].  [server i k] is the response to
    request number [k] for the range of part [i].  A part that failed, or
    that has not the length of its range, is a fatal error; a part of a
    transfer that is closed or has failed is dropped; any other part goes
    to the reorder buffer, and from there to the reader if it is next. *)
Definition Finish (server : nat → nat → response bytes) (i : nat)
    (g : getter) : option getter :=
  if decide (i ∈ g_inflight g) then
    let g' := release i g in
    Some
      (if g_closed g then g'
       else match (run_part (g_config g) (server i)).1 with
            | inr f => fail f g'
            | inl b =>
                if bool_decide (Z.of_nat (length b) = part_len (g_part g i))
                then (if g_err g is Some _ then g' else arrive i b g')
                else fail IntegrityError g'
            end)
  else None.

(** [Read] with room for [n] bytes: bytes of the first part in the queue
    if there is one, the error if there is one, end of stream when every
    part has been read; [None] when the caller has to wait. *)
Definition Read (n : nat) (g : getter) : option (read_result * getter) :=
  let '(mkGetter c t m iss infl buf nx q h r e cl) := g in
  if cl then Some (ReadErr Cancelled, g)
  else match q with
       | b :: q' =>
           let q'' := if decide (drop n b = []) then q' else drop n b :: q' in
           Some (ReadBytes (take n b),
                 mkGetter c t m iss infl buf nx q'' h (r ++ take n b) e cl)
       | [] =>
           match e with
           | Some f => Some (ReadErr f, g)
           | None => if decide (nx = g_count g) then Some (ReadEOF, g) else None
           end
       end.

(** The stream has been delivered and read to its end. *)
Definition at_eof (g : getter) : bool :=
  bool_decide (g_next g = g_count g ∧ g_queue g = []).

Section digest.
Context (digest : bytes → string).

(** The integrity check: a stored digest that differs from the digest of
    the bytes delivered is an error; no stored digest, no check. *)
Definition verify (g : getter) : option failure :=
  if Md5Check (g_config g) then
    match g_md5 g with
    | Some d => if decide (d = digest (g_hash g)) then None else Some IntegrityError
    | None => None
    end
  else None.

(** [Close] releases the buffered parts and reports the error of the
    transfer, which at the end of the stream is the verdict of the integrity
    check.  A second [Close] reports the same. *)
Definition Close (g : getter) : option failure * getter :=
  let '(mkGetter c t m iss infl buf nx q h r e cl) := g in
  if cl then (e, g)
  else
    let e' := match e with
              | Some f => Some f
              | None => if at_eof g then verify g else None
              end in
    (e', mkGetter c t m iss infl ∅ nx [] h r e' true).

Context (server : nat → nat → response bytes).

Definition step (ev : event) (g : getter) : option getter :=
  match ev with
  | EvIssue => Issue g
  | EvFinish i => Finish server i g
  | EvRead n => snd <$> Read n g
  | EvClose => Some (Close g).2
  end.

(** A run: the events one after the other, as long as each is enabled. *)
Definition run : list event → getter → option getter := run_steps step.

End digest.

(** ** Well-formed downloads *)

(** What holds of the shared state between any two steps: the parts that
    hold memory are within the configured concurrency; the parts in flight
    and in the reorder buffer are handed out and not delivered; no part is
    in both places. *)
Record getter_wf (g : getter) : Prop := {
  wf_load : Z.of_nat (g_load g) ≤ Z.max 0 (Concurrency (g_config g));
  wf_issued : (g_issued g ≤ g_count g)%nat;
  wf_next : (g_next g ≤ g_issued g)%nat;
  wf_inflight i : i ∈ g_inflight g → (g_next g ≤ i < g_issued g)%nat;
  wf_buffer i :
    is_Some (g_buffer g !! i) →
    (g_next g ≤ i < g_issued g)%nat ∧ i ∉ g_inflight g;
}.

(** The reorder buffer does not hold the part the stream waits for. *)
Definition drained (g : getter) : Prop := g_buffer g !! g_next g = None.

(** While the transfer is live no part is lost: a part handed out and not
    delivered is in flight or in the reorder buffer. *)
Definition covered (g : getter) : Prop :=
  g_closed g = false → g_err g = None →
  ∀ i, (g_next g ≤ i < g_issued g)%nat →
       i ∈ g_inflight g ∨ is_Some (g_buffer g !! i).

Definition getter_ok (g : getter) : Prop :=
  getter_wf g ∧ covered g ∧ drained g.

Lemma getter_ok_intro g : getter_wf g ∧ covered g → drained g → getter_ok g.
Proof. unfold getter_ok. tauto. Qed.

(** The parts of the object and its length are those of the start. *)
Definition same_transfer (g g' : getter) : Prop :=
  g_config g' = g_config g ∧ g_total g' = g_total g ∧ g_md5 g' = g_md5 g.

#[export] Instance same_transfer_preorder : PreOrder same_transfer.
Proof.
  split; [done|]. intros g1 g2 g3 (? & ? & ?) (? & ? & ?).
  repeat split; congruence.
Qed.

Lemma same_transfer_count g g' : same_transfer g g' → g_count g' = g_count g.
Proof. intros (Hc & Ht & _). unfold g_count. by rewrite Hc, Ht. Qed.

Lemma same_transfer_part g g' i : same_transfer g g' → g_part g' i = g_part g i.
Proof. intros (Hc & Ht & _). unfold g_part. by rewrite Hc, Ht. Qed.

(** Unfold the derived fields of a state given by its constructor. *)
Ltac gsimpl := unfold g_count, g_part, g_load, drained, covered in *; simpl in *.

Lemma open_getter_ok c total md5 : getter_ok (open_getter c total md5).
Proof.
  split_and!; [split; simpl; try (intros; lia || set_solver)| |done].
  - replace (g_load _) with 0%nat by done. lia.
  - intros i [? Hi]. by rewrite lookup_empty in Hi.
  - intros _ _ i. simpl. lia.
Qed.

(** *** [Issue] *)

Lemma Issue_inv g g' :
  Issue g = Some g' →
  can_issue g = true ∧
  g' = mkGetter (g_config g) (g_total g) (g_md5 g) (S (g_issued g))
         ({[g_issued g]} ∪ g_inflight g) (g_buffer g) (g_next g) (g_queue g)
         (g_hash g) (g_read g) (g_err g) (g_closed g).
Proof.
  unfold Issue. destruct (can_issue g), g; [|done]. by intros [= <-].
Qed.

Lemma Issue_ok g g' : getter_ok g → Issue g = Some g' → getter_ok g'.
Proof.
  intros ([Hload Hiss Hnext Hinfl Hbuf] & Hcov & Hdr) [Hcan ->]%Issue_inv.
  apply bool_decide_eq_true in Hcan as (_ & _ & ? & ?).
  assert (g_issued g ∉ g_inflight g) by (intros ?%Hinfl; lia).
  split_and!; [split| |done]; gsimpl; [|lia|lia|..].
  - rewrite size_add_fresh by done. lia.
  - intros i [->%elem_of_singleton|?%Hinfl]%elem_of_union; lia.
  - intros i [? Hni]%Hbuf. split; [lia|]. set_solver by lia.
  - intros Hcl He i ?. destruct (decide (i = g_issued g)) as [->|];
      [left; set_solver|]. destruct (Hcov Hcl He i) as [?|?]; [lia| |by right].
    left. set_solver.
Qed.

(** *** [deliver] and [drain] *)

Lemma deliver_inv g g' :
  deliver g = Some g' →
  ∃ b, g_buffer g !! g_next g = Some b ∧
  g' = mkGetter (g_config g) (g_total g) (g_md5 g) (g_issued g)
         (g_inflight g) (delete (g_next g) (g_buffer g)) (S (g_next g))
         (g_queue g ++ [b]) (g_hash g ++ b) (g_read g) (g_err g) (g_closed g).
Proof.
  destruct g as [c t m iss infl buf nx q h r e cl]. simpl.
  destruct (buf !! nx) as [b|]; [|done]. intros [= <-]. by exists b.
Qed.

Lemma deliver_None g : deliver g = None ↔ drained g.
Proof.
  destruct g as [c t m iss infl buf nx q h r e cl]. unfold drained. simpl.
  by destruct (buf !! nx).
Qed.

Lemma deliver_wf g g' :
  getter_wf g ∧ covered g → deliver g = Some g' → getter_wf g' ∧ covered g'.
Proof.
  intros [[Hload Hiss Hnext Hinfl Hbuf] Hcov] (b & Hb & ->)%deliver_inv.
  destruct (Hbuf (g_next g)) as [? Hni]; [done|].
  split; [split|]; gsimpl; [|lia|lia|..].
  - pose proof (map_size_delete_S _ _ _ Hb). rewrite length_app. simpl. lia.
  - intros i Hi. specialize (Hinfl i Hi).
    destruct (decide (i = g_next g)) as [->|]; [done|lia].
  - intros i [x [? Hi]%lookup_delete_Some].
    destruct (Hbuf i) as [? ?]; [done|]. split; [lia|done].
  - intros Hcl He i ?. destruct (Hcov Hcl He i) as [?|?]; [lia|by left|].
    right. rewrite lookup_delete_ne by lia. done.
Qed.

Lemma drain_wf fuel g :
  getter_wf g ∧ covered g → getter_wf (drain fuel g) ∧ covered (drain fuel g).
Proof.
  revert g. induction fuel as [|n IH]; intros g Hg; simpl; [done|].
  destruct (deliver g) eqn:Hd; [|done]. eauto using deliver_wf.
Qed.

(** With more fuel than parts in the buffer, [drain] stops because the
    next part is not there. *)
Lemma drain_drained fuel g :
  (size (g_buffer g) < fuel)%nat → drained (drain fuel g).
Proof.
  revert g. induction fuel as [|n IH]; intros g Hn; simpl; [lia|].
  destruct (deliver g) as [g'|] eqn:Hd; [|by apply deliver_None].
  apply IH. apply deliver_inv in Hd as (b & Hb & ->). simpl.
  pose proof (map_size_delete_S _ _ _ Hb). lia.
Qed.

Lemma drain_stop fuel g : drained g → drain fuel g = g.
Proof. intros ?%deliver_None. destruct fuel; simpl; [done|]. by case_match. Qed.

Lemma deliver_same g g' : deliver g = Some g' → same_transfer g g'.
Proof. by intros (b & _ & ->)%deliver_inv. Qed.

Lemma drain_same fuel g : same_transfer g (drain fuel g).
Proof.
  revert g. induction fuel as [|n IH]; intros g; simpl; [done|].
  destruct (deliver g) eqn:Hd; [|done].
  etrans; [by apply deliver_same|apply IH].
Qed.

Lemma release_same i g : same_transfer g (release i g).
Proof. by destruct g. Qed.

Lemma fail_same f g : same_transfer g (fail f g).
Proof. by destruct g. Qed.

Lemma arrive_same i b g : same_transfer g (arrive i b g).
Proof. etrans; [|apply drain_same]. by destruct g. Qed.

(** *** [Finish] *)

Lemma release_wf i g :
  getter_wf g → i ∈ g_inflight g →
  getter_wf (release i g) ∧
  S (g_load (release i g)) = g_load g ∧ g_buffer g !! i = None.
Proof.
  intros [Hload Hiss Hnext Hinfl Hbuf] Hi.
  assert (g_buffer g !! i = None) as Hnone.
  { apply eq_None_not_Some. by intros [_ ?]%Hbuf. }
  pose proof (size_remove _ _ Hi). destruct g. gsimpl.
  split_and!; [split; gsimpl|lia|done]; [lia..| |].
  - intros j [?%Hinfl _]%elem_of_difference. lia.
  - intros j [? ?]%Hbuf. split; [lia|set_solver].
Qed.

Lemma fail_ok f g : getter_wf g → drained g → getter_ok (fail f g).
Proof.
  intros [Hload Hiss Hnext Hinfl Hbuf] Hdr. destruct g.
  split_and!; [split|..]; gsimpl; try done.
  intros _ He. by destruct g_err0.
Qed.

Lemma insert_wf i b g :
  getter_wf g → (g_next g ≤ i < g_issued g)%nat → i ∉ g_inflight g →
  g_buffer g !! i = None →
  Z.of_nat (S (g_load g)) ≤ Z.max 0 (Concurrency (g_config g)) →
  (g_closed g = false → g_err g = None →
   ∀ j, (g_next g ≤ j < g_issued g)%nat →
        j = i ∨ j ∈ g_inflight g ∨ is_Some (g_buffer g !! j)) →
  getter_wf (insert_part i b g) ∧ covered (insert_part i b g).
Proof.
  intros [Hload Hiss Hnext Hinfl Hbuf] Hi Hni Hnone Hroom Hcov.
  destruct g as [c t m iss infl buf nx q h r e cl].
  split; [split|]; gsimpl; [|done..| |].
  - rewrite map_size_insert_None by done. lia.
  - intros j [x [[-> _]|[_ ?]]%lookup_insert_Some]; [done|]. by apply Hbuf.
  - intros Hcl He j Hj. destruct (decide (j = i)) as [->|];
      [right; by rewrite lookup_insert_eq|].
    rewrite lookup_insert_ne by done.
    destruct (Hcov Hcl He j Hj) as [?|?]; [done|tauto].
Qed.

Lemma release_drained i g : drained g → drained (release i g).
Proof. by destruct g. Qed.

Lemma release_covered i g :
  g_closed g = true ∨ is_Some (g_err g) → covered (release i g).
Proof. destruct g. gsimpl. intros [?|[? ?]] ? ?; congruence. Qed.

Lemma release_insert_wf i b g :
  getter_ok g → i ∈ g_inflight g →
  getter_wf (insert_part i b (release i g)) ∧
  covered (insert_part i b (release i g)).
Proof.
  intros (Hwf & Hcov & Hdr) Hi.
  destruct (release_wf i g Hwf Hi) as (Hwf' & Hload & Hnone).
  pose proof (wf_inflight g Hwf i Hi). pose proof (wf_load g Hwf).
  apply insert_wf; [done|destruct g; gsimpl..]; [done|set_solver|done|lia|].
  intros Hcl He j Hj. destruct (decide (j = i)) as [->|]; [by left|right].
  destruct (Hcov Hcl He j Hj); [left; set_solver|by right].
Qed.

Lemma release_arrive_ok i b g :
  getter_ok g → i ∈ g_inflight g → getter_ok (arrive i b (release i g)).
Proof.
  intros Hok Hi. apply getter_ok_intro.
  - by apply drain_wf, release_insert_wf.
  - apply drain_drained. lia.
Qed.

Lemma Finish_inv server i g g' :
  Finish server i g = Some g' →
  i ∈ g_inflight g ∧
  g' = if g_closed g then release i g
       else match (run_part (g_config g) (server i)).1 with
            | inr f => fail f (release i g)
            | inl b =>
                if bool_decide (Z.of_nat (length b) = part_len (g_part g i))
                then (if g_err g is Some _ then release i g
                      else arrive i b (release i g))
                else fail IntegrityError (release i g)
            end.
Proof. unfold Finish. case_decide; [|done]. by intros [= <-]. Qed.

Lemma Finish_ok server i g g' :
  getter_ok g → Finish server i g = Some g' → getter_ok g'.
Proof.
  intros Hok [Hi ->]%Finish_inv. pose proof Hok as (Hwf & Hcov & Hdr).
  destruct (release_wf i g Hwf Hi) as (Hwf' & _ & _).
  pose proof (release_drained i g Hdr).
  repeat case_match; eauto using fail_ok, release_arrive_ok;
    (split_and!; [done| |done]; apply release_covered; eauto).
Qed.

(** *** [Read] and [Close] *)

Lemma Read_inv n g res g' :
  Read n g = Some (res, g') →
  (g_closed g = true ∧ res = ReadErr Cancelled ∧ g' = g) ∨
  (g_closed g = false ∧ g_queue g = [] ∧ g' = g ∧
   ((∃ f, g_err g = Some f ∧ res = ReadErr f) ∨
    (g_err g = None ∧ g_next g = g_count g ∧ res = ReadEOF))) ∨
  (∃ b q, g_closed g = false ∧ g_queue g = b :: q ∧ res = ReadBytes (take n b) ∧
     g' = mkGetter (g_config g) (g_total g) (g_md5 g) (g_issued g)
            (g_inflight g) (g_buffer g) (g_next g)
            (if decide (drop n b = []) then q else drop n b :: q)
            (g_hash g) (g_read g ++ take n b) (g_err g) false).
Proof.
  destruct g as [c t m iss infl buf nx q h r e cl]. simpl.
  destruct cl; [intros [= <- <-]; by left|].
  destruct q as [|b q]; [|intros [= <- <-]; right; right; by exists b, q].
  destruct e as [f|]; [intros [= <- <-]; right; left; eauto 10|].
  case_decide; [|done]. intros [= <- <-]. right; left. eauto 10.
Qed.

Lemma Read_ok n g res g' : getter_ok g → Read n g = Some (res, g') → getter_ok g'.
Proof.
  intros Hok [(_ & _ & ->)|[(_ & _ & -> & _)|(b & q & Hcl & Hq & _ & ->)]]%Read_inv;
    [done..|].
  destruct Hok as ([Hload Hiss Hnext Hinfl Hbuf] & Hcov & Hdr).
  split_and!; [split|..]; gsimpl; try done; [|intros _; by apply Hcov].
  rewrite Hq in Hload. simpl in Hload. case_decide; simpl; lia.
Qed.

Section runs.
Context (digest : bytes → string) (server : nat → nat → response bytes).

(** A [Read] reports the end of the stream only of a live download that
    has delivered every part and has nothing left to read. *)
Lemma Read_EOF_inv n g g' :
  Read n g = Some (ReadEOF, g') →
  g_closed g = false ∧ g_err g = None ∧ at_eof g = true.
Proof.
  intros [(_ & [=] & _)|[(Hcl & Hnil & _ & Hend)|Hb]]%Read_inv;
    [|by destruct Hb as (? & ? & _ & _ & [=] & _)].
  destruct Hend as [(? & _ & [=])|(He & Hnext & _)].
  split_and!; [done..|]. by apply bool_decide_eq_true.
Qed.

Lemma Close_inv g :
  Close digest g =
  if g_closed g then (g_err g, g)
  else let e := match g_err g with
                | Some f => Some f
                | None => if at_eof g then verify digest g else None
                end in
       (e, mkGetter (g_config g) (g_total g) (g_md5 g) (g_issued g)
             (g_inflight g) ∅ (g_next g) [] (g_hash g) (g_read g) e true).
Proof. by destruct g. Qed.

Lemma Close_ok g : getter_ok g → getter_ok (Close digest g).2.
Proof.
  intros Hok. rewrite Close_inv. destruct (g_closed g) eqn:Hcl; [done|].
  destruct Hok as ([Hload Hiss Hnext Hinfl Hbuf] & Hcov & Hdr).
  split_and!; [split|..]; gsimpl; try done;
    [rewrite map_size_empty; lia|].
  intros i [? Hi]. by rewrite lookup_empty in Hi.
Qed.

(** *** Every step *)

Lemma step_ok ev g g' : getter_ok g → step digest server ev g = Some g' → getter_ok g'.
Proof.
  intros Hok. destruct ev as [|i|n|]; simpl.
  - by apply Issue_ok.
  - by apply Finish_ok.
  - destruct (Read n g) as [[res g'']|] eqn:Hr; [|done].
    intros [= <-]. by eapply Read_ok.
  - intros [= <-]. by apply Close_ok.
Qed.

Lemma run_invariant (P : getter → Prop) evs g g' :
  (∀ ev g g', P g → step digest server ev g = Some g' → P g') →
  P g → run digest server evs g = Some g' → P g'.
Proof. apply run_steps_invariant. Qed.

Lemma run_cons ev evs g :
  run digest server (ev :: evs) g
  = step digest server ev g ≫= run digest server evs.
Proof. done. Qed.

Lemma run_app evs1 evs2 g :
  run digest server (evs1 ++ evs2) g
  = run digest server evs1 g ≫= run digest server evs2.
Proof. apply run_steps_app. Qed.

Lemma run_ok evs g g' :
  getter_ok g → run digest server evs g = Some g' → getter_ok g'.
Proof. apply run_invariant, step_ok. Qed.

Lemma step_same ev g g' : step digest server ev g = Some g' → same_transfer g g'.
Proof.
  destruct ev as [|i|n|]; simpl.
  - by intros [_ ->]%Issue_inv.
  - intros [_ ->]%Finish_inv. pose proof (release_same i g).
    repeat case_match; try done; (etrans; [done|]);
      auto using fail_same, arrive_same.
  - destruct (Read n g) as [[res g'']|] eqn:Hr; [|done]. intros [= <-].
    apply Read_inv in Hr
      as [(_ & _ & ->)|[(_ & _ & -> & _)|(b & q' & _ & _ & _ & ->)]];
      by repeat split.
  - intros [= <-]. rewrite Close_inv. by case_match.
Qed.

Lemma run_same evs g g' : run digest server evs g = Some g' → same_transfer g g'.
Proof.
  intros Hrun. eapply (run_invariant (same_transfer g)); [|reflexivity|done].
  intros ev g1 g2 ? ?%step_same. by etrans.
Qed.

End runs.

(** ** The stream of an honest server *)

(** Every successful response to the range request of a part carries the
    bytes of that range of the object [data]. *)
Definition honest (server : nat → nat → response bytes)
    (c : Config) (data : bytes) : Prop :=
  ∀ i k b, server i k = Done b →
           b = part_bytes data (part_at (PartSize c) (Z.of_nat (length data)) i).

(** What the download holds of the object: the parts in the reorder
    buffer are its parts; the digest has been fed its first bytes, up to the
    part the stream expects; what the caller has read and what waits in the
    queue are those bytes, in order. *)
Record streamed (data : bytes) (g : getter) : Prop := {
  st_total : g_total g = Z.of_nat (length data);
  st_size : 0 < PartSize (g_config g);
  st_buffer i b : g_buffer g !! i = Some b → b = part_bytes data (g_part g i);
  st_hash :
    g_hash g = take (Z.to_nat (Z.of_nat (g_next g) * PartSize (g_config g))) data;
  st_queue : g_closed g = false → g_read g ++ concat (g_queue g) = g_hash g;
  st_read : g_read g `prefix_of` g_hash g;
}.

Section stream.
Context (digest : bytes → string) (server : nat → nat → response bytes).
Context (data : bytes).

Lemma open_getter_streamed c md5 :
  0 < PartSize c →
  streamed data (open_getter c (Z.of_nat (length data)) md5).
Proof. by split. Qed.

Lemma deliver_streamed g g' :
  getter_wf g → streamed data g → deliver g = Some g' → streamed data g'.
Proof.
  intros Hwf [Htot Hsz Hbuf Hh Hq Hr] (b & Hb & ->)%deliver_inv.
  destruct (wf_buffer g Hwf (g_next g)) as [? _]; [done|].
  pose proof (wf_issued g Hwf). pose proof (Hbuf _ _ Hb) as ->.
  assert (g_hash g ++ part_bytes data (g_part g (g_next g))
          = take (Z.to_nat (Z.of_nat (S (g_next g)) * PartSize (g_config g))) data)
    as Hnew.
  { rewrite Hh. unfold g_part. rewrite Htot.
    apply take_part; unfold g_count in *; rewrite <-?Htot; lia. }
  split; gsimpl; [done..| |done| |].
  - intros i b [_ ?]%lookup_delete_Some. by apply Hbuf.
  - intros Hcl. rewrite concat_app, app_assoc, Hq by done. simpl.
    by rewrite app_nil_r.
  - by apply prefix_app_r.
Qed.

Lemma drain_streamed fuel g :
  getter_wf g ∧ covered g → streamed data g → streamed data (drain fuel g).
Proof.
  revert g. induction fuel as [|n IH]; intros g Hg Hs; simpl; [done|].
  destruct (deliver g) eqn:Hd; [|done].
  apply IH; [by eapply deliver_wf|]. eapply deliver_streamed; [apply Hg|done..].
Qed.

Lemma release_streamed i g : streamed data g → streamed data (release i g).
Proof. by destruct g; intros []. Qed.

Lemma fail_streamed f g : streamed data g → streamed data (fail f g).
Proof. by destruct g; intros []. Qed.

Lemma insert_streamed i b g :
  streamed data g → b = part_bytes data (g_part g i) →
  streamed data (insert_part i b g).
Proof.
  intros [Htot Hsz Hbuf Hh Hq Hr] ->. destruct g. split; gsimpl; try done.
  intros j b [[-> <-]|[_ ?]]%lookup_insert_Some; [done|]. by apply Hbuf.
Qed.

Lemma Finish_streamed i g g' :
  getter_ok g → streamed data g → honest server (g_config g) data →
  Finish server i g = Some g' → streamed data g'.
Proof.
  intros Hok Hs Hh [Hi ->]%Finish_inv.
  pose proof (release_streamed i g Hs).
  repeat case_match; auto using fail_streamed.
  apply drain_streamed; [by apply release_insert_wf|].
  apply insert_streamed; [done|].
  destruct (run_part_Done _ _ _ ltac:(done)) as [k ->%Hh].
  rewrite <-(st_total _ _ Hs). by destruct g.
Qed.

Lemma Read_streamed n g res g' :
  streamed data g → Read n g = Some (res, g') → streamed data g'.
Proof.
  intros Hs [(_ & _ & ->)|[(_ & _ & -> & _)|(b & q & Hcl & Hq' & _ & ->)]]%Read_inv;
    [done..|].
  destruct Hs as [Htot Hsz Hbuf Hh Hq Hr]. specialize (Hq Hcl).
  rewrite Hq' in Hq. simpl in Hq.
  assert (take n b ++ concat (if decide (drop n b = []) then q else drop n b :: q)
          = b ++ concat q) as Hsplit.
  { pose proof (take_drop n b) as Htd. case_decide as Hd; simpl;
      [rewrite Hd, app_nil_r in Htd; by rewrite Htd|by rewrite app_assoc, Htd]. }
  split; gsimpl; try done.
  - intros _. by rewrite <-app_assoc, Hsplit.
  - rewrite <-Hq, <-Hsplit, app_assoc. by apply prefix_app_r.
Qed.

(** At the end of the stream the caller has read the object. *)
Lemma streamed_eof n g g' :
  streamed data g → Read n g = Some (ReadEOF, g') → g_read g = data.
Proof.
  intros [Htot Hsz _ Hhash Hq _] Hread.
  apply Read_inv in Hread as [(_ & [=] & _)|[(Hcl & Hnil & _ & Hend)|Hb]];
    [|by destruct Hb as (? & ? & _ & _ & [=] & _)].
  destruct Hend as [(? & _ & [=])|(_ & Hnext & _)].
  specialize (Hq Hcl). rewrite Hnil, app_nil_r in Hq. rewrite Hq, Hhash, Hnext.
  unfold g_count. rewrite Htot. apply take_parts_all; [done|lia|done].
Qed.

Lemma Close_streamed g : streamed data g → streamed data (Close digest g).2.
Proof.
  intros Hs. rewrite Close_inv. destruct (g_closed g) eqn:Hcl; [done|].
  destruct Hs as [Htot Hsz Hbuf Hh Hq Hr]. by split.
Qed.

End stream.

(** ** What the digest has seen *)

(** The bytes fed to the digest are those the reader has taken and those
    that wait in its queue: whatever the server answered. *)
Definition accounted (g : getter) : Prop :=
  g_closed g = false → g_read g ++ concat (g_queue g) = g_hash g.

Section accounted.
Context (digest : bytes → string) (server : nat → nat → response bytes).

Lemma open_getter_accounted c total md5 : accounted (open_getter c total md5).
Proof. done. Qed.

Lemma deliver_accounted g g' :
  accounted g → deliver g = Some g' → accounted g'.
Proof.
  intros Hq (b & _ & ->)%deliver_inv Hcl. simpl in *.
  rewrite concat_app, app_assoc, Hq by done. simpl. by rewrite app_nil_r.
Qed.

Lemma drain_accounted fuel g : accounted g → accounted (drain fuel g).
Proof.
  revert g. induction fuel as [|n IH]; intros g Hg; simpl; [done|].
  destruct (deliver g) eqn:Hd; [|done]. by eapply IH, deliver_accounted.
Qed.

Lemma Finish_accounted i g g' :
  accounted g → Finish server i g = Some g' → accounted g'.
Proof.
  intros Hg [_ ->]%Finish_inv.
  assert (accounted (release i g)) as Hr by by destruct g.
  assert (∀ f, accounted (fail f (release i g))) as Hf by by destruct g.
  repeat case_match; try done.
  apply drain_accounted. by destruct g.
Qed.

Lemma Read_accounted n g res g' :
  accounted g → Read n g = Some (res, g') → accounted g'.
Proof.
  intros Hg [(_ & _ & ->)|[(_ & _ & -> & _)|(b & q & Hcl & Hq & _ & ->)]]%Read_inv;
    [done..|].
  specialize (Hg Hcl). rewrite Hq in Hg. simpl in Hg. intros _. simpl.
  rewrite <-Hg, <-app_assoc. f_equal. pose proof (take_drop n b) as Htd.
  case_decide as Hd; simpl;
    [rewrite Hd, app_nil_r in Htd; by rewrite Htd|by rewrite app_assoc, Htd].
Qed.

(** Every step keeps the account, whatever the server answers. *)
Lemma step_accounted ev g g' :
  accounted g → step digest server ev g = Some g' → accounted g'.
Proof.
  intros Hg. destruct ev as [|i|n|]; simpl.
  - intros [_ ->]%Issue_inv. exact Hg.
  - by apply Finish_accounted.
  - destruct (Read n g) as [[res g1]|] eqn:Hr; [|done]. intros [= <-].
    by eapply Read_accounted.
  - intros [= <-]. rewrite Close_inv. by destruct (g_closed g) eqn:Hcl.
Qed.

(** The verdict at the end of the stream: a reader that is told of no
    error, under a configuration that asks for the check and with a digest
    stored when the download was opened, has read bytes of that digest. *)
Lemma accounted_verdict n g d :
  accounted g → Read n g = Some (ReadEOF, g) → (Close digest g).1 = None →
  Md5Check (g_config g) = true → g_md5 g = Some d →
  digest (g_read g) = d.
Proof.
  intros Hg Hread Hclose Hmd Hd.
  apply Read_inv in Hread as [(_ & [=] & _)|[(Hcl & Hnil & _ & Hend)|Hb]];
    [|by destruct Hb as (? & ? & _ & _ & [=] & _)].
  destruct Hend as [(? & _ & [=])|(He & Hnext & _)].
  specialize (Hg Hcl). rewrite Hnil, app_nil_r in Hg.
  rewrite Close_inv, Hcl, He in Hclose. simpl in Hclose.
  unfold at_eof in Hclose. rewrite bool_decide_eq_true_2 in Hclose by done.
  unfold verify in Hclose. rewrite Hmd, Hd in Hclose.
  case_decide as Heq; [|done]. by rewrite Hg.
Qed.

End accounted.

(** ** Waiting, failing, idling *)

(** Nothing has started, and nothing has been read. *)
Definition idle (c : Config) (total : Z) (g : getter) : Prop :=
  g_config g = c ∧ g_total g = total ∧ g_issued g = 0%nat ∧
  g_inflight g = ∅ ∧ g_queue g = [] ∧ g_next g = 0%nat ∧ g_read g = [] ∧
  (g_closed g = false → g_err g = None).

Section liveness.
Context (digest : bytes → string) (server : nat → nat → response bytes).

Lemma Read_None n g :
  Read n g = None →
  g_closed g = false ∧ g_queue g = [] ∧ g_err g = None ∧ g_next g ≠ g_count g.
Proof.
  destruct g as [c t m iss infl buf nx q h r e cl]. simpl.
  destruct cl, q, e; try done. by case_decide.
Qed.

Lemma Finish_enabled i g : i ∈ g_inflight g → is_Some (Finish server i g).
Proof. intros. unfold Finish. rewrite decide_True by done. eauto. Qed.

(** A download with nothing in flight and nothing handed out that is not
    delivered holds no part at all. *)
Lemma quiet_load g :
  getter_wf g → g_next g = g_issued g → g_queue g = [] → g_load g = 0%nat.
Proof.
  intros [_ _ _ Hinfl Hbuf] Heq Hq. unfold g_load. rewrite Hq.
  assert (g_inflight g = ∅) as -> by (apply set_eq; intros i; split;
    [intros ?%Hinfl; lia|set_solver]).
  assert (g_buffer g = ∅) as ->; [|done].
  apply map_empty. intros i. apply eq_None_not_Some. intros [? _]%Hbuf. lia.
Qed.

Lemma waiting_progress g n :
  getter_wf g → covered g → drained g → 1 ≤ Concurrency (g_config g) →
  Read n g = None →
  can_issue g = true ∨ ∃ i, is_Some (Finish server i g).
Proof.
  intros Hwf Hcov Hdr Hconc (Hcl & Hq & He & Hnext)%Read_None.
  pose proof (wf_next g Hwf). pose proof (wf_issued g Hwf).
  destruct (decide (g_next g = g_issued g)) as [Heq|].
  - left. apply bool_decide_eq_true. rewrite quiet_load by done.
    split_and!; [done..|lia|lia].
  - right. exists (g_next g). apply Finish_enabled.
    destruct (Hcov Hcl He (g_next g)) as [?|[? Hb]]; [lia|done|].
    unfold drained in Hdr. congruence.
Qed.

Lemma step_failed f ev g g' :
  g_err g = Some f → step digest server ev g = Some g' →
  g_err g' = Some f ∧ g_issued g' = g_issued g.
Proof.
  intros He. destruct ev as [|i|n|]; simpl.
  - intros [Hcan _]%Issue_inv. apply bool_decide_eq_true in Hcan. naive_solver.
  - intros [_ ->]%Finish_inv. destruct g. simpl in *. subst.
    by repeat case_match.
  - destruct (Read n g) as [[res g'']|] eqn:Hr; [|done]. intros [= <-].
    apply Read_inv in Hr
      as [(_ & _ & ->)|[(_ & _ & -> & _)|(b & q' & _ & _ & _ & ->)]]; done.
  - intros [= <-]. rewrite Close_inv, He. by case_match.
Qed.

Lemma step_idle c total ev g g' :
  Concurrency c ≤ 0 → idle c total g →
  step digest server ev g = Some g' → idle c total g'.
Proof.
  intros Hconc (Hc & Ht & Hiss & Hinfl & Hq & Hnx & Hr & He).
  destruct ev as [|i|n|]; simpl.
  - intros [Hcan _]%Issue_inv.
    apply bool_decide_eq_true in Hcan as (_ & _ & _ & ?). subst c. lia.
  - intros [Hi _]%Finish_inv. set_solver.
  - destruct (Read n g) as [[res g'']|] eqn:Hread; [|done]. intros [= <-].
    apply Read_inv in Hread
      as [(_ & _ & ->)|[(_ & _ & -> & _)|(b & q' & _ & ? & _)]];
      [by split_and!..|congruence].
  - intros [= <-]. rewrite Close_inv.
    case_match; simpl; split_and!; first [done | intros; congruence].
Qed.

End liveness.

(** ** Downloads *)

(** The states of a download of [data] under the configuration [c]: those
    some run reaches from the state after the first request. *)
Definition downloads (digest : bytes → string)
    (server : nat → nat → response bytes)
    (c : Config) (data : bytes) (md5 : option string) (g : getter) : Prop :=
  ∃ evs, run digest server evs (open_getter c (Z.of_nat (length data)) md5)
         = Some g.

(** One round of the sequential schedule: start part [i], wait for it, read
    it; and the schedule for [n] parts. *)
Definition round (partSize : Z) (i : nat) : list event :=
  [EvIssue; EvFinish i; EvRead (Z.to_nat partSize)].

Definition sequential (partSize : Z) (n : nat) : list event :=
  i ← seq 0 n; round partSize i.

Section download.
Context (digest : bytes → string) (server : nat → nat → response bytes).
Context (c : Config) (data : bytes) (md5 : option string).

Let start : getter := open_getter c (Z.of_nat (length data)) md5.

Lemma step_streamed ev g g' :
  honest server c data → same_transfer start g →
  getter_ok g ∧ streamed data g →
  step digest server ev g = Some g' → getter_ok g' ∧ streamed data g'.
Proof.
  intros Hh (Hc & _) [Hok Hs] Hstep. split; [by eapply step_ok|].
  destruct ev as [|i|n|]; simpl in Hstep.
  - apply Issue_inv in Hstep as [_ ->]. by destruct Hs.
  - eapply Finish_streamed; [done..| |done]. by rewrite Hc.
  - destruct (Read n g) as [[res g'']|] eqn:Hr; [|done].
    injection Hstep as <-. by eapply Read_streamed.
  - injection Hstep as <-. by apply Close_streamed.
Qed.

(** The states of a download are well formed, and hold the bytes of the
    object when the server is honest. *)
Lemma downloads_ok g :
  downloads digest server c data md5 g → getter_ok g ∧ same_transfer start g.
Proof.
  intros [evs Hrun]. split; [|by eapply run_same].
  eapply run_ok; [apply open_getter_ok|done].
Qed.

Lemma downloads_streamed g :
  0 < PartSize c → honest server c data →
  downloads digest server c data md5 g → streamed data g.
Proof.
  intros Hsz Hh [evs Hrun].
  eapply (run_invariant digest server
    (λ g, same_transfer start g ∧ getter_ok g ∧ streamed data g)) in Hrun
    as (_ & _ & ?); [done| |].
  - intros ev g1 g2 (? & ?) Hstep. split; [|by eapply step_streamed].
    etrans; [done|by eapply step_same].
  - split_and!; [done|apply open_getter_ok|by apply open_getter_streamed].
Qed.

(** C30: the order invariant.  In every state of a download from an
    honest server, whatever the order in which the parts arrived, retries
    included: the bytes delivered so far are the first [g_next] parts of the
    object, what the caller has read is a prefix of the object, and what it
    has read followed by what waits in the queue is what was delivered. *)
Theorem download_in_order g :
  0 < PartSize c → honest server c data →
  downloads digest server c data md5 g →
  g_hash g = take (Z.to_nat (Z.of_nat (g_next g) * PartSize c)) data ∧
  g_read g `prefix_of` data ∧
  (g_closed g = false → g_read g ++ concat (g_queue g) = g_hash g).
Proof.
  intros Hsz Hh Hg. destruct (downloads_ok g Hg) as (_ & Hc & _).
  destruct (downloads_streamed g Hsz Hh Hg) as [_ _ _ Hhash Hq Hr].
  rewrite Hc in Hhash. split_and!; [done| |done].
  etrans; [done|]. rewrite Hhash. apply prefix_take.
Qed.

(** C31: bounded concurrency.  In every state of a download, for any
    server, the parts in flight, in the reorder buffer and delivered but
    not read are together at most [Concurrency]; each of them has been
    handed out and not yet delivered, and none is in two places. *)
Theorem download_bounded g :
  downloads digest server c data md5 g →
  Z.of_nat (size (g_inflight g) + size (g_buffer g) + length (g_queue g))
    ≤ Z.max 0 (Concurrency c) ∧
  (∀ i, i ∈ g_inflight g ∨ is_Some (g_buffer g !! i) →
        (g_next g ≤ i < g_issued g)%nat) ∧
  (∀ i, i ∈ g_inflight g → g_buffer g !! i = None).
Proof.
  intros ((Hwf & _ & _) & Hc & _)%downloads_ok.
  destruct Hwf as [Hload _ _ Hinfl Hbuf]. rewrite Hc in Hload.
  split_and!; [done| |].
  - intros i [?|?]; [by apply Hinfl|by apply Hbuf].
  - intros i Hi. apply eq_None_not_Some. by intros [_ ?]%Hbuf.
Qed.

(** Completeness: when [Read] reports the end of the stream the
    caller has read the object, every byte of it and nothing else. *)
Theorem download_complete g n g' :
  0 < PartSize c → honest server c data →
  downloads digest server c data md5 g →
  Read n g = Some (ReadEOF, g') → g_read g = data.
Proof.
  intros Hsz Hh Hg. by apply streamed_eof, downloads_streamed.
Qed.

(** No deadlock.  With a concurrency of at least one, whenever the
    caller has to wait in [Read] there is something to wait for: the
    scheduler can start a part, or a part is in flight and its worker can
    finish. *)
Theorem download_progress g n :
  1 ≤ Concurrency c →
  downloads digest server c data md5 g → Read n g = None →
  can_issue g = true ∨ ∃ i, is_Some (Finish server i g).
Proof.
  intros Hconc ((Hwf & Hcov & Hdr) & Hsame)%downloads_ok Hread.
  eapply waiting_progress; eauto. by destruct Hsame as (-> & _).
Qed.

(** The first error wins, and it stops the scheduler.  Once the
    error slot holds an error, no step replaces it and no new part is
    handed to a worker. *)
Theorem download_first_error g f evs g' :
  g_err g = Some f → run digest server evs g = Some g' →
  g_err g' = Some f ∧ g_issued g' = g_issued g.
Proof.
  intros He Hrun.
  eapply (run_invariant digest server
    (λ g', g_err g' = Some f ∧ g_issued g' = g_issued g)); [|done|done].
  intros ev g1 g2 [? <-]. by apply step_failed.
Qed.

(** The integrity check.  A download read to its end and closed
    reports an integrity error exactly when the check is on, a digest is
    stored for the object, and it is not the digest of the bytes read; with
    no stored digest the download succeeds, the check on or off. *)
Theorem download_verified g :
  0 < PartSize c → honest server c data →
  downloads digest server c data md5 g →
  g_closed g = false → g_err g = None → at_eof g = true →
  (Close digest g).1 =
  if Md5Check c then
    match md5 with
    | Some d => if decide (d = digest data) then None else Some IntegrityError
    | None => None
    end
  else None.
Proof.
  intros Hsz Hh Hg Hcl He Heof. pose proof (downloads_ok g Hg) as (_ & Hsame).
  destruct (downloads_streamed g Hsz Hh Hg) as [_ _ _ Hhash _ _].
  rewrite Close_inv, Hcl, He, Heof. simpl. unfold verify.
  apply bool_decide_eq_true in Heof as [Hnext _].
  rewrite Hhash, Hnext, (same_transfer_count _ _ Hsame).
  destruct Hsame as (-> & _ & ->). unfold g_count. simpl.
  by rewrite (take_parts_all (PartSize c) _ Hsz) by (done || lia).
Qed.

(** A concurrency below one is a download that never starts.  No
    part is ever handed to a worker, and a [Read] on an object that is not
    empty waits for ever: it returns only after the caller's own [Close]. *)
Theorem download_zero_concurrency g n :
  Concurrency c ≤ 0 → 0 < PartSize c → data ≠ [] →
  downloads digest server c data md5 g →
  g_issued g = 0%nat ∧ g_read g = [] ∧
  (Read n g = None ∨ Read n g = Some (ReadErr Cancelled, g)).
Proof.
  intros Hconc Hsz Hdata [evs Hrun].
  eapply (run_invariant digest server (idle c (Z.of_nat (length data))))
    in Hrun; [|intros ev g1 g2; by apply step_idle|by split_and!].
  destruct Hrun as (Hc & Ht & Hiss & Hinfl & Hq & Hnx & Hr & He).
  split_and!; [done..|]. destruct g as [c' t m iss infl buf nx q h r e cl].
  gsimpl. subst. destruct cl; [by right|left]. rewrite He by done.
  destruct (decide _) as [Hz|]; [exfalso|done]. unfold g_count in Hz.
  assert (Z.of_nat (length data) = 0) as Hlen
    by (apply (part_count_0 (PartSize c) _ Hsz); simpl in *; lia).
  by destruct data.
Qed.

End download.

(** ** Close before the end *)

Section cancel.
Context (digest : bytes → string) (server : nat → nat → response bytes).

(** What holds of a download after the [Close] that left [g0], whatever
    follows: it is closed, nothing is buffered, no part has been handed
    out since, the parts in flight are among those that were, and what was
    read and the error reported are what they were. *)
Record cancelled (g0 g : getter) : Prop := {
  cn_closed : g_closed g = true;
  cn_buffer : g_buffer g = ∅;
  cn_queue : g_queue g = [];
  cn_issued : g_issued g = g_issued g0;
  cn_inflight : g_inflight g ⊆ g_inflight g0;
  cn_read : g_read g = g_read g0;
  cn_err : g_err g = g_err g0;
}.

Lemma Close_cancelled g :
  g_closed g = false → cancelled (Close digest g).2 (Close digest g).2.
Proof. intros Hcl. rewrite Close_inv, Hcl. by split. Qed.

Lemma Issue_closed g : g_closed g = true → Issue g = None.
Proof.
  intros Hcl. unfold Issue, can_issue.
  rewrite bool_decide_eq_false_2; [done|]. intros [? _]. congruence.
Qed.

Lemma Read_closed n g : g_closed g = true → Read n g = Some (ReadErr Cancelled, g).
Proof. destruct g. simpl. by intros ->. Qed.

Lemma Finish_closed i g :
  g_closed g = true → i ∈ g_inflight g → Finish server i g = Some (release i g).
Proof. intros Hcl Hi. unfold Finish. by rewrite decide_True, Hcl by done. Qed.

Lemma step_cancelled g0 ev g g' :
  cancelled g0 g → step digest server ev g = Some g' → cancelled g0 g'.
Proof.
  intros [Hcl Hbuf Hq Hiss Hinfl Hr He]. destruct ev as [|i|n|]; simpl.
  - by rewrite Issue_closed.
  - unfold Finish. case_decide; [|done]. rewrite Hcl. intros [= <-].
    destruct g. split; simpl in *; try done. set_solver.
  - rewrite Read_closed by done. by intros [= <-].
  - rewrite Close_inv, Hcl. by intros [= <-].
Qed.

(** [Close] before the end of the stream cancels the download.  After
    it, whatever the workers and the caller do: a second [Close] reports
    what the first one did and changes nothing; a [Read] does not wait, it
    reports the cancellation; no part is handed to a worker again; the
    reorder buffer and the queue of the reader have been released, so that
    the only parts that hold memory are those still in flight, which are
    among the parts that were in flight at the [Close]; each of their
    workers can finish, and its part is dropped; and the bytes the caller
    had read are unchanged. *)
Theorem close_cancels g evs g' :
  g_closed g = false →
  run digest server evs (Close digest g).2 = Some g' →
  Close digest g' = ((Close digest g).1, g') ∧
  (∀ n, Read n g' = Some (ReadErr Cancelled, g')) ∧
  Issue g' = None ∧ g_issued g' = g_issued g ∧
  g_load g' = size (g_inflight g') ∧ g_inflight g' ⊆ g_inflight g ∧
  (∀ i, i ∈ g_inflight g' → Finish server i g' = Some (release i g')) ∧
  g_read g' = g_read g.
Proof.
  intros Hopen Hrun.
  eapply (run_steps_invariant _ (cancelled (Close digest g).2)) in Hrun
    as [Hcl Hbuf Hq Hiss Hinfl Hr He];
    [|apply step_cancelled|by apply Close_cancelled].
  rewrite Close_inv, Hopen in Hiss, Hinfl, Hr, He. simpl in *.
  split_and!; [|by auto using Read_closed|by apply Issue_closed|done| |done|
               by auto using Finish_closed|done].
  - rewrite !Close_inv, Hcl, Hopen, He. done.
  - unfold g_load. rewrite Hbuf, Hq, map_size_empty. simpl. lia.
Qed.

End cancel.

(** ** The sequential schedule *)

Section sequential.
Context (digest : bytes → string) (server : nat → nat → response bytes).
Context (c : Config) (data : bytes) (md5 : option string).
Context (Hconc : 1 ≤ Concurrency c) (Hsize : 0 < PartSize c).

Let total := Z.of_nat (length data).
Let count := part_count (PartSize c) total.
Let prefix (k : nat) : bytes := take (Z.to_nat (Z.of_nat k * PartSize c)) data.
Let part (k : nat) : bytes := part_bytes data (part_at (PartSize c) total k).

(** Every part is fetched within the attempts. *)
Definition reliable : Prop :=
  ∀ i, (i < count)%nat → (run_part c (server i)).1 = inl (part i).

(** The state after [k] rounds: [k] parts read, nothing held. *)
Definition between (k : nat) : getter :=
  mkGetter c total md5 k ∅ ∅ k [] (prefix k) (prefix k) None false.

Lemma Issue_between k :
  (k < count)%nat →
  Issue (between k)
  = Some (mkGetter c total md5 (S k) {[k]} ∅ k [] (prefix k) (prefix k) None false).
Proof.
  intros. unfold Issue, can_issue. rewrite bool_decide_eq_true_2.
  - simpl. by rewrite (right_id_L ∅ (∪)).
  - split_and!; [done..|]. replace (g_load _) with 0%nat by done.
    simpl. lia.
Qed.

Lemma part_length k :
  (k < count)%nat → 0 < Z.of_nat (length (part k)) ≤ PartSize c ∧
  Z.of_nat (length (part k)) = part_len (part_at (PartSize c) total k).
Proof.
  intros. unfold part, count in *.
  rewrite (part_bytes_length _ total) by (done || lia).
  split; [|done]. apply (part_at_len (PartSize c) total); lia.
Qed.

Lemma prefix_S k : (k < count)%nat → prefix k ++ part k = prefix (S k).
Proof.
  intros. unfold count in *. apply (take_part (PartSize c) total); (done || lia).
Qed.

Lemma Finish_between k :
  reliable → (k < count)%nat →
  Finish server k
    (mkGetter c total md5 (S k) {[k]} ∅ k [] (prefix k) (prefix k) None false)
  = Some (mkGetter c total md5 (S k) ∅ ∅ (S k) [part k]
            (prefix (S k)) (prefix k) None false).
Proof.
  intros Hrel Hk. unfold Finish. rewrite decide_True by set_solver. simpl.
  rewrite Hrel by done. gsimpl.
  rewrite bool_decide_eq_true_2 by (by apply part_length).
  unfold arrive. simpl. rewrite lookup_insert_eq. simpl.
  rewrite delete_insert_eq, delete_empty, drain_stop by apply lookup_empty.
  by rewrite difference_diag_L, prefix_S.
Qed.

Lemma Read_between k :
  (k < count)%nat →
  Read (Z.to_nat (PartSize c))
    (mkGetter c total md5 (S k) ∅ ∅ (S k) [part k]
       (prefix (S k)) (prefix k) None false)
  = Some (ReadBytes (part k), between (S k)).
Proof.
  intros Hk. destruct (part_length k Hk) as [? _]. simpl.
  rewrite drop_ge, take_ge by lia. rewrite decide_True by done.
  unfold between. by rewrite prefix_S.
Qed.

Lemma round_run k :
  reliable → (k < count)%nat →
  run digest server (round (PartSize c) k) (between k) = Some (between (S k)).
Proof.
  intros Hrel Hk. unfold round.
  rewrite run_cons. cbn [step]. rewrite Issue_between by done.
  cbn [mbind option_bind]. rewrite run_cons. cbn [step].
  rewrite Finish_between by done.
  cbn [mbind option_bind]. rewrite run_cons. cbn [step].
  by rewrite Read_between.
Qed.

Lemma sequential_run k :
  reliable → (k ≤ count)%nat →
  run digest server (sequential (PartSize c) k) (between 0) = Some (between k).
Proof.
  intros Hrel. induction k as [|k IH]; intros Hk; [done|].
  unfold sequential in *. rewrite seq_S, bind_app, run_app, IH by lia.
  rewrite bind_singleton. by apply round_run.
Qed.

(** A download finishes.  With a concurrency of at least one and a
    server that answers every part within the attempts, the schedule that
    fetches and reads one part after the other runs to the end: the caller
    has read the object, nothing is left in flight or buffered, and the
    next [Read] reports the end of the stream. *)
Theorem sequential_download n :
  reliable →
  ∃ g, run digest server (sequential (PartSize c) count)
         (open_getter c total md5) = Some g ∧
       g_read g = data ∧ g_load g = 0%nat ∧ Read n g = Some (ReadEOF, g).
Proof.
  intros Hrel. exists (between count). split_and!.
  - by apply (sequential_run count).
  - apply take_parts_all; [done|unfold total; lia|done].
  - done.
  - simpl. by rewrite decide_True.
Qed.

End sequential.

(** ** Examples *)

(** A digest for the examples: the bytes themselves. *)
Definition plain_digest (b : bytes) : string := string_of_list_byte b.

(** A server that holds [hello] and answers every second request. *)
Definition hello_server (i k : nat) : response bytes :=
  if decide (k < 1)%nat then Transient (mkError "connection reset")
  else Done (part_bytes hello (part_at (PartSize small_config) 10 i)).

Lemma hello_server_honest : honest hello_server small_config hello.
Proof. intros i k b. unfold hello_server. by case_decide; intros [= <-]. Qed.

Lemma hello_server_reliable : reliable hello_server small_config hello.
Proof. by intros i _. Qed.

Definition hello_start : getter :=
  open_getter small_config 10 (Some "hello, S3!"%string).

(** Two parts in flight; the second arrives first and waits in the reorder
    buffer; the first arrives and both are delivered; the caller reads
    three bytes. *)
Definition hello_events : list event :=
  [EvIssue; EvIssue; EvFinish 1; EvFinish 0; EvRead 3].

Definition hello_mid : getter :=
  mkGetter small_config 10 (Some "hello, S3!"%string) 2 ∅ ∅ 2
    [list_byte_of_string "l"; list_byte_of_string "o, S"]
    (list_byte_of_string "hello, S") (list_byte_of_string "hel") None false.

Lemma hello_mid_downloads :
  downloads plain_digest hello_server small_config hello
    (Some "hello, S3!"%string) hello_mid.
Proof. exists hello_events. by vm_compute. Qed.

(** The rest of the download.  The last part can start only after a read
    has made room for it. *)
Definition hello_rest : list event :=
  [EvRead 8; EvIssue; EvRead 8; EvFinish 2; EvRead 8].

Definition hello_end : getter :=
  mkGetter small_config 10 (Some "hello, S3!"%string) 3 ∅ ∅ 3 []
    hello hello None false.

Lemma hello_end_downloads :
  downloads plain_digest hello_server small_config hello
    (Some "hello, S3!"%string) hello_end.
Proof. exists (hello_events ++ hello_rest). by vm_compute. Qed.

Lemma download_in_order_witness :
  g_hash hello_mid
  = take (Z.to_nat (Z.of_nat (g_next hello_mid) * PartSize small_config)) hello ∧
  g_read hello_mid `prefix_of` hello ∧
  (g_closed hello_mid = false →
   g_read hello_mid ++ concat (g_queue hello_mid) = g_hash hello_mid).
Proof.
  apply (download_in_order plain_digest hello_server small_config hello
           (Some "hello, S3!"%string) hello_mid);
    [done|apply hello_server_honest|apply hello_mid_downloads].
Defined.

Lemma download_bounded_witness :
  Z.of_nat (size (g_inflight hello_mid) + size (g_buffer hello_mid)
            + length (g_queue hello_mid))
    ≤ Z.max 0 (Concurrency small_config) ∧
  (∀ i, i ∈ g_inflight hello_mid ∨ is_Some (g_buffer hello_mid !! i) →
        (g_next hello_mid ≤ i < g_issued hello_mid)%nat) ∧
  (∀ i, i ∈ g_inflight hello_mid → g_buffer hello_mid !! i = None).
Proof.
  apply (download_bounded plain_digest hello_server small_config hello
           (Some "hello, S3!"%string) hello_mid), hello_mid_downloads.
Defined.

Lemma download_complete_witness : g_read hello_end = hello.
Proof.
  apply (download_complete plain_digest hello_server small_config hello
           (Some "hello, S3!"%string) hello_end 1 hello_end);
    [done|apply hello_server_honest|apply hello_end_downloads|reflexivity].
Defined.

Lemma download_progress_witness :
  can_issue hello_start = true ∨ ∃ i, is_Some (Finish hello_server i hello_start).
Proof.
  apply (download_progress plain_digest hello_server small_config hello
           (Some "hello, S3!"%string) hello_start 1);
    [done|by exists []|reflexivity].
Defined.

(** A download whose first part failed. *)
Definition hello_failed : getter :=
  mkGetter small_config 10 None 2 {[1%nat]} ∅ 0 [] [] []
    (Some (Unreachable (mkError "connection reset"))) false.

Lemma download_first_error_witness :
  g_err (Close plain_digest hello_failed).2
  = Some (Unreachable (mkError "connection reset")) ∧
  g_issued (Close plain_digest hello_failed).2 = g_issued hello_failed.
Proof.
  apply (download_first_error plain_digest hello_server hello_failed
           (Unreachable (mkError "connection reset"))
           [EvRead 4; EvClose]); reflexivity.
Defined.

Lemma download_verified_witness :
  (Close plain_digest hello_end).1 =
  if Md5Check small_config then
    match Some "hello, S3!"%string with
    | Some d => if decide (d = plain_digest hello) then None else Some IntegrityError
    | None => None
    end
  else None.
Proof.
  apply (download_verified plain_digest hello_server small_config hello
           (Some "hello, S3!"%string) hello_end);
    [done|apply hello_server_honest|apply hello_end_downloads|reflexivity..].
Defined.

(** A configuration that allows no part at all. *)
Definition zero_config : Config :=
  {| Client := None; Concurrency := 0; PartSize := 4; NTry := 2;
     Md5Check := true; Scheme := "https" |}.

Lemma download_zero_concurrency_witness :
  g_issued (open_getter zero_config 10 None) = 0%nat ∧
  g_read (open_getter zero_config 10 None) = [] ∧
  (Read 4 (open_getter zero_config 10 None) = None ∨
   Read 4 (open_getter zero_config 10 None)
   = Some (ReadErr Cancelled, open_getter zero_config 10 None)).
Proof.
  apply (download_zero_concurrency plain_digest hello_server zero_config hello
           None (open_getter zero_config 10 None) 4);
    [done|done|done|by exists []].
Defined.

Lemma sequential_download_witness :
  ∃ g, run plain_digest hello_server (sequential (PartSize small_config) 3)
         hello_start = Some g ∧
       g_read g = hello ∧ g_load g = 0%nat ∧ Read 1 g = Some (ReadEOF, g).
Proof.
  apply (sequential_download plain_digest hello_server small_config hello
           (Some "hello, S3!"%string) ltac:(done) ltac:(done) 1
           hello_server_reliable).
Defined.

(** A download that is closed early: part 1 waits in the reorder buffer and
    part 0 is in flight when the caller closes; the buffer is released, and
    the part still in flight is dropped when its worker is done. *)
Definition hello_early : getter :=
  mkGetter small_config 10 (Some "hello, S3!"%string) 2 {[0%nat]}
    {[1%nat := list_byte_of_string "o, S"]} 0 [] [] [] None false.

Example hello_early_downloads :
  run plain_digest hello_server [EvIssue; EvIssue; EvFinish 1] hello_start
  = Some hello_early.
Proof. by vm_compute. Qed.

Definition hello_closed : getter :=
  mkGetter small_config 10 (Some "hello, S3!"%string) 2 ∅ ∅ 0 [] [] [] None true.

Example hello_closed_run :
  run plain_digest hello_server [EvRead 4; EvFinish 0; EvClose]
    (Close plain_digest hello_early).2
  = Some hello_closed.
Proof. by vm_compute. Qed.

Lemma close_cancels_witness :
  Close plain_digest hello_closed = ((Close plain_digest hello_early).1, hello_closed) ∧
  (∀ n, Read n hello_closed = Some (ReadErr Cancelled, hello_closed)) ∧
  Issue hello_closed = None ∧ g_issued hello_closed = g_issued hello_early ∧
  g_load hello_closed = size (g_inflight hello_closed) ∧
  g_inflight hello_closed ⊆ g_inflight hello_early ∧
  (∀ i, i ∈ g_inflight hello_closed →
        Finish hello_server i hello_closed = Some (release i hello_closed)) ∧
  g_read hello_closed = g_read hello_early.
Proof.
  apply (close_cancels plain_digest hello_server hello_early
           [EvRead 4; EvFinish 0; EvClose] hello_closed);
    [done|apply hello_closed_run].
Defined.
