(* ===== verification/Putter.v ===== *)
(** * Putter: the uploader

    The uploader is not in [src/]; this file follows its description in the
    design document (sections 3, 4.3, 5 and 7).  From the code it takes the
    configuration: [PartSize] is the size of a part, [Concurrency] bounds
    the parts that upload at the same time and [NTry] the attempts of each.

    An upload is a [putter]: the snapshot of the configuration, the bytes
    written that are not a part yet, the number of parts handed to workers,
    the parts that are uploading, the entity tags of the parts uploaded,
    the bytes fed to the running digest, the error slot, and how far the
    close has come.

    As in [Getter], goroutines are modelled by interleaving, and a call
    that blocks is split at the points where it waits.  A call of the
    writer's [Write] is the operation [Write], which takes the bytes, and
    then as many [Emit] as parts are full, each waiting for a free worker;
    the next [Write] waits until less than a part is pending.  A call of
    the writer's [Close] is [PutClose], which hands the last, shorter part
    to a worker, and then [Complete], which waits for the workers and
    sends the completion request, or the abort request when a part has
    failed.  [Uploaded] is a worker done with its part.

    The theorems hold for every interleaving: what a completed upload
    lists and stores ([upload_complete]), that a failed part leaves the
    abort as the only end ([upload_all_or_nothing]), the bounds on the
    parts that upload ([upload_bounded]) and that a closed writer takes
    nothing more ([closed_writer]).  And an upload can finish: the
    schedule [sequential_upload], one write and one part after the other,
    runs to the completion request when the store takes every part within
    the attempts ([sequential_upload_completes]). *)

From Stdlib Require Import ZArith String List Lia.
From stdpp Require Import base tactics option list numbers strings gmap sets.
From S2P Require Import Prelude Types Scheduler.

Local Open Scope Z_scope.
#[local] Set Warnings "-clear-no-such-hyp".

(** ** State *)

(** How an upload ends: a completion request with the parts and their
    entity tags in index order, followed by the digest of the object being
    stored; or a request to abort. *)
Inductive outcome :=
| Completed (parts : list (nat * string)) (md5 : string)
| Aborted (f : failure).

#[export] Instance outcome_eq_dec : EqDecision outcome.
Proof. solve_decision. Defined.

Record putter := mkPutter {
  p_config : Config;           (* the configuration at the start *)
  p_pending : bytes;           (* bytes written, not a part yet *)
  p_sent : nat;                (* parts handed to workers: those below *)
  p_inflight : gmap nat bytes; (* parts that are uploading *)
  p_etags : gmap nat string;   (* entity tags of the parts uploaded *)
  p_hash : bytes;              (* the bytes fed to the running digest *)
  p_err : option failure;      (* the error slot *)
  p_closing : bool;            (* the writer has been closed *)
  p_done : option outcome;     (* the request that ended the upload *)
}.

(** The steps of an upload. *)
Inductive put_event :=
| PutWrite (b : bytes)
| PutEmit
| PutUploaded (i : nat)
| PutCloses
| PutComplete.

#[export] Instance put_event_eq_dec : EqDecision put_event.
Proof. solve_decision. Defined.

(** ** Operations *)

(** An upload right after the request that initiates it. *)
Definition open_putter (c : Config) : putter :=
  mkPutter c [] 0 ∅ ∅ [] None false None.

(** The size of a part, in bytes. *)
Definition p_size (p : putter) : nat := Z.to_nat (PartSize (p_config p)).

(** Bytes [i * size, (i + 1) * size) of what was written. *)
Definition chunk (size : nat) (data : bytes) (i : nat) : bytes :=
  take size (drop (i * size) data).

(** [Write]: a closed writer refuses, with a usage error; a failed upload
    reports its error; otherwise the bytes are taken and go into the
    digest.  [None]: the caller waits, because a full part is pending. *)
Definition Write (b : bytes) (p : putter) : option (option failure * putter) :=
  let '(mkPutter c pend sent infl et h e cl d) := p in
  if cl then Some (Some UsageError, p)
  else match e with
       | Some f => Some (Some f, p)
       | None =>
           if decide (length pend < p_size p)%nat
           then Some (None, mkPutter c (pend ++ b) sent infl et (h ++ b) e cl d)
           else None
       end.

(** A part is full, the upload is live and a worker is free. *)
Definition can_emit (p : putter) : bool :=
  bool_decide (p_closing p = false ∧ p_err p = None ∧
               (p_size p ≤ length (p_pending p))%nat ∧
               Z.of_nat (size (p_inflight p)) < Concurrency (p_config p)).

(** The first [PartSize] bytes pending become the next part. *)
Definition Emit (p : putter) : option putter :=
  if can_emit p then
    let '(mkPutter c pend sent infl et h e cl d) := p in
    Some (mkPutter c (drop (p_size p) pend) (S sent)
            (<[sent := take (p_size p) pend]> infl) et h e cl d)
  else None.

(** A worker is done with part [i].  [store i b k] is the response to
    request number [k] that uploads the bytes [b] as part [i]: an entity
    tag, or a failure.  The tag is recorded under the index of the part; a
    part that failed is a fatal error. *)
Definition Uploaded (store : nat → bytes → nat → response string) (i : nat)
    (p : putter) : option putter :=
  let '(mkPutter c pend sent infl et h e cl d) := p in
  b ← infl !! i;
  Some match (run_part c (store i b)).1 with
       | inl t => mkPutter c pend sent (delete i infl) (<[i := t]> et) h e cl d
       | inr f => mkPutter c pend sent (delete i infl) et h (record_error e f) cl d
       end.

(** [PutClose], the first half of the writer's [Close]: a second close is
    refused with a usage error; a failed upload drops what is pending; the
    bytes pending, less than a part, become the last part if there are
    any.  [None]: the caller waits, for full parts to be emitted or for a
    free worker. *)
Definition PutClose (p : putter) : option (option failure * putter) :=
  let '(mkPutter c pend sent infl et h e cl d) := p in
  if cl then Some (Some UsageError, p)
  else if e is Some _ then Some (None, mkPutter c [] sent infl et h e true d)
  else if decide (pend = []) then Some (None, mkPutter c [] sent infl et h e true d)
  else if decide ((length pend < p_size p)%nat ∧
                  Z.of_nat (size infl) < Concurrency c)
  then Some (None, mkPutter c [] (S sent) (<[sent := pend]> infl) et h e true d)
  else None.

(** The parts and their entity tags, in index order. *)
Definition completion (p : putter) : list (nat * string) :=
  omap (λ i, pair i <$> p_etags p !! i) (seq 0 (p_sent p)).

Section digest.
Context (digest : bytes → string).

(** [Complete], the second half of the writer's [Close], once no part is
    uploading: the completion request and the digest of the object when
    every part has its entity tag, the request to abort when a part has
    failed. *)
Definition Complete (p : putter) : option putter :=
  let '(mkPutter c pend sent infl et h e cl d) := p in
  if cl && bool_decide (infl = ∅) && bool_decide (d = None) then
    Some (mkPutter c pend sent infl et h e cl
            (Some match e with
                  | Some f => Aborted f
                  | None => Completed (completion p) (digest h)
                  end))
  else None.

Context (store : nat → bytes → nat → response string).

(** A step of an upload.  A call that is refused changes nothing; a
    [Write] that is refused is left out of the runs, so that the writes of a
    run are the bytes it took. *)
Definition put_step (ev : put_event) (p : putter) : option putter :=
  match ev with
  | PutWrite b => '(res, p') ← Write b p; if res is None then Some p' else None
  | PutEmit => Emit p
  | PutUploaded i => Uploaded store i p
  | PutCloses => snd <$> PutClose p
  | PutComplete => Complete p
  end.

Definition put_run : list put_event → putter → option putter :=
  run_steps put_step.

(** The bytes a run writes. *)
Definition written (evs : list put_event) : bytes :=
  ev ← evs; if ev is PutWrite b then b else [].

End digest.

(** ** Inversion of the operations *)

Lemma Write_inv b p res p' :
  Write b p = Some (res, p') →
  (p' = p ∧ (p_closing p = true ∧ res = Some UsageError ∨
             p_closing p = false ∧ is_Some (p_err p) ∧ res = p_err p)) ∨
  (p_closing p = false ∧ p_err p = None ∧ res = None ∧
   (length (p_pending p) < p_size p)%nat ∧
   p' = mkPutter (p_config p) (p_pending p ++ b) (p_sent p) (p_inflight p)
          (p_etags p) (p_hash p ++ b) None false (p_done p)).
Proof.
  destruct p as [c pend sent infl et h e cl d]. simpl.
  destruct cl; [intros [= <- <-]; left; eauto|].
  destruct e; [intros [= <- <-]; left; eauto 10|].
  case_decide; [|done]. intros [= <- <-]. by right.
Qed.

Lemma Write_accepted b p p' :
  Write b p = Some (None, p') →
  p_closing p = false ∧ p_err p = None ∧
  p' = mkPutter (p_config p) (p_pending p ++ b) (p_sent p) (p_inflight p)
         (p_etags p) (p_hash p ++ b) None false (p_done p).
Proof.
  intros [[_ [(_ & [=])|(_ & [? Hf] & He)]]|(? & ? & _ & _ & ?)]%Write_inv;
    [congruence|done].
Qed.

Lemma Emit_inv p p' :
  Emit p = Some p' →
  can_emit p = true ∧
  p' = mkPutter (p_config p) (drop (p_size p) (p_pending p)) (S (p_sent p))
         (<[p_sent p := take (p_size p) (p_pending p)]> (p_inflight p))
         (p_etags p) (p_hash p) (p_err p) (p_closing p) (p_done p).
Proof. unfold Emit. destruct (can_emit p), p; [|done]. by intros [= <-]. Qed.

Lemma Uploaded_inv store i p p' :
  Uploaded store i p = Some p' →
  ∃ b, p_inflight p !! i = Some b ∧
  p' = match (run_part (p_config p) (store i b)).1 with
       | inl t => mkPutter (p_config p) (p_pending p) (p_sent p)
                    (delete i (p_inflight p)) (<[i := t]> (p_etags p))
                    (p_hash p) (p_err p) (p_closing p) (p_done p)
       | inr f => mkPutter (p_config p) (p_pending p) (p_sent p)
                    (delete i (p_inflight p)) (p_etags p) (p_hash p)
                    (record_error (p_err p) f) (p_closing p) (p_done p)
       end.
Proof.
  destruct p as [c pend sent infl et h e cl d]. simpl.
  destruct (infl !! i) as [b|]; [|done]. intros [= <-]. by exists b.
Qed.

Lemma PutClose_inv p res p' :
  PutClose p = Some (res, p') →
  (p_closing p = true ∧ res = Some UsageError ∧ p' = p) ∨
  (p_closing p = false ∧ res = None ∧
   ((is_Some (p_err p) ∨ p_pending p = []) ∧
    p' = mkPutter (p_config p) [] (p_sent p) (p_inflight p) (p_etags p)
           (p_hash p) (p_err p) true (p_done p) ∨
    p_err p = None ∧ p_pending p ≠ [] ∧
    (length (p_pending p) < p_size p)%nat ∧
    Z.of_nat (size (p_inflight p)) < Concurrency (p_config p) ∧
    p' = mkPutter (p_config p) [] (S (p_sent p))
           (<[p_sent p := p_pending p]> (p_inflight p)) (p_etags p)
           (p_hash p) None true (p_done p))).
Proof.
  destruct p as [c pend sent infl et h e cl d]. simpl.
  destruct cl; [intros [= <- <-]; by left|].
  destruct e; [intros [= <- <-]; right; eauto 10|].
  case_decide; [intros [= <- <-]; right; eauto 10|].
  case_decide as Hc; [|done]. intros [= <- <-]. destruct Hc.
  right. split_and!; [done..|right; by split_and!].
Qed.

Lemma Complete_inv digest p p' :
  Complete digest p = Some p' →
  p_closing p = true ∧ p_inflight p = ∅ ∧ p_done p = None ∧
  p' = mkPutter (p_config p) (p_pending p) (p_sent p) (p_inflight p)
         (p_etags p) (p_hash p) (p_err p) true
         (Some match p_err p with
               | Some f => Aborted f
               | None => Completed (completion p) (digest (p_hash p))
               end).
Proof.
  destruct p as [c pend sent infl et h e cl d]. simpl.
  destruct cl; [|done]. simpl. repeat case_bool_decide; [|done..].
  by intros [= <-].
Qed.

(** ** Well-formed uploads *)

Section well_formed.
Context (digest : bytes → string) (store : nat → bytes → nat → response string).

(** How [Complete] ends an upload in the state [p]. *)
Definition ending (p : putter) : outcome :=
  match p_err p with
  | Some f => Aborted f
  | None => Completed (completion p) (digest (p_hash p))
  end.

(** What holds of an upload between any two steps: the parts uploading are
    within the configured concurrency; a part is uploading or has its tag
    only if it has been handed out, and not both; while no part has failed
    every part handed out is in one of the two places; a closed writer has
    nothing pending; and an upload that has ended is closed, has no part
    uploading, and ended as its error slot says. *)
Record putter_wf (p : putter) : Prop := {
  pw_load : Z.of_nat (size (p_inflight p)) ≤ Z.max 0 (Concurrency (p_config p));
  pw_inflight i :
    is_Some (p_inflight p !! i) → (i < p_sent p)%nat ∧ p_etags p !! i = None;
  pw_etags i : is_Some (p_etags p !! i) → (i < p_sent p)%nat;
  pw_covered i :
    p_err p = None → (i < p_sent p)%nat →
    is_Some (p_inflight p !! i) ∨ is_Some (p_etags p !! i);
  pw_closing : p_closing p = true → p_pending p = [];
  pw_done o :
    p_done p = Some o →
    p_closing p = true ∧ p_inflight p = ∅ ∧ o = ending p;
}.

Lemma open_putter_wf c : putter_wf (open_putter c).
Proof.
  split; simpl; try done.
  - rewrite map_size_empty. lia.
  - intros i [? Hi]. by rewrite lookup_empty in Hi.
  - intros i [? Hi]. by rewrite lookup_empty in Hi.
  - intros. lia.
Qed.

Lemma Write_wf b p res p' : putter_wf p → Write b p = Some (res, p') → putter_wf p'.
Proof.
  intros Hwf [[-> _]|(Hcl & He & _ & _ & ->)]%Write_inv; [done|].
  destruct Hwf as [Hload Hinfl Het Hcov Hclose Hdone].
  split; simpl; try done.
  - intros i _. by apply Hcov.
  - intros o (? & _)%Hdone. congruence.
Qed.

Lemma Emit_wf p p' : putter_wf p → Emit p = Some p' → putter_wf p'.
Proof.
  intros [Hload Hinfl Het Hcov Hclose Hdone] [Hcan ->]%Emit_inv.
  apply bool_decide_eq_true in Hcan as (Hcl & He & _ & Hroom).
  assert (p_inflight p !! p_sent p = None) as Hfresh.
  { apply eq_None_not_Some. intros [? _]%Hinfl. lia. }
  split; simpl; try (intros; congruence).
  - rewrite map_size_insert_None by done. lia.
  - intros i [b [[<- _]|[? Hi]]%lookup_insert_Some].
    + split; [lia|]. apply eq_None_not_Some. intros ?%Het. lia.
    + destruct (Hinfl i) as [? ?]; [done|]. split; [lia|done].
  - intros i ?%Het. lia.
  - intros i He' ?. destruct (decide (i = p_sent p)) as [->|];
      [left; by rewrite lookup_insert_eq|].
    rewrite lookup_insert_ne by done. apply Hcov; [done|lia].
  - intros o (? & _)%Hdone. congruence.
Qed.

Lemma Uploaded_wf i p p' :
  putter_wf p → Uploaded store i p = Some p' → putter_wf p'.
Proof.
  intros [Hload Hinfl Het Hcov Hclose Hdone] (b & Hb & ->)%Uploaded_inv.
  destruct (Hinfl i) as [? Hnone]; [done|].
  pose proof (map_size_delete_S _ _ _ Hb).
  assert (p_done p = None) as Hd.
  { apply eq_None_not_Some. intros [o (_ & He & _)%Hdone].
    by rewrite He, lookup_empty in Hb. }
  destruct (run_part _ _).1 as [t|f]; split; simpl; try done; try lia;
    try (intros o; by rewrite Hd).
  - intros j [x [? Hj]%lookup_delete_Some]. destruct (Hinfl j) as [? ?]; [done|].
    split; [done|]. by rewrite lookup_insert_ne.
  - intros j [x [[<- _]|[_ ?]]%lookup_insert_Some]; [done|]. by apply Het.
  - intros j He Hj. destruct (decide (j = i)) as [->|];
      [right; by rewrite lookup_insert_eq|].
    rewrite lookup_delete_ne, lookup_insert_ne by done. by apply Hcov.
  - intros j [x [_ Hj]%lookup_delete_Some]. by apply Hinfl.
  - intros j He. by destruct (p_err p).
Qed.

Lemma PutClose_wf p res p' :
  putter_wf p → PutClose p = Some (res, p') → putter_wf p'.
Proof.
  intros Hwf [(_ & _ & ->)|(Hcl & _ & Hcase)]%PutClose_inv; [done|].
  destruct Hwf as [Hload Hinfl Het Hcov Hclose Hdone].
  assert (p_done p = None) as Hd.
  { apply eq_None_not_Some. intros [o (? & _)%Hdone]. congruence. }
  destruct Hcase as [[_ ->]|(He & Hpend & _ & Hroom & ->)];
    split; simpl; try done; try (intros o; by rewrite Hd).
  - assert (p_inflight p !! p_sent p = None) as Hfresh.
    { apply eq_None_not_Some. intros [? _]%Hinfl. lia. }
    rewrite map_size_insert_None by done. lia.
  - intros i [b [[<- _]|[? Hi]]%lookup_insert_Some].
    + split; [lia|]. apply eq_None_not_Some. intros ?%Het. lia.
    + destruct (Hinfl i) as [? ?]; [done|]. split; [lia|done].
  - intros i ?%Het. lia.
  - intros i _ ?. destruct (decide (i = p_sent p)) as [->|];
      [left; by rewrite lookup_insert_eq|].
    rewrite lookup_insert_ne by done. apply Hcov; [done|lia].
Qed.

Lemma Complete_wf p p' : putter_wf p → Complete digest p = Some p' → putter_wf p'.
Proof.
  intros [Hload Hinfl Het Hcov Hclose Hdone] (Hcl & He & Hd & ->)%Complete_inv.
  split; simpl; try done; [by intros _; apply Hclose|]. by intros o [= <-].
Qed.

Lemma put_step_wf ev p p' :
  putter_wf p → put_step digest store ev p = Some p' → putter_wf p'.
Proof.
  intros Hwf. destruct ev as [b| |i| |]; simpl.
  - destruct (Write b p) as [[[f|] p1]|] eqn:Hw; [done| |done].
    intros [= <-]. by eapply Write_wf.
  - by apply Emit_wf.
  - by apply Uploaded_wf.
  - destruct (PutClose p) as [[res p1]|] eqn:Hc; [|done]. intros [= <-].
    by eapply PutClose_wf.
  - by apply Complete_wf.
Qed.

End well_formed.

(** Unfold the part size of a state given by its constructor. *)
Ltac psimpl := unfold p_size in *; simpl in *.

(** ** Chunks *)

Section chunks.
Implicit Types (h b : bytes) (i size : nat).

Lemma chunk_app size h b i :
  (S i * size ≤ length h)%nat → chunk size (h ++ b) i = chunk size h i.
Proof.
  intros. unfold chunk. rewrite drop_app_le by lia.
  apply take_app_le. rewrite length_drop. lia.
Qed.

Lemma chunk_last size h i :
  (length (drop (i * size) h) ≤ size)%nat →
  chunk size h i = drop (i * size) h.
Proof. intros. by apply take_ge. Qed.

Lemma chunk_nonempty size h i :
  (0 < size)%nat → (i * size < length h)%nat → chunk size h i ≠ [].
Proof.
  intros ? ? Hnil%(f_equal length). unfold chunk in Hnil.
  rewrite length_take, length_drop in Hnil. simpl in Hnil. lia.
Qed.

(** The chunks of the bytes written are the parts of the object. *)
Lemma chunk_part (partSize : Z) h i :
  0 < partSize →
  (i < part_count partSize (Z.of_nat (length h)))%nat →
  chunk (Z.to_nat partSize) h i
  = part_bytes h (part_at partSize (Z.of_nat (length h)) i).
Proof.
  intros Hsz Hi. unfold chunk, part_bytes, slice. simpl.
  pose proof (part_before_end partSize (Z.of_nat (length h)) Hsz ltac:(lia)
                (Z.of_nat i) ltac:(lia)).
  replace (Z.to_nat (Z.of_nat i * partSize)) with (i * Z.to_nat partSize)%nat by lia.
  destruct (decide (partSize ≤ Z.of_nat (length h) - Z.of_nat i * partSize)).
  - f_equal. lia.
  - rewrite !take_ge; [done|rewrite length_drop; lia..].
Qed.

(** The first [n] chunks, one after the other, are the first [n] parts'
    worth of bytes; all the chunks are all the bytes. *)
Lemma chunks_take size h n :
  concat (chunk size h <$> seq 0 n) = take (n * size) h.
Proof.
  induction n as [|n IH]; [done|].
  rewrite seq_S, fmap_app, concat_app, IH. simpl. rewrite app_nil_r.
  unfold chunk. rewrite take_take_drop. f_equal. lia.
Qed.

Lemma chunks_concat (partSize : Z) h :
  0 < partSize →
  concat (chunk (Z.to_nat partSize) h
            <$> seq 0 (part_count partSize (Z.of_nat (length h)))) = h.
Proof.
  intros Hsz. rewrite chunks_take. apply take_ge.
  pose proof (part_count_bounds partSize (Z.of_nat (length h)) Hsz ltac:(lia)).
  nia.
Qed.

End chunks.

(** ** What is uploaded *)

(** The store answers a successful upload of the bytes [b] with the entity
    tag [tag b], on every request. *)
Definition tagging (tag : bytes → string)
    (store : nat → bytes → nat → response string) : Prop :=
  ∀ i b k t, store i b k = Done t → t = tag b.

(** What the upload holds of the bytes written: while the writer is open
    the pending bytes are those written after the parts handed out; a part
    that is uploading is the chunk of its index, and is not empty; a
    recorded entity tag is an answer of the store to the chunk of its
    index; and once the writer is closed, unless a part failed, the parts
    handed out are the parts of the object. *)
Record put_streamed (store : nat → bytes → nat → response string)
    (p : putter) : Prop := {
  ps_size : 0 < PartSize (p_config p);
  ps_pending :
    p_closing p = false →
    (p_sent p * p_size p ≤ length (p_hash p))%nat ∧
    p_pending p = drop (p_sent p * p_size p) (p_hash p);
  ps_inflight i b :
    p_inflight p !! i = Some b →
    b = chunk (p_size p) (p_hash p) i ∧ b ≠ [];
  ps_etags i t :
    p_etags p !! i = Some t →
    ∃ k, store i (chunk (p_size p) (p_hash p) i) k = Done t;
  ps_closed :
    p_closing p = true → p_err p = None →
    p_sent p = part_count (PartSize (p_config p)) (Z.of_nat (length (p_hash p)));
}.

Section streamed.
Context (digest : bytes → string).
Context (store : nat → bytes → nat → response string).

Lemma open_putter_streamed c : 0 < PartSize c → put_streamed store (open_putter c).
Proof. by split. Qed.

Lemma Write_streamed b p res p' :
  putter_wf digest p → put_streamed store p →
  Write b p = Some (res, p') → put_streamed store p'.
Proof.
  intros Hwf Hs [[-> _]|(Hcl & He & _ & _ & ->)]%Write_inv; [done|].
  destruct Hs as [Hsz Hpend Hinfl Het Hclosed].
  destruct (Hpend Hcl) as [Hlen Hp]. unfold p_size in *.
  split; psimpl; try done.
  - intros _. rewrite length_app, drop_app_le, <-Hp by lia. split; [lia|done].
  - intros i x Hi. destruct (pw_inflight _ _ Hwf i) as [? _]; [done|].
    rewrite chunk_app by nia. by apply Hinfl.
  - intros i t Hi. pose proof (pw_etags _ _ Hwf i ltac:(done)).
    rewrite chunk_app by nia. by apply Het.
Qed.

Lemma Emit_streamed p p' :
  putter_wf digest p → put_streamed store p → Emit p = Some p' → put_streamed store p'.
Proof.
  intros Hwf [Hsz Hpend Hinfl Het Hclosed] [Hcan ->]%Emit_inv.
  apply bool_decide_eq_true in Hcan as (Hcl & He & Hfull & _).
  destruct (Hpend Hcl) as [Hlen Hp]. unfold p_size in *.
  assert (length (p_pending p)
          = (length (p_hash p) - p_sent p * Z.to_nat (PartSize (p_config p)))%nat)
    as Hlp by (by rewrite Hp, length_drop).
  split; psimpl; try done; try (intros; congruence).
  - intros _. rewrite Hp, drop_drop. split; [lia|f_equal; lia].
  - intros i b [[<- <-]|[_ ?]]%lookup_insert_Some; [|by apply Hinfl].
    rewrite Hp. split; [done|]. apply chunk_nonempty; lia.
Qed.

Lemma Uploaded_streamed i p p' :
  put_streamed store p → Uploaded store i p = Some p' → put_streamed store p'.
Proof.
  intros [Hsz Hpend Hinfl Het Hclosed] (b & Hb & ->)%Uploaded_inv.
  destruct (Hinfl i b Hb) as [-> _].
  destruct (run_part _ _).1 as [t|f] eqn:Hrun; split; psimpl; try done.
  - intros j x [_ ?]%lookup_delete_Some. by apply Hinfl.
  - intros j x [[<- <-]|[_ ?]]%lookup_insert_Some; [|by apply Het].
    by apply (run_part_Done (p_config p)).
  - intros j x [_ ?]%lookup_delete_Some. by apply Hinfl.
  - intros _ He. by destruct (p_err p).
Qed.

(** The parts handed out are all the parts when less than a part is left:
    none if nothing is, one more if something is. *)
Lemma sent_all (partSize : Z) (h : bytes) (sent : nat) :
  0 < partSize →
  (sent * Z.to_nat partSize ≤ length h)%nat →
  (length h - sent * Z.to_nat partSize < Z.to_nat partSize)%nat →
  part_count partSize (Z.of_nat (length h))
  = if decide (length h = sent * Z.to_nat partSize)%nat then sent else S sent.
Proof.
  intros. apply part_count_unique; [lia..|]. case_decide; nia.
Qed.

Lemma PutClose_streamed p res p' :
  put_streamed store p → PutClose p = Some (res, p') → put_streamed store p'.
Proof.
  intros Hs [(_ & _ & ->)|(Hcl & _ & Hcase)]%PutClose_inv; [done|].
  destruct Hs as [Hsz Hpend Hinfl Het Hclosed].
  destruct (Hpend Hcl) as [Hlen Hp]. unfold p_size in *.
  assert (length (p_pending p)
          = (length (p_hash p) - p_sent p * Z.to_nat (PartSize (p_config p)))%nat)
    as Hlp by (by rewrite Hp, length_drop).
  destruct Hcase as [[Hcase ->]|(He & Hne & Hshort & _ & ->)];
    split; psimpl; try done.
  - intros _ He. destruct Hcase as [[? ?]|Hnil]; [congruence|].
    rewrite Hnil in Hlp. simpl in Hlp.
    rewrite (sent_all _ _ (p_sent p)), decide_True by lia. done.
  - intros i b [[<- <-]|[_ ?]]%lookup_insert_Some; [|by apply Hinfl].
    split; [|done]. rewrite chunk_last, <-Hp by (rewrite <-Hp; lia). done.
  - intros _ _. assert (length (p_pending p) ≠ 0%nat) by by destruct (p_pending p).
    rewrite (sent_all _ _ (p_sent p)), decide_False by lia. done.
Qed.

Lemma Complete_streamed p p' :
  put_streamed store p → Complete digest p = Some p' → put_streamed store p'.
Proof.
  intros [Hsz Hpend Hinfl Het Hclosed] (Hcl & _ & _ & ->)%Complete_inv.
  split; psimpl; try done. intros _. by apply Hclosed.
Qed.

Lemma put_step_streamed ev p p' :
  putter_wf digest p → put_streamed store p →
  put_step digest store ev p = Some p' → put_streamed store p'.
Proof.
  intros Hwf Hs. destruct ev as [b| |i| |]; simpl.
  - destruct (Write b p) as [[[f|] p1]|] eqn:Hw; [done| |done].
    intros [= <-]. by eapply Write_streamed.
  - by apply Emit_streamed.
  - by apply Uploaded_streamed.
  - destruct (PutClose p) as [[res p1]|] eqn:Hc; [|done]. intros [= <-].
    by eapply PutClose_streamed.
  - by apply Complete_streamed.
Qed.

End streamed.

(** ** Uploads *)

(** The states of an upload under the configuration [c]. *)
Definition uploads (digest : bytes → string)
    (store : nat → bytes → nat → response string)
    (c : Config) (p : putter) : Prop :=
  ∃ evs, put_run digest store evs (open_putter c) = Some p.

Section upload.
Context (digest : bytes → string).
Context (store : nat → bytes → nat → response string).

Lemma put_run_cons ev evs p :
  put_run digest store (ev :: evs) p
  = put_step digest store ev p ≫= put_run digest store evs.
Proof. done. Qed.

Lemma put_run_app evs1 evs2 p :
  put_run digest store (evs1 ++ evs2) p
  = put_run digest store evs1 p ≫= put_run digest store evs2.
Proof. apply run_steps_app. Qed.

Lemma put_step_hash ev p p' :
  put_step digest store ev p = Some p' →
  p_config p' = p_config p ∧
  p_hash p' = p_hash p ++ (if ev is PutWrite b then b else []).
Proof.
  destruct ev as [b| |i| |]; simpl.
  - destruct (Write b p) as [[[f|] p1]|] eqn:Hw; [done| |done]. intros [= <-].
    by apply Write_accepted in Hw as (_ & _ & ->).
  - intros [_ ->]%Emit_inv. by rewrite app_nil_r.
  - intros (b & _ & ->)%Uploaded_inv. rewrite app_nil_r. by case_match.
  - destruct (PutClose p) as [[res p1]|] eqn:Hc; [|done]. intros [= <-].
    rewrite app_nil_r. apply PutClose_inv in Hc.
    by destruct Hc as [(_ & _ & ->)|(_ & _ & [[_ ->]|(_ & _ & _ & _ & ->)])].
  - intros (_ & _ & _ & ->)%Complete_inv. by rewrite app_nil_r.
Qed.

(** The digest is fed the bytes of the writes, in the order of the writes. *)
Lemma put_run_hash evs p p' :
  put_run digest store evs p = Some p' →
  p_config p' = p_config p ∧ p_hash p' = p_hash p ++ written evs.
Proof.
  revert p. induction evs as [|ev evs IH]; intros p; simpl.
  - intros [= <-]. by rewrite app_nil_r.
  - destruct (put_step digest store ev p) as [p1|] eqn:H1; [|done]. simpl.
    intros (-> & ->)%IH. apply put_step_hash in H1 as (-> & ->).
    by rewrite <-app_assoc.
Qed.

Lemma uploads_ok c p :
  0 < PartSize c → uploads digest store c p →
  putter_wf digest p ∧ put_streamed store p.
Proof.
  intros Hsz [evs Hrun]. unfold put_run in Hrun.
  eapply (run_steps_invariant _ (λ p, putter_wf digest p ∧ put_streamed store p));
    [|split; [apply open_putter_wf|by apply open_putter_streamed]|done].
  intros ev p1 p2 [? ?] ?. eauto using put_step_wf, put_step_streamed.
Qed.

(** When every part handed out has its tag the completion list has them
    all, in index order. *)
Lemma completion_all (f : nat → string) p :
  (∀ i, (i < p_sent p)%nat → p_etags p !! i = Some (f i)) →
  completion p = (λ i, (i, f i)) <$> seq 0 (p_sent p).
Proof.
  intros Hall. unfold completion.
  assert (Forall (λ i, i < p_sent p)%nat (seq 0 (p_sent p))) as Hseq.
  { apply Forall_forall. intros i ?%elem_of_seq. lia. }
  induction Hseq as [|i l Hi _ IH]; [done|]. cbn. rewrite (Hall i Hi). cbn.
  by rewrite IH.
Qed.

Lemma put_step_failed f ev p p' :
  p_err p = Some f → put_step digest store ev p = Some p' → p_err p' = Some f.
Proof.
  intros He. destruct ev as [b| |i| |]; simpl.
  - destruct (Write b p) as [[[?|] p1]|] eqn:Hw; [done| |done]. intros [= <-].
    apply Write_accepted in Hw as (_ & ? & _). congruence.
  - intros [Hcan _]%Emit_inv.
    apply bool_decide_eq_true in Hcan as (_ & ? & _). congruence.
  - intros (b & _ & ->)%Uploaded_inv. case_match; simpl; by rewrite He.
  - destruct (PutClose p) as [[res p1]|] eqn:Hc; [|done]. intros [= <-].
    apply PutClose_inv in Hc
      as [(_ & _ & ->)|(_ & _ & [[_ ->]|(? & _)])]; [done..|congruence].
  - by intros (_ & _ & _ & ->)%Complete_inv.
Qed.

Lemma put_step_closed ev p p' :
  p_closing p = true → put_step digest store ev p = Some p' →
  p_closing p' = true ∧ p_hash p' = p_hash p ∧ p_sent p' = p_sent p.
Proof.
  intros Hcl. destruct ev as [b| |i| |]; simpl.
  - destruct (Write b p) as [[[?|] p1]|] eqn:Hw; [done| |done]. intros [= <-].
    apply Write_accepted in Hw as (? & _). congruence.
  - intros [Hcan _]%Emit_inv.
    apply bool_decide_eq_true in Hcan as (? & _). congruence.
  - intros (b & _ & ->)%Uploaded_inv. by case_match.
  - destruct (PutClose p) as [[res p1]|] eqn:Hc; [|done]. intros [= <-].
    apply PutClose_inv in Hc as [(_ & _ & ->)|(? & _)]; [done|congruence].
  - by intros (_ & _ & _ & ->)%Complete_inv.
Qed.

(** A step hands out parts and never takes one back. *)
Lemma put_step_sent ev p p' :
  put_step digest store ev p = Some p' → (p_sent p ≤ p_sent p')%nat.
Proof.
  destruct ev as [b| |i| |]; simpl.
  - destruct (Write b p) as [[[f|] p1]|] eqn:Hw; [done| |done]. intros [= <-].
    by apply Write_accepted in Hw as (_ & _ & ->).
  - intros [_ ->]%Emit_inv. simpl. lia.
  - intros (b & _ & ->)%Uploaded_inv. by case_match.
  - destruct (PutClose p) as [[res p1]|] eqn:Hc; [|done]. intros [= <-].
    apply PutClose_inv in Hc.
    destruct Hc as [(_ & _ & ->)|(_ & _ & [[_ ->]|(_ & _ & _ & _ & ->)])];
      simpl; lia.
  - by intros (_ & _ & _ & ->)%Complete_inv.
Qed.

(** The bytes of a part that has been handed out do not change: what is
    written later comes after them. *)
Lemma put_step_chunk ev p p' i :
  put_streamed store p → put_step digest store ev p = Some p' →
  (i < p_sent p)%nat →
  chunk (p_size p') (p_hash p') i = chunk (p_size p) (p_hash p) i.
Proof.
  intros Hs Hstep Hi. destruct (put_step_hash _ _ _ Hstep) as [Hc ->].
  unfold p_size. rewrite Hc. destruct ev as [b| | | |]; try by rewrite app_nil_r.
  simpl in Hstep. destruct (Write b p) as [[[f|] p1]|] eqn:Hw; [done| |done].
  apply Write_accepted in Hw as (Hcl & _).
  destruct (ps_pending _ _ Hs Hcl) as [Hlen _]. unfold p_size in Hlen.
  apply chunk_app. nia.
Qed.

(** An upload that has ended takes no step but a refused close. *)
Lemma put_step_done ev p p' o :
  putter_wf digest p → p_done p = Some o →
  put_step digest store ev p = Some p' → ev = PutCloses ∧ p' = p.
Proof.
  intros Hwf Hd. destruct (pw_done _ _ Hwf o Hd) as (Hcl & Hinfl & _).
  destruct ev as [b| |i| |]; simpl.
  - destruct (Write b p) as [[[f|] p1]|] eqn:Hw; [done| |done].
    apply Write_accepted in Hw as (? & _). congruence.
  - intros [Hcan _]%Emit_inv.
    apply bool_decide_eq_true in Hcan as (? & _). congruence.
  - intros (b & Hb & _)%Uploaded_inv. by rewrite Hinfl, lookup_empty in Hb.
  - destruct (PutClose p) as [[res p1]|] eqn:Hc; [|done]. intros [= <-].
    apply PutClose_inv in Hc as [(_ & _ & ->)|(? & _)]; [done|congruence].
  - intros (_ & _ & ? & _)%Complete_inv. congruence.
Qed.

(** Only [Complete] ends an upload. *)
Lemma put_step_keeps_done ev p p' :
  put_step digest store ev p = Some p' → ev ≠ PutComplete →
  p_done p' = p_done p.
Proof.
  destruct p as [c pend sent infl et h e cl d], ev as [b| |i| |]; simpl;
    try done; intros Hstep _; revert Hstep.
  - repeat case_match; naive_solver.
  - unfold Emit. case_match; naive_solver.
  - destruct (infl !! i); simpl; [|done]. case_match; naive_solver.
  - repeat case_match; naive_solver.
Qed.

Lemma completed_inv p l d :
  putter_wf digest p → p_done p = Some (Completed l d) →
  p_closing p = true ∧ p_inflight p = ∅ ∧ p_err p = None ∧
  l = completion p ∧ d = digest (p_hash p).
Proof.
  intros Hwf (? & ? & Hend)%(pw_done _ _ Hwf). unfold ending in Hend.
  destruct (p_err p); [done|]. by injection Hend as -> ->.
Qed.

(** When no part is uploading and none has failed, every part handed out
    has the tag of its chunk. *)
Lemma etags_all (tag : bytes → string) p i :
  tagging tag store → putter_wf digest p → put_streamed store p →
  p_err p = None → p_inflight p = ∅ → (i < p_sent p)%nat →
  p_etags p !! i = Some (tag (chunk (p_size p) (p_hash p) i)).
Proof.
  intros Htag Hwf Hs He Hinfl Hi.
  destruct (pw_covered _ _ Hwf i He Hi) as [[? Hb]|[t Ht]];
    [by rewrite Hinfl, lookup_empty in Hb|].
  by destruct (ps_etags _ _ Hs i t Ht) as [k ->%Htag].
Qed.

(** The chunks, listed by index, are the parts of the object. *)
Lemma chunks_parts {A} (f : nat → bytes → A) (partSize : Z) (h : bytes) :
  0 < partSize →
  (λ i, f i (chunk (Z.to_nat partSize) h i))
    <$> seq 0 (part_count partSize (Z.of_nat (length h)))
  = (λ q, f (part_index q) (part_bytes h q))
    <$> partition partSize (Z.of_nat (length h)).
Proof.
  intros Hsz. unfold partition. rewrite <-list_fmap_compose.
  apply list_fmap_ext. intros k i [-> ?]%lookup_seq. simpl.
  by rewrite chunk_part.
Qed.

(** An upload that completes has uploaded what was written.  For
    every interleaving of writes, parts and workers: the completion request
    lists, in index order, the parts of the bytes written (cut at
    [PartSize], the last part shorter) with the entity tags the store gave
    for their bytes, and the digest stored is the digest of the bytes
    written, in the order of the writes. *)
Theorem upload_complete (tag : bytes → string) c evs p l d :
  0 < PartSize c → tagging tag store →
  put_run digest store evs (open_putter c) = Some p →
  p_done p = Some (Completed l d) →
  l = (λ q, (part_index q, tag (part_bytes (written evs) q)))
        <$> parts_of c (Z.of_nat (length (written evs))) ∧
  d = digest (written evs).
Proof.
  intros Hsz Htag Hrun Hdone.
  destruct (uploads_ok c p Hsz) as [Hwf Hs]; [by exists evs|].
  apply put_run_hash in Hrun as [Hc Hh]. simpl in Hc, Hh.
  apply completed_inv in Hdone as (Hcl & Hinfl & He & -> & ->); [|done].
  rewrite <-Hh. split; [|done].
  rewrite (completion_all (λ i, tag (chunk (p_size p) (p_hash p) i)))
    by (intros; by apply etags_all).
  rewrite (ps_closed _ _ Hs Hcl He). unfold p_size, parts_of. rewrite Hc.
  by apply (chunks_parts (λ i b, (i, tag b))).
Qed.

(** All or nothing.  Once a part has failed, after its attempts, the
    error stays in the slot whatever happens afterwards, and the upload
    can end in one way only: by the request to abort, with that error.  No
    completion request is sent. *)
Theorem upload_all_or_nothing c p f evs p' :
  uploads digest store c p → p_err p = Some f →
  put_run digest store evs p = Some p' →
  p_err p' = Some f ∧ (p_done p' = None ∨ p_done p' = Some (Aborted f)).
Proof.
  intros [evs0 Hrun0] He Hrun.
  assert (putter_wf digest p') as Hwf'.
  { eapply (run_steps_invariant _ (putter_wf digest));
      [apply put_step_wf|apply open_putter_wf|].
    unfold put_run in *. by rewrite run_steps_app, Hrun0. }
  assert (p_err p' = Some f) as He'.
  { eapply (run_steps_invariant _ (λ p, p_err p = Some f)); [|done..].
    intros ev p1 p2. apply put_step_failed. }
  split; [done|]. destruct (p_done p') as [o|] eqn:Hd; [right|by left].
  apply (pw_done _ _ Hwf') in Hd as (_ & _ & ->). unfold ending. by rewrite He'.
Qed.

(** Bounded memory.  In every state of an upload, for any store, at
    most [Concurrency] parts are uploading, and each is a non-empty piece of
    at most [PartSize] bytes of what was written. *)
Theorem upload_bounded c p :
  0 < PartSize c → uploads digest store c p →
  Z.of_nat (size (p_inflight p)) ≤ Z.max 0 (Concurrency c) ∧
  ∀ i b, p_inflight p !! i = Some b →
         0 < Z.of_nat (length b) ≤ PartSize c ∧
         b = chunk (Z.to_nat (PartSize c)) (p_hash p) i.
Proof.
  intros Hsz Hup. destruct (uploads_ok c p Hsz Hup) as [Hwf Hs].
  destruct Hup as [evs [Hc _]%put_run_hash]. simpl in Hc.
  pose proof (pw_load _ _ Hwf) as Hload. rewrite Hc in Hload.
  split; [done|]. intros i b [Hb Hne]%(ps_inflight _ _ Hs).
  unfold p_size in Hb. rewrite Hc in Hb. split; [|done].
  assert (length b ≠ 0%nat) by by destruct b.
  rewrite Hb. unfold chunk. rewrite length_take.
  rewrite Hb in H. unfold chunk in H. rewrite length_take in H. lia.
Qed.

(** A closed writer takes nothing more.  After the writer is closed,
    whatever the workers do and however the upload ends, no byte is added
    to the object and no part is added to the upload; a [Write] and a second
    close are refused with a usage error and change nothing. *)
Theorem closed_writer p evs p' b :
  p_closing p = true → put_run digest store evs p = Some p' →
  p_hash p' = p_hash p ∧ p_sent p' = p_sent p ∧
  Write b p' = Some (Some UsageError, p') ∧
  PutClose p' = Some (Some UsageError, p').
Proof.
  intros Hcl Hrun.
  eapply (run_steps_invariant _
    (λ p', p_closing p' = true ∧ p_hash p' = p_hash p ∧ p_sent p' = p_sent p))
    in Hrun as (Hcl' & ? & ?); [| |done].
  - split_and!; [done..| |]; destruct p'; simpl in *; by subst.
  - intros ev p1 p2 (? & <- & <-). by apply put_step_closed.
Qed.

End upload.

(** ** The sequential schedule *)

(** One round: the next full part goes to a worker, and the worker is
    waited for. *)
Definition put_round (i : nat) : list put_event := [PutEmit; PutUploaded i].

(** The upload of [h] in one write and one part after the other: the full
    parts, then the close, which sends what is left as the last part, then
    the completion. *)
Definition sequential_upload (size : nat) (h : bytes) : list put_event :=
  PutWrite h :: (seq 0 (length h / size) ≫= put_round)
  ++ PutCloses
  :: (if decide (length h `mod` size = 0)%nat then []
      else [PutUploaded (length h / size)])
  ++ [PutComplete].

Section sequential.
Context (digest : bytes → string).
Context (store : nat → bytes → nat → response string).
Context (tag : bytes → string) (c : Config) (h : bytes).
Context (Hconc : 1 ≤ Concurrency c) (Hsize : 0 < PartSize c).

Let size := Z.to_nat (PartSize c).
Let full := (length h / size)%nat.

(** Every part is uploaded within the attempts. *)
Definition dependable : Prop :=
  ∀ i, (run_part c (store i (chunk size h i))).1 = inl (tag (chunk size h i)).

(** The entity tags of the first [k] parts. *)
Fixpoint tags (k : nat) : gmap nat string :=
  match k with
  | O => ∅
  | S k' => <[k' := tag (chunk size h k')]> (tags k')
  end.

(** The state after the write and [k] rounds, and after the close with [n]
    parts uploaded. *)
Definition after (k : nat) : putter :=
  mkPutter c (drop (k * size) h) k ∅ (tags k) h None false None.

Definition closed (n : nat) : putter :=
  mkPutter c [] n ∅ (tags n) h None true None.

Lemma tags_lookup k i :
  (i < k)%nat → tags k !! i = Some (tag (chunk size h i)).
Proof.
  induction k as [|k IH]; intros Hi; [lia|]. simpl.
  destruct (decide (i = k)) as [->|]; [by rewrite lookup_insert_eq|].
  rewrite lookup_insert_ne by done. apply IH. lia.
Qed.

Lemma size_pos : (0 < size)%nat.
Proof. subst size. lia. Qed.

Lemma full_parts : (full * size ≤ length h < full * size + size)%nat.
Proof.
  pose proof size_pos. subst full.
  pose proof (Nat.div_mod_eq (length h) size).
  pose proof (Nat.mod_upper_bound (length h) size). lia.
Qed.

Lemma Write_after : Write h (open_putter c) = Some (None, after 0).
Proof.
  pose proof size_pos. unfold open_putter, after. psimpl.
  by rewrite decide_True by done.
Qed.

Lemma Emit_after k :
  (k < full)%nat →
  Emit (after k)
  = Some (mkPutter c (drop (S k * size) h) (S k) {[k := chunk size h k]}
            (tags k) h None false None).
Proof.
  intros Hk. pose proof full_parts. unfold Emit, can_emit.
  rewrite bool_decide_eq_true_2.
  - psimpl. rewrite drop_drop, insert_empty. do 3 f_equal. lia.
  - psimpl. rewrite length_drop, map_size_empty. split_and!; [done..|nia|lia].
Qed.

Lemma Uploaded_after k b :
  dependable → b = chunk size h k →
  Uploaded store k
    (mkPutter c (drop (S k * size) h) (S k) {[k := b]} (tags k) h None false None)
  = Some (after (S k)).
Proof.
  intros Hdep ->. unfold Uploaded. rewrite lookup_singleton_eq. simpl.
  by rewrite Hdep, delete_singleton_eq.
Qed.

Lemma round_after k :
  dependable → (k < full)%nat →
  put_run digest store (put_round k) (after k) = Some (after (S k)).
Proof.
  intros Hdep Hk. unfold put_round.
  rewrite put_run_cons. cbn [put_step]. rewrite Emit_after by done.
  cbn [mbind option_bind]. rewrite put_run_cons. cbn [put_step].
  by rewrite Uploaded_after.
Qed.

Lemma rounds_after k :
  dependable → (k ≤ full)%nat →
  put_run digest store (seq 0 k ≫= put_round) (after 0) = Some (after k).
Proof.
  intros Hdep. induction k as [|k IH]; intros Hk; [done|].
  rewrite seq_S, bind_app, put_run_app, IH by lia.
  rewrite bind_singleton. by apply round_after.
Qed.

(** The number of parts: the full ones, and one more when bytes are
    left. *)
Definition sent_parts : nat :=
  if decide (length h `mod` size = 0)%nat then full else S full.

Lemma sent_parts_count :
  sent_parts = part_count (PartSize c) (Z.of_nat (length h)).
Proof.
  pose proof full_parts. symmetry. apply part_count_unique; [done|lia|].
  pose proof (Nat.div_mod_eq (length h) size) as Hdm.
  change (length h / size)%nat with full in Hdm.
  unfold sent_parts. subst size. case_decide; nia.
Qed.

(** The close: nothing is left, or what is left is the last part. *)
Lemma close_after :
  dependable →
  put_run digest store
    (PutCloses :: (if decide (length h `mod` size = 0)%nat then []
                   else [PutUploaded full])) (after full)
  = Some (closed sent_parts).
Proof.
  intros Hdep. pose proof full_parts.
  pose proof (Nat.div_mod_eq (length h) size) as Hdm.
  change (length h / size)%nat with full in Hdm.
  unfold sent_parts. rewrite put_run_cons. cbn [put_step after PutClose].
  case_decide as Hrest.
  - rewrite drop_ge by lia. by rewrite decide_True.
  - assert (drop (full * size) h = chunk size h full) as ->.
    { symmetry. apply chunk_last. rewrite length_drop. lia. }
    rewrite decide_False by (apply chunk_nonempty; lia).
    rewrite decide_True
      by (psimpl; unfold chunk; rewrite length_take, length_drop, map_size_empty; lia).
    rewrite insert_empty. simpl. rewrite lookup_singleton_eq. simpl.
    by rewrite Hdep, delete_singleton_eq.
Qed.

Lemma Complete_closed n :
  Complete digest (closed n)
  = Some (mkPutter c [] n ∅ (tags n) h None true
            (Some (Completed ((λ i, (i, tag (chunk size h i))) <$> seq 0 n)
                     (digest h)))).
Proof.
  simpl. rewrite bool_decide_eq_true_2 by done. simpl. do 4 f_equal.
  apply (completion_all (λ i, tag (chunk size h i))). apply tags_lookup.
Qed.

(** An upload finishes.  With a concurrency of at least one and a store
    that takes every part within the attempts, the schedule that writes the
    bytes and uploads one part after the other runs to the completion
    request, which lists the parts of the bytes written, each with its
    tag, and carries their digest. *)
Theorem sequential_upload_completes :
  dependable →
  ∃ p, put_run digest store (sequential_upload size h) (open_putter c) = Some p ∧
       written (sequential_upload size h) = h ∧
       p_done p
       = Some (Completed
                 ((λ q, (part_index q, tag (part_bytes h q)))
                    <$> parts_of c (Z.of_nat (length h)))
                 (digest h)).
Proof.
  intros Hdep.
  assert (put_run digest store (sequential_upload size h) (open_putter c)
          = Complete digest (closed sent_parts)) as Hrun.
  { unfold sequential_upload. change (length h / size)%nat with full.
    rewrite (app_comm_cons _ _ PutCloses), put_run_cons. cbn [put_step].
    rewrite Write_after. cbn [mbind option_bind].
    rewrite put_run_app, (rounds_after full Hdep) by done.
    cbn [mbind option_bind]. by rewrite put_run_app, (close_after Hdep). }
  rewrite Complete_closed in Hrun. eexists. split_and!; [done| |].
  - by apply put_run_hash in Hrun as [_ Hh].
  - simpl. rewrite sent_parts_count. unfold parts_of.
    by rewrite <-(chunks_parts (λ i b, (i, tag b))).
Qed.

End sequential.

(** ** Examples *)

(** Entity tags and digests for the examples: the bytes themselves. *)
Definition plain_tag (b : bytes) : string := string_of_list_byte b.

(** A store that answers every second request. *)
Definition hello_store (i : nat) (b : bytes) (k : nat) : response string :=
  if decide (k < 1)%nat then Transient (mkError "connection reset")
  else Done (plain_tag b).

(** A store that has lost part 1. *)
Definition broken_store (i : nat) (b : bytes) (k : nat) : response string :=
  if decide (i = 1)%nat then Transient (mkError "connection reset")
  else Done (plain_tag b).

Lemma hello_store_tagging : tagging plain_tag hello_store.
Proof. intros i b k t. unfold hello_store. by case_decide; intros [= <-]. Qed.

(** Ten bytes in one write, parts of four bytes, two workers: two full
    parts are emitted and finish out of order, the close hands the last two
    bytes to a worker, and the upload completes. *)
Definition hello_upload : list put_event :=
  [PutWrite hello; PutEmit; PutEmit; PutUploaded 1; PutUploaded 0;
   PutCloses; PutUploaded 2; PutComplete].

Definition hello_uploaded : putter :=
  Eval vm_compute in
    default (open_putter small_config)
      (put_run plain_tag hello_store hello_upload (open_putter small_config)).

Example hello_upload_done :
  p_done hello_uploaded
  = Some (Completed [(0, "hell"); (1, "o, S"); (2, "3!")]%nat "hello, S3!").
Proof. reflexivity. Qed.

(** Scenario B: one byte less than a part is one part. *)
Example short_upload_done :
  p_done <$> put_run plain_tag hello_store
    [PutWrite (take 3 hello); PutCloses; PutUploaded 0; PutComplete]
    (open_putter small_config)
  = Some (Some (Completed [(0%nat, "hel")] "hel")).
Proof. by vm_compute. Qed.

(** Scenario C: a part that fails after its attempts aborts the upload. *)
Definition broken_upload : list put_event :=
  [PutWrite hello; PutEmit; PutEmit; PutUploaded 1].

Definition hello_broken : putter :=
  Eval vm_compute in
    default (open_putter small_config)
      (put_run plain_tag broken_store broken_upload (open_putter small_config)).

Example broken_upload_aborts :
  p_done <$> put_run plain_tag broken_store
    [PutUploaded 0; PutCloses; PutComplete] hello_broken
  = Some (Some (Aborted (Unreachable (mkError "connection reset")))).
Proof. by vm_compute. Qed.

Lemma upload_complete_witness :
  [(0, "hell"); (1, "o, S"); (2, "3!")]%nat
  = (λ q, (part_index q, plain_tag (part_bytes (written hello_upload) q)))
      <$> parts_of small_config (Z.of_nat (length (written hello_upload))) ∧
  "hello, S3!"%string = plain_tag (written hello_upload).
Proof.
  apply (upload_complete plain_tag hello_store plain_tag small_config
           hello_upload hello_uploaded);
    [done|apply hello_store_tagging|reflexivity|reflexivity].
Defined.

Lemma upload_all_or_nothing_witness :
  p_err (mkPutter small_config [] 2 ∅ {[0%nat := "hell"%string]} hello
           (Some (Unreachable (mkError "connection reset"))) true
           (Some (Aborted (Unreachable (mkError "connection reset")))))
  = Some (Unreachable (mkError "connection reset")) ∧
  (p_done (mkPutter small_config [] 2 ∅ {[0%nat := "hell"%string]} hello
             (Some (Unreachable (mkError "connection reset"))) true
             (Some (Aborted (Unreachable (mkError "connection reset")))))
   = None ∨
   p_done (mkPutter small_config [] 2 ∅ {[0%nat := "hell"%string]} hello
             (Some (Unreachable (mkError "connection reset"))) true
             (Some (Aborted (Unreachable (mkError "connection reset")))))
   = Some (Aborted (Unreachable (mkError "connection reset")))).
Proof.
  apply (upload_all_or_nothing plain_tag broken_store small_config hello_broken
           (Unreachable (mkError "connection reset"))
           [PutUploaded 0; PutCloses; PutComplete]);
    [by exists broken_upload|reflexivity|by vm_compute].
Defined.

Lemma upload_bounded_witness :
  Z.of_nat (size (p_inflight hello_broken)) ≤ Z.max 0 (Concurrency small_config) ∧
  ∀ i b, p_inflight hello_broken !! i = Some b →
         0 < Z.of_nat (length b) ≤ PartSize small_config ∧
         b = chunk (Z.to_nat (PartSize small_config)) (p_hash hello_broken) i.
Proof.
  apply (upload_bounded plain_tag broken_store small_config hello_broken);
    [done|by exists broken_upload].
Defined.

(** The upload of [hello_upload] right after the close. *)
Definition hello_closing : putter :=
  Eval vm_compute in
    default (open_putter small_config)
      (put_run plain_tag hello_store (take 6 hello_upload)
         (open_putter small_config)).

Lemma closed_writer_witness :
  p_hash hello_uploaded = p_hash hello_closing ∧
  p_sent hello_uploaded = p_sent hello_closing ∧
  Write hello hello_uploaded = Some (Some UsageError, hello_uploaded) ∧
  PutClose hello_uploaded = Some (Some UsageError, hello_uploaded).
Proof.
  apply (closed_writer plain_tag hello_store hello_closing
           [PutUploaded 2; PutComplete] hello_uploaded hello); reflexivity.
Defined.
