(* ===== verification/Roundtrip.v ===== *)
(** * Roundtrip: the transfers and the service, together

    [Getter] and [Putter] take the answers of the service as a parameter.
    Here the parameter is the [service] of [Service], behind a network that
    may lose a request or its answer, and the state of the service is
    threaded through the run of an upload.

    - [delivery] is what happens to one request: it is [Delivered], it is
      [Lost] before it arrives, or it arrives and the answer is lost
      ([Unanswered]).  The worker sees a transient failure in the last two
      cases and tries again; in the last one the service has done the
      work, so a part may be uploaded more than once.
    - A [world] is an upload and the service.  [world_step] is a step of
      the upload ([put_step]) together with what the requests of that step
      do to the service ([serve]): the requests of a worker store its part,
      the completion request makes the object, the request to abort
      discards the upload.  The request to abort is sent once, so it has
      a second step, [AbortLost]: the upload ends as aborted and the
      service has heard nothing.  The completion request is taken to
      arrive.  The PUT of the digest, which follows the completion, is a
      step of its own ([StoreDigest]), taken when [Md5Check] is set:
      between the two the bucket has the object and not yet its digest,
      and without [Md5Check] it never has.
    - A download runs against the service as it is after the upload:
      [get_exchange] answers the range requests from the object.

    The theorems: an upload that completes leaves the object of the bytes
    written, with its digest beside it once that is stored, and nothing
    else; an upload that aborts leaves the objects as they were, and the
    service as it was before the upload began unless the request to abort
    was lost, in which case the upload stays open there
    ([upload_atomic]); the round trip, a download of what was uploaded
    reads the bytes written and its integrity check passes, while bytes
    that are not the object's are reported as an integrity error; the
    window between the completion and the digest, in which a download of
    an object that replaced another is checked against the digest of the
    old one; and that the window never closes after an upload without
    [Md5Check] ([unchecked_upload_stale]).  These hold for every run;
    [transfer_finishes] shows that there are runs: on a network where one
    of the [NTry] requests allowed for every part is delivered
    ([gets_through]), the sequential upload of any bytes and the
    sequential download that follows run to their ends, and the download
    gives back the bytes. *)

From Stdlib Require Import ZArith String List Lia.
From stdpp Require Import base tactics option list numbers strings gmap.
From S2P Require Import Prelude Types Scheduler Service Getter Putter.

Local Open Scope Z_scope.
#[local] Set Warnings "-clear-no-such-hyp".

(** ** The network *)

Inductive delivery :=
| Delivered
| Lost (e : GoError)
| Unanswered (e : GoError).

(** The request reaches the service. *)
Definition arrives (d : delivery) : bool :=
  match d with Lost _ => false | _ => true end.

(** What the worker gets when the service answers [r]. *)
Definition answer {R} (d : delivery) (r : response R) : response R :=
  match d with
  | Delivered => r
  | Lost e | Unanswered e => Transient e
  end.

(** ** An upload and the service *)

Record world := mkWorld {
  w_put : putter;
  w_svc : service;
  w_digest : bool;   (* the digest of the object has been stored *)
}.

(** The steps of the world: a step of the upload with its requests; the
    PUT of the digest that ends the writer's [Close]; and the end of an
    upload whose request to abort does not arrive (the request is a
    clean-up on best effort, and the writer reports its error either
    way). *)
Inductive world_event :=
| Upload (ev : put_event)
| StoreDigest
| AbortLost.

#[export] Instance world_event_eq_dec : EqDecision world_event.
Proof. solve_decision. Defined.

(** The step of the upload in a step of the world. *)
Definition put_of (e : world_event) : option put_event :=
  match e with
  | Upload ev => Some ev
  | StoreDigest => None
  | AbortLost => Some PutComplete
  end.

(** The steps of the upload in a run of the world. *)
Definition uploads_of (evs : list world_event) : list put_event :=
  omap put_of evs.

Section upload.
Context (digest : bytes → string) (etag : bytes → string).
Context (net : nat → nat → delivery).
Context (key : string) (uid : positive).

(** The answer to request [k] for part [i] of the upload, open at the
    service. *)
Definition put_exchange (i : nat) (b : bytes) (k : nat) : response string :=
  answer (net i k) (Done (etag b)).

(** The requests a worker makes for part [i]: each one that arrives stores
    the part. *)
Definition part_requests (c : Config) (i : nat) (b : bytes)
    (svc : service) : service :=
  foldl (λ svc k, if arrives (net i k)
                  then (upload_part etag uid i b svc).2 else svc)
    svc (seq 0 (run_part c (put_exchange i b)).2).

(** What the requests of a step do to the service. *)
Definition serve (ev : put_event) (p p' : putter) (svc : service) : service :=
  match ev with
  | PutUploaded i =>
      match p_inflight p !! i with
      | Some b => part_requests (p_config p) i b svc
      | None => svc
      end
  | PutComplete =>
      match p_done p' with
      | Some (Completed l d) => (complete_upload etag uid l svc).2
      | Some (Aborted _) => abort_upload uid svc
      | None => svc
      end
  | _ => svc
  end.

Definition world_step (e : world_event) (w : world) : option world :=
  match e with
  | Upload ev =>
      p' ← put_step digest put_exchange ev (w_put w);
      Some (mkWorld p' (serve ev (w_put w) p' (w_svc w)) (w_digest w))
  | StoreDigest =>
      match p_done (w_put w), w_digest w, Md5Check (p_config (w_put w)) with
      | Some (Completed _ d), false, true =>
          Some (mkWorld (w_put w)
                  (put_object (md5_path key) (list_byte_of_string d) (w_svc w))
                  true)
      | _, _, _ => None
      end
  | AbortLost =>
      p' ← put_step digest put_exchange PutComplete (w_put w);
      if p_done p' is Some (Aborted _)
      then Some (mkWorld p' (w_svc w) (w_digest w)) else None
  end.

Definition world_run : list world_event → world → option world :=
  run_steps world_step.

(** An upload of the object [key], from the request that initiates it. *)
Definition begin_upload (c : Config) (svc : service) : world :=
  mkWorld (open_putter c) (initiate_upload key svc).2 false.

(** What a step of the world is to the upload: a step, or nothing. *)
Lemma world_step_put e w w' :
  world_step e w = Some w' →
  match put_of e with
  | Some ev => put_step digest put_exchange ev (w_put w) = Some (w_put w')
  | None => w_put w' = w_put w
  end.
Proof.
  destruct e as [ev| |]; simpl.
  - destruct (put_step _ _ ev (w_put w)); [|done]. by intros [= <-].
  - repeat case_match; try done. by intros [= <-].
  - destruct (Complete _ _) as [p'|]; [|done]. simpl.
    repeat case_match; try done. by intros [= <-].
Qed.

(** The end of an upload whose request to abort is lost: the upload ends
    as aborted and the service is not told. *)
Lemma world_step_AbortLost w w' :
  world_step AbortLost w = Some w' →
  Complete digest (w_put w) = Some (w_put w') ∧
  (∃ f, p_done (w_put w') = Some (Aborted f)) ∧
  w_svc w' = w_svc w ∧ w_digest w' = w_digest w.
Proof.
  simpl. destruct (Complete _ _) as [p'|]; [|done]. simpl.
  destruct (p_done p') as [[|f]|] eqn:Hd; try done. intros [= <-]. eauto.
Qed.

(** The end of an upload whose request to abort arrives. *)
Lemma world_step_abort w w' f :
  world_step (Upload PutComplete) w = Some w' →
  p_done (w_put w') = Some (Aborted f) →
  w_svc w' = abort_upload uid (w_svc w) ∧ w_digest w' = w_digest w.
Proof.
  simpl. destruct (Complete _ _) as [p'|]; [|done]. simpl.
  intros [= <-]. simpl. by intros ->.
Qed.

End upload.

(** ** What the service holds during an upload *)

Section stored.
Context (digest : bytes → string) (etag : bytes → string).
Context (net : nat → nat → delivery).
Context (key : string) (uid : positive).
Context (obj0 : gmap string bytes) (mp0 : gmap positive multipart).
Context (Hfresh : mp0 !! uid = None).

Local Abbreviation exchange := (put_exchange etag net).
Local Abbreviation step := (put_step digest exchange).

(** The service while the upload is open with the parts [parts]: the
    objects and the other uploads are as they were before it began. *)
Definition open_at (parts : gmap nat bytes) : service :=
  mkService obj0 (<[uid := mkMultipart key parts]> mp0).

Lemma exchange_tagging : tagging etag exchange.
Proof.
  intros i b k t. unfold put_exchange. destruct (net i k); simpl; congruence.
Qed.

Lemma upload_part_open_at i b parts :
  (upload_part etag uid i b (open_at parts)).2 = open_at (<[i := b]> parts).
Proof.
  unfold upload_part, open_at. simpl.
  by rewrite lookup_insert_eq, insert_insert_eq.
Qed.

(** Requests for a part, of which some arrive: the part is stored if one
    does. *)
Lemma requests_open (ks : list nat) i b parts :
  foldl (λ svc k, if arrives (net i k)
                  then (upload_part etag uid i b svc).2 else svc)
    (open_at parts) ks
  = open_at (if existsb (λ k, arrives (net i k)) ks
             then <[i := b]> parts else parts).
Proof.
  revert parts. induction ks as [|k ks IH]; intros parts; [done|]. simpl.
  destruct (arrives (net i k)); simpl; [|apply IH].
  rewrite upload_part_open_at, IH, insert_insert_eq. by case_match.
Qed.

(** The requests of a worker leave the upload open, with its part when the
    worker got the tag. *)
Lemma part_requests_open c i b parts :
  ∃ parts', part_requests etag net uid c i b (open_at parts) = open_at parts' ∧
            (parts' = parts ∨ parts' = <[i := b]> parts) ∧
            (∀ t, (run_part c (exchange i b)).1 = inl t → parts' = <[i := b]> parts).
Proof.
  unfold part_requests. rewrite requests_open.
  eexists. split; [done|]. split; [case_match; eauto|].
  destruct (run_part c (exchange i b)) as [res m] eqn:Hrun. simpl.
  apply attempt_part_spec in Hrun as (Hm & _ & H0 & Hlast). intros t ->.
  destruct (decide (m = 0%nat)) as [Hz|]; [by destruct (H0 Hz)|].
  destruct Hlast as [Hres _]; [lia|].
  rewrite (proj2 (existsb_exists _ _)); [done|].
  exists (m - 1)%nat. split; [apply in_seq; lia|].
  unfold put_exchange in Hres. by destruct (net i (m - 1)%nat).
Qed.

(** The parts at the service are parts that were handed out, with the
    bytes of their chunk, and every part that has its tag is there. *)
Definition held (p : putter) (parts : gmap nat bytes) : Prop :=
  (∀ i b, parts !! i = Some b →
          (i < p_sent p)%nat ∧ b = chunk (p_size p) (p_hash p) i) ∧
  (∀ i, is_Some (p_etags p !! i) → is_Some (parts !! i)).

Lemma held_step ev p p' parts :
  put_streamed exchange p → step ev p = Some p' →
  p_etags p' = p_etags p → held p parts → held p' parts.
Proof.
  intros Hs Hstep Het [Hparts Htags]. split; [|by rewrite Het].
  intros i b [Hi ->]%Hparts. pose proof (put_step_sent _ _ _ _ _ Hstep).
  split; [lia|]. symmetry. by eapply put_step_chunk.
Qed.

Lemma held_Uploaded i b p p' parts parts' :
  putter_wf digest p → put_streamed exchange p →
  p_inflight p !! i = Some b → Uploaded exchange i p = Some p' →
  (parts' = parts ∨ parts' = <[i := b]> parts) →
  (∀ t, (run_part (p_config p) (exchange i b)).1 = inl t →
        parts' = <[i := b]> parts) →
  held p parts → held p' parts'.
Proof.
  intros Hwf Hs Hb (b' & Hb' & ->)%Uploaded_inv Hcase Hok [Hparts Htags].
  assert (b' = b) as -> by congruence.
  destruct (pw_inflight _ _ Hwf i) as [Hi _]; [done|].
  destruct (ps_inflight _ _ Hs i b Hb) as [Hchunk _].
  assert (∀ j x, parts' !! j = Some x →
                 (j < p_sent p)%nat ∧ x = chunk (p_size p) (p_hash p) j) as H1.
  { intros j x. destruct Hcase as [->| ->]; [apply Hparts|].
    intros [[<- <-]|[_ ?]]%lookup_insert_Some; [done|by apply Hparts]. }
  assert (∀ j, is_Some (parts !! j) → is_Some (parts' !! j)) as Hmono.
  { intros j. destruct Hcase as [->| ->]; [done|].
    rewrite lookup_insert_is_Some. destruct (decide (i = j)); eauto. }
  destruct (run_part _ _).1 as [t|f]; (split; [exact H1|]); simpl; [|by eauto].
  intros j [<-|Hj]%lookup_insert_is_Some'.
  - rewrite (Hok t) by done. by rewrite lookup_insert_eq.
  - by apply Hmono, Htags.
Qed.

(** The service in a state of the upload: open with the parts it holds;
    after the completion, the object of the bytes written and its digest;
    after the end of an aborted upload, what it was when the request to
    abort arrived, and still the open upload when it did not. *)
Definition stored (w : world) : Prop :=
  match p_done (w_put w) with
  | None =>
      w_digest w = false ∧
      ∃ parts, w_svc w = open_at parts ∧ held (w_put w) parts
  | Some (Completed l d) =>
      w_svc w =
      let obj := <[key := p_hash (w_put w)]> obj0 in
      mkService (if w_digest w
                 then <[md5_path key := list_byte_of_string d]> obj else obj)
        mp0
  | Some (Aborted _) =>
      w_svc w = mkService obj0 mp0 ∨ ∃ parts, w_svc w = open_at parts
  end.

(** The request to abort has arrived: the service is what it was. *)
Definition restored (w : world) : Prop :=
  ∀ f, p_done (w_put w) = Some (Aborted f) → w_svc w = mkService obj0 mp0.

Lemma stored_Complete p p' parts dg :
  putter_wf digest p → put_streamed exchange p →
  Complete digest p = Some p' → held p parts →
  dg = false →
  stored (mkWorld p' (serve etag net uid PutComplete p p' (open_at parts)) dg).
Proof.
  intros Hwf Hs (Hcl & Hinfl & Hd & ->)%Complete_inv [Hparts Htags] ->.
  unfold stored, serve. simpl. destruct (p_err p) as [f|] eqn:He.
  { left. unfold abort_upload, open_at. simpl. by rewrite delete_insert_id. }
  pose proof (etags_all digest exchange etag p) as Hall.
  rewrite (completion_all (λ i, etag (chunk (p_size p) (p_hash p) i)))
    by (intros; apply Hall; auto using exchange_tagging).
  rewrite (complete_upload_all etag uid key parts (chunk (p_size p) (p_hash p))).
  - unfold open_at. simpl. rewrite delete_insert_id by done.
    rewrite (ps_closed _ _ Hs Hcl He). unfold p_size.
    by rewrite chunks_concat by apply Hs.
  - unfold open_at. simpl. by rewrite lookup_insert_eq.
  - intros i Hi. destruct (Htags i) as [b Hb].
    { rewrite Hall; auto using exchange_tagging. }
    by destruct (Hparts i b Hb) as [_ <-].
Qed.

(** What a step other than a worker's or the completion leaves alone. *)
Lemma put_step_other ev p p' :
  (∀ i, ev ≠ PutUploaded i) → ev ≠ PutComplete →
  step ev p = Some p' → p_etags p' = p_etags p ∧ p_done p' = p_done p.
Proof.
  intros Hup Hco. destruct ev as [b| |i| |]; simpl; [| |by destruct (Hup i)| |done].
  - destruct (Write b p) as [[[f|] p1]|] eqn:Hw; [done| |done]. intros [= <-].
    by apply Write_accepted in Hw as (_ & _ & ->).
  - by intros [_ ->]%Emit_inv.
  - destruct (PutClose p) as [[res p1]|] eqn:Hc; [|done]. intros [= <-].
    apply PutClose_inv in Hc.
    by destruct Hc as [(_ & _ & ->)|(_ & _ & [[_ ->]|(_ & _ & _ & _ & ->)])].
Qed.

(** Every step of the upload keeps the service in step with it. *)
Lemma upload_step_stored ev p p' svc dg :
  putter_wf digest p → put_streamed exchange p →
  stored (mkWorld p svc dg) → step ev p = Some p' →
  stored (mkWorld p' (serve etag net uid ev p p' svc) dg).
Proof.
  intros Hwf Hs Hst Hstep.
  unfold stored in Hst. simpl in Hst. destruct (p_done p) as [o|] eqn:Hd.
  { destruct (put_step_done _ _ _ _ _ o Hwf Hd Hstep) as [-> ->].
    unfold stored. simpl. by rewrite Hd. }
  destruct Hst as (-> & parts & -> & Hheld).
  destruct (decide (ev = PutComplete)) as [->|Hco]; [by apply stored_Complete|].
  destruct ev as [b| |i| |]; try done.
  3: { simpl in Hstep. pose proof Hstep as (b & Hb & Hp')%Uploaded_inv.
       destruct (part_requests_open (p_config p) i b parts) as (ps' & Hreq & ? & ?).
       unfold stored, serve. simpl. rewrite Hb, Hreq.
       replace (p_done p') with (p_done p) by (rewrite Hp'; by case_match).
       rewrite Hd. split; [done|]. exists ps'. split; [done|].
       by eapply held_Uploaded. }
  all: pose proof Hstep as [Het Hd']%put_step_other; [|done..];
    unfold stored; simpl; rewrite Hd', Hd; split; [done|];
    exists parts; split; [done|]; by eapply held_step.
Qed.

Lemma world_step_stored e w w' :
  putter_wf digest (w_put w) → put_streamed exchange (w_put w) →
  stored w → world_step digest etag net key uid e w = Some w' → stored w'.
Proof.
  destruct w as [p svc dg]. intros Hwf Hs Hst. destruct e as [ev| |]; simpl.
  - destruct (step ev p) as [p'|] eqn:Hstep; [|done]. intros [= <-].
    by apply upload_step_stored.
  - unfold stored in *. simpl in *.
    destruct (p_done p) as [[l d|f]|] eqn:Hd; [|done..].
    destruct dg; [done|]. case_match; [|done].
    intros [= <-]. simpl. by rewrite Hd, Hst.
  - destruct (Complete digest p) as [p'|] eqn:Hc; [|done]. simpl.
    destruct (p_done p') as [[l d|f]|] eqn:Hd'; try done. intros [= <-].
    apply Complete_inv in Hc as (_ & _ & Hd & _).
    unfold stored in *. simpl in *. rewrite Hd in Hst. rewrite Hd'.
    destruct Hst as (_ & parts & -> & _). eauto.
Qed.

(** An upload that has ended with an abort stays as it is. *)
Lemma world_step_aborted e w w' f :
  putter_wf digest (w_put w) → p_done (w_put w) = Some (Aborted f) →
  world_step digest etag net key uid e w = Some w' → w' = w.
Proof.
  destruct w as [p svc dg]. intros Hwf Hd. destruct e as [ev| |]; simpl in *.
  - destruct (step ev p) as [p'|] eqn:Hstep; [|done]. intros [= <-].
    by destruct (put_step_done _ _ _ _ _ _ Hwf Hd Hstep) as [-> ->].
  - by rewrite Hd.
  - destruct (Complete digest p) as [p'|] eqn:Hc; [|done].
    apply Complete_inv in Hc as (_ & _ & ? & _). congruence.
Qed.

(** As long as no request to abort is lost, an aborted upload has left
    the service as it was. *)
Lemma world_step_restored e w w' :
  e ≠ AbortLost →
  putter_wf digest (w_put w) → stored w → restored w →
  world_step digest etag net key uid e w = Some w' → restored w'.
Proof.
  intros He Hwf Hst Hre Hstep f Hd'.
  destruct (p_done (w_put w)) as [o|] eqn:Hd.
  { assert (w_put w' = w_put w) as Hp.
    { pose proof (world_step_put _ _ _ _ _ _ _ _ Hstep) as Hput.
      destruct e as [ev| |]; simpl in Hput; [|done..].
      by destruct (put_step_done _ _ _ _ _ _ Hwf Hd Hput) as [_ ->]. }
    rewrite Hp, Hd in Hd'. injection Hd' as ->.
    rewrite (world_step_aborted _ _ _ f Hwf Hd Hstep). by apply (Hre f). }
  destruct w as [p svc dg], e as [ev| |]; simpl in *; [|by rewrite Hd in Hstep|done].
  destruct (step ev p) as [p'|] eqn:Hput; [|done]. injection Hstep as <-.
  simpl in *. destruct (decide (ev = PutComplete)) as [->|Hev].
  - unfold stored in Hst. simpl in Hst. rewrite Hd in Hst.
    destruct Hst as (_ & parts & -> & _). unfold serve. rewrite Hd'.
    unfold abort_upload, open_at. simpl. by rewrite delete_insert_id.
  - rewrite (put_step_keeps_done _ _ _ _ _ Hput Hev) in Hd'. congruence.
Qed.

End stored.

(** ** Uploads against the service *)

Section uploaded.
Context (digest : bytes → string) (etag : bytes → string).
Context (net : nat → nat → delivery) (key : string).
Context (c : Config) (svc : service).

Let uid : positive := (initiate_upload key svc).1.
Local Abbreviation exchange := (put_exchange etag net).
Local Abbreviation upload_run := (world_run digest etag net key uid).

(** The bytes a run of the world writes. *)
Definition wrote (evs : list world_event) : bytes := written (uploads_of evs).

(** The upload of a run of the world is a run of the upload. *)
Lemma world_run_put evs w w' :
  upload_run evs w = Some w' →
  put_run digest exchange (uploads_of evs) (w_put w) = Some (w_put w').
Proof.
  revert w. unfold world_run.
  induction evs as [|e evs IH]; intros w; [by intros [= <-]|].
  rewrite run_steps_cons.
  destruct (world_step _ _ _ _ _ e w) as [w1|] eqn:Hstep; [|done]. simpl.
  intros ?%IH. apply world_step_put in Hstep. unfold uploads_of in *.
  cbn [omap list_omap]. destruct (put_of e) as [ev|]; [|congruence].
  by rewrite put_run_cons, Hstep.
Qed.

(** The upload is well formed and the service is in step with it. *)
Definition in_step (w : world) : Prop :=
  putter_wf digest (w_put w) ∧ put_streamed exchange (w_put w) ∧
  stored key uid (objects svc) (multiparts svc) w.

Lemma world_step_in_step e w w' :
  in_step w → world_step digest etag net key uid e w = Some w' → in_step w'.
Proof.
  intros (Hwf & Hs & Hst) Hstep. split_and!.
  3: eapply world_step_stored; [apply initiate_upload_open|done..].
  all: apply world_step_put in Hstep; destruct (put_of e) as [ev|];
    [eauto using put_step_wf, put_step_streamed|by rewrite Hstep].
Qed.

Lemma begin_upload_in_step : 0 < PartSize c → in_step (begin_upload key c svc).
Proof.
  intros Hsz. split_and!; [apply open_putter_wf|by apply open_putter_streamed|].
  split; [done|]. exists ∅. split; [done|].
  split; [intros i b; by rewrite lookup_empty|].
  simpl. intros i [? Hi]. by rewrite lookup_empty in Hi.
Qed.

(** In every state of the run the upload is well formed and the service
    is in step with it. *)
Lemma world_run_stored evs w :
  0 < PartSize c → upload_run evs (begin_upload key c svc) = Some w →
  putter_wf digest (w_put w) ∧ put_streamed exchange (w_put w) ∧
  stored key uid (objects svc) (multiparts svc) w.
Proof.
  intros Hsz Hrun.
  eapply (run_steps_invariant _ in_step); [|by apply begin_upload_in_step|exact Hrun].
  intros e w1 w2. apply world_step_in_step.
Qed.

(** An upload that has aborted without losing the request to abort has
    left the service as it was. *)
Lemma abort_arrived evs w f :
  0 < PartSize c → upload_run evs (begin_upload key c svc) = Some w →
  AbortLost ∉ evs → p_done (w_put w) = Some (Aborted f) →
  w_svc w = mkService (objects svc) (multiparts svc).
Proof.
  intros Hsz Hrun Hin Hd.
  assert (in_step w ∧ restored (objects svc) (multiparts svc) w) as [_ Hre];
    [|by apply (Hre f)].
  eapply (run_steps_invariant_on _ (λ e, e ≠ AbortLost)
    (λ w, in_step w ∧ restored (objects svc) (multiparts svc) w));
    [| | |exact Hrun].
  - intros e w1 w2 He [Hin1 Hre] Hstep.
    split; [by eapply world_step_in_step|].
    destruct Hin1 as (Hwf & _ & Hst).
    eapply (world_step_restored digest etag net key uid);
      [apply initiate_upload_open|done..].
  - apply Forall_forall. by intros e He ->.
  - split; [by apply begin_upload_in_step|]. by intros ?.
Qed.

(** Nothing follows an abort. *)
Lemma world_run_aborted evs w w' f :
  putter_wf digest (w_put w) → p_done (w_put w) = Some (Aborted f) →
  upload_run evs w = Some w' → w' = w.
Proof.
  intros Hwf Hd. unfold world_run.
  induction evs as [|e evs IH]; [by intros [= <-]|].
  rewrite run_steps_cons.
  destruct (world_step _ _ _ _ _ e w) as [w1|] eqn:Hstep; [|done].
  by rewrite (world_step_aborted _ _ _ _ _ _ _ _ f Hwf Hd Hstep).
Qed.

(** An upload whose request to abort was lost is left open at the
    service. *)
Lemma abort_lost_open evs w :
  0 < PartSize c → upload_run evs (begin_upload key c svc) = Some w →
  AbortLost ∈ evs → is_Some (multiparts (w_svc w) !! uid).
Proof.
  intros Hsz Hrun (evs1 & evs2 & ->)%list_elem_of_split.
  unfold world_run in Hrun. rewrite run_steps_app in Hrun.
  destruct (run_steps _ evs1 _) as [w1|] eqn:Hrun1; [|done].
  apply world_run_stored in Hrun1 as (Hwf & Hs & Hst); [|done].
  cbn [mbind option_bind] in Hrun. rewrite run_steps_cons in Hrun.
  destruct (world_step _ _ _ _ _ AbortLost w1) as [w2|] eqn:Hstep; [|done].
  cbn [mbind option_bind] in Hrun.
  pose proof (world_step_in_step _ _ _ (conj Hwf (conj Hs Hst)) Hstep)
    as (Hwf2 & _ & _).
  simpl in Hstep. destruct (Complete digest (w_put w1)) as [p'|] eqn:Hc; [|done].
  simpl in Hstep. destruct (p_done p') as [[|f]|] eqn:Hd'; try done.
  injection Hstep as <-.
  apply Complete_inv in Hc as (_ & _ & Hd & _).
  unfold stored in Hst. rewrite Hd in Hst. destruct Hst as (_ & parts & Hsvc & _).
  rewrite (world_run_aborted evs2 _ w f Hwf2 Hd' Hrun). simpl. rewrite Hsvc.
  simpl. rewrite lookup_insert_eq. by eexists.
Qed.

(** The service after the completion: what it had and the object, and the
    digest once it is stored. *)
Lemma completed_service evs w l d :
  0 < PartSize c → upload_run evs (begin_upload key c svc) = Some w →
  p_done (w_put w) = Some (Completed l d) →
  w_svc w =
  let svc' := put_object key (wrote evs) svc in
  if w_digest w
  then put_object (md5_path key) (list_byte_of_string (digest (wrote evs))) svc'
  else svc'.
Proof.
  intros Hsz Hrun Hd. destruct (world_run_stored _ _ Hsz Hrun) as (Hwf & _ & Hst).
  apply world_run_put, put_run_hash in Hrun as [_ Hh]. simpl in Hh.
  unfold stored in Hst. rewrite Hd in Hst.
  apply (completed_inv digest) in Hd as (_ & _ & _ & _ & ->); [|done].
  rewrite Hst, Hh. by destruct (w_digest w).
Qed.

(** An upload is atomic at the service.  Whatever the writes, the
    schedule of the workers and the requests the network loses or leaves
    unanswered: while the upload is open the objects of the bucket are
    those it had before, no reader sees a part; when the upload completes
    the bucket holds, besides what it had, the object of the bytes
    written, in the order of the writes, and, once the request that follows
    the completion has stored it, the digest of those bytes beside it, and
    the multipart upload is no more; when the upload aborts the objects
    are what they were, and the service is as it was before the upload
    was initiated when the request to abort arrived: when it was lost the
    upload stays open at the service. *)
Theorem upload_atomic evs w :
  0 < PartSize c → upload_run evs (begin_upload key c svc) = Some w →
  match p_done (w_put w) with
  | None => objects (w_svc w) = objects svc
  | Some (Completed _ _) =>
      w_svc w =
      let svc' := put_object key (wrote evs) svc in
      if w_digest w
      then put_object (md5_path key)
             (list_byte_of_string (digest (wrote evs))) svc'
      else svc'
  | Some (Aborted _) =>
      objects (w_svc w) = objects svc ∧
      if bool_decide (AbortLost ∈ evs)
      then is_Some (multiparts (w_svc w) !! uid)
      else w_svc w = svc
  end.
Proof.
  intros Hsz Hrun. destruct (world_run_stored _ _ Hsz Hrun) as (_ & _ & Hst).
  unfold stored in Hst. destruct (p_done (w_put w)) as [[l d|f]|] eqn:Hd.
  - by eapply completed_service.
  - split; [destruct Hst as [->|[parts ->]]; by destruct svc|].
    case_bool_decide as Hin.
    + by eapply abort_lost_open.
    + rewrite (abort_arrived evs w f Hsz Hrun) by done. by destruct svc.
  - by destruct Hst as (_ & parts & -> & _).
Qed.

End uploaded.

(** ** Downloads from the service *)

Section download.
Context (digest : bytes → string) (net : nat → nat → delivery).
Context (key : string) (svc : service) (c : Config).

(** The length the first request announces; zero when there is no such
    object. *)
Definition object_length : Z := default 0 (fst <$> stat key svc).

(** The answer to request [k] for the range of part [i]. *)
Definition get_exchange (i k : nat) : response bytes :=
  let p := part_at (PartSize c) object_length i in
  answer (net i k) (get_range key (part_off p) (part_len p) svc).

(** A download of the object [key], from its first request. *)
Definition begin_download : option getter :=
  '(total, md5) ← stat key svc; Some (open_getter c total md5).

Lemma object_length_Some data :
  objects svc !! key = Some data → object_length = Z.of_nat (length data).
Proof. intros Hk. unfold object_length, stat. by rewrite Hk. Qed.

(** The service answers a range request with the bytes of the object. *)
Lemma get_exchange_honest data :
  objects svc !! key = Some data → honest get_exchange c data.
Proof.
  intros Hk i k b. unfold get_exchange. rewrite (object_length_Some data Hk).
  destruct (net i k); simpl; [|done..].
  intros (data' & Hk' & ->)%get_range_Done.
  by assert (data' = data) as -> by congruence.
Qed.

End download.

(** A download that reports the end of the stream has read the object its
    server holds, and [Close] gives the verdict of the integrity check on
    those bytes. *)
Lemma download_verdict digest server c data md5 evs g n g' :
  0 < PartSize c → honest server c data →
  run digest server evs (open_getter c (Z.of_nat (length data)) md5) = Some g →
  Read n g = Some (ReadEOF, g') →
  g_read g = data ∧
  (Close digest g).1 =
  if Md5Check c then
    match md5 with
    | Some d => if decide (d = digest data) then None else Some IntegrityError
    | None => None
    end
  else None.
Proof.
  intros Hsz Hh Hrun Hread.
  assert (downloads digest server c data md5 g) as Hg by by exists evs.
  split.
  - eapply streamed_eof; [|done]. by eapply downloads_streamed.
  - apply Read_EOF_inv in Hread as (? & ? & ?).
    by apply (download_verified digest server c data md5).
Qed.

(** ** The round trip *)

Section roundtrip.
Context (digest : bytes → string) (etag : bytes → string).
Context (net : nat → nat → delivery) (key : string).
Context (c : Config) (svc : service).

Local Abbreviation upload_run :=
  (world_run digest etag net key (initiate_upload key svc).1).

(** After a completed upload the first request of a download announces
    the length of what was written and the digest stored with it. *)
Lemma uploaded_stat evs w l d :
  0 < PartSize c → upload_run evs (begin_upload key c svc) = Some w →
  p_done (w_put w) = Some (Completed l d) → w_digest w = true →
  objects (w_svc w) !! key = Some (wrote evs) ∧
  stat key (w_svc w)
  = Some (Z.of_nat (length (wrote evs)), Some (digest (wrote evs))).
Proof.
  intros Hsz Hrun Hd Hdg.
  rewrite (completed_service digest etag net key c svc evs w l d), Hdg by done.
  split.
  - simpl. rewrite lookup_insert_ne by apply md5_path_ne.
    by rewrite lookup_insert_eq.
  - apply stat_put_digest. simpl. by rewrite lookup_insert_eq.
Qed.

(** A download opened after the upload, against any server that answers
    with the bytes of some [data] of the announced length. *)
Lemma downloaded_verdict c' server data evs devs g n g' :
  0 < PartSize c' → honest server c' data →
  length data = length (wrote evs) →
  run digest server devs
    (open_getter c' (Z.of_nat (length (wrote evs)))
       (Some (digest (wrote evs)))) = Some g →
  Read n g = Some (ReadEOF, g') →
  g_read g = data ∧
  (Close digest g).1 =
  if Md5Check c' && negb (bool_decide (digest data = digest (wrote evs)))
  then Some IntegrityError else None.
Proof.
  intros Hsz Hh Hlen Hrun Hread. rewrite <-Hlen in Hrun.
  destruct (download_verdict _ _ _ _ _ _ _ _ _ Hsz Hh Hrun Hread) as [-> ->].
  split; [done|]. destruct (Md5Check c'); [|done]. simpl.
  case_decide; case_bool_decide; simpl; congruence.
Qed.

(** The checksum round trip.  After an upload that completed and
    stored its digest, a
    download of the object, under any configuration and schedule and
    through any retries, that reads the stream to its end has read the
    bytes that were written, and its [Close] reports no error.  And if the
    bytes that arrive are not the object's (a server that answers with the
    ranges of some other [data] of the same length), the caller reads those
    bytes and [Close] reports the integrity error exactly when the check is
    on and their digest is not the stored one. *)
Theorem upload_download_roundtrip c' net' evs w l d :
  0 < PartSize c → 0 < PartSize c' →
  upload_run evs (begin_upload key c svc) = Some w →
  p_done (w_put w) = Some (Completed l d) → w_digest w = true →
  ∃ g0, begin_download key (w_svc w) c' = Some g0 ∧
    (∀ devs g n g',
       run digest (get_exchange net' key (w_svc w) c') devs g0 = Some g →
       Read n g = Some (ReadEOF, g') →
       g_read g = wrote evs ∧ (Close digest g).1 = None) ∧
    (∀ server data devs g n g',
       honest server c' data → length data = length (wrote evs) →
       run digest server devs g0 = Some g →
       Read n g = Some (ReadEOF, g') →
       g_read g = data ∧
       (Close digest g).1 =
       if Md5Check c' && negb (bool_decide (digest data = digest (wrote evs)))
       then Some IntegrityError else None).
Proof.
  intros Hsz Hsz' Hrun Hd Hdg.
  destruct (uploaded_stat _ _ _ _ Hsz Hrun Hd Hdg) as [Hobj Hstat].
  eexists. split; [unfold begin_download; by rewrite Hstat|].
  split; [|intros; by eapply downloaded_verdict].
  intros devs g n g' Hdown Hread.
  destruct (downloaded_verdict c' _ (wrote evs) evs devs g n g' Hsz'
              (get_exchange_honest net' key _ c' _ Hobj) eq_refl Hdown Hread)
    as [-> ->].
  split; [done|]. rewrite bool_decide_eq_true_2 by done.
  by rewrite andb_false_r.
Qed.

(** Between the completion and the PUT of the digest the first request
    of a download announces the new object and the digest the bucket had
    for the old one, if it had one. *)
Lemma window_stat evs w l d :
  0 < PartSize c → upload_run evs (begin_upload key c svc) = Some w →
  p_done (w_put w) = Some (Completed l d) → w_digest w = false →
  objects (w_svc w) !! key = Some (wrote evs) ∧
  stat key (w_svc w)
  = Some (Z.of_nat (length (wrote evs)),
          string_of_list_byte <$> objects svc !! md5_path key).
Proof.
  intros Hsz Hrun Hd Hdg.
  rewrite (completed_service digest etag net key c svc evs w l d), Hdg by done.
  unfold stat. simpl. rewrite lookup_insert_eq. simpl.
  by rewrite (lookup_insert_ne _ key (md5_path key))
    by (intros ?; by eapply md5_path_ne).
Qed.

(** C19: the window between the completion and the digest.  An upload
    that has completed and not yet stored its digest has replaced the
    object and left the digest of the bucket as it was.  A download in that
    window reads the new object, every byte of it; its integrity check is
    made against the old digest: when the bucket had a digest for the key
    and the new bytes have another, [Close] reports an integrity error for
    bytes that are exactly what was uploaded, and when it had none the
    download is unchecked. *)
Theorem stale_digest_window c' net' evs w l d :
  0 < PartSize c → 0 < PartSize c' →
  upload_run evs (begin_upload key c svc) = Some w →
  p_done (w_put w) = Some (Completed l d) → w_digest w = false →
  ∃ g0, begin_download key (w_svc w) c' = Some g0 ∧
    ∀ devs g n g',
      run digest (get_exchange net' key (w_svc w) c') devs g0 = Some g →
      Read n g = Some (ReadEOF, g') →
      g_read g = wrote evs ∧
      (Close digest g).1 =
      if Md5Check c' then
        match string_of_list_byte <$> objects svc !! md5_path key with
        | Some d0 =>
            if decide (d0 = digest (wrote evs)) then None
            else Some IntegrityError
        | None => None
        end
      else None.
Proof.
  intros Hsz Hsz' Hrun Hd Hdg.
  destruct (window_stat _ _ _ _ Hsz Hrun Hd Hdg) as [Hobj Hstat].
  eexists. split; [unfold begin_download; by rewrite Hstat|]. simpl.
  intros devs g n g'.
  by apply download_verdict, (get_exchange_honest net' key _ c').
Qed.

(** Without [Md5Check] the digest is never stored: the request for it is
    not made. *)
Lemma unchecked_upload_digest evs w :
  Md5Check c = false → upload_run evs (begin_upload key c svc) = Some w →
  w_digest w = false.
Proof.
  intros Hmd5 Hrun.
  enough (p_config (w_put w) = c ∧ w_digest w = false) as [_ ?] by done.
  eapply (run_steps_invariant _
            (λ w, p_config (w_put w) = c ∧ w_digest w = false)
            evs (begin_upload key c svc)); [|done|exact Hrun].
  intros e [p s dg] w2 [Hc Hdg] Hstep. simpl in Hc, Hdg. subst dg.
  destruct e as [ev| |].
  - simpl in Hstep.
    destruct (put_step _ _ ev p) as [p'|] eqn:Hp; [|done]. injection Hstep as <-.
    apply put_step_hash in Hp as [Hc' _]. simpl. by rewrite Hc'.
  - simpl in Hstep. rewrite Hc, Hmd5 in Hstep. by repeat case_match.
  - apply world_step_AbortLost in Hstep as (Hp & _ & _ & ->).
    apply (put_step_hash digest (put_exchange etag net) PutComplete) in Hp
      as [Hc' _]. simpl. by rewrite Hc'.
Qed.

(** C20: an upload without [Md5Check] over an object that has a digest.  The
    upload replaces the object and leaves the digest of the old one, for
    good: every later download with [Md5Check] reads the new object, every
    byte of it, and its [Close] reports an integrity error whenever the
    old digest is not that of the new bytes. *)
Theorem unchecked_upload_stale c' net' evs w l d d0 :
  0 < PartSize c → 0 < PartSize c' →
  Md5Check c = false → Md5Check c' = true →
  string_of_list_byte <$> objects svc !! md5_path key = Some d0 →
  upload_run evs (begin_upload key c svc) = Some w →
  p_done (w_put w) = Some (Completed l d) →
  ∃ g0, begin_download key (w_svc w) c' = Some g0 ∧
    ∀ devs g n g',
      run digest (get_exchange net' key (w_svc w) c') devs g0 = Some g →
      Read n g = Some (ReadEOF, g') →
      g_read g = wrote evs ∧
      (Close digest g).1 =
      if decide (d0 = digest (wrote evs)) then None else Some IntegrityError.
Proof.
  intros Hsz Hsz' Hmd5 Hmd5' Hd0 Hrun Hd.
  destruct (window_stat _ _ _ _ Hsz Hrun Hd (unchecked_upload_digest evs w Hmd5 Hrun))
    as [Hobj Hstat].
  eexists. split; [unfold begin_download; by rewrite Hstat|]. simpl.
  intros devs g n g' Hdl Heof.
  destruct (download_verdict digest (get_exchange net' key (w_svc w) c') c'
              (wrote evs) (string_of_list_byte <$> objects svc !! md5_path key)
              devs g n g') as [Hread Hclose];
    [done|by apply get_exchange_honest|done..|].
  split; [done|]. by rewrite Hclose, Hmd5', Hd0.
Qed.

End roundtrip.

(** ** Transfers that finish *)

(** One of the [NTry] requests a part is allowed is delivered (requests
    are numbered from 0). *)
Definition gets_through (c : Config) (net : nat → nat → delivery) : Prop :=
  ∀ i, ∃ k, Z.of_nat k < NTry c ∧ net i k = Delivered.

(** The worker of such a part has the answer of the service. *)
Lemma run_part_answer {R} c (net : nat → delivery) (r : R) :
  (∃ k, Z.of_nat k < NTry c ∧ net k = Delivered) →
  (run_part c (λ k, answer (net k) (Done r))).1 = inl r.
Proof.
  intros (k & Hk & Hd). apply attempt_part_answered.
  - intros j. destruct (net j); simpl; auto.
  - exists k. rewrite Hd. unfold attempts. split; [lia|done].
Qed.

Section finishes.
Context (digest : bytes → string) (etag : bytes → string).
Context (net : nat → nat → delivery) (key : string).
Context (c : Config) (svc : service).
Context (Hconc : 1 ≤ Concurrency c) (Hsize : 0 < PartSize c).
Context (Hnet : gets_through c net).

(** The steps of an upload are steps of the world. *)
Lemma world_run_uploads uid evs p p' s dg :
  put_run digest (put_exchange etag net) evs p = Some p' →
  ∃ s', world_run digest etag net key uid (Upload <$> evs) (mkWorld p s dg)
        = Some (mkWorld p' s' dg).
Proof.
  revert p s. induction evs as [|ev evs IH]; intros p s.
  - intros [= <-]. by eexists.
  - rewrite put_run_cons, fmap_cons. unfold world_run.
    rewrite run_steps_cons. cbn [world_step w_put].
    destruct (put_step _ _ ev p) as [p1|]; [|done]. apply IH.
Qed.

Lemma uploads_of_Upload evs : uploads_of (Upload <$> evs) = evs.
Proof.
  unfold uploads_of. induction evs as [|ev evs IH]; [done|]. simpl. by f_equal.
Qed.

(** The sequential upload of [h], and the PUT of its digest when the
    configuration has [Md5Check]. *)
Definition upload_of (h : bytes) : list world_event :=
  (Upload <$> sequential_upload (Z.to_nat (PartSize c)) h)
  ++ (if Md5Check c then [StoreDigest] else []).

Lemma uploads_of_upload_of h :
  uploads_of (upload_of h) = sequential_upload (Z.to_nat (PartSize c)) h.
Proof.
  unfold upload_of, uploads_of. rewrite omap_app.
  etrans; [|apply uploads_of_Upload].
  destruct (Md5Check c); apply app_nil_r.
Qed.

(** The parts of an upload get through. *)
Lemma put_exchange_dependable h :
  dependable (put_exchange etag net) etag c h.
Proof. intros i. by apply (run_part_answer c (net i)). Qed.

(** What the writer's [Close] leaves beside the object: its digest, when
    the configuration of the upload has [Md5Check]. *)
Definition with_digest (md5 : string) (s : service) : service :=
  if Md5Check c then put_object (md5_path key) (list_byte_of_string md5) s
  else s.

(** An upload finishes: the sequential schedule runs to its end, and
    leaves the object, and its digest when [Md5Check] is on. *)
Lemma upload_finishes h :
  ∃ w l, world_run digest etag net key (initiate_upload key svc).1
           (upload_of h) (begin_upload key c svc) = Some w ∧
         p_done (w_put w) = Some (Completed l (digest h)) ∧
         w_digest w = Md5Check c ∧
         w_svc w = with_digest (digest h) (put_object key h svc).
Proof.
  destruct (sequential_upload_completes digest _ etag c h Hconc Hsize
              (put_exchange_dependable h)) as (p & Hrun & Hh & Hd).
  pose proof (put_run_hash _ _ _ _ _ Hrun) as [Hc _].
  eapply (world_run_uploads (initiate_upload key svc).1) in Hrun as [s' Hrun].
  assert (world_run digest etag net key (initiate_upload key svc).1
            (upload_of h) (begin_upload key c svc)
          = Some (mkWorld p (with_digest (digest h) s') (Md5Check c)))
    as Hw.
  { unfold upload_of, world_run, with_digest in *. unfold begin_upload.
    rewrite run_steps_app, Hrun. simpl in *.
    destruct (Md5Check c) eqn:Hmd5; simpl; [|done]. by rewrite Hd, Hc, Hmd5. }
  eexists _, _. split_and!; [done..|].
  pose proof (completed_service digest etag net key c svc _ _ _ _ Hsize Hw Hd)
    as Hsvc.
  unfold wrote in Hsvc. rewrite uploads_of_upload_of, Hh in Hsvc.
  rewrite Hsvc. unfold with_digest. simpl. by destruct (Md5Check c).
Qed.

End finishes.

Section fetched.
Context (digest : bytes → string) (net : nat → nat → delivery) (key : string).
Context (c : Config) (svc : service) (data : bytes).
Context (Hconc : 1 ≤ Concurrency c) (Hsize : 0 < PartSize c).
Context (Hnet : gets_through c net) (Hobj : objects svc !! key = Some data).

(** The parts of a download get through. *)
Lemma get_exchange_reliable : reliable (get_exchange net key svc c) c data.
Proof.
  intros i Hi. unfold get_exchange. rewrite (object_length_Some key svc data Hobj).
  set (p := part_at _ _ i).
  assert (get_range key (part_off p) (part_len p) svc = Done (part_bytes data p))
    as ->; [|by apply (run_part_answer c (net i))].
  unfold get_range. rewrite Hobj, decide_True; [done|]. subst p. simpl.
  pose proof (part_before_end (PartSize c) (Z.of_nat (length data)) Hsize
                ltac:(lia) (Z.of_nat i) ltac:(lia)). lia.
Qed.

(** A download finishes: the sequential schedule reads the object to the
    end of the stream, and [Close] gives the verdict of the check. *)
Lemma download_finishes n :
  ∃ g, begin_download key svc c
       ≫= run digest (get_exchange net key svc c)
            (sequential (PartSize c)
               (part_count (PartSize c) (Z.of_nat (length data)))) = Some g ∧
       g_read g = data ∧ Read n g = Some (ReadEOF, g) ∧
       (Close digest g).1 =
       if Md5Check c then
         match string_of_list_byte <$> objects svc !! md5_path key with
         | Some d => if decide (d = digest data) then None
                     else Some IntegrityError
         | None => None
         end
       else None.
Proof.
  destruct (sequential_download digest _ c data
              (string_of_list_byte <$> objects svc !! md5_path key)
              Hconc Hsize n get_exchange_reliable) as (g & Hrun & Hg & _ & Hr).
  exists g. unfold begin_download, stat. rewrite Hobj. simpl.
  split_and!; [done..|].
  eapply (download_verdict digest _ c data); [done| |done..].
  by apply get_exchange_honest.
Qed.

End fetched.

Section transfer.
Context (digest : bytes → string) (etag : bytes → string) (key : string).
Context (c c' : Config) (net net' : nat → nat → delivery) (svc : service).

(** A transfer finishes, and gives back what it was given.  With a
    concurrency of at least one and a part size above zero on both sides,
    and networks on which one of the [NTry] requests allowed for every
    part is delivered: the upload of any bytes [h] by the sequential
    schedule runs to its end, through the retries, and leaves the object
    in the bucket, with its digest when the upload has [Md5Check]; the
    sequential download of the object then runs to the end of the stream,
    the caller has read [h], and [Close] reports no error, provided the
    download does not check what the upload did not store. *)
Theorem transfer_finishes h n :
  1 ≤ Concurrency c → 0 < PartSize c → gets_through c net →
  1 ≤ Concurrency c' → 0 < PartSize c' → gets_through c' net' →
  (Md5Check c' = true → Md5Check c = true) →
  ∃ w g,
    world_run digest etag net key (initiate_upload key svc).1
      (upload_of c h) (begin_upload key c svc) = Some w ∧
    w_svc w = with_digest key c (digest h) (put_object key h svc) ∧
    begin_download key (w_svc w) c'
    ≫= run digest (get_exchange net' key (w_svc w) c')
         (sequential (PartSize c')
            (part_count (PartSize c') (Z.of_nat (length h)))) = Some g ∧
    g_read g = h ∧ Read n g = Some (ReadEOF, g) ∧ (Close digest g).1 = None.
Proof.
  intros Hconc Hsize Hnet Hconc' Hsize' Hnet' Hmd5.
  destruct (upload_finishes digest etag net key c svc Hconc Hsize Hnet h)
    as (w & l & Hw & _ & _ & Hsvc).
  assert (objects (w_svc w) !! key = Some h) as Hobj.
  { rewrite Hsvc. unfold with_digest. destruct (Md5Check c); simpl;
      rewrite ?(lookup_insert_ne _ (md5_path key)) by apply md5_path_ne;
      apply lookup_insert_eq. }
  destruct (download_finishes digest net' key c' (w_svc w) h
              Hconc' Hsize' Hnet' Hobj n) as (g & Hg & Hread & Heof & Hclose).
  exists w, g. split_and!; [done..|]. rewrite Hclose.
  destruct (Md5Check c'); [|done]. rewrite Hsvc. unfold with_digest.
  rewrite Hmd5 by done. simpl.
  rewrite lookup_insert_eq. simpl. rewrite string_of_list_byte_of_string.
  by rewrite decide_True.
Qed.

End transfer.

(** ** Examples *)

(** A network that loses the first request for every part but part 1, whose
    first request arrives and is not answered. *)
Definition hello_net (i k : nat) : delivery :=
  if decide (1 ≤ k)%nat then Delivered
  else if decide (i = 1)%nat then Unanswered (mkError "timeout")
  else Lost (mkError "connection reset").

Definition empty_bucket : service := mkService ∅ ∅.

(** The upload of [hello_upload] into the empty bucket, to its end. *)
Definition hello_events : list world_event :=
  (Upload <$> hello_upload) ++ [StoreDigest].

Definition hello_world : world :=
  Eval vm_compute in
    default (begin_upload "hello.txt" small_config empty_bucket)
      (world_run plain_digest plain_tag hello_net "hello.txt" 1%positive
         hello_events (begin_upload "hello.txt" small_config empty_bucket)).

Example hello_world_run :
  world_run plain_digest plain_tag hello_net "hello.txt"
    (initiate_upload "hello.txt" empty_bucket).1 hello_events
    (begin_upload "hello.txt" small_config empty_bucket)
  = Some hello_world.
Proof. by vm_compute. Qed.

Example hello_world_bucket :
  objects (w_svc hello_world)
  = {[ "hello.txt" := hello;
       ".md5/hello.txt" := list_byte_of_string "hello, S3!" ]} ∧
  multiparts (w_svc hello_world) = ∅.
Proof. by vm_compute. Qed.

(** Scenario C at the service: part 1 never arrives, the upload aborts and
    the bucket is empty again. *)
Example broken_world_bucket :
  w_svc <$> world_run plain_digest plain_tag
    (λ i k, if decide (i = 1)%nat then Lost (mkError "connection reset")
            else Delivered)
    "hello.txt" 1%positive
    (Upload <$> broken_upload ++ [PutUploaded 0; PutCloses; PutComplete])
    (begin_upload "hello.txt" small_config empty_bucket)
  = Some empty_bucket.
Proof. by vm_compute. Qed.

(** The same upload when the request to abort is lost: the writer is told
    of the failure, and the service keeps the upload with the part that
    arrived. *)
Example broken_world_leak :
  (λ w, (p_done (w_put w), w_svc w)) <$> world_run plain_digest plain_tag
    (λ i k, if decide (i = 1)%nat then Lost (mkError "connection reset")
            else Delivered)
    "hello.txt" 1%positive
    ((Upload <$> broken_upload ++ [PutUploaded 0; PutCloses]) ++ [AbortLost])
    (begin_upload "hello.txt" small_config empty_bucket)
  = Some (Some (Aborted (Unreachable (mkError "connection reset"))),
          mkService ∅ {[ 1%positive :=
                           mkMultipart "hello.txt"
                             {[ 0%nat := list_byte_of_string "hell" ]} ]}).
Proof. by vm_compute. Qed.

(** A configuration that does not store digests. *)
Definition unchecked_config : Config :=
  {| Client := None; Concurrency := 2; PartSize := 4; NTry := 3;
     Md5Check := false; Scheme := "https" |}.

(** The sequential download of what was uploaded. *)
Example hello_world_download :
  (g0 ← begin_download "hello.txt" (w_svc hello_world) small_config;
   g ← run plain_digest
          (get_exchange hello_net "hello.txt" (w_svc hello_world) small_config)
          (sequential 4 3) g0;
   Some (g_read g, (Close plain_digest g).1))
  = Some (hello, None).
Proof. by vm_compute. Qed.

Lemma upload_atomic_witness :
  w_svc hello_world
  = put_object (md5_path "hello.txt")
      (list_byte_of_string (plain_digest (wrote hello_events)))
      (put_object "hello.txt" (wrote hello_events) empty_bucket).
Proof.
  apply (upload_atomic plain_digest plain_tag hello_net "hello.txt"
           small_config empty_bucket hello_events hello_world);
    [done|apply hello_world_run].
Defined.

Lemma upload_download_roundtrip_witness :
  ∃ g0, begin_download "hello.txt" (w_svc hello_world) small_config = Some g0 ∧
    (∀ devs g n g',
       run plain_digest
         (get_exchange hello_net "hello.txt" (w_svc hello_world) small_config)
         devs g0 = Some g →
       Read n g = Some (ReadEOF, g') →
       g_read g = wrote hello_events ∧ (Close plain_digest g).1 = None) ∧
    (∀ server data devs g n g',
       honest server small_config data →
       length data = length (wrote hello_events) →
       run plain_digest server devs g0 = Some g →
       Read n g = Some (ReadEOF, g') →
       g_read g = data ∧
       (Close plain_digest g).1 =
       if Md5Check small_config
          && negb (bool_decide (plain_digest data
                                = plain_digest (wrote hello_events)))
       then Some IntegrityError else None).
Proof.
  apply (upload_download_roundtrip plain_digest plain_tag hello_net "hello.txt"
           small_config empty_bucket small_config hello_net hello_events
           hello_world [(0, "hell"); (1, "o, S"); (2, "3!")]%nat "hello, S3!");
    [done|done|apply hello_world_run|reflexivity|reflexivity].
Defined.

(** A bucket that holds an older [hello.txt], with its digest. *)
Definition old_bucket : service :=
  mkService {[ "hello.txt" := list_byte_of_string "HELLO";
               ".md5/hello.txt" := list_byte_of_string "HELLO" ]} ∅.

(** The upload of [hello_upload] over it, up to the completion. *)
Definition window_world : world :=
  Eval vm_compute in
    default (begin_upload "hello.txt" small_config old_bucket)
      (world_run plain_digest plain_tag hello_net "hello.txt" 1%positive
         (Upload <$> hello_upload)
         (begin_upload "hello.txt" small_config old_bucket)).

Example window_world_run :
  world_run plain_digest plain_tag hello_net "hello.txt"
    (initiate_upload "hello.txt" old_bucket).1 (Upload <$> hello_upload)
    (begin_upload "hello.txt" small_config old_bucket)
  = Some window_world.
Proof. by vm_compute. Qed.

(** The download in the window reads the new object and is told that it
    is corrupt. *)
Example window_world_download :
  (g0 ← begin_download "hello.txt" (w_svc window_world) small_config;
   g ← run plain_digest
          (get_exchange hello_net "hello.txt" (w_svc window_world) small_config)
          (sequential 4 3) g0;
   Some (g_read g, (Close plain_digest g).1))
  = Some (hello, Some IntegrityError).
Proof. by vm_compute. Qed.

Lemma stale_digest_window_witness :
  ∃ g0, begin_download "hello.txt" (w_svc window_world) small_config = Some g0 ∧
    ∀ devs g n g',
      run plain_digest
        (get_exchange hello_net "hello.txt" (w_svc window_world) small_config)
        devs g0 = Some g →
      Read n g = Some (ReadEOF, g') →
      g_read g = wrote (Upload <$> hello_upload) ∧
      (Close plain_digest g).1 = Some IntegrityError.
Proof.
  exact (stale_digest_window plain_digest plain_tag hello_net "hello.txt"
           small_config old_bucket small_config hello_net
           (Upload <$> hello_upload) window_world
           [(0, "hell"); (1, "o, S"); (2, "3!")]%nat "hello, S3!"
           eq_refl eq_refl window_world_run eq_refl eq_refl).
Defined.

(** The upload of [hello_upload] over it without [Md5Check], to its end:
    the request for the digest is not made. *)
Definition unchecked_world : world :=
  Eval vm_compute in
    default (begin_upload "hello.txt" unchecked_config old_bucket)
      (world_run plain_digest plain_tag hello_net "hello.txt" 1%positive
         (Upload <$> hello_upload)
         (begin_upload "hello.txt" unchecked_config old_bucket)).

Example unchecked_world_run :
  world_run plain_digest plain_tag hello_net "hello.txt"
    (initiate_upload "hello.txt" old_bucket).1 (Upload <$> hello_upload)
    (begin_upload "hello.txt" unchecked_config old_bucket)
  = Some unchecked_world.
Proof. by vm_compute. Qed.

Example unchecked_world_no_digest :
  world_run plain_digest plain_tag hello_net "hello.txt" 1%positive
    [StoreDigest] unchecked_world = None.
Proof. by vm_compute. Qed.

Lemma unchecked_upload_stale_witness :
  ∃ g0, begin_download "hello.txt" (w_svc unchecked_world) small_config = Some g0 ∧
    ∀ devs g n g',
      run plain_digest
        (get_exchange hello_net "hello.txt" (w_svc unchecked_world) small_config)
        devs g0 = Some g →
      Read n g = Some (ReadEOF, g') →
      g_read g = wrote (Upload <$> hello_upload) ∧
      (Close plain_digest g).1 = Some IntegrityError.
Proof.
  exact (unchecked_upload_stale plain_digest plain_tag hello_net "hello.txt"
           unchecked_config old_bucket small_config hello_net
           (Upload <$> hello_upload) unchecked_world
           [(0, "hell"); (1, "o, S"); (2, "3!")]%nat "hello, S3!" "HELLO"
           eq_refl eq_refl eq_refl eq_refl eq_refl unchecked_world_run eq_refl).
Defined.

(** On [hello_net] the second request for a part is delivered. *)
Lemma hello_net_gets_through : gets_through small_config hello_net.
Proof. intros i. by exists 1%nat. Qed.

(** The schedule of the sequential upload of [hello]. *)
Example hello_sequential :
  sequential_upload 4 hello
  = [PutWrite hello; PutEmit; PutUploaded 0; PutEmit; PutUploaded 1;
     PutCloses; PutUploaded 2; PutComplete].
Proof. reflexivity. Qed.

Lemma transfer_finishes_witness :
  ∃ w g,
    world_run plain_digest plain_tag hello_net "hello.txt"
      (initiate_upload "hello.txt" empty_bucket).1
      (upload_of small_config hello)
      (begin_upload "hello.txt" small_config empty_bucket) = Some w ∧
    w_svc w = put_object (md5_path "hello.txt")
                (list_byte_of_string (plain_digest hello))
                (put_object "hello.txt" hello empty_bucket) ∧
    begin_download "hello.txt" (w_svc w) small_config
    ≫= run plain_digest (get_exchange hello_net "hello.txt" (w_svc w) small_config)
         (sequential (PartSize small_config)
            (part_count (PartSize small_config) (Z.of_nat (length hello))))
    = Some g ∧
    g_read g = hello ∧ Read 1 g = Some (ReadEOF, g) ∧
    (Close plain_digest g).1 = None.
Proof.
  apply (transfer_finishes plain_digest plain_tag "hello.txt" small_config
           small_config hello_net hello_net empty_bucket hello 1);
    (done || apply hello_net_gets_through).
Defined.
