(* ===== verification/Protocol.v ===== *)
(** * Protocol: the requests on the wire

    [Service] gives the requests of the service as operations on its
    state, and [Roundtrip] runs the transfers against them.  This file is
    the layer below, as far as the design document describes it (sections
    6 and 7): a request is a method, a key, query parameters, headers and a
    body; a reply is a status, headers and a body.

    - The client builds the two requests of the data path: [get_request],
      a GET with a [Range] header for the bytes of a part, and
      [part_request], a PUT with the upload identifier and the part number
      as query parameters and the bytes of the part as body.  Every
      request is signed with the keys of the account: [Signer] is the
      interface of the request factory, whose algorithm the design leaves
      open.
    - The service answers: [handle] is its HTTP face, which checks the
      signature, reads the headers and the parameters back and calls the
      operation of [Service].
    - The client reads the answer: [classify_get] and [classify_put] sort
      a reply, or the error of the transport, into the three cases of the
      retry policy: a result, a transient failure (no reply, or a status
      from 500 to 599), or a response that is not tried again.

    - [wire_get] and [wire_put] are one request of a worker, from the
      request it builds to what it reads from the reply, over a network
      that delivers the request, loses it, or loses the reply
      ([Roundtrip.delivery]).

    The theorems: the headers are read back as they were written
    ([parse_range_header], [parse_content_range_header]), and the decimal
    numbers in them too ([undec_dec]); the wire refines the service, what
    the worker makes of the reply to its signed request is the answer of
    the operation, and the service is left as the operation leaves it,
    also when the reply is lost ([wire_get_refines], [wire_put_refines]);
    a request that is not signed with the keys of the account changes
    nothing ([handle_unsigned]); and a download whose requests go over the
    wire reads the object ([wire_download]).

    The requests that initiate, complete and abort an upload, and the
    first request of a download, are operations of [Service] only; their
    bodies are XML documents the design does not describe. *)

From Stdlib Require Import ZArith NArith String Ascii List Lia.
From Stdlib Require Import DecimalString DecimalN DecimalPos.
From stdpp Require Import base tactics option list numbers strings gmap.
From S2P Require Import Prelude Types Scheduler Service Getter Putter Roundtrip.

Local Open Scope Z_scope.

(** ** Decimal numbers *)

(** A number that is not negative, in decimal digits, and back. *)
Definition dec (z : Z) : string :=
  NilZero.string_of_uint (N.to_uint (Z.to_N z)).

Definition undec (s : string) : option Z :=
  (λ d, Z.of_N (N.of_uint d)) <$> NilZero.uint_of_string s.

Definition is_digit (c : ascii) : bool :=
  (N.leb 48 (N_of_ascii c) && N.leb (N_of_ascii c) 57)%bool.

Lemma to_uint_nonnil n : N.to_uint n ≠ Decimal.Nil.
Proof. destruct n; [done|apply Unsigned.to_uint_nonnil]. Qed.

Lemma undec_dec z : 0 ≤ z → undec (dec z) = Some z.
Proof.
  intros. unfold undec, dec. rewrite NilZero.usu by apply to_uint_nonnil.
  simpl. rewrite DecimalN.Unsigned.of_to. f_equal. lia.
Qed.

(** A decimal number is made of digits. *)
Lemma digits_of_uint c d :
  is_digit c = false → str_mem c (NilEmpty.string_of_uint d) = false.
Proof.
  intros Hc. induction d; simpl; [done|..];
    (case_decide as Heq; [by rewrite Heq in Hc|done]).
Qed.

Lemma dec_digits c z : is_digit c = false → str_mem c (dec z) = false.
Proof.
  intros Hc. unfold dec, NilZero.string_of_uint.
  pose proof (to_uint_nonnil (Z.to_N z)).
  destruct (N.to_uint (Z.to_N z)) eqn:Hd; [done|..];
    rewrite <-Hd; by apply digits_of_uint.
Qed.

(** ** Byte ranges in headers *)

(** [Range: bytes=first-last], both ends included. *)
Definition range_header (off len : Z) : string :=
  "bytes" +:+ "=" +:+ dec off +:+ "-" +:+ dec (off + len - 1).

(** The offset and the length a [Range] header asks for. *)
Definition parse_range (s : string) : option (Z * Z) :=
  '(unit, rest) ← str_cut "=" s;
  if decide (unit = "bytes") then
    '(a, b) ← str_cut "-" rest;
    first ← undec a; last ← undec b;
    if decide (first ≤ last) then Some (first, last - first + 1) else None
  else None.

(** [Content-Range: bytes first-last/total] *)
Definition content_range (off len total : Z) : string :=
  "bytes" +:+ " " +:+ dec off +:+ "-" +:+ dec (off + len - 1)
  +:+ "/" +:+ dec total.

(** The offset, the length and the total a [Content-Range] header
    announces. *)
Definition parse_content_range (s : string) : option (Z * Z * Z) :=
  '(unit, rest) ← str_cut " " s;
  if decide (unit = "bytes") then
    '(a, rest') ← str_cut "-" rest;
    '(b, t) ← str_cut "/" rest';
    first ← undec a; last ← undec b; total ← undec t;
    if decide (first ≤ last) then Some (first, last - first + 1, total) else None
  else None.

Lemma parse_range_header off len :
  0 ≤ off → 0 < len → parse_range (range_header off len) = Some (off, len).
Proof.
  intros. unfold parse_range, range_header.
  rewrite (str_cut_app "=" "" "bytes") by done. simpl.
  rewrite (str_cut_app "-" "" (dec off)) by by apply dec_digits. simpl.
  rewrite !undec_dec by lia. simpl. rewrite decide_True by lia.
  do 2 f_equal. lia.
Qed.

Lemma parse_content_range_header off len total :
  0 ≤ off → 0 < len → 0 ≤ total →
  parse_content_range (content_range off len total) = Some (off, len, total).
Proof.
  intros. unfold parse_content_range, content_range.
  rewrite (str_cut_app " " "" "bytes") by done. simpl.
  rewrite (str_cut_app "-" "" (dec off)) by by apply dec_digits. simpl.
  rewrite (str_cut_app "/" "" (dec (off + len - 1))) by by apply dec_digits.
  simpl. rewrite !undec_dec by lia. simpl. rewrite decide_True by lia.
  do 3 f_equal. lia.
Qed.

(** ** Messages *)

Inductive method := GET | PUT.

#[export] Instance method_eq_dec : EqDecision method.
Proof. solve_decision. Defined.

Record request := mkRequest {
  rq_method : method;
  rq_key : string;
  rq_query : gmap string string;
  rq_header : gmap string string;
  rq_body : bytes;
}.

Record reply := mkReply {
  rp_status : Z;
  rp_reason : string;
  rp_header : gmap string string;
  rp_body : bytes;
}.

(** ** The request factory *)

(** What the transfers need of the signer: a signed request is the
    request, with its method, key, parameters and body, and with its
    headers but for the one that carries the signature; and the service
    accepts, for a pair of keys, what was signed with them. *)
Class Signer := {
  sign : Keys → request → request;
  signed_by : Keys → request → bool;
  sign_signed k r : signed_by k (sign k r) = true;
  sign_method k r : rq_method (sign k r) = rq_method r;
  sign_key k r : rq_key (sign k r) = rq_key r;
  sign_query k r : rq_query (sign k r) = rq_query r;
  sign_body k r : rq_body (sign k r) = rq_body r;
  sign_header k r h :
    h ≠ "Authorization" → rq_header (sign k r) !! h = rq_header r !! h;
}.

(** ** The client *)

(** The request for the bytes of a part. *)
Definition get_request (key : string) (p : Part) : request :=
  mkRequest GET key ∅ {[ "Range" := range_header (part_off p) (part_len p) ]} [].

(** The request that uploads a part; the service numbers parts from 1. *)
Definition part_request (key : string) (uid : positive) (i : nat) (b : bytes)
    : request :=
  mkRequest PUT key
    {[ "partNumber" := dec (Z.of_nat i + 1); "uploadId" := dec (Z.pos uid) ]}
    ∅ b.

(** A status that is worth another try. *)
Definition transient (status : Z) : bool := bool_decide (500 ≤ status < 600).

(** What the worker of a download makes of an answer: the body of a 206
    whose [Content-Range] starts where the part starts and is not longer
    than the part; a transient failure; or a protocol error. *)
Definition classify_get (p : Part) (a : reply + GoError) : response bytes :=
  match a with
  | inr e => Transient e
  | inl r =>
      if transient (rp_status r) then Transient (mkError (rp_reason r))
      else if decide (rp_status r = 206) then
        match rp_header r !! "Content-Range" ≫= parse_content_range with
        | Some (first, len, _) =>
            if decide (first = part_off p ∧ len ≤ part_len p)
            then Done (rp_body r)
            else Malformed (mkError "Content-Range does not match the range")
        | None => Malformed (mkError "no Content-Range")
        end
      else Malformed (mkError (rp_reason r))
  end.

(** What the worker of an upload makes of an answer: the entity tag of a
    200; a transient failure; or a protocol error. *)
Definition classify_put (a : reply + GoError) : response string :=
  match a with
  | inr e => Transient e
  | inl r =>
      if transient (rp_status r) then Transient (mkError (rp_reason r))
      else if decide (rp_status r = 200) then
        match rp_header r !! "ETag" with
        | Some t => Done t
        | None => Malformed (mkError "no ETag")
        end
      else Malformed (mkError (rp_reason r))
  end.

(** ** The service *)

Definition refuse (status : Z) (reason : string) : reply :=
  mkReply status reason ∅ [].

Section wire.
Context {signer : Signer} (etag : bytes → string) (keys : Keys).

(** A GET: the object, or the bytes of the range asked for that the
    object has. *)
Definition handle_get (rq : request) (svc : service) : reply :=
  match objects svc !! rq_key rq with
  | None => refuse 404 "404 NoSuchKey"
  | Some data =>
      match rq_header rq !! "Range" with
      | None => mkReply 200 "200 OK" ∅ data
      | Some h =>
          match parse_range h with
          | None => refuse 400 "400 InvalidArgument"
          | Some (off, len) =>
              if decide (off < Z.of_nat (length data)) then
                let b := slice data off len in
                mkReply 206 "206 Partial Content"
                  {[ "Content-Range" :=
                       content_range off (Z.of_nat (length b))
                         (Z.of_nat (length data)) ]} b
              else refuse 416 "416 InvalidRange"
          end
      end
  end.

(** A PUT: a part of an upload when the parameters name one, an object
    otherwise. *)
Definition handle_put (rq : request) (svc : service) : reply * service :=
  match rq_query rq !! "uploadId", rq_query rq !! "partNumber" with
  | None, None => (mkReply 200 "200 OK" ∅ [], put_object (rq_key rq) (rq_body rq) svc)
  | Some u, Some n =>
      match undec u, undec n with
      | Some uid, Some num =>
          if decide (0 < uid ∧ 1 ≤ num) then
            match upload_part etag (Z.to_pos uid) (Z.to_nat (num - 1))
                    (rq_body rq) svc with
            | (Done t, svc') => (mkReply 200 "200 OK" {[ "ETag" := t ]} [], svc')
            | (_, svc') => (refuse 404 "404 NoSuchUpload", svc')
            end
          else (refuse 400 "400 InvalidArgument", svc)
      | _, _ => (refuse 400 "400 InvalidArgument", svc)
      end
  | _, _ => (refuse 400 "400 InvalidArgument", svc)
  end.

(** The service on a request: it answers only what is signed with the
    keys of the account. *)
Definition handle (rq : request) (svc : service) : reply * service :=
  if signed_by keys rq then
    match rq_method rq with
    | GET => (handle_get rq svc, svc)
    | PUT => handle_put rq svc
    end
  else (refuse 403 "403 SignatureDoesNotMatch", svc).

(** A request over the network: lost, answered, or served and not
    answered. *)
Definition send (d : delivery) (rq : request) (svc : service)
    : (reply + GoError) * service :=
  match d with
  | Delivered => let '(r, svc') := handle rq svc in (inl r, svc')
  | Unanswered e => (inr e, (handle rq svc).2)
  | Lost e => (inr e, svc)
  end.

(** ** The wire refines the service *)

Lemma handle_signed rq svc :
  handle (sign keys rq) svc
  = match rq_method rq with
    | GET => (handle_get (sign keys rq) svc, svc)
    | PUT => handle_put (sign keys rq) svc
    end.
Proof. unfold handle. by rewrite sign_signed, sign_method. Qed.

(** What is not signed with the keys of the account is refused, and
    changes nothing. *)
Lemma handle_unsigned rq svc :
  signed_by keys rq = false →
  handle rq svc = (refuse 403 "403 SignatureDoesNotMatch", svc).
Proof. unfold handle. by intros ->. Qed.

(** A request never changes the service when it is lost; a GET never
    does. *)
Lemma send_get_state d rq svc :
  rq_method rq = GET → (send d (sign keys rq) svc).2 = svc.
Proof. intros Hm. destruct d; simpl; by rewrite ?handle_signed, ?Hm. Qed.

(** The reply to the request for a part of an object that is there. *)
Lemma handle_get_range key p data svc :
  0 ≤ part_off p → 0 < part_len p →
  objects svc !! key = Some data →
  classify_get p (inl (handle_get (sign keys (get_request key p)) svc))
  = if decide (part_off p < Z.of_nat (length data))
    then Done (slice data (part_off p) (part_len p))
    else Malformed invalid_range.
Proof.
  intros Hoff Hlen Hk. unfold handle_get.
  rewrite sign_key, sign_header by done. simpl. rewrite Hk, lookup_singleton_eq.
  rewrite parse_range_header by done. case_decide as Hin; [|done].
  simpl. rewrite lookup_singleton_eq. simpl.
  assert (0 < Z.of_nat (length (slice data (part_off p) (part_len p)))
          ≤ part_len p) as Hb.
  { unfold slice. rewrite length_take, length_drop. lia. }
  rewrite parse_content_range_header by lia. by rewrite decide_True by lia.
Qed.

(** The reply to the request for a range is read as the answer of
    [get_range]. *)
Lemma send_get_request d key p svc :
  0 ≤ part_off p → 0 < part_len p →
  classify_get p (send d (sign keys (get_request key p)) svc).1
  = answer d (get_range key (part_off p) (part_len p) svc).
Proof.
  intros Hoff Hlen. destruct d; [|done..].
  unfold send. rewrite handle_signed.
  cbn [get_request rq_method fst answer]. unfold get_range.
  destruct (objects svc !! key) as [data|] eqn:Hk.
  - rewrite (handle_get_range key p data) by done.
    repeat case_decide; done || lia.
  - unfold handle_get. by rewrite sign_key; simpl; rewrite Hk.
Qed.

(** The service on the request for a part: the operation [upload_part],
    with the identifier and the index the parameters carry. *)
Lemma handle_part_request key uid i b svc :
  handle (sign keys (part_request key uid i b)) svc
  = match upload_part etag uid i b svc with
    | (Done t, svc') => (mkReply 200 "200 OK" {[ "ETag" := t ]} [], svc')
    | (_, svc') => (refuse 404 "404 NoSuchUpload", svc')
    end.
Proof.
  rewrite handle_signed. simpl. unfold handle_put.
  rewrite sign_query, sign_body. simpl.
  rewrite lookup_insert_ne, lookup_singleton_eq, lookup_insert_eq by done.
  rewrite !undec_dec by lia. rewrite decide_True by lia.
  by replace (Z.to_nat (Z.of_nat i + 1 - 1)) with i by lia.
Qed.

(** The reply to the request for a part is read as the answer of
    [upload_part], and the service has stored the part when the request
    has arrived, answered or not. *)
Lemma send_part_request d key uid i b svc :
  classify_put (send d (sign keys (part_request key uid i b)) svc).1
  = answer d (upload_part etag uid i b svc).1 ∧
  (send d (sign keys (part_request key uid i b)) svc).2
  = if arrives d then (upload_part etag uid i b svc).2 else svc.
Proof.
  destruct d; simpl; rewrite ?handle_part_request; [|done|];
    unfold upload_part; by destruct (multiparts svc !! uid).
Qed.

End wire.

(** ** The transfers over the wire *)

(** The offset and the length a [Content-Range] announces are those of a
    range that is not empty. *)
Lemma parse_content_range_pos s first len total :
  parse_content_range s = Some (first, len, total) → 0 < len.
Proof.
  unfold parse_content_range. intros Hs.
  repeat (simplify_option_eq || case_match); lia.
Qed.

(** The worker takes a body only for a part that is not empty. *)
Lemma classify_get_Done p a b : classify_get p a = Done b → 0 < part_len p.
Proof.
  unfold classify_get. intros Ha.
  repeat (case_match; simplify_eq); [].
  destruct (rp_header _ !! _) as [h|]; simplify_eq/=.
  match goal with H : parse_content_range _ = _ |- _ =>
    apply parse_content_range_pos in H end. lia.
Qed.

Section exchanges.
Context {signer : Signer} (etag : bytes → string) (keys : Keys).
Context (net : nat → nat → delivery) (key : string).

(** Request [k] for part [i] of a download: the signed request for the
    range of the part, sent, and its answer read. *)
Definition wire_get (c : Config) (svc : service) (i k : nat) : response bytes :=
  let p := part_at (PartSize c) (object_length key svc) i in
  classify_get p (send etag keys (net i k) (sign keys (get_request key p)) svc).1.

(** Request [k] for part [i] of the upload [uid]: what the worker reads,
    and the service after it. *)
Definition wire_put (uid : positive) (i : nat) (b : bytes) (k : nat)
    (svc : service) : response string * service :=
  let a := send etag keys (net i k) (sign keys (part_request key uid i b)) svc in
  (classify_put a.1, a.2).

(** Over the wire, too, a body that is taken is the bytes of the part. *)
Lemma wire_get_honest c svc data :
  0 < PartSize c → objects svc !! key = Some data →
  honest (wire_get c svc) c data.
Proof.
  intros Hsz Hk i k b Hb. pose proof Hb as Hlen%classify_get_Done.
  unfold wire_get in Hb. rewrite send_get_request in Hb by (simpl in *; lia).
  apply (get_exchange_honest net key svc c data Hk i k b), Hb.
Qed.

(** The ranged GET on the wire refines the operation of the service.
    For a part of the object, what the worker reads from the reply to the
    signed request with the [Range] header of the part is the answer the
    download is run with in [Roundtrip]: the bytes of the range when the
    request is delivered and the object is there, the protocol error of
    the service when it is not, a transient failure when the network
    fails. *)
Theorem wire_get_refines c svc i k :
  0 < PartSize c → Z.of_nat i * PartSize c < object_length key svc →
  wire_get c svc i k = get_exchange net key svc c i k.
Proof.
  intros Hsz Hi. unfold wire_get, get_exchange.
  apply send_get_request; simpl; lia.
Qed.

(** The PUT of a part on the wire refines the operation of the
    service.  What the worker reads from the reply to the signed request,
    with the upload identifier and the part number as parameters, is the
    answer of [upload_part]: the entity tag of the bytes, or the error for
    an upload that is not open; and the service has stored the part
    exactly when the request arrived, whether the worker saw the reply or
    not. *)
Theorem wire_put_refines uid i b k svc :
  wire_put uid i b k svc
  = (answer (net i k) (upload_part etag uid i b svc).1,
     if arrives (net i k) then (upload_part etag uid i b svc).2 else svc).
Proof.
  unfold wire_put.
  by destruct (send_part_request etag keys (net i k) key uid i b svc) as [-> ->].
Qed.

(** C29: a download over the wire.  For an object of the bucket, the
    first request opens the download, and any run of it, whose range
    requests are signed, sent over a network that may lose them or their
    replies, answered by the service and read back by the workers, that
    reaches the end of the stream has read the bytes of the object; and
    [Close] reports an integrity error exactly when the check is on and
    the bucket holds a digest for the object that is not the digest of
    those bytes. *)
Theorem wire_download digest c svc data :
  0 < PartSize c → objects svc !! key = Some data →
  ∃ g0, begin_download key svc c = Some g0 ∧
    ∀ devs g n g',
      run digest (wire_get c svc) devs g0 = Some g →
      Read n g = Some (ReadEOF, g') →
      g_read g = data ∧
      (Close digest g).1 =
      if Md5Check c then
        match string_of_list_byte <$> objects svc !! md5_path key with
        | Some d => if decide (d = digest data) then None
                    else Some IntegrityError
        | None => None
        end
      else None.
Proof.
  intros Hsz Hk. eexists.
  split; [unfold begin_download, stat; by rewrite Hk|]. simpl.
  intros devs g n g'. by apply download_verdict, wire_get_honest.
Qed.

End exchanges.

(** ** Examples *)

(** A signer for the examples: the signature names the access key and is
    made of the secret key and the key of the object. *)
Definition plain_signature (k : Keys) (r : request) : string :=
  AccessKey k +:+ ":" +:+ SecretKey k +:+ "/" +:+ rq_key r.

#[export, refine] Instance plain_signer : Signer := {|
  sign k r :=
    mkRequest (rq_method r) (rq_key r) (rq_query r)
      (<["Authorization" := plain_signature k r]> (rq_header r)) (rq_body r);
  signed_by k r :=
    bool_decide (rq_header r !! "Authorization" = Some (plain_signature k r));
|}.
Proof.
  all: intros; simpl; try done.
  - apply bool_decide_eq_true_2, lookup_insert_eq.
  - by apply lookup_insert_ne.
Defined.

Definition hello_keys : Keys := mkKeys "AKIDEXAMPLE" "secret".

(** The request for part 1 of [hello.txt], as it is sent. *)
Example hello_get_request :
  sign hello_keys (get_request "hello.txt" (part_at 4 10 1))
  = mkRequest GET "hello.txt" ∅
      {[ "Authorization" := "AKIDEXAMPLE:secret/hello.txt";
         "Range" := "bytes=4-7" ]} [].
Proof. by vm_compute. Qed.

(** And its reply. *)
Example hello_get_reply :
  handle plain_tag hello_keys
    (sign hello_keys (get_request "hello.txt" (part_at 4 10 1)))
    (w_svc hello_world)
  = (mkReply 206 "206 Partial Content"
       {[ "Content-Range" := "bytes 4-7/10" ]} (list_byte_of_string "o, S"),
     w_svc hello_world).
Proof. by vm_compute. Qed.

(** The last part is shorter than the range asked for. *)
Example hello_last_reply :
  rp_header (handle plain_tag hello_keys
    (sign hello_keys (get_request "hello.txt" (mkPart 2 8 4)))
    (w_svc hello_world)).1 !! "Content-Range"
  = Some "bytes 8-9/10".
Proof. by vm_compute. Qed.

(** A request signed with other keys is refused. *)
Example foreign_keys_refused :
  handle plain_tag hello_keys
    (sign (mkKeys "AKIDEXAMPLE" "guess") (get_request "hello.txt" (part_at 4 10 1)))
    (w_svc hello_world)
  = (refuse 403 "403 SignatureDoesNotMatch", w_svc hello_world).
Proof. by vm_compute. Qed.

(** A part sent to an upload that is not open. *)
Example closed_upload_reply :
  wire_put plain_tag hello_keys (λ _ _, Delivered) "hello.txt" 7 0
    (list_byte_of_string "hell") 0 empty_bucket
  = (Malformed no_such_upload, empty_bucket).
Proof. by vm_compute. Qed.

(** A part whose reply is lost is stored all the same. *)
Example unanswered_part :
  wire_put plain_tag hello_keys hello_net "hello.txt" 1 1
    (list_byte_of_string "o, S") 0
    (initiate_upload "hello.txt" empty_bucket).2
  = (Transient (mkError "timeout"),
     mkService ∅
       {[ 1%positive :=
            mkMultipart "hello.txt" {[ 1%nat := list_byte_of_string "o, S" ]} ]}).
Proof. by vm_compute. Qed.

(** The sequential download of [hello.txt], over the wire. *)
Example hello_wire_download :
  (g0 ← begin_download "hello.txt" (w_svc hello_world) small_config;
   g ← run plain_digest
          (wire_get plain_tag hello_keys hello_net "hello.txt" small_config
             (w_svc hello_world))
          (sequential 4 3) g0;
   Some (g_read g, (Close plain_digest g).1, fst <$> Read 1 g))
  = Some (hello, None, Some ReadEOF).
Proof. by vm_compute. Qed.

Lemma wire_get_refines_witness :
  wire_get plain_tag hello_keys hello_net "hello.txt" small_config
    (w_svc hello_world) 1 1
  = get_exchange hello_net "hello.txt" (w_svc hello_world) small_config 1 1.
Proof.
  apply (wire_get_refines plain_tag hello_keys hello_net "hello.txt"
           small_config (w_svc hello_world) 1 1); by vm_compute.
Defined.

Lemma wire_download_witness :
  ∃ g0, begin_download "hello.txt" (w_svc hello_world) small_config = Some g0 ∧
    ∀ devs g n g',
      run plain_digest
        (wire_get plain_tag hello_keys hello_net "hello.txt" small_config
           (w_svc hello_world)) devs g0 = Some g →
      Read n g = Some (ReadEOF, g') →
      g_read g = hello ∧ (Close plain_digest g).1 = None.
Proof.
  exact (wire_download plain_tag hello_keys hello_net "hello.txt" plain_digest
           small_config (w_svc hello_world) hello eq_refl eq_refl).
Defined.
