(* ===== verification/Facade.v ===== *)
(** * Facade: the entry points of [src/s3gof3r.go]

    [New], [S3_Bucket] (the method [Bucket] of [S3]), [GetReader] and
    [PutWriter], each the whole function: the defaulting of the domain and
    of the configuration, the installation of the default HTTP client in the
    configuration object, the call of [Url] and the hand-over to the engine.

    [GetReader] and [PutWriter] start with the same five lines; [prepare] is
    that code on its own, [GetReader_prepare] and [PutWriter_prepare] show
    that each entry point is [prepare] followed by its own tail, and
    [prepare_run] computes what [prepare] does to the state.

    The theorems give, for both entry points, the outcome and the final
    state on every path: what is handed to the engine and returned from it,
    the one write to the configuration object (into the object
    [DefaultConfig] points to when [c] is nil), the panics on a nil
    pointer and on a path the parser rejects together with what was
    written before them, and that well-formedness and typing of the heap
    are kept. *)

From Stdlib Require Import ZArith String.
From stdpp Require Import base tactics option gmap strings.
From S2P Require Import Prelude GoRuntime Types NetUrl Url Engine.

Section facade.
Context {E : Type} {P : UrlParser} {G : Engine E}.
Implicit Types (s : state E) (b c : ptr) (path domain name : string).

(** [func New(domain string, keys Keys) *S3] *)
Definition New domain (keys : Keys) : Go (state E) ptr :=
  domain <- (if decide (domain = EmptyString) then gets DefaultDomain
             else ret domain) ;;
  alloc S3s {| Domain := domain; S3_Keys := keys |}.

(** [func (s3 *S3) Bucket(name string) *Bucket] *)
Definition S3_Bucket (s3 : ptr) name : Go (state E) ptr :=
  alloc Buckets {| Bucket_S3 := s3; Name := name |}.

(** [func (b *Bucket) GetReader(path string, c *Config)
      (r io.ReadCloser, h http.Header, err error)] *)
Definition GetReader b path c : Go (state E) GetResult :=
  c <- (if is_nil c then gets DefaultConfig else ret c) ;;
  cfg <- load Configs c ;;
  (if is_nil (Client cfg)
   then cl <- ClientWithTimeout clientTimeout ;;
        update Configs c (set_Client cl)
   else ret tt) ;;;
  u <- Url b path c ;;
  newGetter u c b.

(** [func (b *Bucket) PutWriter(path string, h http.Header, c *Config)
      (w io.WriteCloser, err error)] *)
Definition PutWriter b path (h : Header) c : Go (state E) PutResult :=
  c <- (if is_nil c then gets DefaultConfig else ret c) ;;
  cfg <- load Configs c ;;
  (if is_nil (Client cfg)
   then cl <- ClientWithTimeout clientTimeout ;;
        update Configs c (set_Client cl)
   else ret tt) ;;;
  u <- Url b path c ;;
  newPutter u h c b.

(** ** Accounts and buckets *)

(** The domain [New] stores: [DefaultDomain], as it is when [New] runs, for
    the empty string. *)
Definition New_domain s domain : string :=
  if decide (domain = EmptyString) then DefaultDomain s else domain.

Lemma New_run domain keys s :
  New domain keys s = alloc S3s (mkS3 (New_domain s domain) keys) s.
Proof. unfold New, New_domain. by destruct (decide _). Qed.

(** [New] always returns, and what it returns is a pointer, never nil,
    to a new account that holds the domain ([DefaultDomain]'s current value
    for the empty string) and the keys; every other object is as before. *)
Theorem New_account domain keys s :
  ∃ a, s3s s !! a = None ∧
       New domain keys s
       = (Ret (Some a),
          with_s3s (<[a := mkS3 (New_domain s domain) keys]> (s3s s)) s).
Proof.
  rewrite New_run. destruct (alloc_spec S3s (mkS3 (New_domain s domain) keys) s)
    as (a & Ha & Hfree). by exists a.
Qed.

(** An account made by [New] never has an empty domain, as long as
    the variable [DefaultDomain] is not empty. *)
Theorem New_domain_not_empty domain keys s p s' :
  DefaultDomain s ≠ EmptyString → New domain keys s = (Ret p, s') →
  ∃ acc, load S3s p s' = (Ret acc, s') ∧ Domain acc ≠ EmptyString ∧
         S3_Keys acc = keys.
Proof.
  intros Hd. rewrite New_run. intros Ha. eexists. split_and!.
  - eauto with go.
  - unfold New_domain. simpl. by destruct (decide _).
  - done.
Qed.

(** C37: the method [Bucket] does not dereference its receiver: on a nil
    account it returns a bucket, and the nil pointer is found by the first
    [Url] on that bucket, which panics. *)
Theorem S3_Bucket_nil_receiver name path c s :
  valid Configs s c →
  ∃ b s', S3_Bucket None name s = (Ret b, s') ∧ b ≠ None ∧
          Url b path c s' = (Panic NilDereference, s').
Proof.
  intros Hc. destruct (alloc_spec Buckets (mkBucket None name) s) as (a & Ha & _).
  eexists _, _. split_and!; [exact Ha | done |].
  unfold Url. rewrite bind_load. destruct c as [ac|]; [|done].
  destruct Hc as [cfg Hcfg]. simpl in *. rewrite Hcfg.
  rewrite bind_load. simpl. by rewrite lookup_insert_eq.
Qed.

(** [New] and [Bucket] preserve the heap invariant, [Bucket] for a
    receiver that is nil or points to an account. *)
Lemma New_heap_ok domain keys s : heap_ok s → heap_ok (New domain keys s).2.
Proof.
  intros [Hd Hb Hc]. rewrite New_run. split; simpl; [done | | done].
  eapply map_Forall_impl; [exact Hb|]. intros ? bkt ?.
  eauto with go.
Qed.

Lemma S3_Bucket_heap_ok (acct : ptr) name s :
  heap_ok s → valid S3s s acct → heap_ok (S3_Bucket acct name s).2.
Proof.
  intros [Hd Hb Hc] Hs3. split; simpl; [done | | done].
  by apply map_Forall_insert_2.
Qed.

(** C36: the client's first three calls, composed: an account, a bucket of
    it and the bucket's URL.  The outcome is the parser's verdict on
    [scheme://name.domain/path], with the scheme of the configuration and
    the domain [New] stored. *)
Theorem New_Bucket_Url domain keys name path ac cfg s :
  configs s !! ac = Some cfg →
  ((acc <- New domain keys ;; b <- S3_Bucket acc name ;;
    Url b path (Some ac)) s).1
  = match url_Parse (Url_format (Scheme cfg) name (New_domain s domain) path) with
    | inl u => Ret u
    | inr err => Panic (PanicValue err)
    end.
Proof.
  intros Hc. unfold bind at 1. rewrite New_run. unfold alloc at 1.
  unfold S3_Bucket. rewrite bind_alloc. simpl.
  rewrite (Url_reads_run _ _ _ cfg (mkBucket (Some (fresh (dom (s3s s)))) name)
             (mkS3 (New_domain s domain) keys)).
  - by destruct (url_Parse _).
  - eexists ac, _, _. simpl. split_and!; try done; by rewrite lookup_insert_eq.
Qed.

(** ** The shared prefix *)

(** The configuration a transfer runs with, made ready: [c], or
    [DefaultConfig] when [c] is nil, with a client installed. *)
Definition prepare c : Go (state E) ptr :=
  c <- (if is_nil c then gets DefaultConfig else ret c) ;;
  cfg <- load Configs c ;;
  (if is_nil (Client cfg)
   then cl <- ClientWithTimeout clientTimeout ;;
        update Configs c (set_Client cl)
   else ret tt) ;;;
  ret c.

(** The configuration pointer after defaulting. *)
Definition resolve s c : ptr := if is_nil c then DefaultConfig s else c.

(** The state [prepare] leaves when it installs a client in the
    configuration at [ac]. *)
Definition install s (ac : addr) (cfg : Config) : state E :=
  let a := fresh (dom (clients s)) in
  with_configs (<[ac := set_Client (Some a) cfg]> (configs s))
    (with_clients (<[a := mkHttpClient clientTimeout]> (clients s)) s).

(** What [prepare] computes, with the state written out. *)
Definition prepare_result s c : outcome ptr * state E :=
  match resolve s c with
  | None => (Panic NilDereference, s)
  | Some ac =>
      match configs s !! ac with
      | None => (Fault, s)
      | Some cfg =>
          if is_nil (Client cfg) then (Ret (Some ac), install s ac cfg)
          else (Ret (Some ac), s)
      end
  end.

(** [if c == nil { c = DefaultConfig }] *)
Lemma resolve_run c s :
  (if is_nil c then gets DefaultConfig else ret c) s = (Ret (resolve s c), s).
Proof. by destruct c. Qed.

Lemma prepare_run c s : prepare c s = prepare_result s c.
Proof.
  unfold prepare, prepare_result. unfold bind at 1. rewrite resolve_run.
  rewrite bind_load. destruct (resolve s c) as [ac|]; [|done]. simpl.
  destruct (configs s !! ac) as [cfg|] eqn:Hc; [|done].
  destruct (is_nil (Client cfg)); [|done].
  unfold bind at 1, ClientWithTimeout. rewrite bind_alloc. simpl.
  by rewrite Hc.
Qed.

(** [GetReader] is [prepare] followed by [Url] and [newGetter]. *)
Lemma GetReader_prepare b path c s :
  GetReader b path c s
  = bind (prepare c) (λ c', u <- Url b path c' ;; newGetter u c' b) s.
Proof.
  unfold GetReader, prepare. rewrite bind_assoc.
  apply bind_ext; intros c' s1 _. rewrite bind_assoc.
  apply bind_ext; intros cfg s2 _. rewrite bind_assoc.
  by apply bind_ext; intros [] s3 _.
Qed.

(** [PutWriter] is [prepare] followed by [Url] and [newPutter]. *)
Lemma PutWriter_prepare b path h c s :
  PutWriter b path h c s
  = bind (prepare c) (λ c', u <- Url b path c' ;; newPutter u h c' b) s.
Proof.
  unfold PutWriter, prepare. rewrite bind_assoc.
  apply bind_ext; intros c' s1 _. rewrite bind_assoc.
  apply bind_ext; intros cfg s2 _. rewrite bind_assoc.
  by apply bind_ext; intros [] s3 _.
Qed.

(** ** What [prepare] does to the types *)

(** The client [prepare] installs has the time-out of the package, an
    [int64], and the configuration keeps its integers. *)
Lemma install_typed s ac cfg :
  configs s !! ac = Some cfg → heap_typed s → heap_typed (install s ac cfg).
Proof.
  intros Hc [Hcfg Hcl]. split; simpl.
  - apply map_Forall_insert_2; [|done]. apply set_Client_typed. by eapply Hcfg.
  - apply map_Forall_insert_2; [|done]. by apply (bool_decide_unpack _).
Qed.

Lemma prepare_typed s c : heap_typed s → heap_typed (prepare_result s c).2.
Proof.
  intros Ht. unfold prepare_result. repeat case_match; try done.
  by apply install_typed.
Qed.

(** ** What [prepare] does to the heap *)

Lemma resolve_valid s c :
  heap_ok s → valid Configs s c → valid Configs s (resolve s c).
Proof. destruct c; [done|]. by intros []. Qed.

Lemma resolve_same_heap s s' c : same_heap s s' → resolve s' c = resolve s c.
Proof. intros (_ & _ & _ & _ & Hd & _). unfold resolve. by rewrite Hd. Qed.

Lemma prepare_resolve s c c' : resolve (prepare_result s c).2 c' = resolve s c'.
Proof. unfold prepare_result, resolve. by repeat case_match. Qed.

Lemma resolve_idem s c : resolve s (resolve s c) = resolve s c.
Proof. unfold resolve. destruct c; [done|]. simpl. by destruct (DefaultConfig s). Qed.

(** Installing a client keeps the heap well formed. *)
Lemma install_heap_ok s ac cfg :
  heap_ok s → configs s !! ac = Some cfg → heap_ok (install s ac cfg).
Proof.
  intros [Hd Hb Hc] Hcfg. split; simpl.
  - by apply (valid_insert Configs).
  - done.
  - apply map_Forall_insert_2; [apply (valid_insert_eq Clients)|].
    eapply map_Forall_impl; [exact Hc|]. intros ? cfg2 ?.
    by apply (valid_insert Clients).
Qed.

Lemma prepare_heap_ok s c : heap_ok s → heap_ok (prepare_result s c).2.
Proof.
  intros Hok. unfold prepare_result. repeat case_match; try done.
  by apply install_heap_ok.
Qed.

(** In a well-formed heap [prepare] returns the resolved pointer, or
    panics because that pointer is nil. *)
Lemma prepare_cases s c :
  heap_ok s → valid Configs s c →
  (resolve s c = None ∧ prepare_result s c = (Panic NilDereference, s))
  ∨ ∃ ac cfg, resolve s c = Some ac ∧ configs s !! ac = Some cfg ∧
      prepare_result s c
      = (Ret (Some ac), if is_nil (Client cfg) then install s ac cfg else s).
Proof.
  intros Hok Hc. pose proof (resolve_valid s c Hok Hc) as Hv.
  unfold prepare_result. destruct (resolve s c) as [ac|]; [|by left].
  destruct Hv as [cfg Hcfg]; simpl in Hcfg. right. exists ac, cfg.
  rewrite Hcfg. by destruct (is_nil (Client cfg)).
Qed.

(** The pointer [prepare] returns points to a configuration. *)
Lemma prepare_valid s c c' s1 :
  prepare_result s c = (Ret c', s1) → ∃ ac, c' = Some ac ∧ is_Some (configs s1 !! ac).
Proof.
  unfold prepare_result. intros. repeat case_match; simplify_eq.
  - eexists; split; [done|]. simpl. by rewrite lookup_insert_eq.
  - eauto.
Qed.

(** Pointers to buckets are not affected. *)
Lemma prepare_buckets s c : buckets (prepare_result s c).2 = buckets s.
Proof. unfold prepare_result. by repeat case_match. Qed.

Lemma prepare_engine s c : engine (prepare_result s c).2 = engine s.
Proof. unfold prepare_result. by repeat case_match. Qed.

(** The configuration in use has a client. *)
Definition ready s c : Prop :=
  ∃ ac cfg, resolve s c = Some ac ∧ configs s !! ac = Some cfg ∧
            Client cfg ≠ None.

Lemma ready_prepare s c : ready s c → prepare_result s c = (Ret (resolve s c), s).
Proof.
  intros (ac & cfg & Hr & Hc & Hn). unfold prepare_result. rewrite Hr, Hc.
  by destruct (Client cfg).
Qed.

(** The two cases of [prepare] on a configuration that is there: without
    a client it installs one, with a client it changes nothing. *)
Lemma cold_prepare s c ac cfg :
  resolve s c = Some ac → configs s !! ac = Some cfg → Client cfg = None →
  prepare_result s c = (Ret (Some ac), install s ac cfg).
Proof. intros Hc Ha Hcl. unfold prepare_result. by rewrite Hc, Ha, Hcl. Qed.

Lemma warm_prepare s c ac cfg :
  resolve s c = Some ac → configs s !! ac = Some cfg → Client cfg ≠ None →
  prepare_result s c = (Ret (Some ac), s).
Proof.
  intros Hc Ha Hcl. unfold prepare_result. rewrite Hc, Ha.
  by destruct (Client cfg).
Qed.

Lemma ready_same_heap s s' c : same_heap s s' → ready s c → ready s' c.
Proof.
  intros (_ & _ & Hcf & _ & Hd & _) (ac & cfg & Hr & Hc & Hn).
  exists ac, cfg. unfold resolve in *. by rewrite Hcf, Hd.
Qed.

(** After [prepare] the configuration it returns has a client. *)
Lemma prepare_ready s c c' s1 :
  prepare_result s c = (Ret c', s1) → ready s1 c'.
Proof.
  unfold prepare_result. destruct (resolve s c) as [ac|] eqn:Hr; [|done].
  destruct (configs s !! ac) as [cfg|] eqn:Hc; [|done].
  destruct (is_nil (Client cfg)) eqn:Hn; intros [= <- <-].
  - eexists ac, _. split_and!; [done | apply lookup_insert_eq | done].
  - exists ac, cfg. split_and!; [done..|]. by destruct (Client cfg).
Qed.

(** Installing a client is a change of the state. *)
Lemma install_ne s ac cfg :
  configs s !! ac = Some cfg → Client cfg = None → install s ac cfg ≠ s.
Proof.
  intros Hc Hn Heq. apply (f_equal (λ s, Client <$> configs s !! ac)) in Heq.
  simpl in Heq. rewrite lookup_insert_eq, Hc in Heq. simpl in Heq. congruence.
Qed.

Lemma prepare_no_fault s c :
  heap_ok s → valid Configs s c → (prepare_result s c).1 ≠ Fault.
Proof.
  intros Hok Hc.
  by destruct (prepare_cases s c Hok Hc) as [[_ ->]|(?&?&_&_&->)].
Qed.

(** The state [prepare] hands to the rest of an entry point. *)
Lemma prepared_state s b c c' s1 :
  heap_ok s → valid Buckets s b → prepare_result s c = (Ret c', s1) →
  heap_ok s1 ∧ valid Buckets s1 b ∧ valid Configs s1 c'.
Proof.
  intros Hok Hb Hp. pose proof (prepare_heap_ok s c Hok) as Hok1.
  pose proof (prepare_buckets s c) as Hbk. rewrite Hp in Hok1, Hbk.
  destruct (prepare_valid _ _ _ _ Hp) as (ac & -> & Hac).
  simpl in *. split_and!; [done | | done]. destruct b; [|done]. simpl in *.
  by rewrite Hbk.
Qed.

(** What [Url] reads is not what [prepare] writes. *)
Lemma Url_reads_prepare s b c ac cfg bkt acc :
  resolve s c = Some ac → Url_reads s b (Some ac) cfg bkt acc →
  ∃ cfg', prepare_result s c = (Ret (Some ac), (prepare_result s c).2) ∧
          Url_reads (prepare_result s c).2 b (Some ac) cfg' bkt acc ∧
          Scheme cfg' = Scheme cfg.
Proof.
  intros Hr (? & ab & aa & [= <-] & Hc & -> & Hb & Ha & Hs).
  unfold prepare_result. rewrite Hr, Hc.
  destruct (is_nil (Client cfg)); simpl.
  - exists (set_Client (Some (fresh (dom (clients s)))) cfg).
    repeat split. exists ac, ab, aa. simpl. by rewrite lookup_insert_eq.
  - exists cfg. repeat split. by exists ac, ab, aa.
Qed.

(** The configuration [prepare] leaves has a client, and is otherwise the
    one it found. *)
Lemma Url_reads_prepared s b c ac cfg bkt acc :
  resolve s c = Some ac → Url_reads s b (Some ac) cfg bkt acc →
  ∃ cl, cl ≠ None ∧
        Url_reads (prepare_result s c).2 b (Some ac) (set_Client cl cfg) bkt acc.
Proof.
  intros Hr (? & ab & aa & [= <-] & Hc & -> & Hb & Ha & Hs).
  unfold prepare_result. rewrite Hr, Hc.
  destruct (Client cfg) as [a|] eqn:Hcl; simpl.
  - exists (Some a). split; [done|]. exists ac, ab, aa.
    split_and!; try done. unfold set_Client. rewrite <-Hcl. by destruct cfg.
  - exists (Some (fresh (dom (clients s)))). split; [done|].
    exists ac, ab, aa. simpl. by rewrite lookup_insert_eq.
Qed.

(** An entry point whose [Url] call does not return stops there. *)
Lemma entry_stops {A} (T : URL → ptr → Go (state E) A) b path c s c' s1 v :
  prepare_result s c = (Ret c', s1) → Url b path c' s1 = (Panic v, s1) →
  bind (prepare c) (λ c', u <- Url b path c' ;; T u c') s = (Panic v, s1).
Proof.
  intros Hp Hu. unfold bind at 1. rewrite prepare_run, Hp.
  unfold bind. by rewrite Hu.
Qed.

(** An entry point whose [Url] call returns goes on with the URL. *)
Lemma entry_goes_on {A} (T : URL → ptr → Go (state E) A) b path c s c' s1 u :
  prepare_result s c = (Ret c', s1) → Url b path c' s1 = (Ret u, s1) →
  bind (prepare c) (λ c', u <- Url b path c' ;; T u c') s = T u c' s1.
Proof.
  intros Hp Hu. unfold bind at 1. rewrite prepare_run, Hp.
  unfold bind. by rewrite Hu.
Qed.

(** With its reads in place and a URL that parses, [GetReader] is the call
    of [newGetter] in the state [prepare] leaves, and [PutWriter] that of
    [newPutter]. *)
Lemma parsed_goes_on {A} (T : URL → ptr → Go (state E) A)
    b path c s ac cfg bkt acc u :
  resolve s c = Some ac → Url_reads s b (Some ac) cfg bkt acc →
  url_Parse (Url_format (Scheme cfg) (Name bkt) (Domain acc) path) = inl u →
  bind (prepare c) (λ c', u <- Url b path c' ;; T u c') s
  = T u (Some ac) (prepare_result s c).2.
Proof.
  intros Hr Hreads Hp.
  destruct (Url_reads_prepare _ _ _ _ _ _ _ Hr Hreads) as (cfg' & Hprep & Hr' & Hsch).
  pose proof (Url_reads_run _ _ _ _ _ _ path Hr') as Hu.
  rewrite Hsch, Hp in Hu. by apply entry_goes_on.
Qed.

Lemma GetReader_goes_on b path c s ac cfg bkt acc u :
  resolve s c = Some ac → Url_reads s b (Some ac) cfg bkt acc →
  url_Parse (Url_format (Scheme cfg) (Name bkt) (Domain acc) path) = inl u →
  GetReader b path c s = newGetter u (Some ac) b (prepare_result s c).2.
Proof.
  intros. rewrite GetReader_prepare.
  by eapply (parsed_goes_on (λ u c', newGetter u c' b)).
Qed.

Lemma PutWriter_goes_on b path h c s ac cfg bkt acc u :
  resolve s c = Some ac → Url_reads s b (Some ac) cfg bkt acc →
  url_Parse (Url_format (Scheme cfg) (Name bkt) (Domain acc) path) = inl u →
  PutWriter b path h c s = newPutter u h (Some ac) b (prepare_result s c).2.
Proof.
  intros. rewrite PutWriter_prepare.
  by eapply (parsed_goes_on (λ u c', newPutter u h c' b)).
Qed.

(** C5: when the configuration, the bucket and its account are there and
    the URL parses, [GetReader] and [PutWriter] return what [newGetter] and
    [newPutter] return for that URL, the configuration in use and the bucket
    ([PutWriter] passing its headers on), run in the state [prepare]
    leaves. *)
Theorem entry_points_hand_over b path h c s ac cfg bkt acc u :
  resolve s c = Some ac → Url_reads s b (Some ac) cfg bkt acc →
  url_Parse (Url_format (Scheme cfg) (Name bkt) (Domain acc) path) = inl u →
  GetReader b path c s = newGetter u (Some ac) b (prepare_result s c).2 ∧
  PutWriter b path h c s = newPutter u h (Some ac) b (prepare_result s c).2.
Proof.
  intros. split; [by eapply GetReader_goes_on | by eapply PutWriter_goes_on].
Qed.

(** C11: a path the parser rejects makes both entry points panic with the
    parser's error, although both have an error result; the client installed
    before the panic stays in the configuration. *)
Theorem entry_points_bad_path_panic b path h c s ac cfg bkt acc err :
  resolve s c = Some ac → Url_reads s b (Some ac) cfg bkt acc →
  url_Parse (Url_format (Scheme cfg) (Name bkt) (Domain acc) path) = inr err →
  GetReader b path c s = (Panic (PanicValue err), (prepare_result s c).2) ∧
  PutWriter b path h c s = (Panic (PanicValue err), (prepare_result s c).2).
Proof.
  intros Hr Hreads Hp.
  destruct (Url_reads_prepare _ _ _ _ _ _ _ Hr Hreads) as (cfg' & Hprep & Hr' & Hsch).
  pose proof (Url_reads_run _ _ _ _ _ _ path Hr') as Hu.
  rewrite Hsch, Hp in Hu.
  rewrite GetReader_prepare, PutWriter_prepare. split.
  - by eapply (entry_stops (λ u c', newGetter u c' b)).
  - by eapply (entry_stops (λ u c', newPutter u h c' b)).
Qed.

(** C13: with a nil [c] and a nil [DefaultConfig] both entry points panic
    on the first dereference, before anything is written. *)
Theorem entry_points_nil_config_panic b path h s :
  DefaultConfig s = None →
  GetReader b path None s = (Panic NilDereference, s) ∧
  PutWriter b path h None s = (Panic NilDereference, s).
Proof.
  intros Hd. rewrite GetReader_prepare, PutWriter_prepare.
  unfold bind. rewrite prepare_run. unfold prepare_result, resolve. simpl.
  by rewrite Hd.
Qed.

(** C8: a panic does not undo the write.  With a nil bucket and a
    configuration that has no client, [GetReader] panics in [Url], after the
    client was installed: the state it leaves is not the state it was
    given. *)
Theorem GetReader_panics_after_write path c s ac cfg :
  resolve s c = Some ac → configs s !! ac = Some cfg → Client cfg = None →
  GetReader None path c s = (Panic NilDereference, install s ac cfg) ∧
  install s ac cfg ≠ s.
Proof.
  intros Hr Hc Hn. split.
  - rewrite GetReader_prepare.
    apply (entry_stops (λ u c', newGetter u c' None) None path c s (Some ac)).
    + unfold prepare_result. by rewrite Hr, Hc, Hn.
    + unfold Url. rewrite bind_load. simpl. by rewrite lookup_insert_eq.
  - by apply install_ne.
Qed.

(** ** The entry points, for an engine that keeps to its frame *)

Section frame.
Context {F : EngineFrame G}.

(** Code that leaves the package's objects and variables as they were. *)
Definition heap_framed {A} (T : ptr → Go (state E) A) : Prop :=
  ∀ c' s, same_heap s (T c' s).2.

Lemma get_tail_framed b path :
  heap_framed (λ c', u <- Url b path c' ;; newGetter u c' b).
Proof.
  intros c' s. unfold bind. pose proof (Url_state b path c' s) as Hu.
  destruct (Url b path c' s) as [[u|v|] s1]; simpl in *; subst;
    [apply newGetter_frame | done..].
Qed.

Lemma put_tail_framed b path h :
  heap_framed (λ c', u <- Url b path c' ;; newPutter u h c' b).
Proof.
  intros c' s. unfold bind. pose proof (Url_state b path c' s) as Hu.
  destruct (Url b path c' s) as [[u|v|] s1]; simpl in *; subst;
    [apply newPutter_frame | done..].
Qed.

Lemma prepare_then_framed {A} (T : ptr → Go (state E) A) c s :
  heap_framed T → same_heap (prepare_result s c).2 (bind (prepare c) T s).2.
Proof.
  intros HT. unfold bind. rewrite prepare_run.
  destruct (prepare_result s c) as [[c'|v|] s1]; simpl; [apply HT | done..].
Qed.

Lemma GetReader_heap b path c s :
  same_heap (prepare_result s c).2 (GetReader b path c s).2.
Proof.
  rewrite GetReader_prepare. apply prepare_then_framed, get_tail_framed.
Qed.

Lemma PutWriter_heap b path h c s :
  same_heap (prepare_result s c).2 (PutWriter b path h c s).2.
Proof.
  rewrite PutWriter_prepare. apply prepare_then_framed, put_tail_framed.
Qed.

(** C1: whatever [GetReader] and [PutWriter] do afterwards (return a
    transfer, return an error, panic), the objects and package variables
    they leave are those of [prepare]: the configuration object with a
    client installed, and nothing else changed. *)
Theorem entry_points_heap b path h c s :
  same_heap (prepare_result s c).2 (GetReader b path c s).2 ∧
  same_heap (prepare_result s c).2 (PutWriter b path h c s).2.
Proof. split; [apply GetReader_heap | apply PutWriter_heap]. Qed.

(** C2: a configuration without a client is written to: after
    [GetReader], whether it returned or panicked, the object [c] points to
    (the shared [DefaultConfig] object when [c] is nil) has its [Client]
    field set to a new client with the timeout [clientTimeout]. *)
Theorem GetReader_installs_client b path c s ac cfg :
  resolve s c = Some ac → configs s !! ac = Some cfg → Client cfg = None →
  ∃ a, clients s !! a = None ∧
       configs (GetReader b path c s).2
       = <[ac := set_Client (Some a) cfg]> (configs s) ∧
       clients (GetReader b path c s).2
       = <[a := mkHttpClient clientTimeout]> (clients s).
Proof.
  intros Hr Hc Hn.
  destruct (GetReader_heap b path c s) as (_ & _ & Hcf & Hcl & _).
  rewrite Hcf, Hcl. unfold prepare_result. rewrite Hr, Hc, Hn. simpl.
  eexists. split; [|done].
  apply (not_elem_of_dom (D := gset addr)), is_fresh.
Qed.

(** C14: a configuration that has a client is only read: [GetReader] and
    [PutWriter] leave every object and package variable as it was. *)
Theorem entry_points_keep_heap b path h c s ac cfg :
  resolve s c = Some ac → configs s !! ac = Some cfg → Client cfg ≠ None →
  same_heap s (GetReader b path c s).2 ∧ same_heap s (PutWriter b path h c s).2.
Proof.
  intros Hr Hc Hn. pose proof (GetReader_heap b path c s) as Hg.
  pose proof (PutWriter_heap b path h c s) as Hw.
  unfold prepare_result in Hg, Hw. rewrite Hr, Hc in Hg, Hw.
  by destruct (Client cfg).
Qed.

(** The heap invariant is preserved by both entry points, on every path
    through them. *)
Lemma entry_points_heap_ok b path h c s :
  heap_ok s →
  heap_ok (GetReader b path c s).2 ∧ heap_ok (PutWriter b path h c s).2.
Proof.
  intros Hok. pose proof (prepare_heap_ok s c Hok) as Hp.
  split; eapply heap_ok_same_heap; eauto using GetReader_heap, PutWriter_heap.
Qed.

(** In a well-formed heap, with [b] and [c] nil or pointing to objects,
    neither entry point dereferences a dangling address. *)
Lemma entry_points_no_fault b path h c s :
  heap_ok s → valid Buckets s b → valid Configs s c →
  (GetReader b path c s).1 ≠ Fault ∧ (PutWriter b path h c s).1 ≠ Fault.
Proof.
  intros Hok Hb Hc. rewrite GetReader_prepare, PutWriter_prepare.
  unfold bind. rewrite prepare_run.
  pose proof (prepare_no_fault s c Hok Hc).
  destruct (prepare_result s c) as [[c'|v|] s1] eqn:Hp; [|done..].
  destruct (prepared_state _ _ _ _ _ Hok Hb Hp) as (Hok1 & Hb1 & Hc1).
  pose proof (Url_safe b path c' s1 Hok1 Hb1 Hc1) as Hu.
  pose proof (Url_state b path c' s1) as Hs.
  destruct (Url b path c' s1) as [[u|v|] s2]; simpl in *; subst; [|done..].
  split; [by apply newGetter_safe | by apply newPutter_safe].
Qed.

(** C7: the default client is shared.  Once an entry point has run on a
    configuration, every later call on it ([c] again, or nil for the
    default) finds the client the first call installed and writes nothing:
    all transfers of the default configuration use one client object, stored
    in the package variable's object. *)
Theorem entry_points_share_client b path h b' path' c s c' s1 :
  prepare_result s c = (Ret c', s1) →
  same_heap s1 (GetReader b path c s).2 ∧
  same_heap s1 (GetReader b' path' c' (GetReader b path c s).2).2 ∧
  same_heap s1 (PutWriter b' path' h c' (GetReader b path c s).2).2.
Proof.
  intros Hp. pose proof (GetReader_heap b path c s) as Hg.
  rewrite Hp in Hg. simpl in Hg. split; [done|].
  set (s2 := (GetReader b path c s).2) in *.
  pose proof (GetReader_heap b' path' c' s2) as Hg2.
  pose proof (PutWriter_heap b' path' h c' s2) as Hw2.
  pose proof (ready_same_heap _ _ _ Hg (prepare_ready _ _ _ _ Hp)) as Hrd.
  rewrite (ready_prepare _ _ Hrd) in Hg2, Hw2. split; by etrans.
Qed.

End frame.

End facade.

(** ** Examples: the entry points without a network *)

Lemma entry_points_heap_witness :
  same_heap (prepare_result (init_state tt) None).2
    (GetReader None "k" None (init_state tt)).2 ∧
  same_heap (prepare_result (init_state tt) None).2
    (PutWriter None "k" ∅ None (init_state tt)).2.
Proof. exact (entry_points_heap (F := offline_frame) None "k" ∅ None (init_state tt)). Defined.

Lemma GetReader_installs_client_witness :
  ∃ a, clients (init_state tt) !! a = None ∧
       configs (GetReader None "k" None (init_state tt)).2
       = <[1%positive := set_Client (Some a) DefaultConfig_value]>
           (configs (init_state tt)) ∧
       clients (GetReader None "k" None (init_state tt)).2
       = <[a := mkHttpClient clientTimeout]> (clients (init_state tt)).
Proof.
  by apply (GetReader_installs_client (F := offline_frame) None "k" None
              (init_state tt) 1%positive DefaultConfig_value).
Defined.

(** A state whose default configuration already has a client. *)
Definition warm : state unit := (GetReader None "k" None (init_state tt)).2.

Lemma entry_points_keep_heap_witness :
  same_heap warm (GetReader None "k" None warm).2 ∧
  same_heap warm (PutWriter None "k" ∅ None warm).2.
Proof.
  by apply (entry_points_keep_heap (F := offline_frame) None "k" ∅ None warm
              1%positive (set_Client (Some 1%positive) DefaultConfig_value)).
Defined.

Lemma entry_points_hand_over_witness :
  GetReader (Some 1%positive) "2013/a.gz" None url_example
  = newGetter (mkURL "https" "" None "logs.s3.amazonaws.com" "/2013/a.gz" "" "")
      (Some 1%positive) (Some 1%positive) (prepare_result url_example None).2 ∧
  PutWriter (Some 1%positive) "2013/a.gz" ∅ None url_example
  = newPutter (mkURL "https" "" None "logs.s3.amazonaws.com" "/2013/a.gz" "" "") ∅
      (Some 1%positive) (Some 1%positive) (prepare_result url_example None).2.
Proof.
  by apply (entry_points_hand_over (Some 1%positive) "2013/a.gz" ∅ None
              url_example 1%positive _ _ _ _ eq_refl url_example_reads).
Defined.

Lemma entry_points_bad_path_panic_witness :
  GetReader (Some 1%positive) "100%" None url_example
  = (Panic (PanicValue (mkError "invalid URL escape")),
     (prepare_result url_example None).2) ∧
  PutWriter (Some 1%positive) "100%" ∅ None url_example
  = (Panic (PanicValue (mkError "invalid URL escape")),
     (prepare_result url_example None).2).
Proof.
  by apply (entry_points_bad_path_panic (Some 1%positive) "100%" ∅ None
              url_example 1%positive _ _ _ _ eq_refl url_example_reads).
Defined.

(** The state of a program that has set [DefaultConfig] to nil. *)
Definition no_default : state unit :=
  mkState ∅ ∅ ∅ ∅ None DefaultDomain_value tt.

Lemma entry_points_nil_config_panic_witness :
  GetReader None "k" None no_default = (Panic NilDereference, no_default) ∧
  PutWriter None "k" ∅ None no_default = (Panic NilDereference, no_default).
Proof. by apply entry_points_nil_config_panic. Defined.

Lemma GetReader_panics_after_write_witness :
  GetReader None "k" None (init_state tt)
  = (Panic NilDereference, install (init_state tt) 1%positive DefaultConfig_value) ∧
  install (init_state tt) 1%positive DefaultConfig_value ≠ init_state tt.
Proof. by apply GetReader_panics_after_write. Defined.

Lemma entry_points_share_client_witness :
  same_heap warm (GetReader None "k" None (init_state tt)).2 ∧
  same_heap warm (GetReader (Some 1%positive) "a" (Some 1%positive)
                    (GetReader None "k" None (init_state tt)).2).2 ∧
  same_heap warm (PutWriter (Some 1%positive) "a" ∅ (Some 1%positive)
                    (GetReader None "k" None (init_state tt)).2).2.
Proof.
  by apply (entry_points_share_client (F := offline_frame) None "k" ∅
              (Some 1%positive) "a" None (init_state tt) (Some 1%positive) warm).
Defined.

Lemma New_domain_not_empty_witness :
  ∃ acc, load S3s (Some 1%positive) (New "" (mkKeys "AK" "SK") (init_state tt)).2
         = (Ret acc, (New "" (mkKeys "AK" "SK") (init_state tt)).2) ∧
         Domain acc ≠ EmptyString ∧ S3_Keys acc = mkKeys "AK" "SK".
Proof.
  by apply (New_domain_not_empty "" (mkKeys "AK" "SK") (init_state tt)).
Defined.

Lemma S3_Bucket_nil_receiver_witness :
  ∃ b s', S3_Bucket None "logs" (init_state tt) = (Ret b, s') ∧ b ≠ None ∧
          Url b "k" (Some 1%positive) s' = (Panic NilDereference, s').
Proof. apply S3_Bucket_nil_receiver. by eexists. Defined.

Lemma New_Bucket_Url_witness :
  ((acc <- New "" (mkKeys "AK" "SK") ;; b <- S3_Bucket acc "logs" ;;
    Url b "2013/a.gz" (Some 1%positive)) (init_state tt)).1
  = Ret (mkURL "https" "" None "logs.s3.amazonaws.com" "/2013/a.gz" "" "").
Proof.
  by rewrite (New_Bucket_Url "" (mkKeys "AK" "SK") "logs" "2013/a.gz"
                1%positive DefaultConfig_value (init_state tt)).
Defined.
