(* ===== verification/Session.v ===== *)
(** * Session: sequences of calls of the package

    A client program is a sequence of statements: it makes accounts and
    buckets, builds configurations of its own, asks for URLs, readers and
    writers, may recover from a panic and go on, and may assign to what the
    package exports: the variables [DefaultConfig] and [DefaultDomain],
    the fields of a configuration and the domain of an account.  [call]
    names the statements, [run] runs one, [steps] is the transition
    relation of the program state and [reachable] its reachability
    predicate from the state after package initialisation;
    [reachable_by_calls] is reachability for programs that assign nothing
    ([package_call]).

    The theorems are invariants, proved by induction on [steps] from one
    lemma per statement.  For every program, assignments included: the
    heap stays well formed and no call dereferences a dangling address
    ([reachable_safe]), and the heap stays typed when the configurations
    the client builds or assigns are ([steps_typed]).  For programs that
    assign nothing: the default configuration keeps the documented
    defaults, only its client ever being set ([reachable_defaults]), there
    are never more clients than configurations ([reachable_clients]), and
    a state is followed by later ones only ([steps_grow]), where [grows]
    is the order between a state and a later one: objects are never
    removed, accounts and buckets never change, a configuration changes
    only by getting a client when it has none.  [assigning_program] is a
    program for which the last three fail. *)

From Stdlib Require Import ZArith String.
From stdpp Require Import base tactics option gmap strings.
From S2P Require Import Prelude GoRuntime Types NetUrl Url Engine Facade.

Section session.
Context {E : Type} {P : UrlParser} {G : Engine E}.
Implicit Types (s : state E).

(** The statements of a client that touch the package: the calls of its
    five functions and the client's own [&Config{...}], and the assignments
    that the exported names allow, to the variables [DefaultConfig] and
    [DefaultDomain], to a configuration ([*c = cfg], which covers the
    assignment of any of its fields) and to the domain of an account. *)
Inductive call : Type :=
| CallNew (domain : string) (keys : Keys)
| CallBucket (acct : ptr) (name : string)
| CallUrl (b : ptr) (path : string) (c : ptr)
| CallGetReader (b : ptr) (path : string) (c : ptr)
| CallPutWriter (b : ptr) (path : string) (h : Header) (c : ptr)
| CallConfig (cfg : Config)
| AssignDefaultConfig (c : ptr)
| AssignDefaultDomain (domain : string)
| AssignConfig (c : ptr) (cfg : Config)
| AssignDomain (acct : ptr) (domain : string).

Definition run (k : call) : Go (state E) unit :=
  match k with
  | CallNew domain keys => forget (New domain keys)
  | CallBucket acct name => forget (S3_Bucket acct name)
  | CallUrl b path c => forget (Url b path c)
  | CallGetReader b path c => forget (GetReader b path c)
  | CallPutWriter b path h c => forget (PutWriter b path h c)
  | CallConfig cfg => forget (alloc Configs cfg)
  | AssignDefaultConfig c => λ s, (Ret tt, with_DefaultConfig c s)
  | AssignDefaultDomain domain => λ s, (Ret tt, with_DefaultDomain domain s)
  | AssignConfig c cfg => store Configs c cfg
  | AssignDomain acct domain => update S3s acct (set_Domain domain)
  end.

(** The pointers a statement is given, and those it stores, are nil or
    point to objects. *)
Definition call_ok s (k : call) : Prop :=
  match k with
  | CallNew _ _ | AssignDefaultDomain _ => True
  | CallBucket acct _ | AssignDomain acct _ => valid S3s s acct
  | CallUrl b _ c | CallGetReader b _ c | CallPutWriter b _ _ c =>
      valid Buckets s b ∧ valid Configs s c
  | CallConfig cfg => valid Clients s (Client cfg)
  | AssignDefaultConfig c => valid Configs s c
  | AssignConfig c cfg => valid Configs s c ∧ valid Clients s (Client cfg)
  end.

#[export] Instance call_ok_dec s k : Decision (call_ok s k).
Proof. destruct k; simpl; apply _. Defined.

(** The statements that are no assignment. *)
Definition package_call (k : call) : Prop :=
  match k with
  | AssignDefaultConfig _ | AssignDefaultDomain _ | AssignConfig _ _
  | AssignDomain _ _ => False
  | _ => True
  end.

#[export] Instance package_call_dec k : Decision (package_call k).
Proof. destruct k; simpl; apply _. Defined.

(** A sequence of calls, each given pointers that are nil or point to
    objects of the state it runs in; a call that panics leaves its state to
    the next one. *)
Inductive steps : state E → list call → state E → Prop :=
| steps_nil s : steps s [] s
| steps_cons s k ks s' :
    call_ok s k → steps (run k s).2 ks s' → steps s (k :: ks) s'.

(** The states of a program: those a sequence of statements leads to
    from the state after package initialisation; and the states of a
    program that assigns nothing of the package. *)
Definition reachable s : Prop := ∃ e ks, steps (init_state e) ks s.

Definition reachable_by_calls s : Prop :=
  ∃ e ks, Forall package_call ks ∧ steps (init_state e) ks s.

(** The state after a sequence of calls, computed. *)
Definition run_all (ks : list call) s : state E :=
  foldl (λ s k, (run k s).2) s ks.

Fixpoint calls_ok s (ks : list call) : Prop :=
  match ks with
  | [] => True
  | k :: ks => call_ok s k ∧ calls_ok (run k s).2 ks
  end.

#[export] Instance calls_ok_dec s ks : Decision (calls_ok s ks).
Proof. revert s. induction ks; simpl; apply _. Defined.

(** The configurations a client builds hold integers of their types, as
    the compiler checks of a struct literal. *)
Definition call_typed (k : call) : Prop :=
  match k with
  | CallConfig cfg | AssignConfig _ cfg => config_typed cfg
  | _ => True
  end.

#[export] Instance call_typed_dec k : Decision (call_typed k).
Proof. destruct k; simpl; apply _. Defined.

Lemma steps_run_all s ks s' : steps s ks s' ↔ calls_ok s ks ∧ s' = run_all ks s.
Proof.
  split.
  - induction 1 as [|s k ks s' Hk _ [IH1 IH2]]; [done|]. by split.
  - intros [Hok ->]. revert s Hok.
    induction ks as [|k ks IH]; intros s; [constructor|].
    intros [Hk Hks]. constructor; [done|]. by apply IH.
Qed.

(** Invariants go by induction on the sequence. *)
Lemma steps_invariant (I : state E → Prop) s ks s' :
  (∀ s k, I s → call_ok s k → I (run k s).2) → steps s ks s' → I s → I s'.
Proof. intros HI. induction 1; eauto. Qed.

(** And for the sequences of statements of one kind. *)
Lemma steps_invariant_on (Q : call → Prop) (I : state E → Prop) s ks s' :
  (∀ s k, Q k → I s → call_ok s k → I (run k s).2) →
  Forall Q ks → steps s ks s' → I s → I s'.
Proof.
  intros HI Hks Hs. induction Hs as [|s k ks s' Hk _ IH]; [done|].
  apply Forall_cons in Hks as [HQ Hks]. eauto.
Qed.

(** ** The order between a state and a later one *)

(** A configuration and what it may become: the same, or the same with a
    client where it had none. *)
Definition config_grows (cfg cfg' : Config) : Prop :=
  set_Client None cfg' = set_Client None cfg ∧ (Client cfg ≠ None → cfg' = cfg).

Record grows s s' : Prop := {
  grows_s3s : s3s s ⊆ s3s s';
  grows_buckets : buckets s ⊆ buckets s';
  grows_clients : clients s ⊆ clients s';
  grows_configs a cfg :
    configs s !! a = Some cfg →
    ∃ cfg', configs s' !! a = Some cfg' ∧ config_grows cfg cfg';
  grows_DefaultConfig : DefaultConfig s' = DefaultConfig s;
  grows_DefaultDomain : DefaultDomain s' = DefaultDomain s;
}.

Lemma config_grows_refl cfg : config_grows cfg cfg.
Proof. done. Qed.

Lemma config_grows_trans c1 c2 c3 :
  config_grows c1 c2 → config_grows c2 c3 → config_grows c1 c3.
Proof.
  intros [H1 H1'] [H2 H2']. split; [congruence|].
  intros Hn. rewrite <- (H1' Hn). apply H2'. by rewrite (H1' Hn).
Qed.

#[export] Instance grows_preorder : PreOrder grows.
Proof.
  split.
  - intros s. split; eauto using config_grows_refl.
  - intros s1 s2 s3 [] []. split; try (by etrans).
    intros a cfg Ha. edestruct grows_configs0 as (c2 & H2 & ?); [done|].
    edestruct grows_configs1 as (c3 & H3 & ?); [done|].
    eauto using config_grows_trans.
Qed.

Lemma same_heap_grows s s' : same_heap s s' → grows s s'.
Proof.
  intros (H1 & H2 & H3 & H4 & H5 & H6).
  split; rewrite ?H1, ?H2, ?H3, ?H4; eauto using config_grows_refl.
Qed.

Lemma install_grows s ac cfg :
  configs s !! ac = Some cfg → Client cfg = None → grows s (install s ac cfg).
Proof.
  intros Hc Hn. split; simpl; try done.
  - apply insert_subseteq, (not_elem_of_dom (D := gset addr)), is_fresh.
  - intros a cfg0 Ha. destruct (decide (ac = a)) as [->|].
    + rewrite lookup_insert_eq. eexists; split; [done|]. simplify_eq.
      by split.
    + rewrite lookup_insert_ne by done. eauto using config_grows_refl.
Qed.

Lemma prepare_grows s c : grows s (prepare_result s c).2.
Proof.
  unfold prepare_result. repeat case_match; try reflexivity.
  apply install_grows; [done|]. by destruct (Client _).
Qed.

Lemma alloc_config_grows s cfg : grows s (alloc Configs cfg s).2.
Proof.
  split; simpl; try done. intros a cfg0 Ha.
  rewrite lookup_insert_ne; [eauto using config_grows_refl|].
  intros <-. by rewrite (not_elem_of_dom_1 (D := gset addr) _ _ (is_fresh _)) in Ha.
Qed.

Lemma alloc_s3_grows s (acc : S3) : grows s (alloc S3s acc s).2.
Proof.
  split; simpl; eauto using config_grows_refl.
  apply insert_subseteq, (not_elem_of_dom (D := gset addr)), is_fresh.
Qed.

Lemma alloc_bucket_grows s (bkt : Bucket) : grows s (alloc Buckets bkt s).2.
Proof.
  split; simpl; eauto using config_grows_refl.
  apply insert_subseteq, (not_elem_of_dom (D := gset addr)), is_fresh.
Qed.

Lemma alloc_config_heap_ok s cfg :
  heap_ok s → valid Clients s (Client cfg) → heap_ok (alloc Configs cfg s).2.
Proof.
  intros [Hd Hb Hc] Hcl. split; simpl; [eauto with go | done |].
  by apply map_Forall_insert_2.
Qed.

(** An assignment of a configuration whose client is there, and of the
    domain of an account, keep the heap well formed. *)
Lemma store_config_heap_ok s c cfg :
  heap_ok s → valid Configs s c ∧ valid Clients s (Client cfg) →
  heap_ok (store Configs c cfg s).2.
Proof.
  intros Hok [Hc Hcl]. unfold store. destruct c as [a|]; [|done].
  destruct Hc as [cfg0 Ha]. rewrite Ha. destruct Hok as [Hd Hb Hcs].
  split; simpl; [|done|by apply map_Forall_insert_2].
  destruct (DefaultConfig s) as [d|]; [|done]. simpl in *.
  rewrite lookup_insert_is_Some. destruct (decide (a = d)); auto.
Qed.

Lemma set_Domain_heap_ok s acct domain :
  heap_ok s → heap_ok (update S3s acct (set_Domain domain) s).2.
Proof.
  intros Hok. unfold update. destruct acct as [a|]; [|done].
  destruct (sel S3s s !! a) as [acc|] eqn:Ha; [|done].
  destruct Hok as [Hd Hb Hcs]. split; simpl; [done| |done].
  intros ab bkt Hbkt. pose proof (Hb ab bkt Hbkt) as Hv. simpl in *.
  destruct (Bucket_S3 bkt) as [aa|]; [|done]. simpl in *.
  rewrite lookup_insert_is_Some. destruct (decide (a = aa)); auto.
Qed.

(** ** Clients and configurations *)

(** The configurations that have no client. *)
Definition clientless s : gmap addr Config :=
  filter (λ x, Client x.2 = None) (configs s).

(** There are no more clients than configurations with a client: a client
    is made only to be installed in a configuration that has none. *)
Definition clients_bound s : Prop :=
  size (clients s) + size (clientless s) ≤ size (configs s).

Lemma clients_bound_same_heap s s' :
  same_heap s s' → clients_bound s → clients_bound s'.
Proof.
  intros (_ & _ & Hc & Hcl & _). unfold clients_bound, clientless.
  by rewrite Hc, Hcl.
Qed.

Lemma init_state_bound e : clients_bound (init_state e).
Proof.
  unfold clients_bound, clientless. simpl.
  by rewrite map_filter_singleton_True, !map_size_singleton.
Qed.

Lemma install_bound s ac cfg :
  configs s !! ac = Some cfg → Client cfg = None →
  clients_bound s → clients_bound (install s ac cfg).
Proof.
  intros Hc Hn. unfold clients_bound, clientless. simpl.
  rewrite map_filter_insert_False, map_filter_delete by done.
  rewrite map_size_insert_None
    by apply (not_elem_of_dom (D := gset addr)), is_fresh.
  rewrite map_size_insert_Some by done.
  pose proof (map_size_delete_S (filter (λ x, Client x.2 = None) (configs s))
                ac cfg) as Hd.
  rewrite map_lookup_filter_Some in Hd. specialize (Hd (conj Hc Hn)). lia.
Qed.

Lemma prepare_bound s c : clients_bound s → clients_bound (prepare_result s c).2.
Proof.
  intros Hb. unfold prepare_result. repeat case_match; try done.
  apply install_bound; [done| |done]. by destruct (Client _).
Qed.

Lemma alloc_config_bound s cfg :
  clients_bound s → clients_bound (alloc Configs cfg s).2.
Proof.
  unfold clients_bound, clientless. simpl.
  pose proof (is_fresh (dom (configs s))) as Hf.
  apply (not_elem_of_dom (D := gset addr)) in Hf.
  rewrite map_size_insert_None, map_filter_insert by done.
  case_decide.
  - rewrite map_size_insert_None; [lia|]. by apply map_lookup_filter_None_2; left.
  - rewrite delete_id by done. lia.
Qed.

Section frame.
Context {F : EngineFrame G}.

(** Each call keeps the clients within the configurations. *)
Lemma run_bound k s :
  package_call k → clients_bound s → clients_bound (run k s).2.
Proof.
  intros Hk Hb. destruct k; simpl in Hk |- *; [| | | | | |done..].
  - by rewrite New_run.
  - done.
  - by rewrite Url_state.
  - eapply clients_bound_same_heap; [apply GetReader_heap|by apply prepare_bound].
  - eapply clients_bound_same_heap; [apply PutWriter_heap|by apply prepare_bound].
  - by apply alloc_config_bound.
Qed.

(** Each call keeps the objects typed. *)
Lemma run_typed k s : call_typed k → heap_typed s → heap_typed (run k s).2.
Proof.
  intros Hk Ht. destruct k; simpl in *.
  - rewrite New_run. by destruct Ht.
  - by destruct Ht.
  - by rewrite Url_state.
  - eapply heap_typed_same_heap; [apply GetReader_heap|by apply prepare_typed].
  - eapply heap_typed_same_heap; [apply PutWriter_heap|by apply prepare_typed].
  - destruct Ht. split; simpl; [by apply map_Forall_insert_2|done].
  - by destruct Ht.
  - by destruct Ht.
  - destruct Ht. unfold store. repeat case_match; try done.
    split; simpl; [by apply map_Forall_insert_2|done].
  - destruct Ht. unfold update. by repeat case_match.
Qed.

(** Each call leads to a later state. *)
Lemma run_grows k s : package_call k → grows s (run k s).2.
Proof.
  intros Hk. destruct k; simpl in Hk |- *; [| | | | | |done..].
  - rewrite New_run. apply alloc_s3_grows.
  - apply alloc_bucket_grows.
  - by rewrite Url_state.
  - etrans; [apply prepare_grows | apply same_heap_grows, GetReader_heap].
  - etrans; [apply prepare_grows | apply same_heap_grows, PutWriter_heap].
  - apply alloc_config_grows.
Qed.

(** Each call keeps the heap well formed. *)
Lemma run_heap_ok k s : heap_ok s → call_ok s k → heap_ok (run k s).2.
Proof.
  intros Hok Hk. destruct k; simpl in *.
  - by apply New_heap_ok.
  - by apply S3_Bucket_heap_ok.
  - by rewrite Url_state.
  - by apply (entry_points_heap_ok b path ∅).
  - by apply entry_points_heap_ok.
  - by apply alloc_config_heap_ok.
  - by destruct Hok.
  - by destruct Hok.
  - by apply store_config_heap_ok.
  - by apply set_Domain_heap_ok.
Qed.

(** No call dereferences a dangling address. *)
Lemma run_no_fault k s : heap_ok s → call_ok s k → (run k s).1 ≠ Fault.
Proof.
  intros Hok Hk. destruct k; simpl in Hk; unfold run; rewrite ?forget_Fault.
  - by rewrite New_run.
  - done.
  - destruct Hk. by apply Url_safe.
  - destruct Hk. by apply (entry_points_no_fault b path ∅ c s).
  - destruct Hk. by apply (entry_points_no_fault b path h c s).
  - done.
  - done.
  - done.
  - destruct Hk as [Hc _]. unfold store. destruct c as [a|]; [|done].
    by destruct Hc as [? ->].
  - unfold update. destruct acct as [a|]; [|done]. by destruct Hk as [? ->].
Qed.

Lemma reachable_ok s : reachable s → heap_ok s.
Proof.
  intros (e & ks & Hs). eapply steps_invariant; [|done|auto with go].
  intros. by apply run_heap_ok.
Qed.

(** Every state of a program is well formed, and in it no call of the
    package (with pointers that are nil or the program's own) dereferences
    a dangling address: the calls return or panic, as Go code does. *)
Theorem reachable_safe s k :
  reachable s → heap_ok s ∧ (call_ok s k → (run k s).1 ≠ Fault).
Proof.
  intros Hr. pose proof (reachable_ok s Hr). split; [done|].
  by apply run_no_fault.
Qed.

(** C15: calls only add.  Along any sequence of calls no object is
    removed, accounts and buckets keep their fields, the package variables
    keep their values, and a configuration changes in one way only: its
    [Client] field is set, once, if it was nil. *)
Theorem steps_grow s ks s' :
  Forall package_call ks → steps s ks s' → grows s s'.
Proof.
  intros Hks Hs.
  eapply (steps_invariant_on package_call (grows s)); [|done..|reflexivity].
  intros s1 k Hk Hg _. etrans; [done | by apply run_grows].
Qed.

(** No client is made in vain.  In every state of a program the
    HTTP clients are at most as many as the configurations that have one:
    [GetReader] and [PutWriter] make a client only for a configuration
    without one, and install it there, so that however many transfers a
    program starts it holds at most one client for each configuration. *)
Theorem reachable_clients s :
  reachable_by_calls s →
  size (clients s) + size (clientless s) ≤ size (configs s).
Proof.
  intros (e & ks & Hks & Hs).
  eapply (steps_invariant_on package_call clients_bound);
    [|done..|apply init_state_bound].
  intros s1 k Hk Hb _. by apply run_bound.
Qed.

(** The objects stay typed.  Along any sequence of calls in which the
    configurations the client builds hold integers of their Go types, every
    configuration and every client of the state does: [Concurrency],
    [PartSize] and [NTry] stay in [int64], the entry points writing nothing
    to a configuration but its [Client], and the time-out of every client
    the package makes is [clientTimeout], which fits an [int64]. *)
Theorem steps_typed s ks s' :
  Forall call_typed ks → steps s ks s' → heap_typed s → heap_typed s'.
Proof.
  apply (steps_invariant_on call_typed heap_typed).
  intros s1 k Hk Ht _. by apply run_typed.
Qed.

(** C6: the defaults are the documented ones.  In every state of a
    program the variable [DefaultDomain] holds s3.amazonaws.com and
    [DefaultConfig] points to an object with concurrency 10, part size 20
    MiB, 10 tries, the MD5 check on and the scheme https, whatever
    transfers ran before; only its client may have been set. *)
Theorem reachable_defaults s :
  reachable_by_calls s →
  DefaultDomain s = "s3.amazonaws.com" ∧
  ∃ a cfg, DefaultConfig s = Some a ∧ configs s !! a = Some cfg ∧
           Concurrency cfg = 10%Z ∧ PartSize cfg = (20 * 1024 * 1024)%Z ∧
           NTry cfg = 10%Z ∧ Md5Check cfg = true ∧ Scheme cfg = "https".
Proof.
  intros (e & ks & Hks & Hs).
  eapply (steps_invariant_on package_call (grows (init_state e))) in Hs;
    [|intros; etrans; eauto using run_grows|done|reflexivity].
  destruct Hs as [_ _ _ Hc Hd Hdom]. split; [done|].
  destruct (Hc 1%positive DefaultConfig_value) as (cfg & Hcfg & Hg & _); [done|].
  unfold set_Client in Hg. injection Hg as H1 H2 H3 H4 H5.
  exists 1%positive, cfg. by rewrite H1, H2, H3, H4, H5.
Qed.

End frame.

End session.

(** ** An example program *)

(** An account on the default domain, a bucket, a download and an upload
    with the default configuration. *)
Definition example_program : list call :=
  [ CallNew "" (mkKeys "AK" "SK");
    CallBucket (Some 1%positive) "logs";
    CallGetReader (Some 1%positive) "2013/a.gz" None;
    CallPutWriter (Some 1%positive) "out/b.gz" ∅ None ].

Definition example_final : state unit := run_all example_program (init_state tt).

Lemma example_steps : steps (init_state tt) example_program example_final.
Proof. apply steps_run_all. split; [|done]. by apply (bool_decide_unpack _). Qed.

Lemma example_calls : Forall package_call example_program.
Proof. by apply (bool_decide_unpack _). Qed.

Lemma example_reachable : reachable_by_calls example_final.
Proof. exists tt, example_program. split; [apply example_calls|apply example_steps]. Qed.

(** A program that assigns: it points [DefaultConfig] to a configuration
    of its own, changes the scheme of that configuration and the default
    domain, and goes on to make an account and to ask for a reader. *)
Definition assigning_program : list call :=
  [ CallConfig (mkConfig None 2 4 0 false "http");
    AssignDefaultConfig (Some 2%positive);
    AssignConfig (Some 2%positive) (mkConfig None 2 4 0 false "https");
    AssignDefaultDomain "example.org";
    CallNew "" (mkKeys "AK" "SK");
    CallBucket (Some 1%positive) "logs";
    AssignDomain (Some 1%positive) "objects.example.org";
    CallGetReader (Some 1%positive) "2013/a.gz" None ].

Definition assigned_final : state unit :=
  run_all assigning_program (init_state tt).

Lemma assigned_reachable : reachable assigned_final.
Proof.
  exists tt, assigning_program. apply steps_run_all.
  split; [|done]. by apply (bool_decide_unpack _).
Qed.

(** The defaults a call with a nil configuration uses are then the
    program's, and the client is installed in the program's object. *)
Example assigned_final_defaults :
  DefaultDomain assigned_final = "example.org" ∧
  DefaultConfig assigned_final = Some 2%positive ∧
  configs assigned_final !! 2%positive
  = Some (mkConfig (Some 1%positive) 2 4 0 false "https") ∧
  configs assigned_final !! 1%positive = Some DefaultConfig_value.
Proof. by vm_compute. Qed.

Example example_final_client :
  Client <$> configs example_final !! 1%positive = Some (Some 1%positive) ∧
  clients example_final = {[ 1%positive := mkHttpClient clientTimeout ]}.
Proof. by vm_compute. Qed.

Lemma reachable_safe_witness :
  heap_ok assigned_final ∧
  (run (CallGetReader (Some 1%positive) "100%" None) assigned_final).1 ≠ Fault.
Proof.
  destruct (reachable_safe (F := offline_frame) assigned_final
              (CallGetReader (Some 1%positive) "100%" None) assigned_reachable)
    as [Hok Hsafe].
  split; [exact Hok | apply Hsafe]. by apply (bool_decide_unpack _).
Defined.

Lemma steps_grow_witness : grows (init_state tt) example_final.
Proof.
  exact (steps_grow (F := offline_frame) _ _ _ example_calls example_steps).
Defined.

Lemma reachable_defaults_witness :
  DefaultDomain example_final = "s3.amazonaws.com" ∧
  ∃ a cfg, DefaultConfig example_final = Some a ∧
           configs example_final !! a = Some cfg ∧
           Concurrency cfg = 10%Z ∧ PartSize cfg = (20 * 1024 * 1024)%Z ∧
           NTry cfg = 10%Z ∧ Md5Check cfg = true ∧ Scheme cfg = "https".
Proof. exact (reachable_defaults (F := offline_frame) _ example_reachable). Defined.

Lemma reachable_clients_witness :
  size (clients example_final) + size (clientless example_final)
  ≤ size (configs example_final).
Proof. exact (reachable_clients (F := offline_frame) _ example_reachable). Defined.

Lemma steps_typed_witness : heap_typed example_final.
Proof.
  apply (steps_typed (F := offline_frame) (init_state tt) example_program).
  - by apply (bool_decide_unpack _).
  - apply example_steps.
  - apply init_state_typed.
Defined.
