(* ===== verification/Concurrent.v ===== *)
(** * Concurrent: the entry points called from several goroutines

    [Facade] gives [GetReader] and [PutWriter] as functions: a call runs
    from its first statement to its return with the state to itself.  A Go
    program may call them from several goroutines at once, and nothing in
    [src/s3gof3r.go] synchronises the calls.  This file runs them one
    statement at a time.

    - A [thread] is a call in progress: the entry point with its arguments
      ([entry]) and the program point it has reached ([pc]), which holds
      the local variables that are live there: the configuration pointer
      [c], and the client that was made and is not yet stored.
    - [thread_step] is one statement: the defaulting of [c], which reads
      the variable [DefaultConfig]; the test [c.Client == nil], which reads
      the field; the call of [ClientWithTimeout], which allocates; the
      assignment to [c.Client], which writes the field; and the last line,
      [Url] and the constructor of the engine, taken as one step.  Each is
      the computation of the monad that [Facade] composes, so that a
      thread that runs alone is the function of [Facade]
      ([solo_entry_point]).
    - A [pool] is the threads and the state they share; [pool_step] lets
      the thread the scheduler names take its next statement, and a
      schedule is the list of those names.

    The theorems.  A thread that runs alone computes what the function of
    [Facade] computes ([solo_entry_point]), and the calls run one after the
    other are one of the schedules ([serial_schedule]).  Whatever the
    schedule, the heap stays well formed, no thread meets a dangling
    pointer and nothing but the client of a configuration changes
    ([interleaved_safe]); a call takes at most five statements and a
    thread that has not returned can always take its next one
    ([interleaved_bounded]).  The test and
    the assignment are two steps: two calls on a configuration without a
    client can both pass the test, and then each makes a client and both
    are about to assign the same field ([cold_config_race]); the second
    assignment replaces the first, and the state that results is one that
    no order of the two calls, run one after the other, leaves
    ([lost_client]).  On a configuration that has a client the calls only
    read it, and no schedule leads to a race ([warm_config_race_free]).

    Not modelled: the memory model of Go.  A statement is atomic here and
    the threads see one memory; the races found are races already at that
    grain.  The reads of the configuration by [Url] and by the constructor
    of the engine are taken with the last statement. *)

From Stdlib Require Import ZArith String List Lia.
From stdpp Require Import base tactics option list gmap strings.
From S2P Require Import Prelude GoRuntime Types NetUrl Url Engine Facade.

(** ** Threads *)

(** A call of an entry point, with its arguments but the configuration. *)
Inductive entry :=
| EGet (b : ptr) (path : string)
| EPut (b : ptr) (path : string) (h : Header).

(** What a call returns. *)
Inductive result :=
| RGet (r : GetResult)
| RPut (r : PutResult).

(** The program points of [GetReader] and [PutWriter], with the local
    variables that are live at each. *)
Inductive pc :=
| AtEntry (c : ptr)       (* before [if c == nil] *)
| AtCheck (c : ptr)       (* before [if c.Client == nil] *)
| AtMake (c : ptr)        (* before the call of [ClientWithTimeout] *)
| AtWrite (c cl : ptr)    (* before the assignment to [c.Client] *)
| AtCall (c : ptr)        (* before the [return] *)
| Finished (o : outcome result).

Record thread := mkThread { th_entry : entry; th_pc : pc }.

#[export] Instance entry_eq_dec : EqDecision entry.
Proof. solve_decision. Defined.
#[export] Instance result_eq_dec : EqDecision result.
Proof. solve_decision. Defined.
#[export] Instance pc_eq_dec : EqDecision pc.
Proof. solve_decision. Defined.
#[export] Instance thread_eq_dec : EqDecision thread.
Proof. solve_decision. Defined.

Section concurrent.
Context {E : Type} {P : UrlParser} {G : Engine E}.
Implicit Types (s : state E) (b c cl : ptr) (p : pc) (t : thread).

(** A statement: the computation runs, and the thread goes on at the
    program point its value gives, or ends with the panic. *)
Definition next {A} (m : Go (state E) A) (k : A → pc) s : pc * state E :=
  match m s with
  | (Ret a, s') => (k a, s')
  | (Panic v, s') => (Finished (Panic v), s')
  | (Fault, s') => (Finished Fault, s')
  end.

(** [if c == nil { c = DefaultConfig }] *)
Definition step_entry c : state E → pc * state E :=
  next (if is_nil c then gets DefaultConfig else ret c) AtCheck.

(** [if c.Client == nil] *)
Definition step_check c : state E → pc * state E :=
  next (load Configs c)
    (λ cfg, if is_nil (Client cfg) then AtMake c else AtCall c).

(** [ClientWithTimeout(clientTimeout)] *)
Definition step_make c : state E → pc * state E :=
  next (ClientWithTimeout clientTimeout) (AtWrite c).

(** [c.Client = ...] *)
Definition step_write c cl : state E → pc * state E :=
  next (update Configs c (set_Client cl)) (λ _, AtCall c).

(** [return newGetter(b.Url(path, c), c, b)], and the same of
    [PutWriter]. *)
Definition step_call (e : entry) c : state E → pc * state E :=
  match e with
  | EGet b path =>
      next (u <- Url b path c ;; newGetter u c b) (λ r, Finished (Ret (RGet r)))
  | EPut b path h =>
      next (u <- Url b path c ;; newPutter u h c b) (λ r, Finished (Ret (RPut r)))
  end.

(** The next statement of a thread; a thread that has returned or
    panicked has none. *)
Definition thread_step (e : entry) p s : option (pc * state E) :=
  match p with
  | AtEntry c => Some (step_entry c s)
  | AtCheck c => Some (step_check c s)
  | AtMake c => Some (step_make c s)
  | AtWrite c cl => Some (step_write c cl s)
  | AtCall c => Some (step_call e c s)
  | Finished _ => None
  end.

(** A thread run on its own, for at most [n] statements. *)
Fixpoint solo (n : nat) (e : entry) p s : pc * state E :=
  match n with
  | O => (p, s)
  | S n' =>
      match thread_step e p s with
      | Some (p', s') => solo n' e p' s'
      | None => (p, s)
      end
  end.

(** The entry point as [Facade] has it. *)
Definition call (e : entry) c : Go (state E) result :=
  match e with
  | EGet b path => r <- GetReader b path c ;; ret (RGet r)
  | EPut b path h => r <- PutWriter b path h c ;; ret (RPut r)
  end.

(** ** Pools *)

(** The threads, and the state they share. *)
Definition pool : Type := list thread * state E.

(** The thread [tid] takes its next statement. *)
Definition pool_step (tid : nat) (ρ : pool) : option pool :=
  t ← ρ.1 !! tid;
  '(p', s') ← thread_step (th_entry t) (th_pc t) ρ.2;
  Some (<[tid := mkThread (th_entry t) p']> ρ.1, s').

(** A schedule names the thread that runs, step after step. *)
Definition pool_run : list nat → pool → option pool := run_steps pool_step.

Lemma pool_run_app sched1 sched2 ρ :
  pool_run (sched1 ++ sched2) ρ = pool_run sched1 ρ ≫= pool_run sched2.
Proof. apply run_steps_app. Qed.

(** The calls [es] on the configuration [c], about to start. *)
Definition spawn (es : list entry) c s : pool :=
  ((λ e, mkThread e (AtEntry c)) <$> es, s).

(** Take the step of the pool that is next in the schedule, up to the
    statement of the thread. *)
Ltac pool_steps :=
  cbn [run_steps pool_step lookup list_lookup mbind option_bind thread_step
       th_pc th_entry fst snd insert list_insert fmap list_fmap is_nil].

(** ** A thread on its own *)

(** What is left of a call at a program point, as a computation of
    [Facade]'s monad. *)
Definition rest_call (e : entry) c : Go (state E) result :=
  match e with
  | EGet b path => r <- (u <- Url b path c ;; newGetter u c b) ;; ret (RGet r)
  | EPut b path h => r <- (u <- Url b path c ;; newPutter u h c b) ;; ret (RPut r)
  end.

Definition rest_write (e : entry) c cl : Go (state E) result :=
  update Configs c (set_Client cl) ;;; rest_call e c.

Definition rest_make (e : entry) c : Go (state E) result :=
  cl <- ClientWithTimeout clientTimeout ;; rest_write e c cl.

Definition rest_check (e : entry) c : Go (state E) result :=
  cfg <- load Configs c ;;
  if is_nil (Client cfg) then rest_make e c else rest_call e c.

Definition rest_entry (e : entry) c : Go (state E) result :=
  c <- (if is_nil c then gets DefaultConfig else ret c) ;; rest_check e c.

Definition rest (e : entry) p : Go (state E) result :=
  match p with
  | AtEntry c => rest_entry e c
  | AtCheck c => rest_check e c
  | AtMake c => rest_make e c
  | AtWrite c cl => rest_write e c cl
  | AtCall c => rest_call e c
  | Finished o => λ s, (o, s)
  end.

(** The statements a thread has before it at most. *)
Definition rank p : nat :=
  match p with
  | AtEntry _ => 5 | AtCheck _ => 4 | AtMake _ => 3 | AtWrite _ _ => 2
  | AtCall _ => 1 | Finished _ => 0
  end.

(** A statement, then the rest: the rest before the statement. *)
Lemma next_rest {A} (m : Go (state E) A) (k : A → pc) e s :
  rest e (next m k s).1 (next m k s).2 = bind m (λ a, rest e (k a)) s.
Proof. unfold next, bind. by destruct (m s) as [[a|v|] s1]. Qed.

Lemma thread_step_rest e p s ρ :
  thread_step e p s = Some ρ → rest e ρ.1 ρ.2 = rest e p s.
Proof.
  destruct p as [c|c|c|c cl|c|o]; simpl; intros [= <-].
  - apply next_rest.
  - unfold step_check. rewrite next_rest. apply bind_ext.
    intros cfg s1. by destruct (is_nil _).
  - apply next_rest.
  - apply next_rest.
  - destruct e; unfold step_call; rewrite next_rest; simpl;
      unfold bind; by repeat case_match.
Qed.

Lemma next_rank {A} (m : Go (state E) A) (k : A → pc) s n :
  (∀ a, rank (k a) ≤ n) → rank (next m k s).1 ≤ n.
Proof. intros Hk. unfold next. repeat case_match; simpl; [done|lia..]. Qed.

Lemma thread_step_rank e p s ρ :
  thread_step e p s = Some ρ → rank ρ.1 < rank p.
Proof.
  destruct p as [c|c|c|c cl|c|o]; simpl; intros [= <-];
    [..|destruct e]; apply Nat.lt_succ_r, next_rank; intros;
    repeat case_match; simpl; lia.
Qed.

Lemma solo_rest n e p s :
  rest e (solo n e p s).1 (solo n e p s).2 = rest e p s.
Proof.
  revert p s. induction n as [|n IH]; intros p s; [done|]. simpl.
  destruct (thread_step e p s) as [[p' s']|] eqn:Hstep; [|done].
  rewrite IH. apply (thread_step_rest _ _ _ _ Hstep).
Qed.

Lemma solo_finished n e p s :
  rank p ≤ n → ∃ o, (solo n e p s).1 = Finished o.
Proof.
  revert p s. induction n as [|n IH]; intros p s Hn.
  - destruct p; simpl in Hn; try lia. by eexists.
  - simpl. destruct (thread_step e p s) as [[p' s']|] eqn:Hstep.
    + apply IH. apply thread_step_rank in Hstep. simpl in Hstep. lia.
    + destruct p; try done. by eexists.
Qed.

(** The nesting of [rest_entry] is the entry point of [Facade]. *)
Lemma rest_entry_call e c s : rest_entry e c s = call e c s.
Proof.
  destruct e; unfold rest_entry, rest_check, rest_make, rest_write, rest_call,
    call, GetReader, PutWriter, bind; repeat (case_match; simplify_eq/=; try done).
Qed.

(** A thread that has at most [n] statements before it has ended after
    [n], with the outcome and the state of what was left of its call. *)
Lemma solo_ends n e p s :
  rank p ≤ n → solo n e p s = (Finished (rest e p s).1, (rest e p s).2).
Proof.
  intros Hn. destruct (solo_finished n e p s Hn) as [o Ho].
  pose proof (solo_rest n e p s) as Hrest.
  rewrite Ho in Hrest. cbn [rest] in Hrest.
  destruct (solo n e p s) as [p1 s1]. cbn [fst snd] in *. subst p1.
  by rewrite <-Hrest.
Qed.

(** A call that runs alone is the call of [Facade].  The statements
    of a thread, taken one after the other with no step of another thread
    in between, end after at most five steps, with the outcome and in the
    state of the function [GetReader], or [PutWriter], of [Facade] on the
    state the thread started in: the value returned, or the panic. *)
Theorem solo_entry_point e c s :
  solo 5 e (AtEntry c) s = (Finished (call e c s).1, (call e c s).2).
Proof. rewrite solo_ends by done. cbn [rest]. by rewrite rest_entry_call. Qed.

(** ** The calls in sequence *)

(** The calls in the order of the list, each on the state the one before
    it left: the outcomes, and the last state. *)
Fixpoint serial (es : list entry) c s : list (outcome result) * state E :=
  match es with
  | [] => ([], s)
  | e :: es =>
      let r := call e c s in
      let rs := serial es c r.2 in
      (r.1 :: rs.1, rs.2)
  end.

(** The threads of calls that have ended. *)
Definition ended (es : list entry) (os : list (outcome result)) : list thread :=
  zip_with (λ e o, mkThread e (Finished o)) es os.

Lemma pool_step_thread tid ts s e p p' s' :
  ts !! tid = Some (mkThread e p) → thread_step e p s = Some (p', s') →
  pool_step tid (ts, s) = Some (<[tid := mkThread e p']> ts, s').
Proof. intros Ht Hstep. unfold pool_step. simpl. rewrite Ht. simpl. by rewrite Hstep. Qed.

(** A thread of a pool run on its own is a schedule of the pool. *)
Lemma pool_solo n tid ts e p s :
  ts !! tid = Some (mkThread e p) →
  ∃ k, k ≤ n ∧
    pool_run (replicate k tid) (ts, s)
    = Some (<[tid := mkThread e (solo n e p s).1]> ts, (solo n e p s).2).
Proof.
  revert ts p s. induction n as [|n IH]; intros ts p s Ht.
  { exists 0. split; [done|]. simpl. by rewrite list_insert_id. }
  simpl. destruct (thread_step e p s) as [[p' s']|] eqn:Hstep.
  - destruct (IH (<[tid := mkThread e p']> ts) p' s') as (k & Hk & Hrun).
    { apply list_lookup_insert_eq. by eapply lookup_lt_Some. }
    exists (S k). split; [lia|]. unfold pool_run in *. simpl replicate.
    rewrite run_steps_cons, (pool_step_thread _ _ _ _ _ _ _ Ht Hstep).
    cbn [mbind option_bind]. by rewrite Hrun, list_insert_insert_eq.
  - exists 0. split; [lia|]. simpl. by rewrite list_insert_id.
Qed.

Lemma serial_from ts es c s :
  ∃ sched, length sched ≤ 5 * length es ∧
    pool_run sched (ts ++ (spawn es c s).1, s)
    = Some (ts ++ ended es (serial es c s).1, (serial es c s).2).
Proof.
  revert ts s. induction es as [|e es IH]; intros ts s; [by exists []|].
  destruct (pool_solo 5 (length ts) (ts ++ (spawn (e :: es) c s).1) e
              (AtEntry c) s) as (k & Hk & Hrun).
  { by rewrite lookup_app_r, Nat.sub_diag by lia. }
  rewrite solo_ends in Hrun by done. cbn [rest fst snd] in Hrun.
  rewrite rest_entry_call in Hrun.
  destruct (IH (ts ++ [mkThread e (Finished (call e c s).1)]) (call e c s).2)
    as (sched & Hlen & Hrest).
  exists (replicate k (length ts) ++ sched). split.
  { rewrite length_app, length_replicate. simpl. lia. }
  rewrite pool_run_app, Hrun. cbn [mbind option_bind].
  rewrite insert_app_r_alt, Nat.sub_diag by lia. simpl.
  rewrite <-!app_assoc in Hrest. exact Hrest.
Qed.

(** The calls one after the other are a schedule.  For every list
    of calls there is a schedule of the pool on which they run one after
    the other, each to its end before the next begins: it leaves every
    thread returned or panicked with the outcome of its call in [Facade],
    and the state of the calls composed in the order of the list.  The
    interleavings contain the sequential runs. *)
Theorem serial_schedule es c s :
  ∃ sched, length sched ≤ 5 * length es ∧
    pool_run sched (spawn es c s)
    = Some (ended es (serial es c s).1, (serial es c s).2).
Proof. exact (serial_from [] es c s). Qed.

(** ** Every call ends *)

(** The statements the threads of a pool have before them at most. *)
Definition work (ts : list thread) : nat :=
  sum_list_with (λ t, rank (th_pc t)) ts.

Lemma work_insert ts tid t t' :
  ts !! tid = Some t →
  work (<[tid := t']> ts) + rank (th_pc t) = work ts + rank (th_pc t').
Proof.
  unfold work. revert tid. induction ts as [|u ts IH]; intros [|tid]; try done.
  - intros [= ->]. simpl. lia.
  - intros Ht. specialize (IH tid Ht). simpl in *. lia.
Qed.

Lemma pool_step_work tid ρ ρ' :
  pool_step tid ρ = Some ρ' → work ρ'.1 < work ρ.1.
Proof.
  unfold pool_step. destruct (ρ.1 !! tid) as [t|] eqn:Ht; [|done]. simpl.
  destruct (thread_step _ _ _) as [[p' s']|] eqn:Hstep; [|done].
  intros [= <-]. simpl. apply thread_step_rank in Hstep.
  pose proof (work_insert _ _ _ (mkThread (th_entry t) p') Ht).
  simpl in *. lia.
Qed.

Lemma work_spawn es c s : work (spawn es c s).1 = 5 * length es.
Proof.
  unfold work, spawn. cbn [fst]. induction es as [|e es IH]; [done|].
  rewrite fmap_cons. cbn [sum_list_with th_pc rank length]. lia.
Qed.

(** Every call ends, whatever the schedule.  A call takes at most
    five steps, so that a schedule of [n] calls has at most [5 * n] steps;
    no step waits for another thread: a thread that has not returned or
    panicked can take its next step in every state. *)
Theorem interleaved_bounded es c s sched ρ :
  pool_run sched (spawn es c s) = Some ρ →
  length sched + work ρ.1 ≤ 5 * length es ∧
  ∀ tid t, ρ.1 !! tid = Some t →
           (∃ o, th_pc t = Finished o) ∨ is_Some (pool_step tid ρ).
Proof.
  intros Hrun. split.
  - rewrite <-(work_spawn es c s). revert Hrun. generalize (spawn es c s). unfold pool_run.
    induction sched as [|tid sched IH]; intros ρ0; [by intros [= ->]|].
    rewrite run_steps_cons.
    destruct (pool_step tid ρ0) as [ρ1|] eqn:Hstep; [|done]. simpl.
    intros ?%IH. apply pool_step_work in Hstep. lia.
  - intros tid t Ht. unfold pool_step. rewrite Ht. simpl.
    destruct (thread_step _ _ _) as [[p' s']|] eqn:Hstep; simpl; [by right|].
    left. destruct (th_pc t); try done. by eexists.
Qed.

(** ** What every schedule keeps *)

(** What a statement of a call leaves of the state it found: the
    accounts, the buckets and the package variables as they were; the
    configurations as they were but for the client; the clients there
    were. *)
Record steady s s' : Prop := {
  sd_s3s : s3s s' = s3s s;
  sd_buckets : buckets s' = buckets s;
  sd_DefaultConfig : DefaultConfig s' = DefaultConfig s;
  sd_DefaultDomain : DefaultDomain s' = DefaultDomain s;
  sd_configs a cfg :
    configs s !! a = Some cfg →
    ∃ cl, configs s' !! a = Some (set_Client cl cfg);
  sd_clients : clients s ⊆ clients s';
}.

Lemma set_Client_id cfg : set_Client (Client cfg) cfg = cfg.
Proof. by destruct cfg. Qed.

Lemma set_Client_twice cl cl' cfg :
  set_Client cl (set_Client cl' cfg) = set_Client cl cfg.
Proof. done. Qed.

#[export] Instance steady_preorder : PreOrder steady.
Proof.
  split.
  - intros s. split; try done. intros a cfg Ha. exists (Client cfg).
    by rewrite set_Client_id.
  - intros s1 s2 s3 [] []. split; try (by etrans).
    intros a cfg Ha. edestruct sd_configs0 as (cl & H2); [done|].
    edestruct sd_configs1 as (cl' & H3); [done|]. by exists cl'.
Qed.

Lemma same_heap_steady s s' : same_heap s s' → steady s s'.
Proof.
  intros (H1 & H2 & H3 & H4 & H5 & H6). split; rewrite ?H3, ?H4; try done.
  intros a cfg Ha. exists (Client cfg). by rewrite set_Client_id.
Qed.

(** The pointers a thread holds stay good. *)
Lemma steady_valid s s' :
  steady s s' →
  (∀ c, valid Configs s c → valid Configs s' c) ∧
  (∀ cl, valid Clients s cl → valid Clients s' cl) ∧
  (∀ b, valid Buckets s b → valid Buckets s' b).
Proof.
  intros [H1 H2 H3 H4 H5 H6]. split_and!; intros [a|]; simpl; try done.
  - intros [cfg Ha]. destruct (H5 a cfg Ha) as [cl ->]. eauto.
  - intros [h Ha]. eapply lookup_weaken_is_Some; eauto.
  - by rewrite H2.
Qed.

(** The arguments and the local variables of a thread are nil or point to
    objects, and the thread has not met a dangling pointer. *)
Definition entry_ok s (e : entry) : Prop :=
  match e with EGet b _ | EPut b _ _ => valid Buckets s b end.

Definition pc_ok s p : Prop :=
  match p with
  | AtEntry c | AtCheck c | AtMake c | AtCall c => valid Configs s c
  | AtWrite c cl => valid Configs s c ∧ valid Clients s cl
  | Finished o => o ≠ Fault
  end.

Definition thread_ok s t : Prop := entry_ok s (th_entry t) ∧ pc_ok s (th_pc t).

Definition pool_ok (ρ : pool) : Prop := heap_ok ρ.2 ∧ Forall (thread_ok ρ.2) ρ.1.

#[export] Instance pool_ok_dec ρ : Decision (pool_ok ρ).
Proof.
  unfold pool_ok, thread_ok, entry_ok, pc_ok.
  apply and_dec; [apply _|]. apply Forall_dec. intros [[] []]; simpl; apply _.
Defined.

Lemma thread_ok_steady s s' t : steady s s' → thread_ok s t → thread_ok s' t.
Proof.
  intros (Hc & Hcl & Hb)%steady_valid [He Hp]. split.
  - destruct (th_entry t); simpl in *; auto.
  - destruct (th_pc t); simpl in *; intuition auto.
Qed.

(** The statements, with the state written out. *)
Lemma step_entry_run c s : step_entry c s = (AtCheck (resolve s c), s).
Proof. unfold step_entry, next. by rewrite resolve_run. Qed.

Lemma step_check_run c s :
  step_check c s
  = (match c with
     | None => Finished (Panic NilDereference)
     | Some a =>
         match configs s !! a with
         | Some cfg => if is_nil (Client cfg) then AtMake c else AtCall c
         | None => Finished Fault
         end
     end, s).
Proof.
  unfold step_check, next, load. destruct c as [a|]; [|done]. simpl.
  by destruct (configs s !! a).
Qed.

Lemma step_make_run c s :
  step_make c s
  = (AtWrite c (Some (fresh (dom (clients s)))),
     with_clients (<[fresh (dom (clients s)) := mkHttpClient clientTimeout]>
                     (clients s)) s).
Proof. done. Qed.

Lemma step_write_run c cl s :
  step_write c cl s
  = match c with
    | None => (Finished (Panic NilDereference), s)
    | Some a =>
        match configs s !! a with
        | Some cfg =>
            (AtCall c, with_configs (<[a := set_Client cl cfg]> (configs s)) s)
        | None => (Finished Fault, s)
        end
    end.
Proof.
  unfold step_write, next, update. destruct c as [a|]; [|done]. simpl.
  by destruct (configs s !! a).
Qed.

Lemma made_steady s h :
  steady s (with_clients (<[fresh (dom (clients s)) := h]> (clients s)) s).
Proof.
  split; simpl; try done.
  - intros a cfg ->. exists (Client cfg). by rewrite set_Client_id.
  - apply insert_subseteq, (not_elem_of_dom (D := gset addr)), is_fresh.
Qed.

Lemma made_heap_ok s h :
  heap_ok s →
  heap_ok (with_clients (<[fresh (dom (clients s)) := h]> (clients s)) s).
Proof.
  intros [Hd Hb Hc]. split; simpl; [done..|].
  eapply map_Forall_impl; [exact Hc|]. intros ? cfg ?.
  by apply (valid_insert Clients).
Qed.

Lemma written_steady s a cfg cl :
  configs s !! a = Some cfg →
  steady s (with_configs (<[a := set_Client cl cfg]> (configs s)) s).
Proof.
  intros Ha. split; simpl; try done. intros a' cfg' Ha'.
  destruct (decide (a = a')) as [->|].
  - rewrite lookup_insert_eq. simplify_eq. by exists cl.
  - rewrite lookup_insert_ne by done. exists (Client cfg').
    by rewrite set_Client_id.
Qed.

Lemma written_heap_ok s a cfg cl :
  heap_ok s → valid Clients s cl →
  heap_ok (with_configs (<[a := set_Client cl cfg]> (configs s)) s).
Proof.
  intros [Hd Hb Hc] Hcl. split; simpl; [|done|].
  - by apply (valid_insert Configs).
  - by apply map_Forall_insert_2.
Qed.

Section safe.
Context {F : EngineFrame G}.

(** The last line is the last. *)
Lemma step_call_finished e c s : ∃ o, (step_call e c s).1 = Finished o.
Proof.
  destruct e; unfold step_call, next;
    by match goal with |- context [match ?m with _ => _ end] =>
      destruct m as [[?|?|] ?]; eexists end.
Qed.

(** The last line leaves the package's objects alone. *)
Lemma step_call_frame e c s : same_heap s (step_call e c s).2.
Proof.
  destruct e as [b path|b path h]; unfold step_call, next, bind;
    pose proof (Url_state b path c s) as Hs;
    destruct (Url b path c s) as [[u|v|] s1]; simpl in *; subst; try done.
  - pose proof (newGetter_frame u c b s).
    by destruct (newGetter u c b s) as [[r|v|] s2].
  - pose proof (newPutter_frame u h c b s).
    by destruct (newPutter u h c b s) as [[r|v|] s2].
Qed.

(** And it meets no dangling pointer. *)
Lemma step_call_ok e c s :
  heap_ok s → entry_ok s e → valid Configs s c →
  same_heap s (step_call e c s).2 ∧ pc_ok (step_call e c s).2 (step_call e c s).1.
Proof.
  intros Hok He Hc. destruct e as [b path|b path h]; simpl in He;
    pose proof (Url_safe b path c s Hok He Hc) as Hu;
    pose proof (Url_state b path c s) as Hs;
    unfold step_call, next, bind;
    destruct (Url b path c s) as [[u|v|] s1]; simpl in *; subst; try done.
  - pose proof (newGetter_safe u c b s Hok Hc He).
    pose proof (newGetter_frame u c b s).
    by destruct (newGetter u c b s) as [[r|v|] s2].
  - pose proof (newPutter_safe u h c b s Hok Hc He).
    pose proof (newPutter_frame u h c b s).
    by destruct (newPutter u h c b s) as [[r|v|] s2].
Qed.

(** A statement keeps the heap well formed and the thread's pointers
    good, and leaves the state steady. *)
Lemma thread_step_ok e p s ρ :
  heap_ok s → entry_ok s e → pc_ok s p → thread_step e p s = Some ρ →
  heap_ok ρ.2 ∧ pc_ok ρ.2 ρ.1 ∧ steady s ρ.2.
Proof.
  intros Hok He Hp. destruct p as [c|c|c|c cl|c|o]; simpl; intros [= <-].
  - rewrite step_entry_run. simpl. by split_and!; [|apply resolve_valid|].
  - rewrite step_check_run. simpl. split_and!; [done| |done].
    destruct c as [a|]; [|done]. destruct Hp as [cfg Ha]. simpl in Ha.
    rewrite Ha. by destruct (is_nil _); simpl; rewrite Ha.
  - rewrite step_make_run. simpl.
    pose proof (made_steady s (mkHttpClient clientTimeout)) as Hsd.
    split_and!; [by apply made_heap_ok|by apply (steady_valid _ _ Hsd)|
                 apply (valid_insert_eq Clients)|done].
  - rewrite step_write_run. destruct Hp as [Hc Hcl].
    destruct c as [a|]; [|done]. destruct Hc as [cfg Ha]. simpl in Ha.
    rewrite Ha. simpl.
    split_and!; [by apply written_heap_ok|apply (valid_insert_eq Configs)|
                 by apply written_steady].
  - destruct (step_call_ok e c s Hok He Hp) as [Hsame Hpc].
    split_and!; [by eapply heap_ok_same_heap|done|by apply same_heap_steady].
Qed.

Lemma pool_step_inv tid ρ ρ' :
  pool_step tid ρ = Some ρ' →
  ∃ t p', ρ.1 !! tid = Some t ∧
          thread_step (th_entry t) (th_pc t) ρ.2 = Some (p', ρ'.2) ∧
          ρ'.1 = <[tid := mkThread (th_entry t) p']> ρ.1.
Proof.
  unfold pool_step. destruct (ρ.1 !! tid) as [t|] eqn:Ht; [|done]. simpl.
  destruct (thread_step _ _ _) as [[p' s']|] eqn:Hstep; [|done].
  intros [= <-]. by exists t, p'.
Qed.

Lemma pool_step_ok tid ρ ρ' :
  pool_ok ρ → pool_step tid ρ = Some ρ' → pool_ok ρ' ∧ steady ρ.2 ρ'.2.
Proof.
  intros [Hok Hts] (t & p' & Ht & Hstep & Hts')%pool_step_inv.
  destruct (Forall_lookup_1 _ _ _ _ Hts Ht) as [He Hp].
  destruct (thread_step_ok _ _ _ _ Hok He Hp Hstep) as (Hok' & Hp' & Hsd).
  split; [split|]; [done| |done]. rewrite Hts'. apply Forall_insert.
  - eapply Forall_impl; [done|]. intros u. by apply thread_ok_steady.
  - split; [|done]. simpl. by apply (thread_ok_steady _ _ t Hsd).
Qed.

Lemma pool_run_ok sched ρ ρ' :
  pool_ok ρ → pool_run sched ρ = Some ρ' → pool_ok ρ' ∧ steady ρ.2 ρ'.2.
Proof.
  intros Hok Hrun.
  eapply (run_steps_invariant _ (λ ρ', pool_ok ρ' ∧ steady ρ.2 ρ'.2));
    [|done|exact Hrun].
  intros tid ρ1 ρ2 [Hok1 Hsd] [Hok2 Hsd']%pool_step_ok; [|done].
  split; [done|by etrans].
Qed.

Lemma spawn_ok es c s :
  heap_ok s → valid Configs s c → Forall (entry_ok s) es →
  pool_ok (spawn es c s).
Proof.
  intros Hok Hc Hes. split; [done|]. simpl. apply Forall_fmap.
  eapply Forall_impl; [done|]. by split.
Qed.

(** C3: every interleaving is safe.  Calls of [GetReader] and
    [PutWriter] on one configuration, started in a well-formed heap with
    arguments that are nil or point to objects, and run one statement at a
    time in any order: the heap stays well formed; no thread dereferences a
    dangling pointer; and the accounts, the buckets, the package variables
    and every field of every configuration but its client are what they
    were. *)
Theorem interleaved_safe es c s sched ρ :
  heap_ok s → valid Configs s c → Forall (entry_ok s) es →
  pool_run sched (spawn es c s) = Some ρ →
  heap_ok ρ.2 ∧ steady s ρ.2 ∧ Forall (λ t, th_pc t ≠ Finished Fault) ρ.1.
Proof.
  intros Hok Hc Hes Hrun.
  destruct (pool_run_ok _ _ _ (spawn_ok es c s Hok Hc Hes) Hrun)
    as [[Hok' Hts] Hsd].
  split_and!; [done..|]. eapply Forall_impl; [done|].
  intros t [_ Hp] Heq. by rewrite Heq in Hp.
Qed.

End safe.

(** Two allocations in a row give two addresses. *)
Lemma fresh_insert_ne {A} (m : gmap addr A) (x : A) :
  fresh (dom m) ≠ fresh (dom (<[fresh (dom m) := x]> m)).
Proof.
  intros Heq. pose proof (is_fresh (dom (<[fresh (dom m) := x]> m))) as Hfresh.
  rewrite <-Heq in Hfresh. set_solver.
Qed.

(** ** The race on the client of a configuration *)

(** Of the statements of the entry points two touch the field
    [c.Client]: the test reads it and the assignment writes it.  Two
    statements conflict when they touch the field of one object and one of
    them is the assignment. *)
Definition conflicts p q : Prop :=
  match p, q with
  | AtWrite (Some a) _, AtWrite (Some b) _
  | AtWrite (Some a) _, AtCheck (Some b)
  | AtCheck (Some a), AtWrite (Some b) _ => a = b
  | _, _ => False
  end.

#[export] Instance conflicts_dec p q : Decision (conflicts p q).
Proof.
  destruct p as [| [?|] | |[?|] ?| |], q as [| [?|] | |[?|] ?| |]; simpl; apply _.
Defined.

(** A race: two threads are each about to take a statement, and the two
    statements conflict.  Nothing orders them: the code has no lock and no
    channel. *)
Definition race (ρ : pool) : Prop :=
  ∃ i j t u, i ≠ j ∧ ρ.1 !! i = Some t ∧ ρ.1 !! j = Some u ∧
             conflicts (th_pc t) (th_pc u).

(** Two calls on a configuration without a client, both past the test
    and each with a client of its own in hand. *)
Definition both_made (e1 e2 : entry) (ac : addr) s : pool :=
  let h := mkHttpClient clientTimeout in
  let a1 := fresh (dom (clients s)) in
  let a2 := fresh (dom (<[a1 := h]> (clients s))) in
  ([mkThread e1 (AtWrite (Some ac) (Some a1));
    mkThread e2 (AtWrite (Some ac) (Some a2))],
   with_clients (<[a2 := h]> (<[a1 := h]> (clients s))) s).

(** And after both assignments: the second has replaced the first. *)
Definition both_written (e1 e2 : entry) (ac : addr) (cfg : Config) s : pool :=
  let ρ := both_made e1 e2 ac s in
  let a2 := fresh (dom (<[fresh (dom (clients s)) := mkHttpClient clientTimeout]>
                          (clients s))) in
  ([mkThread e1 (AtCall (Some ac)); mkThread e2 (AtCall (Some ac))],
   with_configs (<[ac := set_Client (Some a2) cfg]> (configs s)) ρ.2).

(** The schedule on which both calls pass the test before either
    assigns. *)
Definition both_test : list nat := [0; 0; 1; 1; 0; 1].

Lemma both_test_run e1 e2 c s ac cfg :
  resolve s c = Some ac → configs s !! ac = Some cfg → Client cfg = None →
  pool_run both_test (spawn [e1; e2] c s) = Some (both_made e1 e2 ac s).
Proof.
  intros Hc Ha Hcl. unfold both_test, pool_run, spawn.
  pool_steps. rewrite step_entry_run. pool_steps. rewrite step_check_run, Hc, Ha, Hcl.
  pool_steps. rewrite step_entry_run. pool_steps. rewrite step_check_run, Hc, Ha, Hcl.
  pool_steps. rewrite step_make_run. pool_steps. by rewrite step_make_run.
Qed.

Lemma both_write_run e1 e2 s ac cfg :
  configs s !! ac = Some cfg →
  pool_run [0; 1] (both_made e1 e2 ac s) = Some (both_written e1 e2 ac cfg s).
Proof.
  intros Ha. unfold pool_run, both_made, both_written.
  pool_steps. rewrite step_write_run. cbn [configs with_clients]. rewrite Ha.
  pool_steps. rewrite step_write_run. cbn [configs with_configs with_clients].
  rewrite lookup_insert_eq. pool_steps. by rewrite insert_insert_eq.
Qed.

(** C9: the race on a configuration without a client.  Two calls of
    the entry points on such a configuration, the shared [DefaultConfig]
    when [c] is nil: on the schedule on which each call tests [c.Client]
    before the other assigns it, both find nil and both make a client.
    The state reached is a race: the two threads are about to write the
    same field, with different clients. *)
Theorem cold_config_race e1 e2 c s ac cfg :
  resolve s c = Some ac → configs s !! ac = Some cfg → Client cfg = None →
  pool_run both_test (spawn [e1; e2] c s) = Some (both_made e1 e2 ac s) ∧
  race (both_made e1 e2 ac s) ∧
  ∃ a1 a2, a1 ≠ a2 ∧
    th_pc <$> (both_made e1 e2 ac s).1
    = [AtWrite (Some ac) (Some a1); AtWrite (Some ac) (Some a2)].
Proof.
  intros Hc Ha Hcl. split_and!; [by eapply both_test_run| |].
  - by exists 0, 1, (mkThread e1 (AtWrite (Some ac) (Some (fresh (dom (clients s)))))),
      (mkThread e2 (AtWrite (Some ac) (Some (fresh
         (dom (<[fresh (dom (clients s)) := mkHttpClient clientTimeout]>
                 (clients s))))))).
  - eexists _, _. split; [|done].
    apply (fresh_insert_ne (clients s) (mkHttpClient clientTimeout)).
Qed.

(** ** One call after the other *)

Section serial.
Context {F : EngineFrame G}.

(** A call leaves the heap as its first lines do. *)
Lemma call_heap e c s : same_heap (prepare_result s c).2 (call e c s).2.
Proof.
  destruct e as [b path|b path h]; simpl; unfold bind.
  - pose proof (GetReader_heap b path c s).
    by destruct (GetReader b path c s) as [[?|?|] ?].
  - pose proof (PutWriter_heap b path h c s).
    by destruct (PutWriter b path h c s) as [[?|?|] ?].
Qed.

(** Two calls on a configuration without a client, one after the other:
    the first makes the client and the second finds it. *)
Lemma serial_clients e1 e2 c s ac cfg :
  resolve s c = Some ac → configs s !! ac = Some cfg → Client cfg = None →
  clients (call e2 c (call e1 c s).2).2
  = <[fresh (dom (clients s)) := mkHttpClient clientTimeout]> (clients s).
Proof.
  intros Hc Ha Hcl. pose proof (call_heap e1 c s) as H1.
  rewrite (cold_prepare s c ac cfg) in H1 by done.
  destruct H1 as (_ & _ & Hcfg & Hcls & Hdef & _). cbn [snd] in *.
  pose proof (call_heap e2 c (call e1 c s).2) as H2.
  rewrite (warm_prepare _ c ac (set_Client (Some (fresh (dom (clients s)))) cfg))
    in H2.
  - destruct H2 as (_ & _ & _ & H2 & _). cbn [snd] in H2. by rewrite H2, Hcls.
  - unfold resolve in *. by rewrite Hdef.
  - rewrite Hcfg. apply lookup_insert_eq.
  - done.
Qed.

(** C4: the lost client.  When both calls have passed the test and both
    assign, the second assignment replaces the first: the configuration
    holds the client of the second call, and the client the first call
    made is the client of no configuration, though the first call goes on
    with the configuration.  Two clients have been made where the calls
    run one after the other, in either order, make one: no order of the
    two calls leaves the state this schedule leaves. *)
Theorem lost_client e1 e2 c s ac cfg :
  heap_ok s →
  resolve s c = Some ac → configs s !! ac = Some cfg → Client cfg = None →
  let a1 := fresh (dom (clients s)) in
  let a2 := fresh (dom (<[a1 := mkHttpClient clientTimeout]> (clients s))) in
  let ρ := both_written e1 e2 ac cfg s in
  pool_run (both_test ++ [0; 1]) (spawn [e1; e2] c s) = Some ρ ∧
  configs ρ.2 !! ac = Some (set_Client (Some a2) cfg) ∧
  is_Some (clients ρ.2 !! a1) ∧
  map_Forall (λ _ cfg', Client cfg' ≠ Some a1) (configs ρ.2) ∧
  clients ρ.2 ≠ clients (call e2 c (call e1 c s).2).2 ∧
  clients ρ.2 ≠ clients (call e1 c (call e2 c s).2).2.
Proof.
  intros Hok Hc Ha Hcl a1 a2 ρ.
  assert (a1 ≠ a2) as Hne by apply fresh_insert_ne.
  assert (clients s !! a1 = None) as Ha1
    by apply (not_elem_of_dom (D := gset addr)), is_fresh.
  assert (clients ρ.2 !! a2 = Some (mkHttpClient clientTimeout)) as Ha2
    by apply lookup_insert_eq.
  pose proof (not_elem_of_dom_1 (D := gset addr) _ _ (is_fresh (dom
    (<[fresh (dom (clients s)) := mkHttpClient clientTimeout]> (clients s)))))
    as Hf.
  split_and!.
  - rewrite pool_run_app, (both_test_run e1 e2 c s ac cfg) by done.
    by apply both_write_run.
  - apply lookup_insert_eq.
  - simpl. rewrite lookup_insert_ne, lookup_insert_eq by done. by eexists.
  - apply map_Forall_insert_2; [simpl; intros [= Heq]; by apply Hne|].
    intros a cfg' Hcfg' Heq. pose proof (ok_configs _ Hok _ _ Hcfg') as Hv.
    unfold valid in Hv. rewrite Heq in Hv. destruct Hv as [? Hv].
    simpl in Hv. congruence.
  - rewrite (serial_clients e1 e2 c s ac cfg) by done. intros Heq.
    rewrite Heq in Ha2. unfold a2, a1 in Ha2. by rewrite Hf in Ha2.
  - rewrite (serial_clients e2 e1 c s ac cfg) by done. intros Heq.
    rewrite Heq in Ha2. unfold a2, a1 in Ha2. by rewrite Hf in Ha2.
Qed.

End serial.

(** ** A configuration that has its client *)

(** The program points of a call that only reads the configuration at
    [ac]: it is not about to make a client, nor to assign one. *)
Definition reads s (ac : addr) p : Prop :=
  match p with
  | AtEntry c => resolve s c = Some ac
  | AtCheck c | AtCall c => c = Some ac
  | AtMake _ | AtWrite _ _ => False
  | Finished _ => True
  end.

#[export] Instance reads_dec s ac p : Decision (reads s ac p).
Proof. destruct p; simpl; apply _. Defined.

Lemma reads_conflicts s ac p q : reads s ac p → reads s ac q → ¬ conflicts p q.
Proof.
  destruct p as [| [?|] | |[?|] ?| |], q as [| [?|] | |[?|] ?| |]; simpl; tauto.
Qed.

Section warm.
Context {F : EngineFrame G}.
Context (s : state E) (ac : addr) (cfg : Config).
Context (Hac : configs s !! ac = Some cfg) (Hwarm : Client cfg ≠ None).

Lemma thread_step_reads e p s1 ρ :
  same_heap s s1 → reads s ac p → thread_step e p s1 = Some ρ →
  same_heap s ρ.2 ∧ reads s ac ρ.1.
Proof using Type*.
  intros Hsame Hp. pose proof Hsame as (_ & _ & Hcfgs & _ & Hdef & _).
  destruct p as [c|c|c|c cl|c|o]; simpl in Hp; try done; simpl; intros [= <-].
  - rewrite step_entry_run. simpl. split; [done|]. unfold resolve in *.
    by rewrite Hdef.
  - rewrite step_check_run. subst c. rewrite Hcfgs, Hac. simpl. split; [done|].
    by destruct (Client cfg).
  - split; [etrans; [done|apply step_call_frame]|].
    by destruct (step_call_finished e c s1) as [o ->].
Qed.

Lemma pool_step_reads tid ρ ρ' :
  same_heap s ρ.2 ∧ Forall (λ t, reads s ac (th_pc t)) ρ.1 →
  pool_step tid ρ = Some ρ' →
  same_heap s ρ'.2 ∧ Forall (λ t, reads s ac (th_pc t)) ρ'.1.
Proof using Type*.
  intros [Hsame Hts] (t & p' & Ht & Hstep & ->)%pool_step_inv.
  pose proof (Forall_lookup_1 _ _ _ _ Hts Ht) as Hp.
  destruct (thread_step_reads _ _ _ _ Hsame Hp Hstep) as [Hsame' Hp'].
  split; [done|]. by apply Forall_insert.
Qed.

(** C10: no race on a configuration that has its client.  Calls of the
    entry points on such a configuration, in any number and on any
    schedule: every call finds the client at the test and goes on to its
    last line, none makes a client and none assigns the field, so that no
    two statements conflict, and the accounts, the buckets, the
    configurations, the clients and the package variables stay what they
    were. *)
Theorem warm_config_race_free es c sched ρ :
  resolve s c = Some ac →
  pool_run sched (spawn es c s) = Some ρ →
  same_heap s ρ.2 ∧ Forall (λ t, reads s ac (th_pc t)) ρ.1 ∧ ¬ race ρ.
Proof using Type*.
  intros Hc Hrun.
  assert (same_heap s ρ.2 ∧ Forall (λ t, reads s ac (th_pc t)) ρ.1) as [Hsame Hts].
  { eapply (run_steps_invariant pool_step
      (λ ρ, same_heap s ρ.2 ∧ Forall (λ t, reads s ac (th_pc t)) ρ.1));
      [apply pool_step_reads| |exact Hrun].
    split; [done|]. simpl. apply Forall_fmap. by apply Forall_true. }
  split_and!; [done..|]. intros (i & j & t & u & _ & Ht & Hu & Hconf).
  exact (reads_conflicts s ac _ _ (Forall_lookup_1 _ _ _ _ Hts Ht)
           (Forall_lookup_1 _ _ _ _ Hts Hu) Hconf).
Qed.

End warm.

End concurrent.

(** ** Examples: two calls on the default configuration *)

(** A download and an upload in the bucket [logs]. *)
Definition hello_get : entry := EGet (Some 1%positive) "2013/a.gz".
Definition hello_put : entry := EPut (Some 1%positive) "2013/b.gz" ∅.

(** Both calls have assigned the client they made. *)
Definition hello_written : pool :=
  both_written hello_get hello_put 1%positive DefaultConfig_value url_example.

Lemma hello_written_run :
  pool_run (both_test ++ [0; 1]) (spawn [hello_get; hello_put] None url_example)
  = Some hello_written.
Proof.
  rewrite pool_run_app,
    (both_test_run _ _ _ _ 1%positive DefaultConfig_value) by done.
  by apply both_write_run.
Qed.

Lemma hello_calls_ok : Forall (entry_ok url_example) [hello_get; hello_put].
Proof. repeat constructor; by eexists. Qed.

Lemma interleaved_safe_witness :
  heap_ok hello_written.2 ∧ steady url_example hello_written.2 ∧
  Forall (λ t, th_pc t ≠ Finished Fault) hello_written.1.
Proof.
  exact (interleaved_safe (F := offline_frame) [hello_get; hello_put] None
           url_example (both_test ++ [0; 1]) hello_written url_example_ok I
           hello_calls_ok hello_written_run).
Defined.

Lemma interleaved_bounded_witness :
  length (both_test ++ [0; 1]) + work hello_written.1 ≤ 5 * 2 ∧
  ∀ tid t, hello_written.1 !! tid = Some t →
           (∃ o, th_pc t = Finished o) ∨ is_Some (pool_step tid hello_written).
Proof.
  exact (interleaved_bounded [hello_get; hello_put] None url_example
           (both_test ++ [0; 1]) hello_written hello_written_run).
Defined.

Lemma cold_config_race_witness :
  pool_run both_test (spawn [hello_get; hello_put] None url_example)
  = Some (both_made hello_get hello_put 1%positive url_example) ∧
  race (both_made hello_get hello_put 1%positive url_example) ∧
  ∃ a1 a2, a1 ≠ a2 ∧
    th_pc <$> (both_made hello_get hello_put 1%positive url_example).1
    = [AtWrite (Some 1%positive) (Some a1); AtWrite (Some 1%positive) (Some a2)].
Proof.
  by apply (cold_config_race hello_get hello_put None url_example 1%positive
              DefaultConfig_value).
Defined.

Lemma lost_client_witness :
  pool_run (both_test ++ [0; 1]) (spawn [hello_get; hello_put] None url_example)
  = Some hello_written ∧
  configs hello_written.2 !! 1%positive
  = Some (set_Client (Some 2%positive) DefaultConfig_value) ∧
  is_Some (clients hello_written.2 !! 1%positive) ∧
  map_Forall (λ _ cfg', Client cfg' ≠ Some 1%positive) (configs hello_written.2) ∧
  clients hello_written.2
  ≠ clients (call hello_put None (call hello_get None url_example).2).2 ∧
  clients hello_written.2
  ≠ clients (call hello_get None (call hello_put None url_example).2).2.
Proof.
  exact (lost_client (F := offline_frame) hello_get hello_put None url_example
           1%positive DefaultConfig_value url_example_ok eq_refl eq_refl eq_refl).
Defined.

(** The same heap once a call has installed the client. *)
Definition hello_warm : state unit := install url_example 1%positive DefaultConfig_value.

Lemma warm_config_race_free_witness :
  let ρ : pool := ([mkThread hello_get (AtCall (Some 1%positive));
                    mkThread hello_put (AtCheck (Some 1%positive))], hello_warm) in
  same_heap hello_warm ρ.2 ∧
  Forall (λ t, reads hello_warm 1%positive (th_pc t)) ρ.1 ∧ ¬ race ρ.
Proof.
  apply (warm_config_race_free (F := offline_frame) hello_warm 1%positive
           (set_Client (Some 1%positive) DefaultConfig_value) eq_refl
           ltac:(done) [hello_get; hello_put] None [0; 1; 0]); reflexivity.
Defined.
