(* ===== verification/Transfer.v ===== *)
(** * Transfer: the entry points and the engine, together

    [GetReader] and [PutWriter] are proved in [Facade] for every engine
    that keeps to [EngineFrame].  This file gives the engine of the design
    document as an instance: [newGetter] opens a download of [Getter],
    [newPutter] an upload of [Putter].

    - The engine's share of the program state is [transfers]: the
      downloads and the uploads that are open, by address, and what the
      service holds ([sites]).  A reader or a writer returned to the caller
      is a pointer to its [download] or [upload]: the transfer of [Getter]
      or [Putter], and the host and the key of the object, taken from the
      URL, the keys that sign its requests and, for an upload, its
      identifier at the service and the headers of the caller.
    - A [site] is what the service holds for one host, which is one bucket
      under one domain: the bucket of [Service], and the headers stored
      with each object.
    - A transfer takes a snapshot of its configuration: the constructors
      dereference [c] once and copy the [Config] into the new transfer.
      They dereference the bucket and its account for the keys.
    - The first request of a transfer goes over the network: [dial] says
      whether the request for a URL is delivered, is lost, or arrives and
      its answer is lost.  The first request of a download is answered
      with the length of the object, the stored digest if there is one and
      the headers of the object ([first_answer]); that of an upload opens a
      multipart upload at the service ([initiate_at]).

    [transfer_frame] shows that this engine keeps to the frame the entry
    points rely on, so that the theorems of [Facade], [Session] and
    [Concurrent] hold of it.  [open_download_opens] and [open_upload_opens]
    are what the constructors leave when their reads are in place and the
    first request is delivered; [Program] runs the transfers from there. *)

From Stdlib Require Import ZArith String Ascii List Lia.
From stdpp Require Import base tactics option list numbers strings gmap.
From S2P Require Import Prelude GoRuntime Types NetUrl Url Engine.
From S2P Require Import Scheduler Service Getter Putter Roundtrip Facade.

Local Open Scope Z_scope.

(** ** The state of the engine *)

(** What the service holds for one host. *)
Record site := mkSite {
  st_bucket : service;
  st_headers : gmap string Header;
}.

Definition empty_site : site := mkSite (mkService ∅ ∅) ∅.

(** A download that is open, and what it reads. *)
Record download := mkDownload {
  d_getter : getter;
  d_host : string;
  d_key : string;
  d_keys : Keys;
}.

(** An upload that is open: what it writes, its identifier at the
    service, the headers the caller gave, and whether its digest has been
    stored. *)
Record upload := mkUpload {
  u_putter : putter;
  u_host : string;
  u_key : string;
  u_keys : Keys;
  u_uid : positive;
  u_header : Header;
  u_digest : bool;
}.

Record transfers := mkTransfers {
  getters : gmap addr download;
  putters : gmap addr upload;
  sites : gmap string site;
}.

Definition no_transfers : transfers := mkTransfers ∅ ∅ ∅.

#[export] Instance Getters : Store (state transfers) download.
Proof.
  refine {| sel s := getters (engine s);
            upd m s := with_engine
              (mkTransfers m (putters (engine s)) (sites (engine s))) s |};
    by intros; destruct s as [? ? ? ? ? ? []].
Defined.

#[export] Instance Putters : Store (state transfers) upload.
Proof.
  refine {| sel s := putters (engine s);
            upd m s := with_engine
              (mkTransfers (getters (engine s)) m (sites (engine s))) s |};
    by intros; destruct s as [? ? ? ? ? ? []].
Defined.

(** The site of a host; a host the service has nothing for is empty. *)
Definition site_at (host : string) (t : transfers) : site :=
  default empty_site (sites t !! host).

Definition put_site (host : string) (st : site) (t : transfers) : transfers :=
  mkTransfers (getters t) (putters t) (<[host := st]> (sites t)).

(** The key of the object a URL names: its path, without the slash it
    begins with.  The source hands the transfer a URL of the form
    [scheme://name.domain/path] and nothing else that names the object; in
    the service protocol of the design document (section 6) the host of
    such an address is the bucket, the path is the key, and the query
    carries the parameters of a request (the upload identifier and the part
    number).  So the query and the fragment of the URL are not part of the
    key.  This reading of the URL is an assumption of the model: the code
    that builds the requests is not under [src/]. *)
Definition url_key (u : URL) : string :=
  match url_Path u with
  | String "/"%char k => k
  | k => k
  end.

(** The answer of the service to the first request of a download. *)
Definition first_answer (st : site) (key : string)
    : response (Z * option string * Header) :=
  match stat key (st_bucket st) with
  | Some (total, md5) => Done (total, md5, default ∅ (st_headers st !! key))
  | None => Malformed no_such_key
  end.

(** The request that initiates an upload, at the service: a multipart
    upload is open for the key, and its identifier is the answer. *)
Definition initiate_at (host key : string) : Go (state transfers) positive :=
  λ s, let st := site_at host (engine s) in
       let r := initiate_upload key (st_bucket st) in
       (Ret r.1,
        with_engine (put_site host (mkSite r.2 (st_headers st)) (engine s)) s).

(** ** The constructors *)

Section transfer.
Context (dial : URL → delivery).

(** [newGetter(u, c, b)]: the first request, and a download of what it
    announces under the configuration [c] points to. *)
Definition open_download (u : URL) (c b : ptr) : Go (state transfers) GetResult :=
  cfg <- load Configs c ;;
  bkt <- load Buckets b ;;
  acc <- load S3s (Bucket_S3 bkt) ;;
  st <- gets (λ s, site_at (url_Host u) (engine s)) ;;
  match answer (dial u) (first_answer st (url_key u)) with
  | Done (total, md5, hdr) =>
      r <- alloc Getters (mkDownload (open_getter cfg total md5)
                            (url_Host u) (url_key u) (S3_Keys acc)) ;;
      ret (r, hdr, None)
  | Transient e | Malformed e => ret (None, ∅, Some e)
  end.

(** [newPutter(u, h, c, b)]: the request that initiates the upload, and an
    upload under the configuration [c] points to.  A request that is lost
    opens nothing; one whose answer is lost has opened an upload at the
    service that the caller does not know of.  The request is made once:
    the design document gives a retry policy for the parts of a transfer
    and none for its first request, and the constructor is not under
    [src/]; a constructor that tried again would leave one more upload
    for every answer lost. *)
Definition open_upload (u : URL) (h : Header) (c b : ptr)
    : Go (state transfers) PutResult :=
  cfg <- load Configs c ;;
  bkt <- load Buckets b ;;
  acc <- load S3s (Bucket_S3 bkt) ;;
  match dial u with
  | Delivered =>
      uid <- initiate_at (url_Host u) (url_key u) ;;
      w <- alloc Putters (mkUpload (open_putter cfg) (url_Host u) (url_key u)
                            (S3_Keys acc) uid h false) ;;
      ret (w, None)
  | Unanswered e => initiate_at (url_Host u) (url_key u) ;;; ret (None, Some e)
  | Lost e => ret (None, Some e)
  end.

#[export] Instance transfer_engine : Engine transfers := {|
  newGetter := open_download;
  newPutter := open_upload;
|}.

(** ** The frame *)

(** The three dereferences the constructors start with: they return the
    objects, panic on a nil pointer, or fault on a dangling one; they write
    nothing. *)
Definition reads (c b : ptr) : Go (state transfers) (Config * Keys) :=
  cfg <- load Configs c ;;
  bkt <- load Buckets b ;;
  acc <- load S3s (Bucket_S3 bkt) ;;
  ret (cfg, S3_Keys acc).

(** What the constructors do after their reads. *)
Definition opens_download (u : URL) (x : Config * Keys)
    : Go (state transfers) GetResult :=
  st <- gets (λ s, site_at (url_Host u) (engine s)) ;;
  match answer (dial u) (first_answer st (url_key u)) with
  | Done (total, md5, hdr) =>
      r <- alloc Getters (mkDownload (open_getter x.1 total md5)
                            (url_Host u) (url_key u) x.2) ;;
      ret (r, hdr, None)
  | Transient e | Malformed e => ret (None, ∅, Some e)
  end.

Definition opens_upload (u : URL) (h : Header) (x : Config * Keys)
    : Go (state transfers) PutResult :=
  match dial u with
  | Delivered =>
      uid <- initiate_at (url_Host u) (url_key u) ;;
      w <- alloc Putters (mkUpload (open_putter x.1) (url_Host u) (url_key u)
                            x.2 uid h false) ;;
      ret (w, None)
  | Unanswered e => initiate_at (url_Host u) (url_key u) ;;; ret (None, Some e)
  | Lost e => ret (None, Some e)
  end.

Lemma reads_state c b s : (reads c b s).2 = s.
Proof. unfold reads. by repeat (apply bind_load_state; intros). Qed.

Lemma reads_safe c b s :
  heap_ok s → valid Configs s c → valid Buckets s b → (reads c b s).1 ≠ Fault.
Proof.
  intros Hok Hc Hb. unfold reads. rewrite bind_load.
  destruct c as [ac|]; [|done]. destruct Hc as [cfg ->].
  rewrite bind_load. destruct b as [ab|]; [|done]. destruct Hb as [bkt Hbkt].
  rewrite Hbkt, bind_load. simpl in Hbkt.
  pose proof (ok_buckets s Hok ab bkt Hbkt) as Hv. simpl in Hv.
  destruct (Bucket_S3 bkt) as [aa|]; [|done]. by destruct Hv as [acc ->].
Qed.

Lemma open_download_reads u c b s :
  open_download u c b s = bind (reads c b) (opens_download u) s.
Proof.
  unfold open_download, reads. rewrite !bind_assoc. apply bind_ext.
  intros cfg s1 _. rewrite !bind_assoc. apply bind_ext. intros bkt s2 _.
  rewrite !bind_assoc. apply bind_ext. intros acc s3 _. by rewrite bind_ret_l.
Qed.

Lemma open_upload_reads u h c b s :
  open_upload u h c b s = bind (reads c b) (opens_upload u h) s.
Proof.
  unfold open_upload, reads. rewrite !bind_assoc. apply bind_ext.
  intros cfg s1 _. rewrite !bind_assoc. apply bind_ext. intros bkt s2 _.
  rewrite !bind_assoc. apply bind_ext. intros acc s3 _. by rewrite bind_ret_l.
Qed.

(** Code that runs after [reads] and touches the engine's state only. *)
Lemma after_reads {A} (k : Config * Keys → Go (state transfers) A) c b s :
  (∀ x s1, same_heap s1 (k x s1).2 ∧ (k x s1).1 ≠ Fault) →
  same_heap s (bind (reads c b) k s).2 ∧
  (heap_ok s → valid Configs s c → valid Buckets s b →
   (bind (reads c b) k s).1 ≠ Fault).
Proof.
  intros Hk. unfold bind. pose proof (reads_state c b s) as Hs.
  pose proof (reads_safe c b s) as Hsafe.
  destruct (reads c b s) as [[x|v|] s1]; simpl in *; subst.
  - split; [apply Hk|intros; apply Hk].
  - by split.
  - split; [done|]. intros ? ? ?. by destruct Hsafe.
Qed.

Lemma open_download_frame u c b s :
  same_heap s (open_download u c b s).2 ∧
  (heap_ok s → valid Configs s c → valid Buckets s b →
   (open_download u c b s).1 ≠ Fault).
Proof.
  rewrite open_download_reads. apply after_reads. intros x s1.
  unfold opens_download, bind, gets.
  destruct (answer _ _) as [[[total md5] hdr]|e|e]; [|by split..].
  by destruct s1.
Qed.

Lemma open_upload_frame u h c b s :
  same_heap s (open_upload u h c b s).2 ∧
  (heap_ok s → valid Configs s c → valid Buckets s b →
   (open_upload u h c b s).1 ≠ Fault).
Proof.
  rewrite open_upload_reads. apply after_reads. intros x s1.
  unfold opens_upload. by destruct (dial u), s1.
Qed.

#[export] Instance transfer_frame : EngineFrame transfer_engine.
Proof.
  split; simpl; intros.
  - apply open_download_frame.
  - apply open_upload_frame.
  - by apply open_download_frame.
  - by apply open_upload_frame.
Qed.

End transfer.

(** ** What the constructors leave *)

(** The object a URL names, where the service has it, and the digest and
    the headers stored with it. *)
Definition object_at (u : URL) (t : transfers) : option bytes :=
  objects (st_bucket (site_at (url_Host u) t)) !! url_key u.

Definition digest_at (u : URL) (t : transfers) : option string :=
  string_of_list_byte
    <$> objects (st_bucket (site_at (url_Host u) t)) !! md5_path (url_key u).

Definition headers_at (u : URL) (t : transfers) : Header :=
  default ∅ (st_headers (site_at (url_Host u) t) !! url_key u).

(** The state in which the service has opened an upload for the object of
    a URL, and the identifier of that upload. *)
Definition initiated (u : URL) (s : state transfers) : state transfers :=
  (initiate_at (url_Host u) (url_key u) s).2.

Definition upload_id (u : URL) (t : transfers) : positive :=
  (initiate_upload (url_key u) (st_bucket (site_at (url_Host u) t))).1.

Lemma site_at_put_site host st t : site_at host (put_site host st t) = st.
Proof. unfold site_at, put_site. simpl. by rewrite lookup_insert_eq. Qed.

Lemma site_at_put_site_ne host host' st t :
  host ≠ host' → site_at host' (put_site host st t) = site_at host' t.
Proof. intros. unfold site_at, put_site. simpl. by rewrite lookup_insert_ne. Qed.

(** The transfers that are open are no part of a site. *)
Lemma site_at_Getters host m s :
  site_at host (engine (upd Getters m s)) = site_at host (engine s).
Proof. done. Qed.

Lemma site_at_Putters host m s :
  site_at host (engine (upd Putters m s)) = site_at host (engine s).
Proof. done. Qed.

Lemma initiated_bucket u s :
  st_bucket (site_at (url_Host u) (engine (initiated u s)))
  = (initiate_upload (url_key u)
       (st_bucket (site_at (url_Host u) (engine s)))).2.
Proof. unfold initiated, initiate_at. simpl. by rewrite site_at_put_site. Qed.

Section opened.
Context {P : UrlParser} (dial : URL → delivery).

(** With its reads in place and an object behind the URL, [newGetter]
    registers a new download of the object under a copy of the
    configuration, and returns the headers of the object. *)
Lemma open_download_opens u b ac cfg bkt acc s data :
  Url_reads s b (Some ac) cfg bkt acc →
  dial u = Delivered → object_at u (engine s) = Some data →
  open_download dial u (Some ac) b s =
  let r := fresh (dom (getters (engine s))) in
  (Ret (Some r, headers_at u (engine s), None),
   upd Getters
     (<[r := mkDownload
               (open_getter cfg (Z.of_nat (length data)) (digest_at u (engine s)))
               (url_Host u) (url_key u) (S3_Keys acc)]> (getters (engine s))) s).
Proof.
  intros (? & ab & aa & [= <-] & Hc & -> & Hb & Ha & Hs) Hdial Hobj.
  unfold open_download. rewrite bind_load. simpl. rewrite Hc, bind_load. simpl.
  rewrite Hb, bind_load, Ha. simpl. rewrite Hs. unfold bind, gets.
  unfold first_answer, stat. unfold object_at in Hobj. by rewrite Hdial, Hobj.
Qed.

(** With its reads in place and a request that is delivered, [newPutter]
    opens an upload at the service and registers it, under a copy of the
    configuration and with the headers of the caller. *)
Lemma open_upload_opens u h b ac cfg bkt acc s :
  Url_reads s b (Some ac) cfg bkt acc → dial u = Delivered →
  open_upload dial u h (Some ac) b s =
  let w := fresh (dom (putters (engine s))) in
  (Ret (Some w, None),
   upd Putters
     (<[w := mkUpload (open_putter cfg) (url_Host u) (url_key u) (S3_Keys acc)
               (upload_id u (engine s)) h false]> (putters (engine s)))
     (initiated u s)).
Proof.
  intros (? & ab & aa & [= <-] & Hc & -> & Hb & Ha & Hs) Hdial.
  unfold open_upload. rewrite bind_load. simpl. rewrite Hc, bind_load. simpl.
  rewrite Hb, bind_load, Ha. simpl. by rewrite Hs, Hdial.
Qed.

(** With its reads in place and a first request that arrives but whose
    answer is lost, [newPutter] returns the error, and the upload is open
    at the service. *)
Lemma open_upload_unanswered u h b ac cfg bkt acc s e :
  Url_reads s b (Some ac) cfg bkt acc → dial u = Unanswered e →
  open_upload dial u h (Some ac) b s = (Ret (None, Some e), initiated u s).
Proof.
  intros (? & ab & aa & [= <-] & Hc & -> & Hb & Ha & Hs) Hdial.
  unfold open_upload. rewrite bind_load. simpl. rewrite Hc, bind_load. simpl.
  rewrite Hb, bind_load, Ha. simpl. by rewrite Hs, Hdial.
Qed.

End opened.

(** ** Examples *)

(** A network that delivers every first request. *)
Definition open_line (u : URL) : delivery := Delivered.

(** A program state with an account, a bucket, and the default
    configuration, and a service that holds [hello] with its digest and a
    header. *)
Definition hello_site : site :=
  mkSite (mkService {[ "hello.txt" := hello;
                       md5_path "hello.txt" := list_byte_of_string "hello, S3!" ]} ∅)
         {[ "hello.txt" := {[ "Content-Type" := ["text/plain"] ]} ]}.

Definition transfer_example : state transfers :=
  {| s3s := {[ 1%positive := mkS3 "s3.amazonaws.com" (mkKeys "AK" "SK") ]};
     buckets := {[ 1%positive := mkBucket (Some 1%positive) "logs" ]};
     configs := {[ 1%positive := DefaultConfig_value ]};
     clients := ∅;
     DefaultConfig := Some 1%positive;
     DefaultDomain := DefaultDomain_value;
     engine := mkTransfers ∅ ∅ {[ "logs.s3.amazonaws.com" := hello_site ]} |}.

Definition hello_url : URL :=
  mkURL "https" "" None "logs.s3.amazonaws.com" "/hello.txt" "" "".
