(* ===== verification/Program.v ===== *)
(** * Program: the transfers of a program, at the service it talks to

    [Transfer] opens the transfers; this file runs them.  The engine's
    share of the program state holds the downloads and the uploads that are
    open and what the service holds, so that an upload and a download of
    one program meet at the service.

    - [writer_step] is a step of the upload behind a writer: the step of
      [Roundtrip] on the upload and on the bucket of its host, as they are
      in the state; the completion request stores the headers the caller
      gave to [PutWriter] with the object.
    - [reader_step] is a step of the download behind a reader; its range
      requests are answered from the bucket as it is when they are made.
    - [writer_run] and [reader_run] run a list of steps.

    The theorems.  A step of a writer leaves the readers, the other
    writers and the other hosts alone, and a step of a reader the service
    and the other transfers ([writer_step_frame], [reader_step_frame]).
    The runs of a writer are the runs of its upload against the service
    ([writer_run_world], [writer_run_inv]), and the run of a reader is the
    run of its download while the bucket does not change
    ([reader_run_getter]).  From [PutWriter] on an upload is atomic at the
    service, under every schedule and on every network, and when it
    completes the headers of the caller are stored with the object
    ([writer_atomic]).  And the program that asks [PutWriter] for a
    writer, writes its bytes and closes it, then asks [GetReader] for a
    reader of the same path and reads to the end of the stream, has read
    the bytes it wrote, is given the headers it gave, and is told of no
    error by [Close] ([store_and_fetch]).  With the parser of Go the key
    of an object is the path up to its first question mark
    ([query_ends_key]): what is written for a path with a query is stored
    under the path without it, and is what a download of that path reads.

    Of the response headers of a download only those stored with the
    object are modelled.  The runs of this file are those of one
    transfer; [Interleaved] runs several side by side.  A download whose
    object is replaced while it runs is answered from the bucket as it is
    at each request. *)

From Stdlib Require Import ZArith String Ascii List Lia.
From stdpp Require Import base tactics option list numbers strings gmap.
From S2P Require Import Prelude GoRuntime Types NetUrl Url Engine.
From S2P Require Import Scheduler Service Getter Putter Roundtrip Facade.
From S2P Require Import Transfer.

Local Open Scope Z_scope.

Section program.
Context (digest etag : bytes → string) (net : nat → nat → delivery).

(** ** Steps of a writer *)

(** The upload behind a writer and the bucket of its host. *)
Definition world_of (u : upload) (t : transfers) : world :=
  mkWorld (u_putter u) (st_bucket (site_at (u_host u) t)) (u_digest u).

Definition upload_after (u : upload) (wd : world) : upload :=
  mkUpload (w_put wd) (u_host u) (u_key u) (u_keys u) (u_uid u) (u_header u)
    (w_digest wd).

(** The completion request stores the headers with the object. *)
Definition stores_headers (ev : world_event) (p' : putter) : bool :=
  match ev, p_done p' with
  | Upload PutComplete, Some (Completed _ _) => true
  | _, _ => false
  end.

Definition commit (w : addr) (u : upload) (ev : world_event) (wd : world)
    (t : transfers) : transfers :=
  let st := site_at (u_host u) t in
  let hdrs := if stores_headers ev (w_put wd)
              then <[u_key u := u_header u]> (st_headers st)
              else st_headers st in
  mkTransfers (getters t) (<[w := upload_after u wd]> (putters t))
    (<[u_host u := mkSite (w_svc wd) hdrs]> (sites t)).

Definition writer_step (w : addr) (ev : world_event) (t : transfers)
    : option transfers :=
  u ← putters t !! w;
  wd ← world_step digest etag net (u_key u) (u_uid u) ev (world_of u t);
  Some (commit w u ev wd t).

Definition writer_run (w : addr) : list world_event → transfers → option transfers :=
  run_steps (writer_step w).

(** ** Steps of a reader *)

(** The answer to request [k] for the range of part [i] of an object of
    [total] bytes. *)
Definition range_exchange (c : Config) (total : Z) (key : string)
    (svc : service) (i k : nat) : response bytes :=
  let p := part_at (PartSize c) total i in
  answer (net i k) (get_range key (part_off p) (part_len p) svc).

Definition server_of (d : download) (t : transfers) : nat → nat → response bytes :=
  range_exchange (g_config (d_getter d)) (g_total (d_getter d)) (d_key d)
    (st_bucket (site_at (d_host d) t)).

Definition download_after (d : download) (g : getter) : download :=
  mkDownload g (d_host d) (d_key d) (d_keys d).

Definition reader_step (r : addr) (ev : event) (t : transfers)
    : option transfers :=
  d ← getters t !! r;
  g ← step digest (server_of d t) ev (d_getter d);
  Some (mkTransfers (<[r := download_after d g]> (getters t)) (putters t)
          (sites t)).

Definition reader_run (r : addr) : list event → transfers → option transfers :=
  run_steps (reader_step r).

(** ** The frame of a step *)

(** A step of a writer leaves the readers, the other writers and the
    other hosts alone. *)
Lemma writer_step_frame w ev t t' :
  writer_step w ev t = Some t' →
  getters t' = getters t ∧
  (∀ w', w' ≠ w → putters t' !! w' = putters t !! w') ∧
  ∃ u, putters t !! w = Some u ∧
       ∀ host, host ≠ u_host u → site_at host t' = site_at host t.
Proof.
  unfold writer_step. destruct (putters t !! w) as [u|] eqn:Hw; [|done]. simpl.
  destruct (world_step _ _ _ _ _ _ _) as [wd|]; [|done]. intros [= <-].
  split_and!; [done| |exists u; split; [done|]].
  - intros w' Hne. simpl. by rewrite lookup_insert_ne.
  - intros host Hne. unfold site_at, commit. simpl. by rewrite lookup_insert_ne.
Qed.

(** A step of a reader leaves the service, the writers and the other
    readers alone. *)
Lemma reader_step_frame r ev t t' :
  reader_step r ev t = Some t' →
  sites t' = sites t ∧ putters t' = putters t ∧
  ∀ r', r' ≠ r → getters t' !! r' = getters t !! r'.
Proof.
  unfold reader_step. destruct (getters t !! r) as [d|]; [|done]. simpl.
  destruct (step _ _ _ _) as [g|]; [|done]. intros [= <-].
  split_and!; [done..|]. intros r' Hne. simpl. by rewrite lookup_insert_ne.
Qed.

(** ** The run of a writer is the run of its upload *)

Lemma world_of_commit w u ev wd t :
  world_of (upload_after u wd) (commit w u ev wd t) = wd.
Proof.
  unfold world_of, commit, site_at. simpl. rewrite lookup_insert_eq.
  by destruct wd.
Qed.

Lemma writer_step_world w ev t u :
  putters t !! w = Some u →
  writer_step w ev t
  = wd ← world_step digest etag net (u_key u) (u_uid u) ev (world_of u t);
    Some (commit w u ev wd t).
Proof. intros Hw. unfold writer_step. by rewrite Hw. Qed.

(** The run of a writer takes the steps of the world of [Roundtrip]: the
    upload behind the writer and the bucket of its host end as the world
    ends, and the readers are as they were. *)
Lemma writer_run_world w evs t u wd :
  putters t !! w = Some u →
  world_run digest etag net (u_key u) (u_uid u) evs (world_of u t) = Some wd →
  ∃ t', writer_run w evs t = Some t' ∧
        putters t' !! w = Some (upload_after u wd) ∧
        world_of (upload_after u wd) t' = wd ∧
        getters t' = getters t.
Proof.
  unfold world_run, writer_run. revert t u.
  induction evs as [|ev evs IH]; intros t u Hw.
  - intros [= <-]. exists t. split_and!; [done| |done..].
    rewrite Hw. by destruct u.
  - rewrite !run_steps_cons.
    rewrite (writer_step_world w ev t u Hw).
    destruct (world_step _ _ _ _ _ ev _) as [wd1|] eqn:Hstep; [|done].
    cbn [mbind option_bind]. intros Hrun.
    destruct (IH (commit w u ev wd1 t) (upload_after u wd1)) as (t' & ? & ? & ? & ?).
    { simpl. by rewrite lookup_insert_eq. }
    { by rewrite world_of_commit. }
    by exists t'.
Qed.

(** And every run of a writer is a run of the world. *)
Lemma writer_run_inv w evs t t' u :
  putters t !! w = Some u → writer_run w evs t = Some t' →
  ∃ wd, world_run digest etag net (u_key u) (u_uid u) evs (world_of u t)
        = Some wd ∧
        putters t' !! w = Some (upload_after u wd) ∧
        world_of (upload_after u wd) t' = wd.
Proof.
  unfold world_run, writer_run. revert t u.
  induction evs as [|ev evs IH]; intros t u Hw.
  - intros [= <-]. exists (world_of u t). split_and!; [done| |by destruct u].
    rewrite Hw. by destruct u.
  - rewrite !run_steps_cons, (writer_step_world w ev t u Hw).
    destruct (world_step _ _ _ _ _ ev _) as [wd1|] eqn:Hstep; [|done].
    cbn [mbind option_bind]. intros Hrun.
    destruct (IH (commit w u ev wd1 t) (upload_after u wd1)) as (wd & ? & ? & ?);
      [by simpl; rewrite lookup_insert_eq|done|].
    exists wd. by rewrite world_of_commit in *.
Qed.

(** ** The run of a reader is the run of its download *)

Lemma reader_step_getter r ev t d :
  getters t !! r = Some d →
  reader_step r ev t
  = g ← step digest (server_of d t) ev (d_getter d);
    Some (mkTransfers (<[r := download_after d g]> (getters t)) (putters t)
            (sites t)).
Proof. intros Hr. unfold reader_step. by rewrite Hr. Qed.

(** While the reader runs alone the bucket does not change, and its run
    is the run of [Getter] against the bucket. *)
Lemma reader_run_getter r evs t d g :
  getters t !! r = Some d →
  run digest (server_of d t) evs (d_getter d) = Some g →
  reader_run r evs t
  = Some (mkTransfers (<[r := download_after d g]> (getters t)) (putters t)
            (sites t)).
Proof.
  unfold run, reader_run. revert t d.
  induction evs as [|ev evs IH]; intros t d Hr.
  - intros [= <-]. simpl. f_equal. destruct t, d. simpl in *.
    by rewrite insert_id.
  - rewrite !run_steps_cons, (reader_step_getter r ev t d Hr).
    destruct (step _ _ ev _) as [g1|] eqn:Hstep; [|done].
    cbn [mbind option_bind].
    destruct (step_same _ _ _ _ _ Hstep) as (Hc & Ht & _).
    intros Hrun.
    rewrite (IH _ (download_after d g1) (lookup_insert_eq _ _ _)).
    + simpl. by rewrite insert_insert_eq.
    + unfold server_of in *. simpl. by rewrite Hc, Ht.
Qed.

(** And every run of a reader alone is a run of its download, and leaves
    the service as it was. *)
Lemma reader_run_inv r evs t t' d :
  getters t !! r = Some d → reader_run r evs t = Some t' →
  ∃ g, run digest (server_of d t) evs (d_getter d) = Some g ∧
       getters t' !! r = Some (download_after d g) ∧ sites t' = sites t.
Proof.
  unfold run, reader_run. revert t d.
  induction evs as [|ev evs IH]; intros t d Hr.
  - intros [= <-]. exists (d_getter d). split_and!; [done| |done].
    rewrite Hr. by destruct d.
  - rewrite !run_steps_cons, (reader_step_getter r ev t d Hr).
    destruct (step _ _ ev _) as [g1|] eqn:Hstep; [|done].
    cbn [mbind option_bind].
    destruct (step_same _ _ _ _ _ Hstep) as (Hc & Ht & _). intros Hrun.
    destruct (IH _ (download_after d g1) (lookup_insert_eq _ _ _) Hrun)
      as (g & Hg & Hr' & Hs).
    exists g. split_and!; [|done..]. unfold server_of in *. simpl in *.
    by rewrite Hc, Ht in Hg.
Qed.

(** ** The headers of an upload *)

(** The headers of an upload that has completed are stored under its
    key. *)
Definition headers_stored (w : addr) (t : transfers) : Prop :=
  ∀ u l d, putters t !! w = Some u →
           p_done (u_putter u) = Some (Completed l d) →
           st_headers (site_at (u_host u) t) !! u_key u = Some (u_header u).

(** An upload that has not ended has none to store. *)
Lemma headers_stored_open w t u :
  putters t !! w = Some u → p_done (u_putter u) = None → headers_stored w t.
Proof. intros Hw Hd u' l d. rewrite Hw. intros [= <-]. by rewrite Hd. Qed.

(** A step of the world that does not store the headers leaves the
    upload as far from its end as it was. *)
Lemma world_step_done key uid ev w wd :
  world_step digest etag net key uid ev w = Some wd →
  stores_headers ev (w_put wd) = false →
  ∀ l d, p_done (w_put wd) = Some (Completed l d) →
         p_done (w_put w) = Some (Completed l d).
Proof.
  intros Hstep Hst l d Hd.
  destruct ev as [ev| |]; [|apply world_step_put in Hstep; simpl in *; congruence|
    apply world_step_AbortLost in Hstep as (_ & [f ?] & _); congruence].
  apply world_step_put in Hstep. simpl in Hstep.
  rewrite <-Hd. symmetry. eapply put_step_keeps_done; [done|].
  intros ->. simpl in Hst. by rewrite Hd in Hst.
Qed.

Lemma writer_step_headers w ev t t' :
  headers_stored w t → writer_step w ev t = Some t' → headers_stored w t'.
Proof.
  intros Hinv. unfold writer_step.
  destruct (putters t !! w) as [u|] eqn:Hw; [|done]. simpl.
  destruct (world_step _ _ _ _ _ _ _) as [wd|] eqn:Hstep; [|done].
  intros [= <-] u' l d. simpl. rewrite lookup_insert_eq. intros [= <-] Hd.
  unfold site_at. simpl. rewrite lookup_insert_eq. simpl in *.
  destruct (stores_headers ev (w_put wd)) eqn:Hst; [by rewrite lookup_insert_eq|].
  apply (Hinv u l d Hw). by apply (world_step_done _ _ _ _ _ Hstep Hst).
Qed.

Lemma writer_run_headers w evs t t' :
  headers_stored w t → writer_run w evs t = Some t' → headers_stored w t'.
Proof.
  intros Hinv Hrun. eapply (run_steps_invariant _ (headers_stored w)); [|done..].
  intros ev t1 t2 ? ?. by eapply writer_step_headers.
Qed.

End program.

(** ** From the entry points to the service and back *)

Section entry.
Context {P : UrlParser} (dial : URL → delivery).
Context (digest etag : bytes → string) (net : nat → nat → delivery).

(** The state of a program whose transfers have taken steps. *)
Definition resumed (t : transfers) (s : state transfers) : state transfers :=
  with_engine t s.

(** A writer that [newPutter] has just opened runs its upload from the
    beginning, at the bucket in which the service opened it. *)
Lemma opened_world u h cfg keys m s :
  let u0 := mkUpload (open_putter cfg) (url_Host u) (url_key u) keys
              (upload_id u (engine s)) h false in
  world_of u0 (engine (upd Putters m (initiated u s)))
  = begin_upload (url_key u) cfg (st_bucket (site_at (url_Host u) (engine s))).
Proof.
  unfold world_of, begin_upload. cbn [u_putter u_host u_digest].
  by rewrite site_at_Putters, initiated_bucket.
Qed.

(** The object, its digest and its headers, after an upload that has
    completed and, under [Md5Check], stored its digest. *)
Lemma completed_site w u0 wd t data svc l c :
  putters t !! w = Some (upload_after u0 wd) →
  world_of (upload_after u0 wd) t = wd →
  w_svc wd = with_digest (u_key u0) c (digest data)
               (put_object (u_key u0) data svc) →
  p_done (w_put wd) = Some (Completed l (digest data)) →
  headers_stored w t →
  let st := site_at (u_host u0) t in
  objects (st_bucket st) !! u_key u0 = Some data ∧
  (Md5Check c = true →
   string_of_list_byte <$> objects (st_bucket st) !! md5_path (u_key u0)
   = Some (digest data)) ∧
  st_headers st !! u_key u0 = Some (u_header u0).
Proof.
  intros Hw Hwd Hsvc Hdone Hhdr st.
  assert (st_bucket st = w_svc wd) as -> by exact (f_equal w_svc Hwd).
  rewrite Hsvc. unfold with_digest. split_and!.
  - destruct (Md5Check c); simpl;
      rewrite ?(lookup_insert_ne _ (md5_path _)) by apply md5_path_ne;
      apply lookup_insert_eq.
  - intros ->. simpl. rewrite lookup_insert_eq. simpl.
    by rewrite string_of_list_byte_of_string.
  - by apply (Hhdr _ l (digest data) Hw).
Qed.

(** [PutWriter] on a path whose URL parses, with its reads in place and
    a first request that is delivered: a new writer, whose upload is at its
    beginning under a copy of the configuration, with a client. *)
Lemma PutWriter_opens b path h c s ac cfg bkt acc u :
  resolve s c = Some ac → Url_reads s b (Some ac) cfg bkt acc →
  url_Parse (Url_format (Scheme cfg) (Name bkt) (Domain acc) path) = inl u →
  dial u = Delivered →
  ∃ cl w s1,
    cl ≠ None ∧
    PutWriter (G := transfer_engine dial) b path h c s = (Ret (Some w, None), s1) ∧
    same_heap (prepare_result s c).2 s1 ∧
    putters (engine s) !! w = None ∧
    let u0 := mkUpload (open_putter (set_Client cl cfg)) (url_Host u) (url_key u)
                (S3_Keys acc) (upload_id u (engine s)) h false in
    putters (engine s1) !! w = Some u0 ∧
    world_of u0 (engine s1)
    = begin_upload (url_key u) (set_Client cl cfg)
        (st_bucket (site_at (url_Host u) (engine s))).
Proof.
  intros Hr Hreads Hp Hdial.
  destruct (Url_reads_prepared _ _ _ _ _ _ _ Hr Hreads) as (cl & Hcl & Hreads').
  rewrite (PutWriter_goes_on (G := transfer_engine dial)
             _ _ _ _ _ _ _ _ _ _ Hr Hreads Hp). simpl.
  rewrite (open_upload_opens dial _ _ _ _ _ _ _ _ Hreads' Hdial). cbn zeta.
  rewrite <-(prepare_engine s c). set (s0 := (prepare_result s c).2).
  eexists cl, _, _. split_and!; [done|done|by destruct s0| |..].
  - apply (not_elem_of_dom (D := gset addr)), is_fresh.
  - apply lookup_insert_eq.
  - apply opened_world.
Qed.

(** An upload finishes.  [PutWriter] returns a writer; the sequential
    upload of [data] behind it runs to its end; and the service then holds
    the object, the headers the caller gave and, when the configuration
    has [Md5Check], the digest. *)
Lemma writer_stores b path h c s ac cfg bkt acc u data :
  resolve s c = Some ac → Url_reads s b (Some ac) cfg bkt acc →
  url_Parse (Url_format (Scheme cfg) (Name bkt) (Domain acc) path) = inl u →
  dial u = Delivered →
  1 ≤ Concurrency cfg → 0 < PartSize cfg → gets_through cfg net →
  ∃ w s1 t2,
    PutWriter (G := transfer_engine dial) b path h c s = (Ret (Some w, None), s1) ∧
    same_heap (prepare_result s c).2 s1 ∧
    writer_run digest etag net w (upload_of cfg data) (engine s1) = Some t2 ∧
    object_at u t2 = Some data ∧
    (Md5Check cfg = true → digest_at u t2 = Some (digest data)) ∧
    headers_at u t2 = h.
Proof.
  intros Hr Hreads Hp Hdial Hconc Hsize Hnet.
  destruct (PutWriter_opens b path h c s ac cfg bkt acc u Hr Hreads Hp Hdial)
    as (cl & w & s1 & _ & Hput & Hsame & _ & Hw & Hworld).
  destruct (upload_finishes digest etag net (url_key u) (set_Client cl cfg)
              (st_bucket (site_at (url_Host u) (engine s))) Hconc Hsize Hnet data)
    as (wd & l & Hrun & Hdone & Hdg & Hsvc).
  rewrite <-Hworld in Hrun.
  destruct (writer_run_world digest etag net w _ _ _ wd Hw Hrun)
    as (t2 & Hrun2 & Hw2 & Hwd & _).
  pose proof (writer_run_headers digest etag net w _ _ t2
                (headers_stored_open w _ _ Hw eq_refl) Hrun2) as Hhdr.
  destruct (completed_site w _ wd t2 data _ l _ Hw2 Hwd Hsvc Hdone Hhdr)
    as (Hobj & Hmd5 & Hh).
  exists w, s1, t2. split_and!; [done..|]. exact (f_equal (default ∅) Hh).
Qed.

(** C17: an upload is atomic, from [PutWriter] on.  When the
    configuration in use, the bucket and its account are there, the URL
    parses and the request that initiates the upload is delivered,
    [PutWriter] returns a new writer, whose upload runs under a copy of
    the configuration with a client.  Then, whatever is written, however
    the parts are scheduled and whatever the network loses: while the
    upload is open the objects of the bucket are what they were; once it
    has completed, the bucket holds besides them the bytes written under
    the key of the URL, their digest under [.md5/key] when that is stored,
    and the headers the caller gave; once it has aborted, the objects are
    what they were, and the bucket is what it was before the call when
    the request to abort arrived; when that request was lost the upload
    stays open at the service. *)
Theorem writer_atomic b path h c s ac cfg bkt acc u evs :
  resolve s c = Some ac → Url_reads s b (Some ac) cfg bkt acc →
  url_Parse (Url_format (Scheme cfg) (Name bkt) (Domain acc) path) = inl u →
  dial u = Delivered → 0 < PartSize cfg →
  let svc := st_bucket (site_at (url_Host u) (engine s)) in
  ∃ w s1 u0,
    PutWriter (G := transfer_engine dial) b path h c s = (Ret (Some w, None), s1) ∧
    putters (engine s) !! w = None ∧ putters (engine s1) !! w = Some u0 ∧
    Client (p_config (u_putter u0)) ≠ None ∧
    ∀ t', writer_run digest etag net w evs (engine s1) = Some t' →
      ∃ u', putters t' !! w = Some u' ∧
        match p_done (u_putter u') with
        | None => objects (st_bucket (site_at (url_Host u) t')) = objects svc
        | Some (Completed _ _) =>
            st_bucket (site_at (url_Host u) t')
            = (let svc' := put_object (url_key u) (wrote evs) svc in
               if u_digest u'
               then put_object (md5_path (url_key u))
                      (list_byte_of_string (digest (wrote evs))) svc'
               else svc') ∧
            headers_at u t' = h
        | Some (Aborted _) =>
            objects (st_bucket (site_at (url_Host u) t')) = objects svc ∧
            if bool_decide (AbortLost ∈ evs)
            then is_Some (multiparts (st_bucket (site_at (url_Host u) t'))
                            !! u_uid u0)
            else st_bucket (site_at (url_Host u) t') = svc
        end.
Proof.
  intros Hr Hreads Hp Hdial Hsize svc.
  destruct (PutWriter_opens b path h c s ac cfg bkt acc u Hr Hreads Hp Hdial)
    as (cl & w & s1 & Hcl & Hput & _ & Hfresh & Hw & Hworld).
  eexists w, s1, _. split_and!; [done..|]. intros t' Hrun.
  destruct (writer_run_inv digest etag net w evs _ t' _ Hw Hrun)
    as (wd & Hwrun & Hw' & Hwd).
  rewrite Hworld in Hwrun.
  pose proof (upload_atomic digest etag net _ (set_Client cl cfg) _ evs wd
                Hsize Hwrun) as Hat.
  pose proof (writer_run_headers digest etag net w _ _ t'
                (headers_stored_open w _ _ Hw eq_refl) Hrun) as Hhdr.
  eexists. split; [done|]. apply (f_equal w_svc) in Hwd. simpl in *.
  rewrite Hwd. destruct (p_done (w_put wd)) as [[l d|f]|] eqn:Hd; [|done..].
  split; [done|]. exact (f_equal (default ∅) (Hhdr _ l d Hw' Hd)).
Qed.

(** The range requests of a download whose object the bucket holds are
    those of [Roundtrip]. *)
Lemma range_exchange_get c key svc data :
  objects svc !! key = Some data →
  range_exchange net c (Z.of_nat (length data)) key svc
  = get_exchange net key svc c.
Proof.
  intros Hobj. unfold range_exchange, get_exchange.
  by rewrite (object_length_Some key svc data Hobj).
Qed.

(** The verdict of the integrity check on bytes read, against the digest
    stored with the object. *)
Definition verdict (c : Config) (md5 : option string) (data : bytes)
    : option failure :=
  if Md5Check c then
    match md5 with
    | Some x => if decide (x = digest data) then None else Some IntegrityError
    | None => None
    end
  else None.

(** [GetReader] on a path whose URL parses, with its reads in place, a
    first request that is delivered and an object behind the URL: a new
    reader and the headers of the object; the download is at its
    beginning under a copy of the configuration, with a client, and its
    range requests are those of [Roundtrip] at the bucket. *)
Lemma GetReader_opens b path c s ac cfg bkt acc u data :
  resolve s c = Some ac → Url_reads s b (Some ac) cfg bkt acc →
  url_Parse (Url_format (Scheme cfg) (Name bkt) (Domain acc) path) = inl u →
  dial u = Delivered → object_at u (engine s) = Some data →
  ∃ cl r s3,
    cl ≠ None ∧
    GetReader (G := transfer_engine dial) b path c s
    = (Ret (Some r, headers_at u (engine s), None), s3) ∧
    getters (engine s) !! r = None ∧ sites (engine s3) = sites (engine s) ∧
    let d0 := mkDownload
                (open_getter (set_Client cl cfg) (Z.of_nat (length data))
                   (digest_at u (engine s)))
                (url_Host u) (url_key u) (S3_Keys acc) in
    getters (engine s3) !! r = Some d0 ∧
    server_of net d0 (engine s3)
    = get_exchange net (url_key u)
        (st_bucket (site_at (url_Host u) (engine s))) (set_Client cl cfg).
Proof.
  intros Hr Hreads Hp Hdial Hobj.
  destruct (Url_reads_prepared _ _ _ _ _ _ _ Hr Hreads) as (cl & Hcl & Hreads').
  rewrite (GetReader_goes_on (G := transfer_engine dial)
             _ _ _ _ _ _ _ _ _ Hr Hreads Hp). simpl.
  rewrite <-(prepare_engine s c) in Hobj |- *.
  rewrite (open_download_opens dial _ _ _ _ _ _ _ _ Hreads' Hdial Hobj). cbn zeta.
  eexists cl, _, _. split_and!; [done|done| |done|..].
  - apply (not_elem_of_dom (D := gset addr)), is_fresh.
  - apply lookup_insert_eq.
  - unfold server_of. cbn [d_getter d_key d_host g_config g_total open_getter].
    rewrite site_at_Getters. by apply range_exchange_get.
Qed.

(** C21: from [GetReader] to the last byte, and the verdict.  When the
    configuration in use, the bucket and its account are there, the URL
    parses, the first request is delivered and the service has an object
    behind the URL, [GetReader] returns a new reader, the headers stored
    with the object and no error; the download behind the reader runs
    under a copy of the configuration, with a client installed, and signs
    with the keys of the account.  Then, however its parts are scheduled,
    retried and read and whatever the network loses: the service is left
    as it was, and when a [Read] reports the end of the stream the caller
    has read the object, and [Close] reports an integrity error exactly
    when the check is on and the bucket holds under [.md5/key] a digest
    that is not the digest of the object. *)
Theorem reader_reads b path c s ac cfg bkt acc u data evs n :
  resolve s c = Some ac → Url_reads s b (Some ac) cfg bkt acc →
  url_Parse (Url_format (Scheme cfg) (Name bkt) (Domain acc) path) = inl u →
  dial u = Delivered → object_at u (engine s) = Some data → 0 < PartSize cfg →
  ∃ r s3 d0,
    GetReader (G := transfer_engine dial) b path c s
    = (Ret (Some r, headers_at u (engine s), None), s3) ∧
    getters (engine s) !! r = None ∧ getters (engine s3) !! r = Some d0 ∧
    Client (g_config (d_getter d0)) ≠ None ∧ d_keys d0 = S3_Keys acc ∧
    ∀ t', reader_run digest net r evs (engine s3) = Some t' →
      sites t' = sites (engine s) ∧
      ∃ d', getters t' !! r = Some d' ∧
        ∀ g', Read n (d_getter d') = Some (ReadEOF, g') →
          g_read (d_getter d') = data ∧
          (Close digest (d_getter d')).1
          = verdict cfg (digest_at u (engine s)) data.
Proof.
  intros Hr Hreads Hp Hdial Hobj Hsize.
  destruct (GetReader_opens b path c s ac cfg bkt acc u data Hr Hreads Hp Hdial
              Hobj) as (cl & r & s3 & Hcl & Hget & Hfresh & Hs3 & Hd0 & Hserver).
  eexists r, s3, _. split_and!; [done..|]. intros t' Hrun.
  destruct (reader_run_inv digest net r evs _ t' _ Hd0 Hrun) as (g & Hg & Hr' & Hs).
  rewrite Hserver in Hg. split; [by rewrite Hs|]. eexists. split; [done|].
  intros g' Heof.
  eapply (download_verdict digest _ (set_Client cl cfg) data _ evs g n g');
    [done| |done..]. by apply get_exchange_honest.
Qed.

(** A download finishes.  [GetReader] returns a reader and the headers
    of the object; the sequential download behind it runs to the end of
    the stream; the caller has read the object, and [Close] gives the
    verdict of the integrity check. *)
Lemma reader_fetches b path c s ac cfg bkt acc u data n :
  resolve s c = Some ac → Url_reads s b (Some ac) cfg bkt acc →
  url_Parse (Url_format (Scheme cfg) (Name bkt) (Domain acc) path) = inl u →
  dial u = Delivered → object_at u (engine s) = Some data →
  1 ≤ Concurrency cfg → 0 < PartSize cfg → gets_through cfg net →
  ∃ r s3 t4 d,
    GetReader (G := transfer_engine dial) b path c s
    = (Ret (Some r, headers_at u (engine s), None), s3) ∧
    reader_run digest net r
      (sequential (PartSize cfg)
         (part_count (PartSize cfg) (Z.of_nat (length data))))
      (engine s3) = Some t4 ∧
    getters t4 !! r = Some d ∧ g_read (d_getter d) = data ∧
    Read n (d_getter d) = Some (ReadEOF, d_getter d) ∧
    (Close digest (d_getter d)).1 = verdict cfg (digest_at u (engine s)) data.
Proof.
  intros Hr Hreads Hp Hdial Hobj Hconc Hsize Hnet.
  destruct (GetReader_opens b path c s ac cfg bkt acc u data Hr Hreads Hp Hdial
              Hobj) as (cl & r & s3 & _ & Hget & _ & _ & Hd0 & Hserver).
  destruct (download_finishes digest net (url_key u) (set_Client cl cfg) _ data
              Hconc Hsize Hnet Hobj n) as (g & Hrun & Hg & Heof & Hclose).
  unfold begin_download, stat in Hrun. unfold object_at in Hobj.
  rewrite Hobj in Hrun. simpl in Hrun. rewrite <-Hserver in Hrun.
  eexists r, s3, _, _. split_and!; [done| |..].
  - by apply (reader_run_getter digest net r _ (engine s3) _ g Hd0).
  - simpl. by rewrite lookup_insert_eq.
  - done.
  - done.
  - exact Hclose.
Qed.

(** The state of a program whose transfers have run is the state it
    had, for the caller. *)
Lemma resumed_same_heap t s : same_heap s (resumed t s).
Proof. by destruct s. Qed.

(** C16: what a program stores, it fetches.  With the configuration in
    use, the bucket and its account in place, a path whose URL parses, a
    concurrency of at least one, a part size above zero and a network on
    which the first requests arrive and one of the [NTry] allowed
    requests for every part does: [PutWriter] returns a writer; the
    upload of any bytes behind it runs to its end; [GetReader], called
    then for the same path, returns a reader and the headers that were
    given to [PutWriter]; the download behind it runs to the end of the
    stream; the caller has read the bytes that were written; and [Close]
    reports no error. *)
Theorem store_and_fetch b path h c s ac cfg bkt acc u data n :
  resolve s c = Some ac → Url_reads s b (Some ac) cfg bkt acc →
  url_Parse (Url_format (Scheme cfg) (Name bkt) (Domain acc) path) = inl u →
  dial u = Delivered →
  1 ≤ Concurrency cfg → 0 < PartSize cfg → gets_through cfg net →
  ∃ w s1 t2 r s3 t4 d,
    PutWriter (G := transfer_engine dial) b path h c s = (Ret (Some w, None), s1) ∧
    writer_run digest etag net w (upload_of cfg data) (engine s1) = Some t2 ∧
    GetReader (G := transfer_engine dial) b path c (resumed t2 s1)
    = (Ret (Some r, h, None), s3) ∧
    reader_run digest net r
      (sequential (PartSize cfg)
         (part_count (PartSize cfg) (Z.of_nat (length data))))
      (engine s3) = Some t4 ∧
    getters t4 !! r = Some d ∧ g_read (d_getter d) = data ∧
    Read n (d_getter d) = Some (ReadEOF, d_getter d) ∧
    (Close digest (d_getter d)).1 = None.
Proof.
  intros Hr Hreads Hp Hdial Hconc Hsize Hnet.
  destruct (writer_stores b path h c s ac cfg bkt acc u data
              Hr Hreads Hp Hdial Hconc Hsize Hnet)
    as (w & s1 & t2 & Hput & Hsame & Hrun & Hobj & Hmd5 & Hhdr).
  destruct (Url_reads_prepared _ _ _ _ _ _ _ Hr Hreads) as (cl & _ & Hreads').
  assert (same_heap (prepare_result s c).2 (resumed t2 s1)) as Hsame2
    by (etrans; [done|apply resumed_same_heap]).
  destruct (reader_fetches b path c (resumed t2 s1) ac (set_Client cl cfg) bkt
              acc u data n) as (r & s3 & t4 & d & Hget & Hrun4 & Hd & Hg & Heof & Hcl);
    [|by eapply Url_reads_same_heap|done..|].
  { by rewrite (resolve_same_heap _ _ _ Hsame2), prepare_resolve. }
  exists w, s1, t2, r, s3, t4, d. split_and!; [done|done| |done..|].
  - rewrite Hget. simpl. by rewrite Hhdr.
  - rewrite Hcl. unfold verdict. simpl.
    destruct (Md5Check cfg); [|done]. by rewrite Hmd5, decide_True.
Qed.

End entry.

(** ** The key of an object, with the parser of Go *)

(** The key [url.Parse] leaves of a path: the path up to its first
    question mark. *)
Definition key_of (path : string) : string := (cut_or_all "?" path).1.

Section query.
Context (dial : URL → delivery).
Context (digest etag : bytes → string) (net : nat → nat → delivery).

(** C22: a question mark ends the key.  With the parser that follows
    [url.Parse], a scheme that is one, a bucket name and a domain that are
    host names and a service that answers on the host: [PutWriter], called
    for a path [p] without control byte and hash sign whose part before the
    first question mark has no percent sign, returns a writer; the upload of any bytes behind it runs to its
    end; the service then holds the bytes under that part of [p], which
    is not [p] when [p] has a question mark; and [GetReader], called then
    for any path [q] with the same part before its first question mark,
    returns a reader and the headers given to [PutWriter], and the
    download behind it reads the bytes written for [p]. *)
Theorem query_ends_key b p q h c s ac cfg bkt acc data n :
  let host := Name bkt +:+ "." +:+ Domain acc in
  resolve s c = Some ac → Url_reads s b (Some ac) cfg bkt acc →
  is_scheme (Scheme cfg) = true → str_all host_byte host = true →
  (∀ u, url_Host u = host → dial u = Delivered) →
  str_all (λ c, negb (is_ctl c)) p = true →
  str_all (λ c, negb (is_ctl c)) q = true →
  str_mem "#"%char p = false → str_mem "#"%char q = false →
  str_mem "%"%char (key_of p) = false → key_of q = key_of p →
  1 ≤ Concurrency cfg → 0 < PartSize cfg → gets_through cfg net →
  ∃ w s1 t2 r s3 t4 d,
    PutWriter (P := go_url) (G := transfer_engine dial) b p h c s
    = (Ret (Some w, None), s1) ∧
    writer_run digest etag net w (upload_of cfg data) (engine s1) = Some t2 ∧
    objects (st_bucket (site_at host t2)) !! key_of p = Some data ∧
    GetReader (P := go_url) (G := transfer_engine dial) b q c (resumed t2 s1)
    = (Ret (Some r, h, None), s3) ∧
    reader_run digest net r
      (sequential (PartSize cfg)
         (part_count (PartSize cfg) (Z.of_nat (length data))))
      (engine s3) = Some t4 ∧
    getters t4 !! r = Some d ∧ g_read (d_getter d) = data ∧
    Read n (d_getter d) = Some (ReadEOF, d_getter d).
Proof.
  intros host Hr Hreads Hsch Hhost Hdial Hcp Hcq Hp Hq Hesc Hcut
    Hconc Hsize Hnet.
  pose proof (Url_format_parsed _ _ _ p Hsch Hhost Hcp Hp Hesc) as Hup.
  rewrite <-Hcut in Hesc.
  pose proof (Url_format_parsed _ _ _ q Hsch Hhost Hcq Hq Hesc) as Huq.
  destruct (writer_stores (P := go_url) dial digest etag net b p h c s ac cfg
              bkt acc _ data Hr Hreads Hup)
    as (w & s1 & t2 & Hput & Hsame & Hrun & Hobj & _ & Hhdr);
    [by apply Hdial|done..|].
  destruct (Url_reads_prepared _ _ _ _ _ _ _ Hr Hreads) as (cl & _ & Hreads').
  assert (same_heap (prepare_result s c).2 (resumed t2 s1)) as Hsame2
    by (etrans; [done|apply resumed_same_heap]).
  assert (resolve (resumed t2 s1) c = Some ac) as Hr2
    by (by rewrite (resolve_same_heap _ _ _ Hsame2), prepare_resolve).
  destruct (reader_fetches (P := go_url) dial digest net b q c (resumed t2 s1)
              ac (set_Client cl cfg) bkt acc _ data n Hr2
              (Url_reads_same_heap _ _ _ _ _ _ _ Hsame2 Hreads') Huq)
    as (r & s3 & t4 & d & Hget & Hrun4 & Hd & Hg & Heof & _);
    [by apply Hdial| |done..|].
  { unfold object_at, key_of in *. simpl. by rewrite Hcut. }
  exists w, s1, t2, r, s3, t4, d. split_and!; [done|done|exact Hobj| |done..].
  rewrite Hget. unfold headers_at, key_of in *. simpl. by rewrite Hcut, <-Hhdr.
Qed.

End query.

(** ** Examples *)

(** The headers of the example: a content type. *)
Definition hello_header : Header := {[ "Content-Type" := ["text/plain"] ]}.

Definition notes_url : URL :=
  mkURL "https" "" None "logs.s3.amazonaws.com" "/notes.txt" "" "".

(** The sequential upload of [hello] under the default configuration. *)
Definition hello_stored : list world_event := upload_of DefaultConfig_value hello.

Lemma hello_net_default : gets_through DefaultConfig_value hello_net.
Proof. intros i. by exists 1%nat. Qed.

Lemma writer_atomic_witness :
  let svc := st_bucket hello_site in
  ∃ w s1 u0,
    PutWriter (G := transfer_engine open_line) (Some 1%positive) "notes.txt"
      hello_header None transfer_example = (Ret (Some w, None), s1) ∧
    putters (engine transfer_example) !! w = None ∧
    putters (engine s1) !! w = Some u0 ∧
    Client (p_config (u_putter u0)) ≠ None ∧
    ∀ t', writer_run plain_digest plain_tag hello_net w hello_stored (engine s1)
          = Some t' →
      ∃ u', putters t' !! w = Some u' ∧
        match p_done (u_putter u') with
        | None => objects (st_bucket (site_at (url_Host notes_url) t'))
                  = objects svc
        | Some (Completed _ _) =>
            st_bucket (site_at (url_Host notes_url) t')
            = (let svc' := put_object (url_key notes_url) (wrote hello_stored) svc in
               if u_digest u'
               then put_object (md5_path (url_key notes_url))
                      (list_byte_of_string (plain_digest (wrote hello_stored)))
                      svc'
               else svc') ∧
            headers_at notes_url t' = hello_header
        | Some (Aborted _) =>
            objects (st_bucket (site_at (url_Host notes_url) t')) = objects svc ∧
            if bool_decide (AbortLost ∈ hello_stored)
            then is_Some (multiparts (st_bucket (site_at (url_Host notes_url) t'))
                            !! u_uid u0)
            else st_bucket (site_at (url_Host notes_url) t') = svc
        end.
Proof.
  apply (writer_atomic open_line plain_digest plain_tag hello_net
           (Some 1%positive) "notes.txt" hello_header None transfer_example
           1%positive DefaultConfig_value (mkBucket (Some 1%positive) "logs")
           (mkS3 "s3.amazonaws.com" (mkKeys "AK" "SK")) notes_url hello_stored);
    [done|by exists 1%positive, 1%positive, 1%positive|by vm_compute|done|done].
Defined.

Lemma reader_reads_witness :
  ∃ r s3 d0,
    GetReader (G := transfer_engine open_line) (Some 1%positive) "hello.txt"
      None transfer_example
    = (Ret (Some r, hello_header, None), s3) ∧
    getters (engine transfer_example) !! r = None ∧
    getters (engine s3) !! r = Some d0 ∧
    Client (g_config (d_getter d0)) ≠ None ∧ d_keys d0 = mkKeys "AK" "SK" ∧
    ∀ t', reader_run plain_digest hello_net r
            (sequential (PartSize DefaultConfig_value) 1) (engine s3) = Some t' →
      sites t' = sites (engine transfer_example) ∧
      ∃ d', getters t' !! r = Some d' ∧
        ∀ g', Read 16 (d_getter d') = Some (ReadEOF, g') →
          g_read (d_getter d') = hello ∧
          (Close plain_digest (d_getter d')).1
          = verdict plain_digest DefaultConfig_value (Some "hello, S3!"%string)
              hello.
Proof.
  apply (reader_reads open_line plain_digest hello_net (Some 1%positive)
           "hello.txt" None transfer_example 1%positive DefaultConfig_value
           (mkBucket (Some 1%positive) "logs")
           (mkS3 "s3.amazonaws.com" (mkKeys "AK" "SK")) hello_url hello);
    [done|by exists 1%positive, 1%positive, 1%positive|by vm_compute|done
    |done|done].
Defined.

Lemma store_and_fetch_witness :
  ∃ w s1 t2 r s3 t4 d,
    PutWriter (G := transfer_engine open_line) (Some 1%positive) "notes.txt"
      hello_header None transfer_example = (Ret (Some w, None), s1) ∧
    writer_run plain_digest plain_tag hello_net w
      (upload_of DefaultConfig_value hello) (engine s1) = Some t2 ∧
    GetReader (G := transfer_engine open_line) (Some 1%positive) "notes.txt"
      None (resumed t2 s1) = (Ret (Some r, hello_header, None), s3) ∧
    reader_run plain_digest hello_net r
      (sequential (PartSize DefaultConfig_value)
         (part_count (PartSize DefaultConfig_value) (Z.of_nat (length hello))))
      (engine s3) = Some t4 ∧
    getters t4 !! r = Some d ∧ g_read (d_getter d) = hello ∧
    Read 16 (d_getter d) = Some (ReadEOF, d_getter d) ∧
    (Close plain_digest (d_getter d)).1 = None.
Proof.
  apply (store_and_fetch open_line plain_digest plain_tag hello_net
           (Some 1%positive) "notes.txt" hello_header None transfer_example
           1%positive DefaultConfig_value (mkBucket (Some 1%positive) "logs")
           (mkS3 "s3.amazonaws.com" (mkKeys "AK" "SK")) notes_url hello 16);
    [done|by exists 1%positive, 1%positive, 1%positive|by vm_compute|done|done
    |done|exact hello_net_default].
Defined.

(** A path with a query: the key is the path up to the question mark. *)
Example key_of_draft : key_of "notes.txt?draft=1" = "notes.txt"%string.
Proof. reflexivity. Qed.

Lemma query_ends_key_witness :
  ∃ w s1 t2 r s3 t4 d,
    PutWriter (P := go_url) (G := transfer_engine open_line) (Some 1%positive)
      "notes.txt?draft=1" hello_header None transfer_example
    = (Ret (Some w, None), s1) ∧
    writer_run plain_digest plain_tag hello_net w
      (upload_of DefaultConfig_value hello) (engine s1) = Some t2 ∧
    objects (st_bucket (site_at "logs.s3.amazonaws.com" t2))
      !! key_of "notes.txt?draft=1" = Some hello ∧
    GetReader (P := go_url) (G := transfer_engine open_line) (Some 1%positive)
      "notes.txt" None (resumed t2 s1) = (Ret (Some r, hello_header, None), s3) ∧
    reader_run plain_digest hello_net r
      (sequential (PartSize DefaultConfig_value)
         (part_count (PartSize DefaultConfig_value) (Z.of_nat (length hello))))
      (engine s3) = Some t4 ∧
    getters t4 !! r = Some d ∧ g_read (d_getter d) = hello ∧
    Read 16 (d_getter d) = Some (ReadEOF, d_getter d).
Proof.
  apply (query_ends_key open_line plain_digest plain_tag hello_net
           (Some 1%positive) "notes.txt?draft=1" "notes.txt" hello_header None
           transfer_example 1%positive DefaultConfig_value
           (mkBucket (Some 1%positive) "logs")
           (mkS3 "s3.amazonaws.com" (mkKeys "AK" "SK")) hello 16);
    [done|by exists 1%positive, 1%positive, 1%positive|done|by vm_compute|done
    |done|done|done|done|done|done|done|done|exact hello_net_default].
Defined.
