(* ===== verification/Interleaved.v ===== *)
(** * Interleaved: the transfers of a program, side by side

    [Program] runs one transfer at a time.  A program that holds several
    readers and writers drives them in any order, and their requests meet
    at the service in that order.  This file interleaves them.

    - [transfer_event] is a step of one transfer, named by the reader or
      the writer it belongs to; [transfers_step] takes it with
      [reader_step] or [writer_step], [transfers_run] takes a list of
      them.
    - [attached] is what ties an upload to the bucket: it is well formed,
      and while it is open the bucket holds a multipart upload under its
      identifier, for its key, with parts that are chunks of the bytes it
      was given.
    - [sound] is the invariant of the state: every upload is attached to
      the bucket of its host, and two open uploads on one host have two
      identifiers.
    - [published] is what a step of an upload does to the objects of its
      bucket: the completion stores the object, whole; the request after
      it stores the digest; any other step stores nothing.
    - [initiated_at] and [open_writer] are what opening an upload leaves;
      [orphan] is an upload of the service that no writer holds.

    The theorems.  Every step keeps [sound] and changes the objects of the
    service by [published], whatever the other transfers have done in
    between ([transfers_step_sound]); opening an upload keeps it
    ([sound_opened]).  So in every state a run reaches, an object of a
    bucket is the object the run began with or the whole of the bytes given
    to a writer that has completed, and never a part ([no_torn_object]).
    A reader that runs among writers of other objects reads what it would
    have read alone ([reader_among_writers]); a reader whose object is
    replaced while it reads may be given parts of two objects, and is
    warned by [Close] when the configuration asks for the check and the
    object had a digest ([reader_warned]).  An upload nobody holds is
    left as it is by every step ([transfers_step_orphan]).

    The examples: two writers of one key whose parts, completions and
    digest cross ([crossed]); a reader and a writer of another object in
    turns ([mixed]); a reader whose object is replaced between its parts,
    with the check ([torn_read_detected]) and without
    ([torn_read_unnoticed]). *)

From Stdlib Require Import ZArith String List Lia.
From stdpp Require Import base tactics option list numbers strings gmap.
From S2P Require Import Prelude GoRuntime Types NetUrl Url Engine Scheduler.
From S2P Require Import Service Facade.
From S2P Require Import Getter Putter Roundtrip Transfer Program.

Local Open Scope Z_scope.

(** ** Steps of the transfers *)

Inductive transfer_event :=
| OnWriter (w : addr) (ev : world_event)
| OnReader (r : addr) (ev : event).

(** The bucket of a host. *)
Definition bucket_at (host : string) (t : transfers) : service :=
  st_bucket (site_at host t).

(** What a step of an upload for [key] stores among the objects [obj],
    given the upload after the step. *)
Definition published (key : string) (e : world_event) (p' : putter)
    (obj : gmap string bytes) : gmap string bytes :=
  match e, p_done p' with
  | Upload PutComplete, Some (Completed _ _) => <[key := p_hash p']> obj
  | StoreDigest, Some (Completed _ d) =>
      <[md5_path key := list_byte_of_string d]> obj
  | _, _ => obj
  end.

Section interleaved.
Context (digest etag : bytes → string) (net : nat → nat → delivery).

Local Abbreviation exchange := (put_exchange etag net).

Definition transfers_step (e : transfer_event) (t : transfers)
    : option transfers :=
  match e with
  | OnWriter w ev => writer_step digest etag net w ev t
  | OnReader r ev => reader_step digest net r ev t
  end.

Definition transfers_run : list transfer_event → transfers → option transfers :=
  run_steps transfers_step.

(** ** An upload and its bucket *)

Section attached.
Context (key : string) (uid : positive).

Local Abbreviation wstep := (world_step digest etag net key uid).

(** The upload of a world is attached to the service of the world. *)
Definition attached (w : world) : Prop :=
  putter_wf digest (w_put w) ∧ put_streamed exchange (w_put w) ∧
  (p_done (w_put w) = None →
   w_digest w = false ∧
   ∃ parts, multiparts (w_svc w) !! uid = Some (mkMultipart key parts) ∧
            held (w_put w) parts).

(** An open upload that is attached is [stored], over the objects of the
    service and the uploads of the others. *)
Lemma attached_stored w :
  attached w → p_done (w_put w) = None →
  stored key uid (objects (w_svc w)) (delete uid (multiparts (w_svc w))) w.
Proof.
  intros (_ & _ & Hopen) Hd. destruct (Hopen Hd) as (Hdg & parts & Hm & Hheld).
  unfold stored. rewrite Hd. split; [done|]. exists parts. split; [|done].
  unfold open_at. rewrite insert_delete_id by done. by destruct (w_svc w).
Qed.

Lemma world_step_wf e w w' :
  attached w → wstep e w = Some w' →
  putter_wf digest (w_put w') ∧ put_streamed exchange (w_put w').
Proof.
  intros (Hwf & Hs & _) Hstep%world_step_put. destruct (put_of e) as [ev|].
  - eauto using put_step_wf, put_step_streamed.
  - by rewrite Hstep.
Qed.

(** An upload that has ended does not change any more, and only the
    request that stores its digest reaches the service. *)
Lemma world_step_ended e w w' o :
  attached w → p_done (w_put w) = Some o → wstep e w = Some w' →
  w_put w' = w_put w ∧ multiparts (w_svc w') = multiparts (w_svc w) ∧
  objects (w_svc w') = published key e (w_put w') (objects (w_svc w)).
Proof.
  intros (Hwf & _) Hd. destruct w as [p svc dg], e as [ev| |]; simpl in *.
  - destruct (put_step _ _ ev p) as [p'|] eqn:Hstep; [|done]. intros [= <-].
    by destruct (put_step_done _ _ _ _ _ o Hwf Hd Hstep) as [-> ->].
  - rewrite Hd. destruct o as [l d|f]; [|done]. destruct dg; [done|].
    case_match; [|done].
    intros [= <-]. simpl. unfold published. simpl. by rewrite Hd.
  - destruct (Complete digest p) as [p'|] eqn:Hc; [|done].
    apply Complete_inv in Hc as (_ & _ & ? & _). congruence.
Qed.

(** The step that ends an open upload is the completion. *)
Lemma world_step_ends e w w' o :
  p_done (w_put w) = None → wstep e w = Some w' →
  p_done (w_put w') = Some o →
  (e = Upload PutComplete ∨ e = AbortLost ∧ ∃ f, o = Aborted f) ∧
  w_digest w' = w_digest w.
Proof.
  intros Hd Hstep Hd'. destruct e as [ev| |].
  - destruct w as [p svc dg]. simpl in *.
    destruct (put_step _ _ ev p) as [p'|] eqn:Hp; [|done].
    revert Hstep. intros [= <-]. simpl in *. split; [|done]. left.
    destruct (decide (ev = PutComplete)) as [->|Hne]; [done|].
    pose proof (put_step_keeps_done _ _ _ _ _ Hp Hne). congruence.
  - simpl in Hstep. by rewrite Hd in Hstep.
  - apply world_step_AbortLost in Hstep as (_ & [f Hf] & _ & ?).
    split; [right|done]. split; [done|]. exists f. congruence.
Qed.

(** A step of an open upload, at the service: the others' uploads are
    left alone, and the objects change by what the step publishes. *)
Lemma world_step_open e w w' :
  attached w → p_done (w_put w) = None → wstep e w = Some w' →
  (∀ uid', uid' ≠ uid →
           multiparts (w_svc w') !! uid' = multiparts (w_svc w) !! uid') ∧
  objects (w_svc w') = published key e (w_put w') (objects (w_svc w)) ∧
  (p_done (w_put w') = None →
   w_digest w' = false ∧
   ∃ parts, multiparts (w_svc w') !! uid = Some (mkMultipart key parts) ∧
            held (w_put w') parts).
Proof.
  intros Hat Hd Hstep. pose proof (attached_stored w Hat Hd) as Hst.
  destruct Hat as (Hwf & Hs & Hopen). destruct (Hopen Hd) as (Hdg & _).
  eapply world_step_stored in Hst; [|apply lookup_delete_eq|done..].
  unfold stored, published in *.
  destruct (p_done (w_put w')) as [o|] eqn:Hd'.
  - destruct (world_step_ends _ _ _ o Hd Hstep Hd') as [He Hdg'].
    rewrite Hdg', Hdg in Hst. destruct He as [->|[-> [f ->]]].
    + destruct o as [l d|f].
      * rewrite Hst; simpl; (split_and!; [|done..]).
        intros uid' Hne; by rewrite lookup_delete_ne.
      * destruct (world_step_abort _ _ _ _ _ _ _ _ Hstep Hd') as [-> _].
        simpl. split_and!; [|done..].
        intros uid' Hne. by rewrite lookup_delete_ne.
    + apply world_step_AbortLost in Hstep as (_ & _ & -> & _).
      by split_and!.
  - destruct Hst as (Hdg' & parts & -> & Hheld). simpl. split_and!.
    + intros uid' Hne. by rewrite lookup_insert_ne, lookup_delete_ne.
    + by destruct e as [[]| |].
    + intros _. split; [done|]. exists parts. by rewrite lookup_insert_eq.
Qed.

(** An upload that is open after a step was open before it. *)
Lemma world_step_was_open e w w' :
  attached w → wstep e w = Some w' →
  p_done (w_put w') = None → p_done (w_put w) = None.
Proof.
  intros Hat Hstep Hd'. destruct (p_done (w_put w)) as [o|] eqn:Hd; [|done].
  destruct (world_step_ended _ _ _ o Hat Hd Hstep) as (Hp & _). congruence.
Qed.

(** Every step keeps the upload attached, leaves the uploads of the
    others alone and changes the objects by what it publishes. *)
Lemma world_step_attached e w w' :
  attached w → wstep e w = Some w' →
  attached w' ∧
  (∀ uid', (p_done (w_put w) = None → uid' ≠ uid) →
           multiparts (w_svc w') !! uid' = multiparts (w_svc w) !! uid') ∧
  objects (w_svc w') = published key e (w_put w') (objects (w_svc w)).
Proof.
  intros Hat Hstep. destruct (world_step_wf _ _ _ Hat Hstep) as [Hwf' Hs'].
  destruct (p_done (w_put w)) as [o|] eqn:Hd.
  - destruct (world_step_ended _ _ _ o Hat Hd Hstep) as (Hp & Hm & Hobj).
    split_and!; [|by rewrite Hm|done]. split_and!; [done..|].
    rewrite Hp, Hd. done.
  - destruct (world_step_open _ _ _ Hat Hd Hstep) as (Hm & Hobj & Hopen).
    split_and!; [done| |done]. intros uid' Hne. by apply Hm, Hne.
Qed.

End attached.

(** ** The invariant of the state *)

(** Two open uploads on one host have two identifiers. *)
Definition apart (t : transfers) : Prop :=
  ∀ w w' u u', putters t !! w = Some u → putters t !! w' = Some u' → w ≠ w' →
               p_done (u_putter u) = None → p_done (u_putter u') = None →
               u_host u = u_host u' → u_uid u ≠ u_uid u'.

Definition sound (t : transfers) : Prop :=
  (∀ w u, putters t !! w = Some u →
          attached (u_key u) (u_uid u) (world_of u t)) ∧
  apart t.

(** What a step does to the objects [obj] of a host, given the state
    after the step. *)
Definition publishes (e : transfer_event) (t' : transfers) (host : string)
    (obj : gmap string bytes) : gmap string bytes :=
  match e with
  | OnWriter w ev =>
      match putters t' !! w with
      | Some u => if decide (u_host u = host)
                  then published (u_key u) ev (u_putter u) obj else obj
      | None => obj
      end
  | OnReader _ _ => obj
  end.

(** An upload stays attached while the bucket of its host holds its
    multipart upload. *)
Lemma attached_bucket u t t' :
  (p_done (u_putter u) = None →
   multiparts (bucket_at (u_host u) t') !! u_uid u
   = multiparts (bucket_at (u_host u) t) !! u_uid u) →
  attached (u_key u) (u_uid u) (world_of u t) →
  attached (u_key u) (u_uid u) (world_of u t').
Proof.
  intros Hm (Hwf & Hs & Hopen). split_and!; [done..|]. simpl. intros Hd.
  destruct (Hopen Hd) as (Hdg & parts & Hp & Hheld). split; [done|].
  exists parts. split; [|done]. etrans; [by apply Hm|done].
Qed.

(** The bucket of a host after a writer has taken a step. *)
Lemma bucket_at_commit w u ev wd t host :
  bucket_at host (commit w u ev wd t)
  = if decide (u_host u = host) then w_svc wd else bucket_at host t.
Proof.
  unfold bucket_at, site_at, commit. simpl. case_decide as Hh.
  - subst host. by rewrite lookup_insert_eq.
  - by rewrite lookup_insert_ne.
Qed.

(** With no upload there is nothing to keep. *)
Lemma sound_idle g st : sound (mkTransfers g ∅ st).
Proof.
  split; [intros w u Hw|intros w w' u u' Hw]; simpl in Hw;
    by rewrite lookup_empty in Hw.
Qed.

(** ** Opening an upload keeps the invariant *)

(** The transfers after the request that initiates an upload for [key]
    has reached the service of [host]. *)
Definition initiated_at (host key : string) (t : transfers) : transfers :=
  put_site host
    (mkSite (initiate_upload key (bucket_at host t)).2
       (st_headers (site_at host t))) t.

Lemma initiated_at_objects host host' key t :
  objects (bucket_at host (initiated_at host' key t))
  = objects (bucket_at host t).
Proof.
  unfold initiated_at, bucket_at. destruct (decide (host' = host)) as [->|].
  - by rewrite site_at_put_site.
  - by rewrite site_at_put_site_ne.
Qed.

(** The request leaves the uploads that are open as they are, and the
    identifier it answers with is none of theirs. *)
Lemma initiate_upload_other key svc uid m :
  multiparts svc !! uid = Some m →
  uid ≠ (initiate_upload key svc).1 ∧
  multiparts (initiate_upload key svc).2 !! uid = Some m.
Proof.
  intros Hm. destruct (initiate_upload_open key svc) as (Hf & _).
  assert (uid ≠ (initiate_upload key svc).1) by (intros ->; congruence).
  split; [done|]. simpl. by rewrite lookup_insert_ne.
Qed.

Lemma open_putter_held c : held (open_putter c) ∅.
Proof.
  split; [intros i b; by rewrite lookup_empty|].
  simpl. intros i [? Hi]. by rewrite lookup_empty in Hi.
Qed.

Lemma sound_initiated host key t : sound t → sound (initiated_at host key t).
Proof.
  intros [Hat Hap]. split; [|done]. intros w u Hw.
  apply attached_bucket with t; [|exact (Hat w u Hw)]. intros Hd.
  destruct (Hat w u Hw) as (_ & _ & Hopen).
  destruct (Hopen Hd) as (_ & parts & Hm & _). simpl in Hm.
  unfold initiated_at, bucket_at. destruct (decide (host = u_host u)) as [->|Hne].
  - rewrite site_at_put_site. simpl. rewrite Hm.
    by apply initiate_upload_other.
  - by rewrite site_at_put_site_ne.
Qed.

(** The identifier of an upload that is open is not the next one the
    service of its host gives. *)
Lemma open_uid_taken w u key t :
  sound t → putters t !! w = Some u → p_done (u_putter u) = None →
  u_uid u ≠ (initiate_upload key (bucket_at (u_host u) t)).1.
Proof.
  intros [Hat _] Hw Hd. destruct (Hat w u Hw) as (_ & _ & Hopen).
  destruct (Hopen Hd) as (_ & parts & Hm & _).
  by eapply initiate_upload_other.
Qed.

(** A new upload that is attached, under an identifier no open upload of
    its host has, joins the others. *)
Lemma sound_registered w u t :
  sound t → putters t !! w = None →
  attached (u_key u) (u_uid u) (world_of u t) →
  (∀ w' u', putters t !! w' = Some u' → p_done (u_putter u') = None →
            u_host u' = u_host u → u_uid u' ≠ u_uid u) →
  sound (mkTransfers (getters t) (<[w := u]> (putters t)) (sites t)).
Proof.
  intros [Hat Hap] Hw Hu Hnew. split.
  - intros w1 u1. simpl.
    intros [[-> ->]|[Hne Hw1]]%lookup_insert_Some; [done|by apply (Hat w1)].
  - intros w1 w2 u1 u2. simpl.
    intros [[-> ->]|[? Hw1]]%lookup_insert_Some
           [[-> ->]|[? Hw2]]%lookup_insert_Some Hne Hd1 Hd2 Hh;
      [done| | |by eapply Hap].
    + intros Heq. by eapply (Hnew w2 u2).
    + by eapply Hnew.
Qed.

(** The upload [PutWriter] registers when the request that initiates it
    has been answered. *)
Definition opened_upload (c : Config) (host key : string) (keys : Keys)
    (h : Header) (t : transfers) : upload :=
  mkUpload (open_putter c) host key keys
    (initiate_upload key (bucket_at host t)).1 h false.

(** The transfers after [PutWriter] has opened an upload. *)
Definition open_writer (c : Config) (host key : string) (keys : Keys)
    (h : Header) (t : transfers) : transfers :=
  mkTransfers (getters t)
    (<[fresh (dom (putters t)) := opened_upload c host key keys h t]>
       (putters t))
    (sites (initiated_at host key t)).

Lemma sound_opened c host key keys h t :
  0 < PartSize c → sound t → sound (open_writer c host key keys h t).
Proof.
  intros Hsz Hs.
  apply (sound_registered _ _ (initiated_at host key t)); simpl.
  - by apply sound_initiated.
  - apply (not_elem_of_dom (D := gset addr)), is_fresh.
  - split_and!; [apply open_putter_wf|by apply open_putter_streamed|]. simpl.
    intros _. split; [done|]. exists ∅. split; [|apply open_putter_held].
    unfold initiated_at. rewrite site_at_put_site. simpl.
    by rewrite lookup_insert_eq.
  - intros w' u' Hw' Hd' <-. exact (open_uid_taken w' u' key t Hs Hw' Hd').
Qed.

(** ** Steps keep the invariant *)

Lemma writer_step_commit w ev t t' :
  writer_step digest etag net w ev t = Some t' →
  ∃ u wd, putters t !! w = Some u ∧
          world_step digest etag net (u_key u) (u_uid u) ev (world_of u t)
          = Some wd ∧
          t' = commit w u ev wd t.
Proof.
  unfold writer_step. destruct (putters t !! w) as [u|]; [|done]. simpl.
  destruct (world_step _ _ _ _ _ _ _) as [wd|] eqn:Hstep; [|done].
  intros [= <-]. eauto.
Qed.

(** An upload that is open after a step of a writer was open before it,
    on the same host and under the same identifier. *)
Lemma commit_was_open w u ev wd t w1 u1 :
  putters t !! w = Some u → attached (u_key u) (u_uid u) (world_of u t) →
  world_step digest etag net (u_key u) (u_uid u) ev (world_of u t) = Some wd →
  putters (commit w u ev wd t) !! w1 = Some u1 → p_done (u_putter u1) = None →
  ∃ u0, putters t !! w1 = Some u0 ∧ p_done (u_putter u0) = None ∧
        u_host u0 = u_host u1 ∧ u_uid u0 = u_uid u1.
Proof.
  intros Hw Hat Hstep. simpl. destruct (decide (w1 = w)) as [->|Hne].
  - rewrite lookup_insert_eq. intros [= <-] Hd. exists u. split_and!; [done| |done..].
    exact (world_step_was_open _ _ _ _ _ Hat Hstep Hd).
  - rewrite lookup_insert_ne by done. eauto.
Qed.

Lemma writer_step_sound w ev t t' :
  sound t → writer_step digest etag net w ev t = Some t' → sound t'.
Proof.
  intros [Hat Hap] (u & wd & Hw & Hstep & ->)%writer_step_commit.
  destruct (world_step_attached _ _ _ _ _ (Hat w u Hw) Hstep) as (Hat' & Hm & _).
  split.
  - intros w1 u1. simpl. destruct (decide (w1 = w)) as [->|Hne].
    + rewrite lookup_insert_eq. intros [= <-]. by rewrite world_of_commit.
    + rewrite lookup_insert_ne by done. intros Hw1.
      apply attached_bucket with t; [|by apply Hat with w1]. intros Hd1.
      rewrite bucket_at_commit. case_decide as Hh; [|done]. rewrite <-Hh.
      apply Hm. intros Hd. by apply (Hap w1 w u1 u).
  - intros w1 w2 u1 u2 Hw1 Hw2 Hne Hd1 Hd2.
    destruct (commit_was_open _ _ _ _ _ _ _ Hw (Hat w u Hw) Hstep Hw1 Hd1)
      as (v1 & ? & ? & <- & <-).
    destruct (commit_was_open _ _ _ _ _ _ _ Hw (Hat w u Hw) Hstep Hw2 Hd2)
      as (v2 & ? & ? & <- & <-).
    by apply (Hap w1 w2).
Qed.

Lemma writer_step_objects w ev t t' host :
  sound t → writer_step digest etag net w ev t = Some t' →
  objects (bucket_at host t')
  = publishes (OnWriter w ev) t' host (objects (bucket_at host t)).
Proof.
  intros [Hat _] (u & wd & Hw & Hstep & ->)%writer_step_commit.
  destruct (world_step_attached _ _ _ _ _ (Hat w u Hw) Hstep) as (_ & _ & Hobj).
  unfold publishes. simpl. rewrite lookup_insert_eq. simpl.
  rewrite bucket_at_commit. case_decide as Hh; [|done]. by subst host.
Qed.

(** The invariant is about the uploads and the service. *)
Lemma sound_same t t' :
  putters t' = putters t → sites t' = sites t → sound t → sound t'.
Proof.
  intros Hp Hs [Hat Hap]. unfold sound, apart. rewrite Hp. split; [|done].
  intros w u Hw. apply attached_bucket with t; [|exact (Hat w u Hw)].
  unfold bucket_at, site_at. by rewrite Hs.
Qed.

Lemma reader_step_sound r ev t t' :
  sound t → reader_step digest net r ev t = Some t' → sound t'.
Proof. intros Hs (? & ? & _)%reader_step_frame. by apply (sound_same t). Qed.

(** Whatever the order in which the transfers of a program take their
    steps, every step keeps the uploads attached to their buckets, each to
    its own multipart upload, and changes the objects of the service by
    what it publishes: nothing, but for the completion of an upload, which
    stores the object of all the bytes given to its writer, and the request
    after it, which stores their digest. *)
Theorem transfers_step_sound e t t' :
  sound t → transfers_step e t = Some t' →
  sound t' ∧
  ∀ host, objects (bucket_at host t')
          = publishes e t' host (objects (bucket_at host t)).
Proof.
  intros Hs Hstep. destruct e as [w ev|r ev]; simpl in Hstep.
  - eauto using writer_step_sound, writer_step_objects.
  - split; [by eapply reader_step_sound|]. intros host.
    apply reader_step_frame in Hstep as (Hsites & _).
    unfold bucket_at, site_at. by rewrite Hsites.
Qed.

(** A step closes no transfer: the readers and the writers of the state
    stay. *)
Lemma transfers_step_dom e t t' :
  transfers_step e t = Some t' →
  (∀ w, is_Some (putters t !! w) → is_Some (putters t' !! w)) ∧
  (∀ r, is_Some (getters t !! r) → is_Some (getters t' !! r)).
Proof.
  destruct e as [w ev|r ev]; simpl; intros Hstep.
  - apply writer_step_commit in Hstep as (u & wd & Hw & _ & ->). simpl.
    split; [|done]. intros w1 ?. rewrite lookup_insert_is_Some'. tauto.
  - unfold reader_step in Hstep.
    destruct (getters t !! r) as [d|]; [|done]. simpl in Hstep.
    destruct (step _ _ _ _) as [g|]; [|done]. injection Hstep as <-. simpl.
    split; [done|]. intros r1 ?. rewrite lookup_insert_is_Some'. tauto.
Qed.

(** ** No object is a part of an upload *)

(** The writer [w] has completed an upload of [data] for [key] on [host]. *)
Definition completed_by (t : transfers) (w : addr) (host key : string)
    (data : bytes) : Prop :=
  ∃ u l d, putters t !! w = Some u ∧ u_host u = host ∧ u_key u = key ∧
           p_done (u_putter u) = Some (Completed l d) ∧
           p_hash (u_putter u) = data.

(** An entry [v] under [k] on [host] that a writer has published: the
    bytes given to a writer that has completed, or their digest. *)
Definition published_by (t : transfers) (host k : string) (v : option bytes)
    : Prop :=
  ∃ w key data,
    completed_by t w host key data ∧
    (k = key ∧ v = Some data ∨
     k = md5_path key ∧ v = Some (list_byte_of_string (digest data))).

(** The entry under [k] on [host] is what it was in [t0], or has been
    published since. *)
Definition whole (t0 t : transfers) (host k : string) : Prop :=
  objects (bucket_at host t) !! k = objects (bucket_at host t0) !! k ∨
  published_by t host k (objects (bucket_at host t) !! k).

(** What a writer has completed stays completed. *)
Lemma transfers_step_completed e t t' w host key data :
  sound t → transfers_step e t = Some t' →
  completed_by t w host key data → completed_by t' w host key data.
Proof.
  intros [Hat _] Hstep (u & l & d & Hw & Hh & Hk & Hd & Hdata).
  destruct e as [w0 ev|r ev]; simpl in Hstep.
  - apply writer_step_commit in Hstep as (u0 & wd & Hw0 & Hstep & ->).
    destruct (decide (w = w0)) as [->|Hne].
    + assert (u0 = u) as -> by congruence.
      destruct (world_step_ended _ _ _ _ _ _ (Hat w0 u Hw) Hd Hstep) as (Hp & _).
      exists (upload_after u wd), l, d. simpl. rewrite lookup_insert_eq, Hp.
      by split_and!.
    + exists u, l, d. simpl. by rewrite lookup_insert_ne.
  - apply reader_step_frame in Hstep as (_ & Hp & _).
    exists u, l, d. by rewrite Hp.
Qed.

(** What a step publishes under a key, if anything, is the bytes of a
    completed upload or their digest. *)
Lemma publishes_lookup e t' host obj k :
  sound t' →
  publishes e t' host obj !! k = obj !! k ∨
  published_by t' host k (publishes e t' host obj !! k).
Proof.
  intros [Hat _]. unfold publishes. destruct e as [w ev|]; [|by left].
  destruct (putters t' !! w) as [u|] eqn:Hw; [|by left].
  case_decide as Hh; [|by left]. unfold published.
  destruct (p_done (u_putter u)) as [[l d|]|] eqn:Hd;
    [|by destruct ev as [[]| |]; left..].
  assert (completed_by t' w host (u_key u) (p_hash (u_putter u))) as Hby
    by (by exists u, l, d).
  destruct (Hat w u Hw) as (Hwf & _).
  apply (completed_inv digest) in Hd as (_ & _ & _ & _ & ->); [|done].
  destruct ev as [[]| |]; try by left.
  - destruct (decide (k = u_key u)) as [->|Hne].
    + right. eexists w, _, _. split; [done|]. left. by rewrite lookup_insert_eq.
    + left. by rewrite lookup_insert_ne.
  - destruct (decide (k = md5_path (u_key u))) as [->|Hne].
    + right. eexists w, _, _. split; [done|]. right. by rewrite lookup_insert_eq.
    + left. by rewrite lookup_insert_ne.
Qed.

(** What was whole stays whole while the objects stay and no upload is
    forgotten. *)
Lemma whole_extends t0 t t' host k :
  objects (bucket_at host t') = objects (bucket_at host t) →
  putters t ⊆ putters t' → whole t0 t host k → whole t0 t' host k.
Proof.
  intros Hobj Hsub. unfold whole. rewrite Hobj. intros [?|Hpub]; [by left|].
  right. destruct Hpub as (w & key & data & (u & l & d & Hw & ?) & ?).
  exists w, key, data. split; [|done]. exists u, l, d. split; [|done].
  by eapply lookup_weaken.
Qed.

Lemma transfers_step_whole t0 e t t' :
  sound t → transfers_step e t = Some t' →
  (∀ host k, whole t0 t host k) → ∀ host k, whole t0 t' host k.
Proof.
  intros Hs Hstep Hwhole host k.
  destruct (transfers_step_sound _ _ _ Hs Hstep) as [Hs' Hobj].
  unfold whole. rewrite Hobj.
  destruct (publishes_lookup e t' host (objects (bucket_at host t)) k Hs')
    as [->|Hpub]; [|by right].
  destruct (Hwhole host k) as [?|(w & key & data & Hby & Hv)]; [by left|].
  right. exists w, key, data. eauto using transfers_step_completed.
Qed.

Lemma transfers_run_sound evs t t' :
  sound t → transfers_run evs t = Some t' → sound t'.
Proof.
  apply (run_steps_invariant _ sound). intros e t1 t2 Hs Hstep.
  by destruct (transfers_step_sound _ _ _ Hs Hstep).
Qed.

(** No reader ever finds a torn object.  A program drives any number of
    readers and writers in any order, on any network.  In every state it
    reaches, every object of every bucket is the object that was there
    when the run began, or all the bytes given to a writer that has
    completed its upload for that key, or the digest of all the bytes
    given to such a writer, under the key of the digest: never a part of
    an upload, never the parts of two. *)
Theorem no_torn_object evs t0 t :
  sound t0 → transfers_run evs t0 = Some t →
  ∀ host k, whole t0 t host k.
Proof.
  intros Hs Hrun.
  enough (sound t ∧ ∀ host k, whole t0 t host k) as [_ ?] by done.
  eapply (run_steps_invariant _
            (λ t, sound t ∧ ∀ host k, whole t0 t host k)); [| |exact Hrun].
  - intros e t1 t2 [Hs1 Hw1] Hstep. split.
    + by destruct (transfers_step_sound _ _ _ Hs1 Hstep).
    + by eapply transfers_step_whole.
  - split; [done|]. by left.
Qed.

(** ** Uploads nobody holds *)

(** An upload that is open at the service of [host] and that no writer
    of the program holds. *)
Definition orphan (host : string) (uid : positive) (t : transfers) : Prop :=
  is_Some (multiparts (bucket_at host t) !! uid) ∧
  ∀ w u, putters t !! w = Some u → p_done (u_putter u) = None →
         u_host u = host → u_uid u ≠ uid.

(** A step of a transfer leaves such an upload as it is. *)
Lemma transfers_step_orphan host uid e t t' :
  sound t → orphan host uid t → transfers_step e t = Some t' →
  orphan host uid t' ∧
  multiparts (bucket_at host t') !! uid = multiparts (bucket_at host t) !! uid.
Proof.
  intros [Hat Hap] [Hm Hno] Hstep.
  enough (multiparts (bucket_at host t') !! uid
          = multiparts (bucket_at host t) !! uid ∧
          ∀ w u, putters t' !! w = Some u → p_done (u_putter u) = None →
                 ∃ u0, putters t !! w = Some u0 ∧ p_done (u_putter u0) = None ∧
                       u_host u0 = u_host u ∧ u_uid u0 = u_uid u) as [Heq Hwas].
  { split; [|done]. split; [by rewrite Heq|]. intros w u Hw Hd Hh.
    destruct (Hwas w u Hw Hd) as (u0 & Hw0 & Hd0 & Hh0 & <-).
    apply (Hno w u0 Hw0 Hd0). congruence. }
  destruct e as [w ev|r ev]; simpl in Hstep.
  - apply writer_step_commit in Hstep as (u & wd & Hw & Hstep & ->).
    split;
      [|intros w1 u1;
        exact (commit_was_open w u ev wd t w1 u1 Hw (Hat w u Hw) Hstep)].
    rewrite bucket_at_commit. case_decide as Hh; [|done]. subst host.
    destruct (world_step_attached _ _ _ _ _ (Hat w u Hw) Hstep) as (_ & Hkeep & _).
    apply Hkeep. intros Hd Heq. by apply (Hno w u Hw Hd).
  - apply reader_step_frame in Hstep as (Hs & Hp & _).
    unfold bucket_at, site_at. rewrite Hs, Hp. split; [done|].
    intros w u Hw Hd. by exists u.
Qed.

(** So does the request that initiates another upload. *)
Lemma initiated_at_orphan host uid host' key t :
  orphan host uid t → orphan host uid (initiated_at host' key t) ∧
  multiparts (bucket_at host (initiated_at host' key t)) !! uid
  = multiparts (bucket_at host t) !! uid ∧
  (host' = host → (initiate_upload key (bucket_at host t)).1 ≠ uid).
Proof.
  intros [[m Hm] Hno].
  destruct (initiate_upload_other key _ _ _ Hm) as [Hne Hm'].
  assert (multiparts (bucket_at host (initiated_at host' key t)) !! uid
          = multiparts (bucket_at host t) !! uid) as Heq.
  { unfold initiated_at, bucket_at. destruct (decide (host' = host)) as [->|].
    - rewrite site_at_put_site. unfold bucket_at in *. simpl in *. congruence.
    - by rewrite site_at_put_site_ne. }
  split_and!; [|done|by intros _ ?]. split; [by rewrite Heq, Hm|done].
Qed.

(** And so does the writer [PutWriter] opens. *)
Lemma open_writer_orphan host uid c host' key keys h t :
  orphan host uid t → orphan host uid (open_writer c host' key keys h t) ∧
  multiparts (bucket_at host (open_writer c host' key keys h t)) !! uid
  = multiparts (bucket_at host t) !! uid.
Proof.
  intros Ho. destruct (initiated_at_orphan host uid host' key t Ho)
    as ([Hm _] & Heq & Hne).
  split; [|done]. split; [done|]. intros w u. simpl.
  intros [[_ <-]|[_ Hw]]%lookup_insert_Some; [|by apply (proj2 Ho w)]. simpl.
  intros _ ->. by apply Hne.
Qed.

(** ** A reader among writers *)

(** The steps of the reader [r] in a run. *)
Definition steps_of (r : addr) (evs : list transfer_event) : list event :=
  omap (λ e, match e with
             | OnReader r' ev => if decide (r' = r) then Some ev else None
             | OnWriter _ _ => None
             end) evs.

Lemma steps_of_cons r e evs :
  steps_of r (e :: evs) = steps_of r [e] ++ steps_of r evs.
Proof. unfold steps_of. simpl. by case_match. Qed.

(** No upload on the host of the download stores under the key of the
    download, be it an object or a digest. *)
Definition clear_of (d : download) (t : transfers) : Prop :=
  map_Forall (λ _ u, u_host u = d_host d →
                     u_key u ≠ d_key d ∧ md5_path (u_key u) ≠ d_key d)
    (putters t).

#[export] Instance clear_of_dec d t : Decision (clear_of d t).
Proof. apply _. Defined.

(** The answers to a download depend on the object it reads only. *)
Lemma server_of_same d d' t t' :
  d_host d' = d_host d → d_key d' = d_key d →
  same_transfer (d_getter d) (d_getter d') →
  objects (bucket_at (d_host d) t') !! d_key d
  = objects (bucket_at (d_host d) t) !! d_key d →
  server_of net d' t' = server_of net d t.
Proof.
  intros Hh Hk (Hc & Htot & _) Hobj.
  unfold server_of, range_exchange, get_range, bucket_at in *.
  by rewrite Hh, Hk, Hc, Htot, Hobj.
Qed.

(** What a step publishes is not under the key of a download that is
    clear of the uploads. *)
Lemma publishes_clear e t' d obj :
  clear_of d t' →
  publishes e t' (d_host d) obj !! d_key d = obj !! d_key d.
Proof.
  intros Hclear. unfold publishes. destruct e as [w ev|]; [|done].
  destruct (putters t' !! w) as [u|] eqn:Hw; [|done].
  case_decide as Hh; [|done]. destruct (Hclear w u Hw Hh) as [Hk Hm].
  unfold published. repeat case_match; by rewrite ?lookup_insert_ne.
Qed.

Lemma transfers_step_clear e t t' d :
  clear_of d t → transfers_step e t = Some t' → clear_of d t'.
Proof.
  intros Hclear Hstep w1 u1. destruct e as [w ev|r ev]; simpl in Hstep.
  - apply writer_step_commit in Hstep as (u & wd & Hw & _ & ->). simpl.
    destruct (decide (w1 = w)) as [->|Hne].
    + rewrite lookup_insert_eq. intros [= <-]. by apply (Hclear w u).
    + rewrite lookup_insert_ne by done. apply Hclear.
  - apply reader_step_frame in Hstep as (_ & -> & _). apply Hclear.
Qed.

(** The download behind a reader after a step of the transfers. *)
Lemma transfers_step_download r d e t t' :
  getters t !! r = Some d → transfers_step e t = Some t' →
  ∃ g, run digest (server_of net d t) (steps_of r [e]) (d_getter d) = Some g ∧
       getters t' !! r = Some (download_after d g).
Proof.
  intros Hr Hstep. destruct e as [w ev|r' ev]; simpl in *.
  - apply writer_step_frame in Hstep as (-> & _).
    exists (d_getter d). rewrite Hr. by destruct d.
  - case_decide as Heq.
    + subst r'. rewrite (reader_step_getter _ _ r ev t d Hr) in Hstep.
      rewrite run_cons. destruct (step _ _ ev _) as [g|]; [|done].
      revert Hstep. intros [= <-]. exists g. simpl. by rewrite lookup_insert_eq.
    + apply reader_step_frame in Hstep as (_ & _ & ->); [|done].
      exists (d_getter d). rewrite Hr. by destruct d.
Qed.

Lemma transfers_step_server r d e t t' g :
  sound t → clear_of d t → transfers_step e t = Some t' →
  run digest (server_of net d t) (steps_of r [e]) (d_getter d) = Some g →
  server_of net (download_after d g) t' = server_of net d t.
Proof.
  intros Hs Hclear Hstep Hrun. apply server_of_same; [done..| |].
  - by eapply run_same.
  - destruct (transfers_step_sound _ _ _ Hs Hstep) as [_ ->].
    apply publishes_clear. by eapply transfers_step_clear.
Qed.

(** A reader among writers of other objects reads what it would read
    alone.  Whatever the steps the other transfers take between its own,
    the download behind the reader ends as the run of its own steps, in
    their order, against the bucket as it was at the start. *)
Theorem reader_among_writers r evs t t' d :
  sound t → getters t !! r = Some d → clear_of d t →
  transfers_run evs t = Some t' →
  ∃ g, run digest (server_of net d t) (steps_of r evs) (d_getter d) = Some g ∧
       getters t' !! r = Some (download_after d g).
Proof.
  unfold transfers_run. revert t d.
  induction evs as [|e evs IH]; intros t d Hs Hr Hclear.
  - intros [= <-]. exists (d_getter d). rewrite Hr. by destruct d.
  - rewrite run_steps_cons.
    destruct (transfers_step e t) as [t1|] eqn:Hstep; [|done].
    cbn [mbind option_bind].
    destruct (transfers_step_download r d e t t1 Hr Hstep) as (g1 & Hg1 & Hr1).
    pose proof (transfers_step_server r d e t t1 g1 Hs Hclear Hstep Hg1) as Hsrv.
    intros Hrun.
    destruct (IH t1 (download_after d g1)) as (g & Hg & Hr'); [..|done|].
    + by destruct (transfers_step_sound _ _ _ Hs Hstep).
    + done.
    + by eapply (transfers_step_clear e t t1 (download_after d g1)).
    + exists g. split; [|done]. rewrite Hsrv in Hg.
      by rewrite steps_of_cons, run_app, Hg1.
Qed.

(** ** A reader of an object that is replaced *)

(** The digests of the downloads have seen what the readers were given. *)
Definition readers_accounted (t : transfers) : Prop :=
  map_Forall (λ _ d, accounted (d_getter d)) (getters t).

Lemma transfers_step_accounted e t t' :
  readers_accounted t → transfers_step e t = Some t' → readers_accounted t'.
Proof.
  intros Hacc. unfold readers_accounted. destruct e as [w ev|r ev]; simpl.
  - by intros (-> & _)%writer_step_frame.
  - unfold reader_step. destruct (getters t !! r) as [d|] eqn:Hr; [|done].
    simpl. destruct (step _ _ ev _) as [g|] eqn:Hstep; [|done].
    intros [= <-]. apply map_Forall_insert_2; [|done]. simpl.
    eapply step_accounted; [|done]. exact (Hacc r d Hr).
Qed.

(** A download stays the download of its object, under its configuration
    and with the digest it was opened with. *)
Lemma transfers_run_same r evs t t' d0 :
  getters t !! r = Some d0 → transfers_run evs t = Some t' →
  ∃ d, getters t' !! r = Some d ∧ same_transfer (d_getter d0) (d_getter d).
Proof.
  intros Hr Hrun.
  eapply (run_steps_invariant _
            (λ t', ∃ d, getters t' !! r = Some d ∧
                        same_transfer (d_getter d0) (d_getter d)));
    [|by exists d0|exact Hrun].
  intros e t1 t2 (d1 & Hr1 & Hsame) Hstep.
  destruct (transfers_step_download r d1 e t1 t2 Hr1 Hstep) as (g & Hg & Hr2).
  exists (download_after d1 g). split; [done|]. simpl.
  etrans; [done|]. by eapply run_same.
Qed.

(** C25: a reader is warned of a torn read.  Whatever the writers do to the
    object while a download of it runs, complete an upload of the key or
    several: when the configuration asks for the check and a digest was
    stored with the object when the download was opened, a reader that is
    told of the end of the stream and of no error by [Close] has read
    bytes of that digest. *)
Theorem reader_warned evs t t' r d0 d n dg :
  readers_accounted t → getters t !! r = Some d0 →
  Md5Check (g_config (d_getter d0)) = true → g_md5 (d_getter d0) = Some dg →
  transfers_run evs t = Some t' → getters t' !! r = Some d →
  Read n (d_getter d) = Some (ReadEOF, d_getter d) →
  (Close digest (d_getter d)).1 = None →
  digest (g_read (d_getter d)) = dg.
Proof.
  intros Hacc Hr0 Hmd Hdg Hrun Hr Hread Hclose.
  destruct (transfers_run_same r evs t t' d0 Hr0 Hrun) as (d' & Hr' & Hc & _ & Hm).
  assert (d' = d) as -> by congruence.
  eapply (accounted_verdict digest n); [|done..| |].
  - eapply (run_steps_invariant _ readers_accounted) in Hrun;
      [exact (Hrun r d Hr)|apply transfers_step_accounted|done].
  - by rewrite Hc.
  - by rewrite Hm.
Qed.

End interleaved.

(** ** Examples *)

Definition bye : bytes := list_byte_of_string "bye, S3".

Definition logs_host : string := "logs.s3.amazonaws.com".

Definition logs_keys : Keys := mkKeys "AK" "SK".

(** Two writers of one key, at an empty service. *)
Definition two_writers : transfers :=
  open_writer small_config logs_host "a.txt" logs_keys ∅
    (open_writer small_config logs_host "a.txt" logs_keys ∅ no_transfers).

Lemma two_writers_sound : sound plain_digest plain_tag hello_net two_writers.
Proof. do 2 (apply sound_opened; [done|]). apply sound_idle. Qed.

(** The two uploads, part by part in turns: the first completes, then the
    second, then the first stores its digest. *)
Definition crossed : list transfer_event :=
  [OnWriter 1 (Upload (PutWrite hello)); OnWriter 2 (Upload (PutWrite bye));
   OnWriter 1 (Upload PutEmit); OnWriter 2 (Upload PutEmit);
   OnWriter 1 (Upload PutEmit);
   OnWriter 2 (Upload (PutUploaded 0)); OnWriter 1 (Upload (PutUploaded 1));
   OnWriter 1 (Upload (PutUploaded 0));
   OnWriter 2 (Upload PutCloses); OnWriter 1 (Upload PutCloses);
   OnWriter 1 (Upload (PutUploaded 2)); OnWriter 2 (Upload (PutUploaded 1));
   OnWriter 1 (Upload PutComplete); OnWriter 2 (Upload PutComplete);
   OnWriter 1 StoreDigest]%positive.

Definition crossed_final : transfers :=
  Eval vm_compute in
    default no_transfers
      (transfers_run plain_digest plain_tag hello_net crossed two_writers).

Example crossed_run :
  transfers_run plain_digest plain_tag hello_net crossed two_writers
  = Some crossed_final.
Proof. by vm_compute. Qed.

(** While the parts of both uploads are at the service the bucket has no
    object. *)
Example crossed_parts :
  ∃ t, transfers_run plain_digest plain_tag hello_net (take 12 crossed)
         two_writers = Some t ∧
       objects (bucket_at logs_host t) = ∅ ∧
       m_parts <$> multiparts (bucket_at logs_host t)
       = {[ 1%positive := {[ 0%nat := take 4 hello; 1%nat := take 4 (drop 4 hello);
                             2%nat := drop 8 hello ]};
            2%positive := {[ 0%nat := take 4 bye; 1%nat := drop 4 bye ]} ]}.
Proof. eexists. split; [by vm_compute|]. by vm_compute. Qed.

(** Each object is whole, but the two do not belong together: the object
    is what the second writer was given, and the digest beside it is the
    digest of what the first was given. *)
Example crossed_digest :
  objects (bucket_at logs_host crossed_final) !! "a.txt" = Some bye ∧
  objects (bucket_at logs_host crossed_final) !! md5_path "a.txt"
  = Some (list_byte_of_string (plain_digest hello)).
Proof. by vm_compute. Qed.

Lemma no_torn_object_witness :
  ∀ host k, whole plain_digest two_writers crossed_final host k.
Proof.
  exact (no_torn_object plain_digest plain_tag hello_net crossed two_writers
           crossed_final two_writers_sound crossed_run).
Defined.

(** A reader of [hello.txt] and a writer of [b.txt] on one host. *)
Definition hello_download : download :=
  mkDownload (open_getter small_config 10 (Some "hello, S3!"%string))
    logs_host "hello.txt" logs_keys.

Definition reading : transfers :=
  open_writer small_config logs_host "b.txt" logs_keys ∅
    (mkTransfers {[ 1%positive := hello_download ]} ∅
       {[ logs_host := hello_site ]}).

Lemma reading_sound : sound plain_digest plain_tag hello_net reading.
Proof. apply sound_opened; [done|]. apply sound_idle. Qed.

Lemma reading_clear : clear_of hello_download reading.
Proof. compute_done. Qed.

(** The download and the upload in turns. *)
Definition mixed : list transfer_event :=
  [OnReader 1 EvIssue; OnWriter 1 (Upload (PutWrite bye));
   OnReader 1 EvIssue; OnWriter 1 (Upload PutEmit);
   OnReader 1 (EvFinish 1); OnWriter 1 (Upload (PutUploaded 0));
   OnReader 1 (EvFinish 0); OnWriter 1 (Upload PutCloses);
   OnReader 1 (EvRead 8); OnWriter 1 (Upload (PutUploaded 1));
   OnReader 1 EvIssue; OnWriter 1 (Upload PutComplete);
   OnReader 1 (EvFinish 2); OnWriter 1 StoreDigest;
   OnReader 1 (EvRead 8); OnReader 1 (EvRead 8)]%positive.

Definition mixed_final : transfers :=
  Eval vm_compute in
    default no_transfers
      (transfers_run plain_digest plain_tag hello_net mixed reading).

Example mixed_run :
  transfers_run plain_digest plain_tag hello_net mixed reading = Some mixed_final.
Proof. by vm_compute. Qed.

Example mixed_objects :
  objects (bucket_at logs_host mixed_final) !! "b.txt" = Some bye ∧
  (d ← getters mixed_final !! 1%positive; Some (g_read (d_getter d)))
  = Some hello.
Proof. by vm_compute. Qed.

Lemma reader_among_writers_witness :
  ∃ g, run plain_digest (server_of hello_net hello_download reading)
         (steps_of 1%positive mixed) (d_getter hello_download) = Some g ∧
       getters mixed_final !! 1%positive = Some (download_after hello_download g).
Proof.
  exact (reader_among_writers plain_digest plain_tag hello_net 1%positive mixed
           reading mixed_final hello_download reading_sound eq_refl
           reading_clear mixed_run).
Defined.

(** A reader of [hello.txt] and a writer that replaces it. *)
Definition shout : bytes := list_byte_of_string "HELLO, s3?".

Definition tearing : transfers :=
  open_writer small_config logs_host "hello.txt" logs_keys ∅
    (mkTransfers {[ 1%positive := hello_download ]} ∅
       {[ logs_host := hello_site ]}).

(** The reader has its first part when the upload begins, and asks for
    the others when it has completed. *)
Definition torn : list transfer_event :=
  [OnReader 1 EvIssue; OnReader 1 (EvFinish 0); OnReader 1 (EvRead 4);
   OnWriter 1 (Upload (PutWrite shout)); OnWriter 1 (Upload PutEmit);
   OnWriter 1 (Upload PutEmit); OnWriter 1 (Upload (PutUploaded 0));
   OnWriter 1 (Upload (PutUploaded 1)); OnWriter 1 (Upload PutCloses);
   OnWriter 1 (Upload (PutUploaded 2)); OnWriter 1 (Upload PutComplete);
   OnReader 1 EvIssue; OnReader 1 EvIssue; OnReader 1 (EvFinish 1);
   OnReader 1 (EvFinish 2); OnReader 1 (EvRead 4); OnReader 1 (EvRead 4)]%positive.

(** The reader has read the first part of the old object and the rest of
    the new one, and [Close] reports the integrity error. *)
Example torn_read_detected :
  ∃ t d, transfers_run plain_digest plain_tag hello_net torn tearing = Some t ∧
         getters t !! 1%positive = Some d ∧
         g_read (d_getter d) = take 4 hello ++ drop 4 shout ∧
         Read 4 (d_getter d) = Some (ReadEOF, d_getter d) ∧
         (Close plain_digest (d_getter d)).1 = Some IntegrityError.
Proof. do 2 eexists. split_and!; by vm_compute. Qed.

(** The same under a configuration that does not ask for the check: the
    reader is told of nothing. *)
Definition unchecked_config : Config :=
  {| Client := None; Concurrency := 2; PartSize := 4; NTry := 2;
     Md5Check := false; Scheme := "https" |}.

Definition tearing_unchecked : transfers :=
  open_writer small_config logs_host "hello.txt" logs_keys ∅
    (mkTransfers
       {[ 1%positive :=
            mkDownload (open_getter unchecked_config 10 (Some "hello, S3!"%string))
              logs_host "hello.txt" logs_keys ]} ∅
       {[ logs_host := hello_site ]}).

Example torn_read_unnoticed :
  ∃ t d, transfers_run plain_digest plain_tag hello_net torn tearing_unchecked
         = Some t ∧
         getters t !! 1%positive = Some d ∧
         g_read (d_getter d) = take 4 hello ++ drop 4 shout ∧
         Read 4 (d_getter d) = Some (ReadEOF, d_getter d) ∧
         (Close plain_digest (d_getter d)).1 = None.
Proof. do 2 eexists. split_and!; by vm_compute. Qed.

Definition mixed_download : download :=
  Eval vm_compute in default hello_download (getters mixed_final !! 1%positive).

Lemma reading_accounted : readers_accounted reading.
Proof. by apply map_Forall_singleton. Qed.

Lemma reader_warned_witness :
  plain_digest (g_read (d_getter mixed_download)) = "hello, S3!"%string.
Proof.
  exact (reader_warned plain_digest plain_tag hello_net mixed reading
           mixed_final 1%positive hello_download mixed_download 8
           "hello, S3!" reading_accounted eq_refl eq_refl eq_refl mixed_run
           eq_refl eq_refl eq_refl).
Defined.
