(* ===== verification/Client.v ===== *)
(** * Client: programs that open transfers and drive them

    A client of the package calls its functions, assigns to what it
    exports, and drives the readers and writers it was given: it writes,
    reads and closes, and the workers behind the transfers take their steps
    in between.  [Session] has the statements and [Interleaved] the steps
    of the transfers; this file puts them in one program.

    - [action] is a statement of [Session] ([Does]) or a step of a transfer
      ([Moves]); [act] takes one, [perform] a list of them.
    - [opened] is what a statement may do to the transfers and the
      service: nothing, register a download, open an upload at the
      service and register it, or open an upload at the service and lose
      the answer.
    - [consistent] is the invariant of a program: the configurations have
      parts of a positive size ([sized]) and the transfers are [sound].

    The theorems.  Every statement, whatever its arguments and whether it
    returns or panics, changes the transfers by [opened], keeps the
    program consistent and stores no object ([run_opened],
    [statement_opens]).  In every state of every program, every object of
    the service is an object the service had before the program began, or
    all the bytes the program gave to a writer that has completed, or
    their digest ([program_objects_whole]).  An upload that the service
    has opened and whose answer was lost stays open whatever the program
    does ([lost_answer_leaks]).  The programs that drive no transfer are
    those of [Session] ([perform_statements]).

    The examples: [crossing] is a program with two writers of one key,
    whose reader is told of an integrity error for an object that is
    whole; [retrying] one that asks again for a writer after an answer was
    lost. *)

From Stdlib Require Import ZArith String List Lia.
From stdpp Require Import base tactics option list numbers strings gmap.
From S2P Require Import Prelude GoRuntime Types NetUrl Url Engine Scheduler.
From S2P Require Import Service Getter Putter Roundtrip Facade Session.
From S2P Require Import Transfer Program Interleaved.

Local Open Scope Z_scope.

(** ** What a statement does to the transfers *)

Inductive opened (cfgs : gmap addr Config) (t : transfers) : transfers → Prop :=
| opened_nothing : opened cfgs t t
| opened_download d :
    opened cfgs t
      (mkTransfers (<[fresh (dom (getters t)) := d]> (getters t)) (putters t)
         (sites t))
| opened_orphan host key : opened cfgs t (initiated_at host key t)
| opened_writer ac cfg host key keys h :
    cfgs !! ac = Some cfg →
    opened cfgs t (open_writer cfg host key keys h t).

(** ** Programs *)

Inductive action :=
| Does (k : call)
| Moves (e : transfer_event).

(** The configurations of the program have parts of a positive size. *)
Definition sized (s : state transfers) : Prop :=
  map_Forall (λ _ cfg, 0 < PartSize cfg) (configs s).

(** And so have those the client builds or assigns. *)
Definition sized_call (k : call) : Prop :=
  match k with
  | CallConfig cfg | AssignConfig _ cfg => 0 < PartSize cfg
  | _ => True
  end.

Definition sized_action (a : action) : Prop :=
  match a with Does k => sized_call k | Moves _ => True end.

#[export] Instance sized_dec s : Decision (sized s).
Proof. unfold sized. apply _. Defined.

#[export] Instance sized_action_dec a : Decision (sized_action a).
Proof. destruct a as [[]|]; simpl; apply _. Defined.

Section client.
Context {P : UrlParser} (dial : URL → delivery).
Context (digest etag : bytes → string) (net : nat → nat → delivery).

#[local] Existing Instance transfer_engine.
#[local] Existing Instance transfer_frame.

Local Abbreviation G := (transfer_engine dial).

(** ** The constructors *)

(** The configuration [reads] returns is the one its pointer names. *)
Lemma reads_Ret c b s x s1 :
  reads c b s = (Ret x, s1) → s1 = s ∧ ∃ ac, configs s !! ac = Some x.1.
Proof.
  intros Hr. pose proof (reads_state c b s) as Hs. rewrite Hr in Hs.
  split; [done|]. revert Hr. unfold reads. rewrite bind_load.
  destruct c as [ac|]; [|done]. simpl.
  destruct (configs s !! ac) as [cfg|] eqn:Hc; [|done].
  rewrite bind_load. destruct b as [ab|]; [|done].
  destruct (sel Buckets s !! ab) as [bkt|]; [|done]. rewrite bind_load.
  repeat case_match; try done. intros [= <- _]. eauto.
Qed.

Lemma open_download_opened u c b s :
  opened (configs s) (engine s) (engine (open_download dial u c b s).2).
Proof.
  rewrite open_download_reads. unfold bind.
  destruct (reads c b s) as [[x|v|] s1] eqn:Hr;
    pose proof (reads_state c b s) as Hs; rewrite Hr in Hs; simpl in Hs;
    subst s1; [|apply opened_nothing..].
  unfold opens_download, bind, gets.
  destruct (answer _ _) as [[[total md5] hdr]|e|e]; [|apply opened_nothing..].
  apply opened_download.
Qed.

Lemma open_upload_opened u h c b s :
  opened (configs s) (engine s) (engine (open_upload dial u h c b s).2).
Proof.
  rewrite open_upload_reads. unfold bind.
  destruct (reads c b s) as [[x|v|] s1] eqn:Hr;
    pose proof (reads_state c b s) as Hs; rewrite Hr in Hs; simpl in Hs;
    subst s1; [|apply opened_nothing..].
  apply reads_Ret in Hr as (_ & ac & Hc). unfold opens_upload.
  destruct (dial u); [|apply opened_nothing|].
  - exact (opened_writer _ _ ac x.1 (url_Host u) (url_key u) x.2 h Hc).
  - exact (opened_orphan _ _ (url_Host u) (url_key u)).
Qed.

(** The writer [newPutter] returns is new, and registered; so is the
    reader [newGetter] returns. *)
Lemma open_upload_hands u h c b s w e s' :
  open_upload dial u h c b s = (Ret (Some w, e), s') →
  putters (engine s) !! w = None ∧ is_Some (putters (engine s') !! w).
Proof.
  rewrite open_upload_reads. unfold bind.
  destruct (reads c b s) as [[x|v|] s1] eqn:Hr; [|done..].
  apply reads_Ret in Hr as (-> & _). unfold opens_upload.
  destruct (dial u); [|done..]. intros [= <- _ <-]. split.
  - apply (not_elem_of_dom (D := gset addr)), is_fresh.
  - simpl. by rewrite lookup_insert_eq.
Qed.

Lemma open_download_hands u c b s r h e s' :
  open_download dial u c b s = (Ret (Some r, h, e), s') →
  getters (engine s) !! r = None ∧ is_Some (getters (engine s') !! r).
Proof.
  rewrite open_download_reads. unfold bind.
  destruct (reads c b s) as [[x|v|] s1] eqn:Hr; [|done..].
  apply reads_Ret in Hr as (-> & _). unfold opens_download, bind, gets.
  destruct (answer _ _) as [[[total md5] hdr]|?|?]; [|done..].
  intros [= <- _ _ <-]. split.
  - apply (not_elem_of_dom (D := gset addr)), is_fresh.
  - simpl. by rewrite lookup_insert_eq.
Qed.

(** ** The statements *)

(** An entry point is [prepare], [Url] and a constructor: what the
    constructor opens is what the entry point opens. *)
Lemma entry_opened {A} (T : URL → ptr → Go (state transfers) A) b path c s :
  (∀ u c' s1, same_heap s1 (T u c' s1).2 ∧
              opened (configs s1) (engine s1) (engine (T u c' s1).2)) →
  let s' := (bind (prepare c) (λ c', u <- Url b path c' ;; T u c') s).2 in
  opened (configs s') (engine s) (engine s').
Proof.
  intros HT. unfold bind at 1. rewrite prepare_run.
  pose proof (prepare_engine s c) as He.
  destruct (prepare_result s c) as [[c'|v|] s1]; simpl in *;
    [|rewrite He; apply opened_nothing..].
  unfold bind. pose proof (Url_state b path c' s1) as Hu.
  destruct (Url b path c' s1) as [[u|v|] s2]; simpl in *; subst s2;
    [|rewrite He; apply opened_nothing..].
  destruct (HT u c' s1) as [(_ & _ & -> & _) Hop]. by rewrite <-He.
Qed.

Lemma GetReader_opened b path c s :
  opened (configs (GetReader (G := G) b path c s).2) (engine s)
    (engine (GetReader (G := G) b path c s).2).
Proof.
  rewrite GetReader_prepare.
  apply (entry_opened (λ u c', newGetter u c' b)). intros u c' s1.
  split; [apply newGetter_frame|apply open_download_opened].
Qed.

Lemma PutWriter_opened b path h c s :
  opened (configs (PutWriter (G := G) b path h c s).2) (engine s)
    (engine (PutWriter (G := G) b path h c s).2).
Proof.
  rewrite PutWriter_prepare.
  apply (entry_opened (λ u c', newPutter u h c' b)). intros u c' s1.
  split; [apply newPutter_frame|apply open_upload_opened].
Qed.

(** Every statement opens at most one transfer and leaves the others and
    the objects of the service alone. *)
Lemma run_opened k s :
  opened (configs (run (G := G) k s).2) (engine s) (engine (run (G := G) k s).2).
Proof.
  destruct k; simpl; try apply opened_nothing.
  - rewrite New_run. apply opened_nothing.
  - rewrite Url_state. apply opened_nothing.
  - apply GetReader_opened.
  - apply PutWriter_opened.
  - unfold store. repeat case_match; apply opened_nothing.
  - unfold update. repeat case_match; apply opened_nothing.
Qed.

(** ** What opening keeps *)

Lemma opened_objects cfgs t t' host :
  opened cfgs t t' → objects (bucket_at host t') = objects (bucket_at host t).
Proof.
  intros [|d|host' key|ac cfg host' key keys h _]; [done..| |].
  - apply initiated_at_objects.
  - exact (initiated_at_objects host host' key t).
Qed.

Lemma opened_putters cfgs t t' : opened cfgs t t' → putters t ⊆ putters t'.
Proof.
  intros [|d|host key|ac cfg host key keys h _]; simpl; try done.
  apply insert_subseteq, (not_elem_of_dom (D := gset addr)), is_fresh.
Qed.

Lemma opened_getters cfgs t t' : opened cfgs t t' → getters t ⊆ getters t'.
Proof.
  intros [|d|host key|ac cfg host key keys h _]; simpl; try done.
  apply insert_subseteq, (not_elem_of_dom (D := gset addr)), is_fresh.
Qed.

Lemma opened_sound cfgs t t' :
  map_Forall (λ _ cfg, 0 < PartSize cfg) cfgs → opened cfgs t t' →
  sound digest etag net t → sound digest etag net t'.
Proof.
  intros Hsz [|d|host key|ac cfg host key keys h Hc] Hs; [done| | |].
  - by apply (sound_same _ _ _ t).
  - by apply sound_initiated.
  - apply sound_opened; [|done]. exact (Hsz ac cfg Hc).
Qed.

Lemma opened_whole cfgs t0 t t' host k :
  opened cfgs t t' → whole digest t0 t host k → whole digest t0 t' host k.
Proof.
  intros Hop. apply whole_extends; eauto using opened_objects, opened_putters.
Qed.

(** ** The invariant of a program *)

Definition consistent (s : state transfers) : Prop :=
  sized s ∧ sound digest etag net (engine s).

Lemma sized_same_heap s s' : same_heap s s' → sized s → sized s'.
Proof. intros (_ & _ & Hc & _). unfold sized. by rewrite Hc. Qed.

(** The client [prepare] installs leaves the size of the parts. *)
Lemma prepare_sized s c : sized s → sized (prepare_result s c).2.
Proof.
  intros Hs. unfold prepare_result.
  destruct (resolve s c) as [ac|]; [|done].
  destruct (configs s !! ac) as [cfg|] eqn:Hc; [|done].
  destruct (is_nil (Client cfg)); [|done].
  apply map_Forall_insert_2; [|done]. exact (Hs ac cfg Hc).
Qed.

Lemma run_sized k s : sized_call k → sized s → sized (run (G := G) k s).2.
Proof.
  intros Hk Hs. destruct k; simpl in *; try done.
  - by rewrite New_run.
  - by rewrite Url_state.
  - eapply sized_same_heap; [apply GetReader_heap|by apply prepare_sized].
  - eapply sized_same_heap; [apply PutWriter_heap|by apply prepare_sized].
  - by apply map_Forall_insert_2.
  - unfold store. repeat case_match; try done. by apply map_Forall_insert_2.
  - unfold update. by repeat case_match.
Qed.

(** ** Programs and their runs *)

(** A statement runs when the pointers it is given are nil or point to
    objects; a step of a transfer runs when the transfer can take it. *)
Definition act (a : action) (s : state transfers) : option (state transfers) :=
  match a with
  | Does k => if decide (call_ok s k) then Some (run (G := G) k s).2 else None
  | Moves e =>
      t ← transfers_step digest etag net e (engine s); Some (resumed t s)
  end.

Definition perform : list action → state transfers → option (state transfers) :=
  run_steps act.

(** The programs that drive no transfer are those of [Session]. *)
Lemma perform_statements ks s s' :
  perform (Does <$> ks) s = Some s' ↔ steps (G := G) s ks s'.
Proof.
  unfold perform. split.
  - revert s. induction ks as [|k ks IH]; intros s; simpl.
    + intros [= <-]. constructor.
    + case_decide; [|done]. simpl. intros ?%IH. by constructor.
  - induction 1 as [|s k ks s' Hk _ IH]; [done|]. simpl.
    by rewrite decide_True.
Qed.

Lemma act_consistent a s s' :
  sized_action a → consistent s → act a s = Some s' → consistent s'.
Proof.
  intros Ha [Hsz Hs]. destruct a as [k|e]; simpl.
  - case_decide; [|done]. intros [= <-].
    pose proof (run_sized k s Ha Hsz) as Hsz'. split; [done|].
    eapply opened_sound; [exact Hsz'|apply run_opened|done].
  - destruct (transfers_step _ _ _ e (engine s)) as [t|] eqn:Hstep; [|done].
    intros [= <-]. split; [by destruct s|].
    by destruct (transfers_step_sound _ _ _ _ _ _ Hs Hstep).
Qed.

Lemma act_whole t0 a s s' :
  consistent s → act a s = Some s' →
  (∀ host k, whole digest t0 (engine s) host k) →
  ∀ host k, whole digest t0 (engine s') host k.
Proof.
  intros [_ Hs]. destruct a as [k|e]; simpl.
  - case_decide; [|done]. intros [= <-] Hw host key.
    eapply opened_whole; [apply run_opened|done].
  - destruct (transfers_step _ _ _ e (engine s)) as [t|] eqn:Hstep; [|done].
    intros [= <-]. by apply (transfers_step_whole digest etag net t0 e).
Qed.

(** The package starts consistent, whatever the service holds. *)
Lemma init_consistent g st :
  consistent (init_state (mkTransfers g ∅ st)).
Proof.
  split; [by apply map_Forall_singleton|apply sound_idle].
Qed.

(** No program leaves a torn object at the service.  A program calls the
    functions of the package with any arguments, builds and assigns
    configurations with parts of a positive size, assigns to the exported
    variables, recovers from the panics, and drives any number of readers
    and writers in any order, on any network; the requests that open its
    uploads may be lost, or their answers.  In every state it reaches the
    transfers are sound, and every object of every bucket is an object the
    bucket had when the program began, or all the bytes given to a writer
    of the program that has completed, or the digest of such bytes under
    the key of the digest. *)
Theorem program_objects_whole acts s0 s :
  consistent s0 → Forall sized_action acts → perform acts s0 = Some s →
  consistent s ∧ ∀ host k, whole digest (engine s0) (engine s) host k.
Proof.
  intros Hs0 Hacts Hrun.
  eapply (run_steps_invariant_on _ sized_action
            (λ s, consistent s ∧
                  ∀ host k, whole digest (engine s0) (engine s) host k));
    [|exact Hacts| |exact Hrun].
  - intros a s1 s2 Ha [Hc Hw] Hact.
    eauto using act_consistent, act_whole.
  - split; [done|]. by left.
Qed.

(** A statement at the service.  Whatever its arguments, and whether it
    returns or panics, a statement of a program changes the transfers by
    [opened]: it opens at most one transfer and leaves the others as they
    are; it keeps the program consistent; and it stores no object and
    removes none. *)
Theorem statement_opens k s :
  sized_call k → consistent s →
  opened (configs (run (G := G) k s).2) (engine s) (engine (run (G := G) k s).2) ∧
  consistent (run (G := G) k s).2 ∧
  ∀ host, objects (bucket_at host (engine (run (G := G) k s).2))
          = objects (bucket_at host (engine s)).
Proof.
  intros Hk [Hsz Hs]. pose proof (run_opened k s) as Hop.
  pose proof (run_sized k s Hk Hsz) as Hsz'.
  split_and!; [done| |intros host; by eapply opened_objects].
  split; [done|]. by eapply opened_sound.
Qed.

(** ** An upload whose answer was lost *)

Lemma opened_keeps_orphan cfgs t t' host uid :
  opened cfgs t t' → orphan host uid t →
  orphan host uid t' ∧
  multiparts (bucket_at host t') !! uid = multiparts (bucket_at host t) !! uid.
Proof.
  intros [|d|host' key|ac cfg host' key keys h _] Ho; [done..| |].
  - by destruct (initiated_at_orphan host uid host' key t Ho) as (? & ? & _).
  - by apply open_writer_orphan.
Qed.

Lemma act_orphan host uid a s s' :
  consistent s → orphan host uid (engine s) → act a s = Some s' →
  orphan host uid (engine s') ∧
  multiparts (bucket_at host (engine s')) !! uid
  = multiparts (bucket_at host (engine s)) !! uid.
Proof.
  intros [_ Hs] Ho. destruct a as [k|e]; simpl.
  - case_decide; [|done]. intros [= <-].
    eapply opened_keeps_orphan; [apply run_opened|done].
  - destruct (transfers_step _ _ _ e (engine s)) as [t|] eqn:Hstep; [|done].
    intros [= <-]. by eapply transfers_step_orphan.
Qed.

(** The upload the service opens is held by nobody until the answer has
    reached the program. *)
Lemma initiated_orphan host key t :
  sound digest etag net t →
  let uid := (initiate_upload key (bucket_at host t)).1 in
  orphan host uid (initiated_at host key t) ∧
  multiparts (bucket_at host (initiated_at host key t)) !! uid
  = Some (mkMultipart key ∅).
Proof.
  intros Hs uid.
  assert (multiparts (bucket_at host (initiated_at host key t)) !! uid
          = Some (mkMultipart key ∅)) as Hm.
  { unfold initiated_at, bucket_at. rewrite site_at_put_site.
    apply initiate_upload_open. }
  split; [|done]. split; [by rewrite Hm|].
  intros w u Hw Hd <-. by eapply open_uid_taken.
Qed.

Lemma perform_orphan host uid acts s s' :
  consistent s → orphan host uid (engine s) → Forall sized_action acts →
  perform acts s = Some s' →
  multiparts (bucket_at host (engine s')) !! uid
  = multiparts (bucket_at host (engine s)) !! uid.
Proof.
  intros Hc Ho Hacts Hrun.
  enough (consistent s' ∧ orphan host uid (engine s') ∧
          multiparts (bucket_at host (engine s')) !! uid
          = multiparts (bucket_at host (engine s)) !! uid) as (_ & _ & ?) by done.
  eapply (run_steps_invariant_on _ sized_action
            (λ s', consistent s' ∧ orphan host uid (engine s') ∧
                   multiparts (bucket_at host (engine s')) !! uid
                   = multiparts (bucket_at host (engine s)) !! uid));
    [|exact Hacts|cbn beta; by split_and!|exact Hrun].
  intros a s1 s2 Ha (Hc1 & Ho1 & Heq) Hact.
  destruct (act_orphan host uid a s1 s2 Hc1 Ho1 Hact) as [Ho2 Heq2].
  split_and!; [by eapply act_consistent|done|by etrans].
Qed.

(** C24: an upload whose answer is lost is never cleaned up.  When the
    request that initiates an upload reaches the service and its answer
    is lost, [PutWriter] returns the error and no writer; the service has
    opened the upload, and whatever the program does afterwards: calls,
    assignments, steps of its transfers, other uploads of the same key,
    the upload stays open at the service, with no part. *)
Theorem lost_answer_leaks b path h c s ac cfg bkt acc u e acts s' :
  consistent s →
  resolve s c = Some ac → Url_reads s b (Some ac) cfg bkt acc →
  url_Parse (Url_format (Scheme cfg) (Name bkt) (Domain acc) path) = inl u →
  dial u = Unanswered e →
  Forall sized_action acts →
  perform acts (PutWriter (G := G) b path h c s).2 = Some s' →
  (PutWriter (G := G) b path h c s).1 = Ret (None, Some e) ∧
  multiparts (bucket_at (url_Host u) (engine s')) !! upload_id u (engine s)
  = Some (mkMultipart (url_key u) ∅).
Proof.
  intros [Hsz Hs] Hr Hreads Hp Hdial Hacts.
  destruct (Url_reads_prepared _ _ _ _ _ _ _ Hr Hreads) as (cl & _ & Hreads').
  rewrite (PutWriter_goes_on (G := G) _ _ _ _ _ _ _ _ _ _ Hr Hreads Hp).
  simpl.
  rewrite (open_upload_unanswered dial _ _ _ _ _ _ _ _ _ Hreads' Hdial).
  set (s1 := (prepare_result s c).2). simpl. intros Hrun. split; [done|].
  assert (engine (initiated u s1)
          = initiated_at (url_Host u) (url_key u) (engine s)) as He.
  { unfold s1. by rewrite <-(prepare_engine s c). }
  destruct (initiated_orphan (url_Host u) (url_key u) (engine s) Hs) as [Ho Hm].
  rewrite <-He in Ho, Hm. rewrite <-Hm.
  apply (perform_orphan _ _ acts (initiated u s1)); [|done..].
  split; [by apply prepare_sized|]. rewrite He. by apply sound_initiated.
Qed.

End client.

(** ** Examples *)

(** A program with two writers of one key.  It makes an account, a
    bucket and a configuration, asks for two writers of [a.txt], drives
    the two uploads in turns as in [crossed], then asks for a reader of
    [a.txt] and reads to the end of the stream. *)
Definition crossing : list action :=
  [Does (CallNew "" logs_keys);
   Does (CallBucket (Some 1%positive) "logs");
   Does (CallConfig small_config);
   Does (CallPutWriter (Some 1%positive) "a.txt" ∅ (Some 2%positive));
   Does (CallPutWriter (Some 1%positive) "a.txt" ∅ (Some 2%positive))]
  ++ (Moves <$> crossed)
  ++ [Does (CallGetReader (Some 1%positive) "a.txt" (Some 2%positive))]
  ++ (Moves <$> [OnReader 1 EvIssue; OnReader 1 EvIssue;
                 OnReader 1 (EvFinish 0); OnReader 1 (EvFinish 1);
                 OnReader 1 (EvRead 8); OnReader 1 (EvRead 8)]%positive).

Definition crossing_final : state transfers :=
  Eval vm_compute in
    default (init_state no_transfers)
      (perform open_line plain_digest plain_tag hello_net crossing
         (init_state no_transfers)).

Example crossing_run :
  perform open_line plain_digest plain_tag hello_net crossing
    (init_state no_transfers) = Some crossing_final.
Proof. by vm_compute. Qed.

Lemma crossing_sized : Forall sized_action crossing.
Proof. compute_done. Qed.

(** Both uploads have completed without an error and the object is the
    whole of what the second writer was given; the reader has read it to
    the end; and [Close] reports an integrity error, the digest beside the
    object being that of the first upload. *)
Example crossing_reader_fails :
  (λ u, p_done (u_putter u)) <$> putters (engine crossing_final)
  = {[ 1%positive := Some (Completed [(0, "hell"); (1, "o, S"); (2, "3!")]%nat
                             "hello, S3!");
       2%positive := Some (Completed [(0, "bye,"); (1, " S3")]%nat "bye, S3") ]} ∧
  ∃ d, getters (engine crossing_final) !! 1%positive = Some d ∧
       g_read (d_getter d) = bye ∧
       Read 8 (d_getter d) = Some (ReadEOF, d_getter d) ∧
       (Close plain_digest (d_getter d)).1 = Some IntegrityError.
Proof. split; [by vm_compute|]. eexists. by vm_compute. Qed.

Lemma program_objects_whole_witness :
  consistent plain_digest plain_tag hello_net crossing_final ∧
  ∀ host k, whole plain_digest no_transfers (engine crossing_final) host k.
Proof.
  exact (program_objects_whole open_line plain_digest plain_tag hello_net
           crossing (init_state no_transfers) crossing_final
           (init_consistent plain_digest plain_tag hello_net ∅ ∅)
           crossing_sized crossing_run).
Defined.

Lemma transfer_example_consistent :
  consistent plain_digest plain_tag hello_net transfer_example.
Proof. split; [by apply map_Forall_singleton|apply sound_idle]. Qed.

Lemma statement_opens_witness :
  let s' := (run (G := transfer_engine open_line)
               (CallPutWriter (Some 1%positive) "notes.txt" hello_header None)
               transfer_example).2 in
  opened (configs s') (engine transfer_example) (engine s') ∧
  consistent plain_digest plain_tag hello_net s' ∧
  ∀ host, objects (bucket_at host (engine s'))
          = objects (bucket_at host (engine transfer_example)).
Proof.
  exact (statement_opens open_line plain_digest plain_tag hello_net
           (CallPutWriter (Some 1%positive) "notes.txt" hello_header None)
           transfer_example I transfer_example_consistent).
Defined.

(** A network on which every first request arrives and no answer comes
    back. *)
Definition hung_line (u : URL) : delivery := Unanswered (mkError "timeout").

(** What the program does after the failed [PutWriter]: it tries again,
    and asks for a reader. *)
Definition retrying : list action :=
  [Does (CallPutWriter (Some 1%positive) "notes.txt" hello_header None);
   Does (CallGetReader (Some 1%positive) "hello.txt" None)].

Definition retried_final : state transfers :=
  Eval vm_compute in
    default transfer_example
      (perform hung_line plain_digest plain_tag hello_net retrying
         (PutWriter (G := transfer_engine hung_line) (Some 1%positive)
            "notes.txt" hello_header None transfer_example).2).

(** The second attempt has left a second upload. *)
Example retried_uploads :
  multiparts (bucket_at logs_host (engine retried_final))
  = {[ 1%positive := mkMultipart "notes.txt" ∅;
       2%positive := mkMultipart "notes.txt" ∅ ]} ∧
  putters (engine retried_final) = ∅.
Proof. by vm_compute. Qed.

Lemma lost_answer_leaks_witness :
  (PutWriter (G := transfer_engine hung_line) (Some 1%positive) "notes.txt"
     hello_header None transfer_example).1
  = Ret (None, Some (mkError "timeout")) ∧
  multiparts (bucket_at (url_Host notes_url) (engine retried_final))
    !! upload_id notes_url (engine transfer_example)
  = Some (mkMultipart (url_key notes_url) ∅).
Proof.
  apply (lost_answer_leaks hung_line plain_digest plain_tag hello_net
           (Some 1%positive) "notes.txt" hello_header None transfer_example
           1%positive DefaultConfig_value (mkBucket (Some 1%positive) "logs")
           (mkS3 "s3.amazonaws.com" (mkKeys "AK" "SK")) notes_url
           (mkError "timeout") retrying retried_final);
    [exact transfer_example_consistent|done
    |by exists 1%positive, 1%positive, 1%positive|by vm_compute|done
    |compute_done|by vm_compute].
Defined.
