(* ===== verification/System.v ===== *)
(** * System: goroutines that call the entry points, and their transfers

    [Concurrent] runs calls of [GetReader] and [PutWriter] from several
    goroutines, one statement at a time, over any engine; [Interleaved]
    runs the transfers of a process side by side.  This file runs both at
    once, over the engine of [Transfer]: goroutines start calls at any
    time, take their statements in any order, and the transfers that have
    been handed out take their steps in between.

    - [move] is what happens next: a goroutine starts a call ([Starts]),
      the goroutine [tid] takes its next statement ([Statement]), or a
      transfer takes a step ([Transfer]); [system_step] takes a move and
      [system_run] a list of them.
    - [writer_at] and [reader_at] are the writer and the reader a call has
      returned; [owned] says that what was returned is registered, and was
      returned to one goroutine only.

    The theorems.  A statement of a goroutine changes the transfers by
    [opened] ([thread_step_opened]).  Whatever the moves, the program
    stays consistent and every object of the service is whole
    ([system_objects_whole]); and the readers and writers the calls have
    returned are transfers of the state, no two calls having been given
    the same one ([system_owned]). *)

From Stdlib Require Import ZArith String List Lia.
From stdpp Require Import base tactics option list numbers strings gmap.
From S2P Require Import Prelude GoRuntime Types NetUrl Url Engine Scheduler.
From S2P Require Import Service Getter Putter Roundtrip Facade Session Concurrent.
From S2P Require Import Transfer Program Interleaved Client.

Local Open Scope Z_scope.

(** ** Moves *)

Inductive move :=
| Starts (e : entry) (c : ptr)
| Statement (tid : nat)
| Transfer (e : transfer_event).

(** The writer a call has returned, and the reader. *)
Definition writer_at (p : pc) : option addr :=
  match p with
  | Finished (Ret (RPut (Some w, _))) => Some w
  | _ => None
  end.

Definition reader_at (p : pc) : option addr :=
  match p with
  | Finished (Ret (RGet (Some r, _, _))) => Some r
  | _ => None
  end.

Section system.
Context {P : UrlParser} (dial : URL → delivery).
Context (digest etag : bytes → string) (net : nat → nat → delivery).

#[local] Existing Instance transfer_engine.
#[local] Existing Instance transfer_frame.

Local Abbreviation G := (transfer_engine dial).
Local Abbreviation system := (list thread * state transfers)%type.

#[export] Instance thread_ok_dec (s : state transfers) t : Decision (thread_ok s t).
Proof.
  unfold thread_ok, entry_ok, pc_ok. destruct t as [[] []]; simpl; apply _.
Defined.

(** A call starts with pointers that are nil or point to objects. *)
Definition system_step (m : move) (ρ : system) : option system :=
  match m with
  | Starts e c =>
      let t := mkThread e (AtEntry c) in
      if decide (thread_ok ρ.2 t) then Some (ρ.1 ++ [t], ρ.2) else None
  | Statement tid => pool_step (G := G) tid ρ
  | Transfer e =>
      t ← transfers_step digest etag net e (engine ρ.2);
      Some (ρ.1, resumed t ρ.2)
  end.

Definition system_run : list move → system → option system :=
  run_steps system_step.

(** ** A statement and the transfers *)

Lemma next_state {A} (m : Go (state transfers) A) (k : A → pc) s :
  (next m k s).2 = (m s).2.
Proof. unfold next. by destruct (m s) as [[] ?]. Qed.

(** The last line of a call: [Url] and the constructor. *)
Lemma step_call_opened e c s :
  opened (configs (step_call (G := G) e c s).2) (engine s)
    (engine (step_call (G := G) e c s).2).
Proof.
  destruct (step_call_frame (G := G) e c s) as (_ & _ & -> & _).
  destruct e as [b path|b path h]; unfold step_call; rewrite next_state;
    unfold bind; pose proof (Url_state b path c s) as Hu;
    destruct (Url b path c s) as [[u|v|] s1]; simpl in Hu; subst s1;
    try apply opened_nothing.
  - apply open_download_opened.
  - apply open_upload_opened.
Qed.

Lemma thread_step_opened e p s ρ :
  thread_step (G := G) e p s = Some ρ →
  opened (configs ρ.2) (engine s) (engine ρ.2) ∧ (sized s → sized ρ.2).
Proof.
  destruct p as [c|c|c|c cl|c|o]; simpl; intros [= <-].
  - rewrite step_entry_run. split; [apply opened_nothing|done].
  - rewrite step_check_run. split; [apply opened_nothing|done].
  - rewrite step_make_run. split; [apply opened_nothing|done].
  - rewrite step_write_run. destruct c as [a|]; [|split; [constructor|done]].
    destruct (configs s !! a) as [cfg|] eqn:Hc; [|split; [constructor|done]].
    split; [apply opened_nothing|]. intros Hsz.
    apply map_Forall_insert_2; [exact (Hsz a cfg Hc)|done].
  - split; [apply step_call_opened|].
    apply sized_same_heap, step_call_frame.
Qed.

(** What a statement returns to its call is new. *)
Lemma thread_step_hands e p s ρ :
  thread_step (G := G) e p s = Some ρ →
  (writer_at p = None ∧ reader_at p = None) ∧
  (∀ w, writer_at ρ.1 = Some w →
        putters (engine s) !! w = None ∧ is_Some (putters (engine ρ.2) !! w)) ∧
  (∀ r, reader_at ρ.1 = Some r →
        getters (engine s) !! r = None ∧ is_Some (getters (engine ρ.2) !! r)).
Proof.
  destruct p as [c|c|c|c cl|c|o]; simpl; intros [= <-]; (split; [done|]).
  - by rewrite step_entry_run.
  - rewrite step_check_run. by repeat case_match.
  - by rewrite step_make_run.
  - rewrite step_write_run. by repeat case_match.
  - destruct e as [b path|b path h]; unfold step_call, next, bind;
      pose proof (Url_state b path c s) as Hu;
      destruct (Url b path c s) as [[u|v|] s1]; simpl in Hu; subst s1;
      try done; simpl.
    + destruct (open_download dial u c b s) as [[[[r hd] err]|v|] s'] eqn:Ho;
        [|done..]. split; [done|]. simpl. intros r' Hr'.
      destruct r as [r|]; [|done]. injection Hr' as <-.
      by eapply open_download_hands.
    + destruct (open_upload dial u h c b s) as [[[w err]|v|] s'] eqn:Ho;
        [|done..]. split; [|done]. simpl. intros w' Hw'.
      destruct w as [w|]; [|done]. injection Hw' as <-.
      by eapply open_upload_hands.
Qed.

(** ** What the calls have been given *)

(** The transfers the calls hold, each registered and held by one call. *)
Definition held_once {A} (handle : pc → option addr) (m : gmap addr A)
    (ts : list thread) : Prop :=
  ∀ tid t a, ts !! tid = Some t → handle (th_pc t) = Some a →
    is_Some (m !! a) ∧
    ∀ tid' t', ts !! tid' = Some t' → handle (th_pc t') = Some a → tid' = tid.

Definition owned (ρ : system) : Prop :=
  held_once writer_at (putters (engine ρ.2)) ρ.1 ∧
  held_once reader_at (getters (engine ρ.2)) ρ.1.

Section held.
Context {A : Type} (handle : pc → option addr).
Implicit Types (m : gmap addr A) (ts : list thread).

Lemma held_once_mono m m' ts :
  (∀ a, is_Some (m !! a) → is_Some (m' !! a)) →
  held_once handle m ts → held_once handle m' ts.
Proof.
  intros Hm Hts tid t a Ht Ha. destruct (Hts tid t a Ht Ha). split; auto.
Qed.

Lemma held_once_start m ts t :
  handle (th_pc t) = None → held_once handle m ts →
  held_once handle m (ts ++ [t]).
Proof.
  intros Hno Hts.
  assert (∀ tid t1 a, (ts ++ [t]) !! tid = Some t1 →
                      handle (th_pc t1) = Some a → ts !! tid = Some t1) as Hold.
  { intros tid t1 a [?|[_ Hl]]%lookup_app_Some Ha; [done|].
    apply list_lookup_singleton_Some in Hl as [_ <-]. congruence. }
  intros tid t1 a Ht Ha.
  destruct (Hts tid t1 a (Hold _ _ _ Ht Ha) Ha) as [? Hu].
  split; [done|]. intros tid' t' Ht' Ha'. eauto.
Qed.

(** A call that held nothing takes a step, and is given a new transfer
    or nothing. *)
Lemma held_once_step m m' ts tid t t' :
  ts !! tid = Some t → handle (th_pc t) = None →
  (∀ a, is_Some (m !! a) → is_Some (m' !! a)) →
  (∀ a, handle (th_pc t') = Some a → m !! a = None ∧ is_Some (m' !! a)) →
  held_once handle m ts → held_once handle m' (<[tid := t']> ts).
Proof.
  intros Ht Hno Hm Hnew Hts.
  assert (∀ tid1 t1 a, (<[tid := t']> ts) !! tid1 = Some t1 →
            handle (th_pc t1) = Some a →
            (tid1 = tid ∧ m !! a = None ∧ is_Some (m' !! a)) ∨
            (tid1 ≠ tid ∧ ts !! tid1 = Some t1)) as Hcases.
  { intros tid1 t1 a [(-> & <- & _)|[? ?]]%list_lookup_insert_Some Ha;
      [left; split; [done|by apply Hnew]|by right]. }
  intros tid1 t1 a H1 Ha1.
  destruct (Hcases _ _ _ H1 Ha1) as [(-> & Hnone & Hsome)|[Hne Hold1]].
  - split; [done|]. intros tid2 t2 H2 Ha2.
    destruct (Hcases _ _ _ H2 Ha2) as [(-> & _)|[_ Hold2]]; [done|].
    destruct (Hts _ _ _ Hold2 Ha2) as [[x Hx] _]. congruence.
  - destruct (Hts _ _ _ Hold1 Ha1) as [Hin Hu]. split; [by apply Hm|].
    intros tid2 t2 H2 Ha2.
    destruct (Hcases _ _ _ H2 Ha2) as [(-> & Hnone & _)|[_ Hold2]]; [|eauto].
    destruct Hin as [x Hx]. congruence.
Qed.

End held.

(** ** The invariant of the system *)

(** The heap is well formed and the calls have good pointers; the program
    is consistent; and the calls own what they were given. *)
Definition well (ρ : system) : Prop :=
  pool_ok ρ ∧ consistent digest etag net ρ.2 ∧ owned ρ.

Lemma well_start s :
  heap_ok s → consistent digest etag net s → well ([], s).
Proof.
  intros Hok Hc. split_and!; [by split|done|]. by split; intros tid t a Ht.
Qed.

Lemma starts_well e c ρ :
  well ρ → thread_ok ρ.2 (mkThread e (AtEntry c)) →
  well (ρ.1 ++ [mkThread e (AtEntry c)], ρ.2).
Proof.
  intros ([Hok Hts] & Hc & Hw & Hr) Ht. split_and!; [|done|].
  - split; [done|]. apply Forall_app. by split; [|apply Forall_singleton].
  - split; by apply held_once_start.
Qed.

Lemma statement_well tid ρ ρ' :
  well ρ → pool_step (G := G) tid ρ = Some ρ' → well ρ'.
Proof.
  intros (Hok & [Hsz Hs] & Hw & Hr) Hstep.
  destruct (pool_step_ok _ _ _ Hok Hstep) as [Hok' _].
  apply pool_step_inv in Hstep as (t & p' & Ht & Hstep & Hts).
  destruct (thread_step_opened _ _ _ _ Hstep) as [Hop Hsz'].
  destruct (thread_step_hands _ _ _ _ Hstep) as ([Hw0 Hr0] & Hwn & Hrn).
  simpl in *. split_and!; [done| |].
  { split; [auto|]. exact (opened_sound _ _ _ _ _ _ (Hsz' Hsz) Hop Hs). }
  unfold owned. rewrite Hts. split.
  - eapply held_once_step; [done..| |done|done].
    intros a Ha. eapply lookup_weaken_is_Some; [done|]. by eapply opened_putters.
  - eapply held_once_step; [done..| |done|done].
    intros a Ha. eapply lookup_weaken_is_Some; [done|]. by eapply opened_getters.
Qed.

Lemma transfer_well e ρ t :
  well ρ → transfers_step digest etag net e (engine ρ.2) = Some t →
  well (ρ.1, resumed t ρ.2).
Proof.
  intros ([Hok Hts] & [Hsz Hs] & Hw & Hr) Hstep.
  pose proof (resumed_same_heap t ρ.2) as Hsame.
  destruct (transfers_step_dom _ _ _ _ _ _ Hstep) as [Hpd Hgd].
  split_and!.
  - split; [by eapply heap_ok_same_heap|]. eapply Forall_impl; [done|].
    intros th. by apply thread_ok_steady, same_heap_steady.
  - split; [by eapply sized_same_heap|].
    by destruct (transfers_step_sound _ _ _ _ _ _ Hs Hstep).
  - split; [exact (held_once_mono _ _ _ _ Hpd Hw)
           |exact (held_once_mono _ _ _ _ Hgd Hr)].
Qed.

Lemma system_step_well m ρ ρ' :
  well ρ → system_step m ρ = Some ρ' → well ρ'.
Proof.
  intros Hwell. destruct m as [e c|tid|e]; simpl.
  - case_decide; [|done]. intros [= <-]. by apply starts_well.
  - by apply statement_well.
  - destruct (transfers_step _ _ _ e _) as [t|] eqn:Hstep; [|done].
    intros [= <-]. by apply (transfer_well e).
Qed.

Lemma system_step_whole t0 m ρ ρ' :
  well ρ → system_step m ρ = Some ρ' →
  (∀ host k, whole digest t0 (engine ρ.2) host k) →
  ∀ host k, whole digest t0 (engine ρ'.2) host k.
Proof.
  intros (_ & [_ Hs] & _). destruct m as [e c|tid|e]; simpl.
  - case_decide; [|done]. by intros [= <-].
  - intros (t & p' & _ & Hstep & _)%pool_step_inv Hw host k.
    destruct (thread_step_opened _ _ _ _ Hstep) as [Hop _].
    by eapply opened_whole.
  - destruct (transfers_step _ _ _ e _) as [t|] eqn:Hstep; [|done].
    intros [= <-]. by apply (transfers_step_whole digest etag net t0 e).
Qed.

Lemma system_run_well ms ρ ρ' : well ρ → system_run ms ρ = Some ρ' → well ρ'.
Proof. apply (run_steps_invariant _ well), system_step_well. Qed.

(** C27: goroutines and transfers, in any order.  Calls of [GetReader]
    and [PutWriter] are started at any time, from any number of
    goroutines, on any configurations; their statements and the steps of
    the transfers they have been given are taken in any order, on any
    network.  In every state that is reached the heap is well formed and
    no call has met a dangling pointer, the uploads are attached to the
    service, and every object of every bucket is an object the bucket had
    at the start, or all the bytes given to a writer that has completed,
    or their digest. *)
Theorem system_objects_whole ms ρ0 ρ :
  well ρ0 → system_run ms ρ0 = Some ρ →
  pool_ok ρ ∧ consistent digest etag net ρ.2 ∧
  ∀ host k, whole digest (engine ρ0.2) (engine ρ.2) host k.
Proof.
  intros Hwell Hrun.
  enough (well ρ ∧ ∀ host k, whole digest (engine ρ0.2) (engine ρ.2) host k)
    as [(? & ? & _) ?] by done.
  eapply (run_steps_invariant _
            (λ ρ, well ρ ∧
                  ∀ host k, whole digest (engine ρ0.2) (engine ρ.2) host k));
    [|split; [done|by left]|exact Hrun].
  intros m ρ1 ρ2 [Hw1 Hwh] Hstep.
  eauto using system_step_well, system_step_whole.
Qed.

(** Every call gets a transfer of its own.  Whatever the order of
    the statements of the goroutines and of the steps of the transfers, a
    writer that [PutWriter] has returned is an upload of the state and a
    reader that [GetReader] has returned a download of the state, and no
    two calls have been returned the same writer, or the same reader. *)
Theorem system_owned ms ρ0 ρ tid1 tid2 t1 t2 :
  well ρ0 → system_run ms ρ0 = Some ρ →
  ρ.1 !! tid1 = Some t1 → ρ.1 !! tid2 = Some t2 →
  (∀ w, writer_at (th_pc t1) = Some w →
        is_Some (putters (engine ρ.2) !! w) ∧
        (writer_at (th_pc t2) = Some w → tid1 = tid2)) ∧
  (∀ r, reader_at (th_pc t1) = Some r →
        is_Some (getters (engine ρ.2) !! r) ∧
        (reader_at (th_pc t2) = Some r → tid1 = tid2)).
Proof.
  intros Hwell Hrun H1 H2.
  destruct (system_run_well _ _ _ Hwell Hrun) as (_ & _ & Hw & Hr).
  split; intros a Ha.
  - destruct (Hw tid1 t1 a H1 Ha) as [? Hu]. split; [done|].
    intros Ha2. symmetry. by eapply Hu.
  - destruct (Hr tid1 t1 a H1 Ha) as [? Hu]. split; [done|].
    intros Ha2. symmetry. by eapply Hu.
Qed.

End system.

(** ** Examples *)

(** A program state with an account, a bucket and a configuration of its
    own, without a client, at an empty service. *)
Definition shop : state transfers :=
  Eval vm_compute in
    run_all (G := transfer_engine open_line)
      [CallNew "" logs_keys; CallBucket (Some 1%positive) "logs";
       CallConfig small_config]
      (init_state no_transfers).

Definition a_put : entry := EPut (Some 1%positive) "a.txt" ∅.
Definition a_get : entry := EGet (Some 1%positive) "a.txt".

(** Two goroutines call [PutWriter] for one key on the configuration,
    statement by statement in turns: both find it without a client and
    each makes one.  The uploads behind the two writers then cross as in
    [crossed], and a third goroutine calls [GetReader] and reads. *)
Definition racing : list move :=
  [Starts a_put (Some 2%positive); Starts a_put (Some 2%positive)]
  ++ (Statement <$> [0; 1; 0; 1; 0; 1; 0; 1; 1; 0]%nat)
  ++ (Transfer <$> crossed)
  ++ [Starts a_get (Some 2%positive)]
  ++ (Statement <$> [2; 2; 2]%nat)
  ++ (Transfer <$> [OnReader 1 EvIssue; OnReader 1 EvIssue;
                    OnReader 1 (EvFinish 0); OnReader 1 (EvFinish 1);
                    OnReader 1 (EvRead 8); OnReader 1 (EvRead 8)]%positive).

Definition raced : list thread * state transfers :=
  Eval vm_compute in
    default ([], shop)
      (system_run open_line plain_digest plain_tag hello_net racing ([], shop)).

Example racing_run :
  system_run open_line plain_digest plain_tag hello_net racing ([], shop)
  = Some raced.
Proof. by vm_compute. Qed.

Lemma shop_well : well plain_digest plain_tag hello_net ([], shop).
Proof.
  apply well_start; [compute_done|]. split; [compute_done|apply sound_idle].
Qed.

(** The second call was the first to return: it holds the writer 1 and
    the first call the writer 2; two clients were made and the
    configuration has the second. *)
Example raced_threads :
  th_pc <$> raced.1
  = [Finished (Ret (RPut (Some 2%positive, None)));
     Finished (Ret (RPut (Some 1%positive, None)));
     Finished (Ret (RGet (Some 1%positive, ∅, None)))] ∧
  dom (clients raced.2) = {[ 1%positive; 2%positive ]} ∧
  Client <$> configs raced.2 !! 2%positive = Some (Some 2%positive).
Proof. by vm_compute. Qed.

Lemma system_objects_whole_witness :
  pool_ok raced ∧ consistent plain_digest plain_tag hello_net raced.2 ∧
  ∀ host k, whole plain_digest (engine shop) (engine raced.2) host k.
Proof.
  exact (system_objects_whole open_line plain_digest plain_tag hello_net
           racing ([], shop) raced shop_well racing_run).
Defined.

Lemma system_owned_witness :
  (∀ w, writer_at (Finished (Ret (RPut (Some 2%positive, None)))) = Some w →
        is_Some (putters (engine raced.2) !! w) ∧
        (writer_at (Finished (Ret (RPut (Some 1%positive, None)))) = Some w →
         0%nat = 1%nat)) ∧
  (∀ r, reader_at (Finished (Ret (RPut (Some 2%positive, None)))) = Some r →
        is_Some (getters (engine raced.2) !! r) ∧
        (reader_at (Finished (Ret (RPut (Some 1%positive, None)))) = Some r →
         0%nat = 1%nat)).
Proof.
  exact (system_owned open_line plain_digest plain_tag hello_net racing
           ([], shop) raced 0%nat 1%nat (mkThread a_put _) (mkThread a_put _)
           shop_well racing_run eq_refl eq_refl).
Defined.
