(* ===== verification/Atomic.v ===== *)
(** * Atomic: the object store that the transfers implement

    The service of [Service] takes an upload in pieces: a request that
    opens it, one request per part, a request that completes it and one
    that stores the digest.  The writers of a program send these requests
    in any order ([Interleaved]).  This file states what all of that
    amounts to for somebody who looks at the buckets only, and proves it.

    - The specification.  A store ([shelves]) holds a [shelf] per host: the objects
      by key and the headers stored with them.  It knows two operations
      ([operation]): [Put], which stores an object and its headers in one
      step, and [PutDigest], which stores the digest of an object under
      [.md5/key].  [store_step] takes an operation or none, [store_run] a
      list of them.  Two stores are the same ([same_store]) when every
      host has the same shelf; a host without shelf has the empty one.
    - The abstraction.  [abstraction] is the store a state of the
      transfers shows, and [effect] is the operation a step amounts to:
      the completion request of an upload is the [Put] of all the bytes
      given to its writer, the request after it is the [PutDigest], and
      every other step of a writer or of a reader is none.
      [linearization] collects the operations of a run, each with the
      writer it comes from, in the order of the run.

    The theorems.  A step of the transfers is the step of the store on
    its effect ([transfers_step_refines]); so the store a run leaves is
    the store of its linearization ([transfers_refine_store]), and the
    same holds for the programs of [Client] ([program_refines_store])
    and for the goroutines of [System] ([system_refines_store]).  In a
    linearization no operation occurs twice, and a writer that was open
    when the run began has a [Put] in it exactly when it has completed
    ([linearization_NoDup], [linearization_completed]).  On the side of
    the specification, the object under a key is what the last [Put] for
    it stored ([last_put_wins]), so the writer that completes last wins
    ([last_writer_wins]).  The store has no operation for a download; a
    download whose run shows no operation for its key reads one object,
    also when writers of that key send their parts meanwhile
    ([reader_between_puts]). *)

From Stdlib Require Import ZArith String List Lia.
From stdpp Require Import base tactics option list numbers strings gmap.
From S2P Require Import Prelude GoRuntime Types NetUrl Url Engine Scheduler.
From S2P Require Import Service Getter Putter Roundtrip Facade Session Concurrent.
From S2P Require Import Transfer Program Interleaved Client System.

Local Open Scope Z_scope.
#[local] Set Warnings "-clear-no-such-hyp".

(** ** The specification: an object store with atomic operations *)

(** What the store holds for one host. *)
Record shelf := mkShelf {
  sh_objects : gmap string bytes;
  sh_headers : gmap string Header;
}.

Definition empty_shelf : shelf := mkShelf ∅ ∅.

Inductive operation :=
| Put (host key : string) (data : bytes) (h : Header)
| PutDigest (host key : string) (md5 : string).

#[export] Instance shelf_eq_dec : EqDecision shelf.
Proof. solve_decision. Defined.

#[export] Instance operation_eq_dec : EqDecision operation.
Proof. solve_decision. Defined.

Abbreviation shelves := (gmap string shelf).

(** The shelf of a host; a host the store has nothing for is empty. *)
Definition shelf_at (host : string) (σ : shelves) : shelf :=
  default empty_shelf (σ !! host).

Definition op_host (op : operation) : string :=
  match op with Put host _ _ _ | PutDigest host _ _ => host end.

(** What an operation does to the shelf of its host. *)
Definition write (op : operation) (sh : shelf) : shelf :=
  match op with
  | Put _ key data h =>
      mkShelf (<[key := data]> (sh_objects sh)) (<[key := h]> (sh_headers sh))
  | PutDigest _ key d =>
      mkShelf (<[md5_path key := list_byte_of_string d]> (sh_objects sh))
        (sh_headers sh)
  end.

(** A step of the store: an operation, or nothing. *)
Definition store_step (o : option operation) (σ : shelves) : shelves :=
  match o with
  | Some op => <[op_host op := write op (shelf_at (op_host op) σ)]> σ
  | None => σ
  end.

Definition store_run (ops : list operation) (σ : shelves) : shelves :=
  foldl (λ σ op, store_step (Some op) σ) σ ops.

(** Two stores with the same shelves. *)
Definition same_store (σ σ' : shelves) : Prop :=
  ∀ host, shelf_at host σ = shelf_at host σ'.

Local Infix "≈" := same_store (at level 70).

#[export] Instance same_store_equiv : Equivalence same_store.
Proof.
  split.
  - by intros σ host.
  - by intros σ σ' H host.
  - intros σ1 σ2 σ3 H12 H23 host. by rewrite H12.
Qed.

#[export] Instance shelf_at_proper host : Proper (same_store ==> eq) (shelf_at host).
Proof. by intros σ σ' H. Qed.

Lemma shelf_at_step o σ host :
  shelf_at host (store_step o σ)
  = match o with
    | Some op => if decide (op_host op = host)
                 then write op (shelf_at host σ) else shelf_at host σ
    | None => shelf_at host σ
    end.
Proof.
  destruct o as [op|]; [|done]. unfold shelf_at at 1. cbn [store_step].
  case_decide as Hh.
  - subst host. by rewrite lookup_insert_eq.
  - by rewrite lookup_insert_ne.
Qed.

#[export] Instance store_step_proper o :
  Proper (same_store ==> same_store) (store_step o).
Proof. intros σ σ' H host. rewrite !shelf_at_step. by rewrite !(H host). Qed.

Lemma store_run_cons op ops σ :
  store_run (op :: ops) σ = store_run ops (store_step (Some op) σ).
Proof. done. Qed.

Lemma store_run_app ops1 ops2 σ :
  store_run (ops1 ++ ops2) σ = store_run ops2 (store_run ops1 σ).
Proof. unfold store_run. by rewrite foldl_app. Qed.

(** The run of operations that carry a tag. *)
Definition tagged_run {T} (ops : list (T * operation)) (σ : shelves) : shelves :=
  foldl (λ σ x, store_step (Some x.2) σ) σ ops.

Lemma tagged_run_untagged {T} (ops : list (T * operation)) σ :
  tagged_run ops σ = store_run (snd <$> ops) σ.
Proof. unfold tagged_run, store_run. by rewrite foldl_fmap. Qed.

#[export] Instance tagged_step_proper {T} (x : T * operation) :
  Proper (same_store ==> same_store) (λ σ, store_step (Some x.2) σ).
Proof. apply store_step_proper. Qed.

#[export] Instance store_run_proper ops :
  Proper (same_store ==> same_store) (store_run ops).
Proof.
  induction ops as [|op ops IH]; intros σ σ' H; [done|].
  exact (IH _ _ (store_step_proper (Some op) _ _ H)).
Qed.

(** An operation leaves the other hosts, and the other keys of its host,
    as they are. *)
Definition touches (host k : string) (op : operation) : bool :=
  match op with
  | Put host' key _ _ => bool_decide (host' = host ∧ key = k)
  | PutDigest host' key _ => bool_decide (host' = host ∧ md5_path key = k)
  end.

Lemma store_step_untouched op σ host k :
  touches host k op = false →
  sh_objects (shelf_at host (store_step (Some op) σ)) !! k
  = sh_objects (shelf_at host σ) !! k.
Proof.
  intros Ht. rewrite shelf_at_step. case_decide as Hh; [|done].
  destruct op as [host' key data h|host' key d]; simpl in *;
    apply bool_decide_eq_false in Ht;
    rewrite lookup_insert_ne; naive_solver.
Qed.

Lemma store_run_untouched ops σ host k :
  forallb (λ op, negb (touches host k op)) ops = true →
  sh_objects (shelf_at host (store_run ops σ)) !! k
  = sh_objects (shelf_at host σ) !! k.
Proof.
  revert σ. induction ops as [|op ops IH]; intros σ; [done|].
  rewrite store_run_cons. cbn [forallb].
  intros [Hop Hops]%andb_prop. rewrite IH by done.
  apply store_step_untouched. by destruct (touches host k op).
Qed.

(** The last [Put] wins: when an object is put under a key and no later
    operation touches the key, the store holds that object. *)
Theorem last_put_wins ops1 ops2 σ host key data h :
  forallb (λ op, negb (touches host key op)) ops2 = true →
  sh_objects (shelf_at host
     (store_run (ops1 ++ Put host key data h :: ops2) σ)) !! key = Some data.
Proof.
  intros Hops. rewrite store_run_app, store_run_cons.
  rewrite store_run_untouched by done.
  rewrite shelf_at_step, decide_True by done. simpl. by rewrite lookup_insert_eq.
Qed.

(** The digest beside an object is the one the last [PutDigest] for its
    key stored, whoever put the object. *)
Theorem last_digest_wins ops1 ops2 σ host key d :
  forallb (λ op, negb (touches host (md5_path key) op)) ops2 = true →
  sh_objects (shelf_at host
     (store_run (ops1 ++ PutDigest host key d :: ops2) σ)) !! md5_path key
  = Some (list_byte_of_string d).
Proof.
  intros Hops. rewrite store_run_app, store_run_cons.
  rewrite store_run_untouched by done.
  rewrite shelf_at_step, decide_True by done. simpl. by rewrite lookup_insert_eq.
Qed.

(** ** The abstraction *)

(** The shelf a site shows: its objects and the headers stored with
    them; the uploads that are open at the service are not seen. *)
Definition shelf_of (st : site) : shelf :=
  mkShelf (objects (st_bucket st)) (st_headers st).

Definition abstraction (t : transfers) : shelves := shelf_of <$> sites t.

(** The operation a step of a transfer amounts to, given the state after
    the step. *)
Definition effect (e : transfer_event) (t' : transfers) : option operation :=
  match e with
  | OnWriter w ev =>
      u ← putters t' !! w;
      match ev, p_done (u_putter u) with
      | Upload PutComplete, Some (Completed _ _) =>
          Some (Put (u_host u) (u_key u) (p_hash (u_putter u)) (u_header u))
      | StoreDigest, Some (Completed _ d) =>
          Some (PutDigest (u_host u) (u_key u) d)
      | _, _ => None
      end
  | OnReader _ _ => None
  end.

(** The transfer that takes the step. *)
Definition actor (e : transfer_event) : addr :=
  match e with OnWriter w _ => w | OnReader r _ => r end.

Lemma shelf_at_abstraction host t :
  shelf_at host (abstraction t) = shelf_of (site_at host t).
Proof.
  unfold shelf_at, abstraction, site_at. rewrite lookup_fmap.
  by destruct (sites t !! host).
Qed.

Lemma abstraction_same_sites t t' :
  sites t' = sites t → abstraction t' = abstraction t.
Proof. unfold abstraction. by intros ->. Qed.

Section refinement.
Context (digest etag : bytes → string) (net : nat → nat → delivery).

Local Abbreviation step := (transfers_step digest etag net).
Local Abbreviation run := (transfers_run digest etag net).
Local Abbreviation sound := (sound digest etag net).

(** The operation a step amounts to, with the writer it comes from. *)
Definition shown (e : transfer_event) (t' : transfers)
    : list (addr * operation) :=
  option_list (pair (actor e) <$> effect e t').

(** The operations of a run, each with the writer it comes from, in the
    order in which the requests reach the service. *)
Definition linearization : list transfer_event → transfers
    → list (addr * operation) :=
  run_trace step shown.

Lemma linearization_cons e evs t :
  linearization (e :: evs) t
  = match step e t with
    | Some t' => shown e t' ++ linearization evs t'
    | None => []
    end.
Proof. done. Qed.

Lemma elem_of_shown x e t' :
  x ∈ shown e t' ↔ effect e t' = Some x.2 ∧ x.1 = actor e.
Proof.
  unfold shown. destruct x as [w op], (effect e t') as [op'|]; simpl.
  - rewrite list_elem_of_singleton. naive_solver.
  - rewrite elem_of_nil. naive_solver.
Qed.

(** The shelf of a host after a step of a writer. *)
Lemma commit_shelf w u ev wd t host :
  shelf_of (site_at host (commit w u ev wd t))
  = if decide (u_host u = host)
    then mkShelf (objects (w_svc wd))
           (if stores_headers ev (w_put wd)
            then <[u_key u := u_header u]> (st_headers (site_at host t))
            else st_headers (site_at host t))
    else shelf_of (site_at host t).
Proof.
  unfold site_at at 1, commit. simpl. case_decide as Hh.
  - subst host. by rewrite lookup_insert_eq.
  - by rewrite lookup_insert_ne.
Qed.

Lemma writer_step_refines w ev t t' :
  sound t → writer_step digest etag net w ev t = Some t' →
  abstraction t' ≈ store_step (effect (OnWriter w ev) t') (abstraction t).
Proof.
  intros [Hat _] (u & wd & Hw & Hstep & ->)%writer_step_commit host.
  destruct (world_step_attached _ _ _ _ _ _ _ _ (Hat w u Hw) Hstep)
    as (_ & _ & Hobj).
  rewrite shelf_at_step, !shelf_at_abstraction, commit_shelf.
  unfold effect. simpl in *. rewrite lookup_insert_eq. simpl.
  rewrite Hobj. unfold published, stores_headers, shelf_of, bucket_at.
  destruct ev as [[]| |], (p_done (w_put wd)) as [[]|]; simpl;
    by repeat case_decide; subst.
Qed.

(** A step of the transfers is a step of the store: the operation the
    step amounts to, or nothing. *)
Theorem transfers_step_refines e t t' :
  sound t → step e t = Some t' →
  abstraction t' ≈ store_step (effect e t') (abstraction t).
Proof.
  intros Hs Hstep. destruct e as [w ev|r ev]; simpl in Hstep.
  - by apply writer_step_refines.
  - apply reader_step_frame in Hstep as (Hsites & _). simpl.
    by rewrite (abstraction_same_sites _ _ Hsites).
Qed.

(** A run of the transfers is the run of the store on its
    linearization. *)
Lemma transfers_refine evs t0 t :
  sound t0 → run evs t0 = Some t →
  abstraction t ≈ tagged_run (linearization evs t0) (abstraction t0).
Proof.
  intros Hs Hrun.
  eapply (run_steps_simulation step shown _ abstraction same_store
            (λ _, True) sound); [|by apply Forall_true|done..].
  intros e t1 t2 _ Hs1 Hstep.
  destruct (transfers_step_sound _ _ _ _ _ _ Hs1 Hstep) as [Hs2 _].
  split; [done|]. rewrite (transfers_step_refines _ _ _ Hs1 Hstep).
  unfold shown. by destruct (effect e t2).
Qed.

(** ** Every upload takes effect once *)

(** An operation a writer has still to come to: its [Put] while its
    upload is open, its [PutDigest] while its digest is not stored. *)
Definition pending (t : transfers) (x : addr * operation) : Prop :=
  ∃ u, putters t !! x.1 = Some u ∧
       match x.2 with
       | Put _ _ _ _ => p_done (u_putter u) = None
       | PutDigest _ _ _ => u_digest u = false
       end.

(** The digest of an upload is stored by the request for it, once. *)
Lemma world_step_digest key uid e w w' :
  world_step digest etag net key uid e w = Some w' →
  match e with
  | StoreDigest => w_digest w = false ∧ w_digest w' = true
  | _ => w_digest w' = w_digest w
  end.
Proof.
  destruct e as [ev| |]; simpl.
  - destruct (put_step _ _ ev (w_put w)); [|done]. by intros [= <-].
  - repeat case_match; try done. by intros [= <-].
  - destruct (Complete _ _) as [p'|]; [|done]. simpl.
    repeat case_match; try done. by intros [= <-].
Qed.

(** What is pending after a step was pending before it. *)
Lemma transfers_step_pending e t t' x :
  sound t → step e t = Some t' → pending t' x → pending t x.
Proof.
  intros [Hat _] Hstep (u' & Hw' & Hx). destruct e as [w ev|r ev]; simpl in Hstep.
  - apply writer_step_commit in Hstep as (u & wd & Hw & Hstep & ->).
    simpl in Hw'. destruct (decide (x.1 = w)) as [Heq|Hne].
    + rewrite Heq, lookup_insert_eq in Hw'. injection Hw' as <-.
      exists u. rewrite Heq. split; [done|]. destruct x.2; simpl in *.
      * exact (world_step_was_open _ _ _ _ _ _ _ _ (Hat w u Hw) Hstep Hx).
      * apply world_step_digest in Hstep. simpl in Hstep.
        destruct ev; [congruence|naive_solver|congruence].
    + rewrite lookup_insert_ne in Hw' by done. by exists u'.
  - apply reader_step_frame in Hstep as (_ & Hp & _). exists u'. by rewrite <-Hp.
Qed.

(** The operation a step amounts to was pending before the step, and is
    not after it. *)
Lemma effect_pending e t t' op :
  sound t → step e t = Some t' → effect e t' = Some op →
  pending t (actor e, op) ∧ ¬ pending t' (actor e, op).
Proof.
  intros [Hat _] Hstep. destruct e as [w ev|r ev]; [|done]. simpl in Hstep.
  apply writer_step_commit in Hstep as (u & wd & Hw & Hstep & ->).
  unfold effect, pending. simpl. rewrite lookup_insert_eq. simpl.
  destruct (Hat w u Hw) as (Hwf & _).
  pose proof (world_step_put _ _ _ _ _ _ _ _ Hstep) as Hput.
  pose proof (world_step_digest _ _ _ _ _ Hstep) as Hdg.
  destruct ev as [[]| |], (p_done (w_put wd)) as [[l d|]|] eqn:Hd; try done;
    intros [= <-]; simpl in *.
  - split; [|intros (u' & [= <-] & Hx); simpl in Hx; congruence].
    exists u. split; [done|].
    destruct (p_done (u_putter u)) as [o|] eqn:Hd0; [|done].
    by destruct (put_step_done digest (put_exchange etag net) PutComplete
                   _ _ o Hwf Hd0 Hput).
  - destruct Hdg as [Hf Ht]. split; [by exists u|].
    intros (u' & [= <-] & Hx). simpl in Hx. congruence.
Qed.

Lemma linearization_pending evs t x :
  sound t → x ∈ linearization evs t → pending t x.
Proof.
  revert t. induction evs as [|e evs IH]; intros t Hs; [by intros ?%elem_of_nil|].
  rewrite linearization_cons. destruct (step e t) as [t'|] eqn:Hstep;
    [|by intros ?%elem_of_nil].
  destruct (transfers_step_sound _ _ _ _ _ _ Hs Hstep) as [Hs' _].
  intros [[He Ha]%elem_of_shown|Hx]%elem_of_app.
  - destruct x as [w op]. simpl in *. subst w.
    by destruct (effect_pending _ _ _ _ Hs Hstep He).
  - eauto using transfers_step_pending.
Qed.

(** No operation occurs twice in a linearization: an upload is put once,
    and its digest once. *)
Theorem linearization_NoDup evs t : sound t → NoDup (linearization evs t).
Proof.
  revert t. induction evs as [|e evs IH]; intros t Hs; [constructor|].
  rewrite linearization_cons. destruct (step e t) as [t'|] eqn:Hstep; [|constructor].
  destruct (transfers_step_sound _ _ _ _ _ _ Hs Hstep) as [Hs' _].
  apply NoDup_app. split_and!; [|intros x [He Ha]%elem_of_shown Hin|by apply IH].
  - unfold shown. destruct (effect e t'); repeat constructor.
    by intros ?%elem_of_nil.
  - destruct x as [w op]. simpl in *. subst w.
    destruct (effect_pending _ _ _ _ Hs Hstep He) as [_ Hnot].
    by apply Hnot, (linearization_pending evs).
Qed.

(** ** The operations of a linearization are the uploads completed *)

(** What names an upload; it stays through every step. *)
Definition names (u : upload) : string * string * Header :=
  (u_host u, u_key u, u_header u).

Lemma transfers_step_upload e t t' w u :
  sound t → step e t = Some t' → putters t !! w = Some u →
  ∃ u', putters t' !! w = Some u' ∧ names u' = names u ∧
        (is_Some (p_done (u_putter u)) → u_putter u' = u_putter u).
Proof.
  intros [Hat _] Hstep Hw. destruct e as [w0 ev|r ev]; simpl in Hstep.
  - apply writer_step_commit in Hstep as (u0 & wd & Hw0 & Hstep & ->). simpl.
    destruct (decide (w = w0)) as [->|Hne].
    + assert (u0 = u) as -> by congruence. exists (upload_after u wd).
      rewrite lookup_insert_eq. split_and!; [done..|]. intros [o Hd].
      by destruct (world_step_ended _ _ _ _ _ _ _ _ o (Hat w0 u Hw) Hd Hstep).
    + exists u. by rewrite lookup_insert_ne.
  - apply reader_step_frame in Hstep as (_ & Hp & _). exists u. by rewrite Hp.
Qed.

(** An upload that has ended stays as it is. *)
Lemma transfers_run_ended evs t t' w u :
  sound t → run evs t = Some t' →
  putters t !! w = Some u → is_Some (p_done (u_putter u)) →
  ∃ u', putters t' !! w = Some u' ∧ names u' = names u ∧
        u_putter u' = u_putter u.
Proof.
  intros Hs Hrun Hw Hd.
  enough (sound t' ∧ ∃ u', putters t' !! w = Some u' ∧ names u' = names u ∧
                           u_putter u' = u_putter u) as [_ ?] by done.
  eapply (run_steps_invariant _
            (λ t', sound t' ∧ ∃ u', putters t' !! w = Some u' ∧
                                    names u' = names u ∧
                                    u_putter u' = u_putter u)); [| |exact Hrun].
  - intros e t1 t2 (Hs1 & u1 & Hw1 & Hn1 & Hp1) Hstep.
    split; [by destruct (transfers_step_sound _ _ _ _ _ _ Hs1 Hstep)|].
    destruct (transfers_step_upload _ _ _ _ _ Hs1 Hstep Hw1)
      as (u2 & Hw2 & Hn2 & Hp2).
    exists u2. split_and!; [done|congruence|]. rewrite Hp2; [done|].
    by rewrite Hp1.
  - split; [done|]. by exists u.
Qed.

(** The step that ends an upload with a completion is its completion
    request. *)
Lemma transfers_step_ends e t t' w u u' l d :
  step e t = Some t' → putters t !! w = Some u → p_done (u_putter u) = None →
  putters t' !! w = Some u' → p_done (u_putter u') = Some (Completed l d) →
  e = OnWriter w (Upload PutComplete).
Proof.
  intros Hstep Hw Hd Hw' Hd'. destruct e as [w0 ev|r ev]; simpl in Hstep.
  - apply writer_step_commit in Hstep as (u0 & wd & Hw0 & Hstep & ->).
    simpl in Hw'. destruct (decide (w = w0)) as [->|Hne].
    + rewrite lookup_insert_eq in Hw'. injection Hw' as <-.
      assert (u0 = u) as -> by congruence.
      by destruct (world_step_ends _ _ _ _ _ _ (world_of u t) wd _ Hd Hstep Hd')
        as [[->|(_ & ? & [=])] _].
    + rewrite lookup_insert_ne in Hw' by done. congruence.
  - apply reader_step_frame in Hstep as (_ & Hp & _). congruence.
Qed.

(** A [Put] is the effect of a completion request, and carries what
    names the upload and all the bytes given to its writer. *)
Lemma effect_Put e t' host key data h :
  effect e t' = Some (Put host key data h) →
  ∃ u l d, putters t' !! actor e = Some u ∧ names u = (host, key, h) ∧
           p_done (u_putter u) = Some (Completed l d) ∧
           p_hash (u_putter u) = data.
Proof.
  destruct e as [w ev|]; [|done]. simpl.
  destruct (putters t' !! w) as [u|]; [|done]. simpl.
  destruct ev as [[]| |], (p_done (u_putter u)) as [[l d|]|] eqn:Hd; try done.
  intros [= <- <- <- <-]. by exists u, l, d.
Qed.

Lemma linearization_Put evs t0 t w host key data h :
  sound t0 → run evs t0 = Some t →
  (w, Put host key data h) ∈ linearization evs t0 →
  completed_by t w host key data.
Proof.
  revert t0. induction evs as [|e evs IH]; intros t0 Hs;
    [by intros _ ?%elem_of_nil|].
  unfold transfers_run. rewrite run_steps_cons, linearization_cons.
  destruct (step e t0) as [t1|] eqn:Hstep; [|done]. cbn [mbind option_bind].
  destruct (transfers_step_sound _ _ _ _ _ _ Hs Hstep) as [Hs1 _].
  intros Hrun [[He Ha]%elem_of_shown|Hx]%elem_of_app; [|by apply (IH t1)].
  simpl in He, Ha. subst w.
  apply effect_Put in He as (u & l & d & Hw & [= Hh Hk _] & Hd & Hdata).
  destruct (transfers_run_ended evs t1 t (actor e) u Hs1 Hrun Hw)
    as (u' & Hw' & [= Hh' Hk' _] & Hp'); [by rewrite Hd|].
  exists u', l, d. rewrite Hp'. split_and!; congruence.
Qed.

(** The step that ends an upload which is completed in the end amounts
    to its [Put]. *)
Lemma completing_effect e evs t0 t1 t w u0 u1 host key data :
  step e t0 = Some t1 → sound t1 → run evs t1 = Some t →
  putters t0 !! w = Some u0 → p_done (u_putter u0) = None →
  putters t1 !! w = Some u1 → is_Some (p_done (u_putter u1)) →
  completed_by t w host key data →
  (w, Put host key data (u_header u1)) ∈ shown e t1.
Proof.
  intros Hstep Hs1 Hrun Hw Hd Hw1 Hd1 (u & l & d & Hwt & Hh & Hk & Hdt & Hdata).
  destruct (transfers_run_ended evs t1 t w u1 Hs1 Hrun Hw1 Hd1)
    as (u' & Hw' & [= Hh' Hk' _] & Hp').
  assert (u' = u) as -> by congruence.
  rewrite (transfers_step_ends _ _ _ _ _ _ l d Hstep Hw Hd Hw1) by congruence.
  apply elem_of_shown. simpl. rewrite Hw1. simpl. rewrite <-Hp', Hdt.
  split; [|done]. do 2 f_equal; congruence.
Qed.

Lemma completed_linearized evs t0 t w u0 host key data :
  sound t0 → run evs t0 = Some t →
  putters t0 !! w = Some u0 → p_done (u_putter u0) = None →
  completed_by t w host key data →
  (w, Put host key data (u_header u0)) ∈ linearization evs t0.
Proof.
  revert t0 u0. induction evs as [|e evs IH]; intros t0 u0 Hs.
  - intros [= <-] Hw Hd (u & l & d & Hw' & _ & _ & Hd' & _). congruence.
  - unfold transfers_run. rewrite run_steps_cons, linearization_cons.
    destruct (step e t0) as [t1|] eqn:Hstep; [|done]. cbn [mbind option_bind].
    intros Hrun Hw Hd Hby. apply elem_of_app.
    destruct (transfers_step_sound _ _ _ _ _ _ Hs Hstep) as [Hs1 _].
    destruct (transfers_step_upload _ _ _ _ _ Hs Hstep Hw)
      as (u1 & Hw1 & [= _ _ Hhd] & _).
    rewrite <-Hhd. destruct (p_done (u_putter u1)) as [o|] eqn:Hd1.
    + left. by apply (completing_effect e evs t0 t1 t w u0 u1).
    + right. by apply (IH t1 u1).
Qed.

(** A writer that is open when the run begins has its [Put] in the
    linearization exactly when it has completed, with all the bytes it
    was given. *)
Lemma linearization_completed evs t0 t w u0 host key data :
  sound t0 → run evs t0 = Some t →
  putters t0 !! w = Some u0 → p_done (u_putter u0) = None →
  completed_by t w host key data
  ↔ (w, Put host key data (u_header u0)) ∈ linearization evs t0.
Proof. split; eauto using completed_linearized, linearization_Put. Qed.

End refinement.

(** ** Uploads are atomic puts *)

Section linearizable.
Context (digest etag : bytes → string) (net : nat → nat → delivery).

(** C18: the transfers implement an object store with atomic puts.  A
    program drives any number of readers and writers in any order, on any
    network.  The buckets it leaves, with the headers stored with the
    objects, are those of the store that has taken the operations of the
    linearization one after the other, from the buckets the run began
    with: every step of a transfer is one operation of the store or none.
    No operation occurs twice in the linearization; and a writer that was
    open when the run began has completed with some bytes exactly when
    the linearization has its [Put], of these bytes under its key with its
    headers.  So every upload takes effect at once, at its completion
    request, and once. *)
Theorem uploads_linearizable evs t0 t :
  sound digest etag net t0 → transfers_run digest etag net evs t0 = Some t →
  let ops := linearization digest etag net evs t0 in
  abstraction t ≈ store_run (snd <$> ops) (abstraction t0) ∧
  NoDup ops ∧
  ∀ w u0 host key data,
    putters t0 !! w = Some u0 → p_done (u_putter u0) = None →
    completed_by t w host key data ↔ (w, Put host key data (u_header u0)) ∈ ops.
Proof.
  intros Hs Hrun ops. split_and!.
  - rewrite <-tagged_run_untagged. by apply transfers_refine.
  - by apply linearization_NoDup.
  - intros w u0 host key data. by apply linearization_completed.
Qed.

(** The writer that completes last wins.  When the linearization of a
    run has the [Put] of a writer for a key and no operation for that key
    after it, the bucket holds under the key all the bytes given to that
    writer. *)
Theorem last_writer_wins evs t0 t ops1 ops2 w host key data h :
  sound digest etag net t0 → transfers_run digest etag net evs t0 = Some t →
  linearization digest etag net evs t0 = ops1 ++ (w, Put host key data h) :: ops2 →
  forallb (λ op, negb (touches host key op)) (snd <$> ops2) = true →
  objects (bucket_at host t) !! key = Some data.
Proof.
  intros Hs Hrun Hops Hlast.
  pose proof (transfers_refine _ _ _ _ _ _ Hs Hrun host) as Href.
  rewrite shelf_at_abstraction, tagged_run_untagged, Hops, fmap_app in Href.
  change (objects (bucket_at host t)) with (sh_objects (shelf_of (site_at host t))).
  rewrite Href. by apply last_put_wins.
Qed.

End linearizable.

(** ** A download between two puts *)

Section reader.
Context (digest etag : bytes → string) (net : nat → nat → delivery).

Local Abbreviation step := (transfers_step digest etag net).
Local Abbreviation sound := (sound digest etag net).

(** No operation of the list is for the key [k] of [host]. *)
Definition untouched (host k : string) (ops : list (addr * operation)) : bool :=
  forallb (λ x, negb (touches host k x.2)) ops.

(** A step that shows no operation for a key leaves what the bucket has
    under the key. *)
Lemma transfers_step_untouched e t t' host k :
  sound t → step e t = Some t' → untouched host k (shown e t') = true →
  objects (bucket_at host t') !! k = objects (bucket_at host t) !! k.
Proof.
  intros Hs Hstep Hun.
  pose proof (transfers_step_refines _ _ _ _ _ _ Hs Hstep host) as Href.
  change (sh_objects (shelf_of (site_at host t')) !! k
          = sh_objects (shelf_of (site_at host t)) !! k).
  rewrite <-!shelf_at_abstraction, Href. unfold shown in Hun.
  destruct (effect e t') as [op|]; [|done]. apply store_step_untouched.
  simpl in Hun. by destruct (touches host k op).
Qed.

(** C23: a download between two puts reads one object.  A reader runs
    among any number of writers, also writers of its own object that send
    their parts while it reads.  When no step of the run amounts to an
    operation of the store for the key of the download, which is the case
    as long as no upload for that key completes, the download ends as the
    run of its own steps, in their order, against the bucket as it was at
    the start: the reader has read parts of one object only. *)
Theorem reader_between_puts r evs t t' d :
  sound t → getters t !! r = Some d →
  transfers_run digest etag net evs t = Some t' →
  untouched (d_host d) (d_key d) (linearization digest etag net evs t) = true →
  ∃ g, Getter.run digest (server_of net d t) (steps_of r evs) (d_getter d)
       = Some g ∧
       getters t' !! r = Some (download_after d g).
Proof.
  unfold transfers_run. revert t d.
  induction evs as [|e evs IH]; intros t d Hs Hr.
  - intros [= <-] _. exists (d_getter d). rewrite Hr. by destruct d.
  - rewrite run_steps_cons, linearization_cons.
    destruct (step e t) as [t1|] eqn:Hstep; [|done]. cbn [mbind option_bind].
    unfold untouched. rewrite forallb_app. intros Hrun [He Hevs]%andb_prop.
    destruct (transfers_step_download _ _ _ r d e t t1 Hr Hstep)
      as (g1 & Hg1 & Hr1).
    destruct (transfers_step_sound _ _ _ _ _ _ Hs Hstep) as [Hs1 _].
    destruct (IH t1 (download_after d g1) Hs1 Hr1 Hrun Hevs) as (g & Hg & Hr').
    exists g. split; [|done]. rewrite steps_of_cons, run_app, Hg1.
    rewrite <-Hg. cbn [mbind option_bind]. f_equal. symmetry.
    apply server_of_same; [done..|by eapply run_same|].
    by apply (transfers_step_untouched e).
Qed.

End reader.

(** ** Statements and goroutines *)

(** Opening a transfer stores nothing: the request that initiates an
    upload leaves the shelves as they are. *)
Lemma initiated_at_abstraction host key t :
  abstraction (initiated_at host key t) ≈ abstraction t.
Proof.
  intros host'. rewrite !shelf_at_abstraction. unfold initiated_at.
  destruct (decide (host = host')) as [->|Hne].
  - by rewrite site_at_put_site.
  - by rewrite site_at_put_site_ne.
Qed.

Lemma opened_abstraction cfgs t t' :
  opened cfgs t t' → abstraction t' ≈ abstraction t.
Proof.
  intros [|d|host key|ac cfg host key keys h _]; [done..| |];
    apply initiated_at_abstraction.
Qed.

Section layers.
Context {P : UrlParser} (dial : URL → delivery).
Context (digest etag : bytes → string) (net : nat → nat → delivery).

Local Abbreviation act := (act dial digest etag net).
Local Abbreviation system_step := (system_step dial digest etag net).

(** The operations a program shows: those of the steps of its
    transfers; a statement shows none. *)
Definition action_shown (a : action) (s' : state transfers)
    : list (addr * operation) :=
  match a with Does _ => [] | Moves e => shown e (engine s') end.

Definition program_linearization : list action → state transfers
    → list (addr * operation) :=
  run_trace act action_shown.

(** And those goroutines and transfers show. *)
Definition move_shown (m : move) (ρ' : list thread * state transfers)
    : list (addr * operation) :=
  match m with Transfer e => shown e (engine ρ'.2) | _ => [] end.

Definition system_linearization : list move → list thread * state transfers
    → list (addr * operation) :=
  run_trace system_step move_shown.

Lemma shown_refines e t t' :
  sound digest etag net t → transfers_step digest etag net e t = Some t' →
  abstraction t' ≈ tagged_run (shown e t') (abstraction t).
Proof.
  intros Hs Hstep. rewrite (transfers_step_refines _ _ _ _ _ _ Hs Hstep).
  unfold shown. by destruct (effect e t').
Qed.

Lemma act_refines a s s' :
  consistent digest etag net s → act a s = Some s' →
  abstraction (engine s') ≈ tagged_run (action_shown a s') (abstraction (engine s)).
Proof.
  intros [_ Hs]. destruct a as [k|e]; simpl.
  - case_decide; [|done]. intros [= <-].
    eapply opened_abstraction, run_opened.
  - destruct (transfers_step _ _ _ e (engine s)) as [t|] eqn:Hstep; [|done].
    intros [= <-]. destruct s. by apply shown_refines.
Qed.

(** The programs of [Client] implement the store: the statements of the
    package store nothing, and the steps of the transfers are the
    operations of the linearization. *)
Theorem program_refines_store acts s0 s :
  consistent digest etag net s0 → Forall sized_action acts →
  perform dial digest etag net acts s0 = Some s →
  abstraction (engine s)
  ≈ tagged_run (program_linearization acts s0) (abstraction (engine s0)).
Proof.
  intros Hc Hacts Hrun.
  eapply (run_steps_simulation act action_shown _ (λ s, abstraction (engine s))
            same_store sized_action (consistent digest etag net));
    [|done..].
  intros a s1 s2 Ha Hc1 Hact.
  eauto using act_consistent, act_refines.
Qed.

Lemma system_step_refines m ρ ρ' :
  well digest etag net ρ → system_step m ρ = Some ρ' →
  abstraction (engine ρ'.2)
  ≈ tagged_run (move_shown m ρ') (abstraction (engine ρ.2)).
Proof.
  intros (_ & [_ Hs] & _). destruct m as [e c|tid|e]; simpl.
  - case_decide; [|done]. by intros [= <-].
  - intros (t & p' & _ & Hstep & _)%pool_step_inv.
    destruct (thread_step_opened _ _ _ _ _ Hstep) as [Hop _].
    by eapply opened_abstraction.
  - destruct (transfers_step _ _ _ e _) as [t|] eqn:Hstep; [|done].
    intros [= <-]. destruct ρ as [ts []]. by apply shown_refines.
Qed.

(** C28: goroutines and transfers implement the store.  Calls of
    [GetReader] and [PutWriter] are started at any time from any number
    of goroutines; their statements and the steps of the transfers they
    were given are taken in any order, on any network.  The buckets that
    are left, with the headers stored with the objects, are those of the
    store that has taken, from the buckets at the start, the operations
    the steps of the transfers amount to, in the order of the run: the
    statements of the calls store nothing, a completion request is one
    [Put] of all the bytes given to its writer, and the request after it
    one [PutDigest]. *)
Theorem system_refines_store ms ρ0 ρ :
  well digest etag net ρ0 →
  system_run dial digest etag net ms ρ0 = Some ρ →
  abstraction (engine ρ.2)
  ≈ store_run (snd <$> system_linearization ms ρ0) (abstraction (engine ρ0.2)).
Proof.
  intros Hwell Hrun. rewrite <-tagged_run_untagged.
  eapply (run_steps_simulation system_step move_shown _
            (λ ρ, abstraction (engine ρ.2)) same_store (λ _, True)
            (well digest etag net)); [|by apply Forall_true|done..].
  intros m ρ1 ρ2 _ Hw1 Hstep.
  eauto using system_step_well, system_step_refines.
Qed.

End layers.

(** ** Examples *)

(** The linearization of [crossed]: the first writer puts, the second
    puts over it, and the digest that is stored last is the first
    writer's. *)
Example crossed_linearization :
  linearization plain_digest plain_tag hello_net crossed two_writers
  = [(1%positive, Put logs_host "a.txt" hello ∅);
     (2%positive, Put logs_host "a.txt" bye ∅);
     (1%positive, PutDigest logs_host "a.txt" (plain_digest hello))].
Proof. by vm_compute. Qed.

(** The store after these three operations, from the empty store. *)
Example crossed_store :
  store_run
    [Put logs_host "a.txt" hello ∅; Put logs_host "a.txt" bye ∅;
     PutDigest logs_host "a.txt" (plain_digest hello)] ∅
  = {[ logs_host :=
         mkShelf {[ "a.txt"%string := bye;
                    md5_path "a.txt" := list_byte_of_string (plain_digest hello) ]}
           {[ "a.txt"%string := ∅ ]} ]}.
Proof. by vm_compute. Qed.

Lemma uploads_linearizable_witness :
  let ops := linearization plain_digest plain_tag hello_net crossed two_writers in
  abstraction crossed_final ≈ store_run (snd <$> ops) (abstraction two_writers) ∧
  NoDup ops ∧
  ∀ w u0 host key data,
    putters two_writers !! w = Some u0 → p_done (u_putter u0) = None →
    completed_by crossed_final w host key data
    ↔ (w, Put host key data (u_header u0)) ∈ ops.
Proof.
  exact (uploads_linearizable plain_digest plain_tag hello_net crossed
           two_writers crossed_final two_writers_sound crossed_run).
Defined.

Lemma last_writer_wins_witness :
  objects (bucket_at logs_host crossed_final) !! "a.txt" = Some bye.
Proof.
  exact (last_writer_wins plain_digest plain_tag hello_net crossed two_writers
           crossed_final [(1%positive, Put logs_host "a.txt" hello ∅)]
           [(1%positive, PutDigest logs_host "a.txt" (plain_digest hello))]
           2%positive logs_host "a.txt" bye ∅
           two_writers_sound crossed_run crossed_linearization eq_refl).
Defined.

Lemma last_put_wins_witness :
  sh_objects (shelf_at logs_host
     (store_run ([Put logs_host "a.txt" hello ∅]
                 ++ Put logs_host "a.txt" bye ∅
                    :: [PutDigest logs_host "a.txt" (plain_digest hello)]) ∅))
    !! "a.txt" = Some bye.
Proof.
  exact (last_put_wins [Put logs_host "a.txt" hello ∅]
           [PutDigest logs_host "a.txt" (plain_digest hello)] ∅
           logs_host "a.txt" bye ∅ eq_refl).
Defined.

(** The goroutines of [racing] show the same three operations: the
    statements of the three calls and the steps of the reader show
    none. *)
Example racing_linearization :
  snd <$> system_linearization open_line plain_digest plain_tag hello_net
            racing ([], shop)
  = [Put logs_host "a.txt" hello ∅; Put logs_host "a.txt" bye ∅;
     PutDigest logs_host "a.txt" (plain_digest hello)].
Proof. by vm_compute. Qed.

Lemma system_refines_store_witness :
  abstraction (engine raced.2)
  ≈ store_run
      (snd <$> system_linearization open_line plain_digest plain_tag hello_net
                 racing ([], shop))
      (abstraction (engine shop)).
Proof.
  exact (system_refines_store open_line plain_digest plain_tag hello_net
           racing ([], shop) raced shop_well racing_run).
Defined.

(** A reader of [hello.txt] and a writer that replaces it: the writer
    sends its parts while the reader reads, and has not completed when
    the reader is at the end. *)
Definition overlapping : list transfer_event :=
  [OnReader 1 EvIssue; OnWriter 1 (Upload (PutWrite shout));
   OnReader 1 (EvFinish 0); OnWriter 1 (Upload PutEmit);
   OnReader 1 (EvRead 4); OnWriter 1 (Upload PutEmit);
   OnReader 1 EvIssue; OnReader 1 EvIssue;
   OnWriter 1 (Upload (PutUploaded 0)); OnReader 1 (EvFinish 1);
   OnWriter 1 (Upload (PutUploaded 1)); OnReader 1 (EvFinish 2);
   OnWriter 1 (Upload PutCloses); OnReader 1 (EvRead 4);
   OnReader 1 (EvRead 4); OnWriter 1 (Upload (PutUploaded 2))]%positive.

Definition overlapped : transfers :=
  Eval vm_compute in
    default no_transfers
      (transfers_run plain_digest plain_tag hello_net overlapping tearing).

Example overlapping_run :
  transfers_run plain_digest plain_tag hello_net overlapping tearing
  = Some overlapped.
Proof. by vm_compute. Qed.

Lemma tearing_sound : sound plain_digest plain_tag hello_net tearing.
Proof. apply sound_opened; [done|]. apply sound_idle. Qed.

(** All the parts of the new object are at the service, and the reader
    has read the old one and is told of no error. *)
Example overlapped_read :
  (m_parts <$> multiparts (bucket_at logs_host overlapped))
  = {[ 1%positive := {[ 0%nat := take 4 shout; 1%nat := take 4 (drop 4 shout);
                        2%nat := drop 8 shout ]} ]} ∧
  ((λ d, (g_read (d_getter d), (Close plain_digest (d_getter d)).1))
     <$> getters overlapped !! 1%positive) = Some (hello, None).
Proof. by vm_compute. Qed.

Lemma reader_between_puts_witness :
  ∃ g, Getter.run plain_digest (server_of hello_net hello_download tearing)
         (steps_of 1%positive overlapping) (d_getter hello_download) = Some g ∧
       getters overlapped !! 1%positive = Some (download_after hello_download g).
Proof.
  exact (reader_between_puts plain_digest plain_tag hello_net 1%positive
           overlapping tearing overlapped hello_download tearing_sound eq_refl
           overlapping_run eq_refl).
Defined.
