(* ===== verification/Progress.v ===== *)
(** * Progress: every transfer can come to its end

    [Putter] and [Getter] show what a transfer that has ended has done,
    and that the sequential schedules end a fresh transfer on a network
    that gets every part through.  This file shows that an upload and a
    download can come to their end from every state they may be in, on
    every network, and among the other transfers of their program.

    - [next] is the step a scheduler takes to bring an upload to its end:
      it waits for a part that is uploading; when none is, it hands the
      next full part to a worker; when no part is full, it closes the
      writer; and when the writer is closed it sends the completion
      request, or the request to abort.  [distance] measures how far the
      upload is from its end: twice the bytes pending, the parts
      uploading, two for the close and one for the last request.
      [schedule] takes [next] as often as it is told, [finish] as often
      as the distance says.
    - [advance] is the step that brings a download forward: the caller
      reads what is in the queue; when the queue is empty a part in
      flight is waited for; and when none is, the next part is started.
      [at_end] says that [Read] reports the end of the stream or an
      error; [remaining] weighs the parts not started, in flight,
      buffered and queued; [approach] and [read_out] are the schedules.

    The theorems.  With a concurrency of at least one, an upload that has
    not ended can take its next step ([next_enabled]), and with parts of
    a positive size that step brings it closer to the end
    ([next_closer]); so [finish] ends it, without another write
    ([upload_can_end]).  A download that is well formed and not at its
    end can take its next step, which leaves less to do
    ([advance_closer]); so [read_out] brings it to its end, whatever the
    server answers ([download_can_end]).  Among the transfers of a
    program both hold in every state the program reaches: whatever the
    others have done, the steps of [finish] end the upload behind a
    writer, and when it has completed, the bucket holds all the bytes
    given to the writer under its key ([writer_can_end]); and the steps
    of [read_out] bring the download behind a reader to the end of its
    stream or to its error ([reader_can_end]).  With a concurrency of
    zero an upload with bytes pending can take no step at all
    ([upload_stuck]). *)

From Stdlib Require Import ZArith String List Lia.
From stdpp Require Import base tactics option list numbers strings gmap.
From S2P Require Import Prelude GoRuntime Types Scheduler Service.
From S2P Require Import Getter Putter Roundtrip Transfer Program Interleaved.
From S2P Require Import Atomic.

Local Open Scope Z_scope.
#[local] Set Warnings "-clear-no-such-hyp".

(** ** The next step of an upload *)

Definition next (p : putter) : put_event :=
  match head (map_to_list (p_inflight p)) with
  | Some (i, _) => PutUploaded i
  | None =>
      if can_emit p then PutEmit
      else if p_closing p then PutComplete else PutCloses
  end.

Definition distance (p : putter) : nat :=
  2 * length (p_pending p) + size (p_inflight p)
  + (if p_closing p then 0 else 2) + (if p_done p is Some _ then 0 else 1).

Section progress.
Context (digest : bytes → string).
Context (store : nat → bytes → nat → response string).

Local Abbreviation put_step := (put_step digest store).
Local Abbreviation put_run := (put_run digest store).

Fixpoint schedule (fuel : nat) (p : putter) : list put_event :=
  match fuel with
  | O => []
  | S n =>
      if p_done p is Some _ then []
      else match put_step (next p) p with
           | Some p' => next p :: schedule n p'
           | None => []
           end
  end.

Definition finish (p : putter) : list put_event := schedule (distance p) p.

(** ** The next step is enabled *)

(** What [next] chooses, by the parts that are uploading. *)
Lemma next_uploading p :
  (∃ i b, p_inflight p !! i = Some b ∧ next p = PutUploaded i) ∨
  (p_inflight p = ∅ ∧
   next p = if can_emit p then PutEmit
            else if p_closing p then PutComplete else PutCloses).
Proof.
  unfold next. destruct (map_to_list (p_inflight p)) as [|[i b] l] eqn:Hl.
  - right. by apply map_to_list_empty_iff in Hl.
  - left. exists i, b. split; [|done].
    apply elem_of_map_to_list. rewrite Hl. by left.
Qed.

(** Without a part that is full and a free worker, and without an error,
    the writer can be closed. *)
Lemma PutClose_idle p :
  1 ≤ Concurrency (p_config p) → p_inflight p = ∅ → p_closing p = false →
  can_emit p = false → is_Some (PutClose p).
Proof.
  intros Hconc Hinfl Hcl Hemit. apply bool_decide_eq_false in Hemit.
  destruct p as [c pend sent infl et h e cl d]. simpl in *. subst infl cl.
  destruct e; [done|]. case_decide; [done|]. rewrite decide_True; [done|].
  rewrite map_size_empty. split; [|lia].
  destruct (decide (length pend < p_size (mkPutter c pend sent ∅ et h None false d))%nat);
    [done|]. destruct Hemit. rewrite map_size_empty. split_and!; [done..|lia|lia].
Qed.

Lemma next_enabled p :
  1 ≤ Concurrency (p_config p) → p_done p = None →
  is_Some (put_step (next p) p).
Proof.
  intros Hconc Hd. destruct (next_uploading p) as [(i & b & Hi & ->)|[Hinfl ->]].
  - destruct p. simpl in *. rewrite Hi. by eexists.
  - destruct (can_emit p) eqn:Hemit.
    { simpl. unfold Emit. rewrite Hemit. destruct p. by eexists. }
    destruct (p_closing p) eqn:Hcl.
    + destruct p. simpl in *. subst. rewrite bool_decide_eq_true_2 by done.
      by eexists.
    + destruct (PutClose_idle p Hconc Hinfl Hcl Hemit) as [[res p'] Hc].
      simpl. rewrite Hc. by eexists.
Qed.

(** ** The next step brings the end closer *)

Lemma Emit_closer p p' :
  0 < PartSize (p_config p) → Emit p = Some p' →
  (distance p' < distance p)%nat.
Proof.
  intros Hsize. unfold Emit. destruct (can_emit p) eqn:Hemit; [|done].
  apply bool_decide_eq_true in Hemit as (Hcl & _ & Hfull & _).
  destruct p as [c pend sent infl et h e cl d]. intros [= <-].
  unfold distance, p_size in *. simpl in *. rewrite length_drop.
  pose proof (map_size_insert sent (take (Z.to_nat (PartSize c)) pend) infl).
  destruct (infl !! sent); simpl in *; lia.
Qed.

Lemma Uploaded_closer i p p' :
  Uploaded store i p = Some p' → (distance p' < distance p)%nat.
Proof.
  destruct p as [c pend sent infl et h e cl d]. simpl.
  destruct (infl !! i) as [b|] eqn:Hi; [|done]. simpl.
  pose proof (map_size_delete_S infl i b Hi).
  unfold distance. case_match; intros [= <-]; simpl; lia.
Qed.

Lemma PutClose_closer p res p' :
  p_closing p = false → PutClose p = Some (res, p') →
  (distance p' < distance p)%nat.
Proof.
  intros Hcl [(? & _)|(_ & _ & [[_ ->]|(_ & Hp & _ & _ & ->)])]%PutClose_inv;
    [congruence|..]; unfold distance; simpl; rewrite Hcl; [lia|].
  pose proof (map_size_insert (p_sent p) (p_pending p) (p_inflight p)).
  destruct (p_pending p); [done|].
  destruct (p_inflight p !! p_sent p); simpl in *; lia.
Qed.

Lemma Complete_closer p p' :
  Complete digest p = Some p' → (distance p' < distance p)%nat.
Proof.
  destruct p as [c pend sent infl et h e cl d]. simpl.
  case_match eqn:Hc; [|done]. intros [= <-].
  apply andb_prop in Hc as [_ Hd%bool_decide_eq_true]. subst d.
  unfold distance. simpl. lia.
Qed.

Lemma next_closer p p' :
  0 < PartSize (p_config p) → put_step (next p) p = Some p' →
  (distance p' < distance p)%nat.
Proof.
  intros Hsize. destruct (next_uploading p) as [(i & b & _ & ->)|[_ ->]].
  - apply Uploaded_closer.
  - destruct (can_emit p); [by apply Emit_closer|].
    destruct (p_closing p) eqn:Hcl; [apply Complete_closer|]. simpl.
    destruct (PutClose p) as [[res p1]|] eqn:Hc; [|done]. intros [= <-].
    by eapply PutClose_closer.
Qed.

(** ** The schedule ends the upload *)

(** The steps of the schedule are no writes. *)
Lemma written_schedule n p : written (schedule n p) = [].
Proof.
  revert p. induction n as [|n IH]; intros p; [done|]. simpl.
  destruct (p_done p); [done|].
  destruct (put_step (next p) p) as [p'|]; [|done].
  change (written (next p :: schedule n p'))
    with ((if next p is PutWrite b then b else []) ++ written (schedule n p')).
  rewrite IH, app_nil_r. unfold next. by repeat case_match.
Qed.

Lemma schedule_ends n p :
  1 ≤ Concurrency (p_config p) → 0 < PartSize (p_config p) →
  (distance p ≤ n)%nat →
  ∃ p', put_run (schedule n p) p = Some p' ∧ is_Some (p_done p').
Proof.
  revert p. induction n as [|n IH]; intros p Hconc Hsize Hn; simpl.
  - exists p. split; [done|]. unfold distance in Hn.
    destruct (p_done p); [done|lia].
  - destruct (p_done p) as [o|] eqn:Hd; [exists p; by rewrite Hd|].
    destruct (next_enabled p Hconc Hd) as [p1 Hstep]. rewrite Hstep.
    pose proof (next_closer p p1 Hsize Hstep).
    destruct (put_step_hash _ _ _ _ _ Hstep) as [Hc _].
    destruct (IH p1) as (p' & Hrun & Hd'); [by rewrite Hc..|lia|].
    exists p'. split; [|done]. unfold Putter.put_run.
    by rewrite run_steps_cons, Hstep.
Qed.

(** An upload can end, from every state and whatever the store answers:
    with a concurrency of at least one and parts of a positive size, the
    steps of [finish] bring an upload to its end, and they take no more
    bytes. *)
Theorem upload_can_end p :
  1 ≤ Concurrency (p_config p) → 0 < PartSize (p_config p) →
  ∃ p', put_run (finish p) p = Some p' ∧ is_Some (p_done p') ∧
        p_hash p' = p_hash p.
Proof.
  intros Hconc Hsize.
  destruct (schedule_ends (distance p) p Hconc Hsize) as (p' & Hrun & Hd); [done|].
  exists p'. split_and!; [done..|].
  destruct (put_run_hash _ _ _ _ _ Hrun) as [_ ->].
  by rewrite written_schedule, app_nil_r.
Qed.

(** With a concurrency of zero an upload that has bytes pending and no
    error is stuck: no part can be handed out, so the writer cannot be
    closed, and nothing is there to wait for. *)
Theorem upload_stuck p ev :
  Concurrency (p_config p) ≤ 0 → p_inflight p = ∅ → p_closing p = false →
  p_err p = None → p_pending p ≠ [] →
  (∀ b, ev ≠ PutWrite b) → put_step ev p = None.
Proof.
  intros Hconc Hinfl Hcl He Hpend Hev.
  destruct p as [c pend sent infl et h e cl d]. simpl in *. subst.
  destruct ev as [b| |i| |]; simpl.
  - by destruct (Hev b).
  - unfold Emit, can_emit. rewrite bool_decide_eq_false_2; [done|].
    simpl. rewrite map_size_empty. lia.
  - by rewrite lookup_empty.
  - rewrite decide_False by done. rewrite decide_False; [done|].
    rewrite map_size_empty. lia.
  - done.
Qed.

End progress.

(** ** The next step of a download *)

(** The caller reads what is in the queue; when the queue is empty it
    waits for a part in flight; and when none is, the scheduler starts
    the next part. *)
Definition advance (g : getter) : event :=
  match g_queue g with
  | b :: _ => EvRead (length b)
  | [] =>
      match elements (g_inflight g) with
      | i :: _ => EvFinish i
      | [] => EvIssue
      end
  end.

(** [Read] does not wait and gives no bytes: the stream is at its end, or
    has failed. *)
Definition at_end (g : getter) : bool :=
  match Read 1 g with
  | Some (ReadEOF, _) | Some (ReadErr _, _) => true
  | _ => false
  end.

Definition remaining (g : getter) : nat :=
  4 * (g_count g - g_issued g) + 3 * size (g_inflight g)
  + 2 * size (g_buffer g) + length (g_queue g).

Section ending.
Context (digest : bytes → string) (server : nat → nat → response bytes).

Local Abbreviation step := (step digest server).
Local Abbreviation run := (Getter.run digest server).

Fixpoint approach (fuel : nat) (g : getter) : list event :=
  match fuel with
  | O => []
  | S n =>
      if at_end g then []
      else match step (advance g) g with
           | Some g' => advance g :: approach n g'
           | None => []
           end
  end.

Definition read_out (g : getter) : list event := approach (remaining g) g.

(** *** What is left after each operation *)

Lemma remaining_release i g :
  i ∈ g_inflight g → (remaining (release i g) + 3 = remaining g)%nat.
Proof.
  intros Hi. pose proof (size_remove _ _ Hi).
  destruct g. unfold remaining, g_count in *. simpl in *. lia.
Qed.

Lemma remaining_fail f g : remaining (fail f g) = remaining g.
Proof. by destruct g. Qed.

Lemma remaining_deliver g g' :
  deliver g = Some g' → (remaining g' + 1 = remaining g)%nat.
Proof.
  intros (b & Hb & ->)%deliver_inv. pose proof (map_size_delete_S _ _ _ Hb).
  unfold remaining, g_count. simpl. rewrite length_app. simpl. lia.
Qed.

Lemma remaining_drain fuel g : (remaining (drain fuel g) ≤ remaining g)%nat.
Proof.
  revert g. induction fuel as [|n IH]; intros g; simpl; [done|].
  destruct (deliver g) as [g'|] eqn:Hd; [|done].
  pose proof (remaining_deliver g g' Hd). specialize (IH g'). lia.
Qed.

Lemma remaining_arrive i b g :
  (remaining (arrive i b g) ≤ remaining g + 2)%nat.
Proof.
  unfold arrive. etrans; [apply remaining_drain|].
  pose proof (map_size_insert i b (g_buffer g)).
  destruct g. unfold remaining, g_count in *. simpl in *.
  destruct (_ !! i); simpl in *; lia.
Qed.

Lemma Finish_closer i g g' :
  g_closed g = false → Finish server i g = Some g' →
  (remaining g' < remaining g)%nat.
Proof.
  intros Hcl [Hi ->]%Finish_inv. rewrite Hcl.
  pose proof (remaining_release i g Hi).
  destruct (run_part _ _).1 as [b|f]; rewrite ?remaining_fail; [|lia].
  pose proof (remaining_arrive i b (release i g)).
  repeat case_match; rewrite ?remaining_fail; lia.
Qed.

Lemma Issue_closer g g' :
  getter_wf g → Issue g = Some g' → (remaining g' < remaining g)%nat.
Proof.
  intros Hwf [Hcan ->]%Issue_inv.
  apply bool_decide_eq_true in Hcan as (_ & _ & Hiss & _).
  assert (g_issued g ∉ g_inflight g) as Hfresh
    by (intros ?%(wf_inflight _ Hwf); lia).
  unfold remaining, g_count in *. simpl. rewrite size_add_fresh by done. lia.
Qed.

Lemma Read_closer b q g :
  g_closed g = false → g_queue g = b :: q →
  ∃ g', Read (length b) g = Some (ReadBytes b, g') ∧
        (remaining g' < remaining g)%nat.
Proof.
  destruct g as [c t m iss infl buf nx q0 h r e cl]. simpl. intros -> ->.
  eexists. rewrite drop_all, decide_True, firstn_all by done. split; [done|].
  unfold remaining, g_count. simpl. lia.
Qed.

(** *** The next step is enabled, and brings the end closer *)

Lemma waiting g :
  at_end g = false →
  g_closed g = false ∧
  (g_queue g ≠ [] ∨ g_err g = None ∧ g_next g ≠ g_count g).
Proof.
  destruct g as [c t m iss infl buf nx q h r e cl]. unfold at_end. simpl.
  destruct cl, q, e; try done; [|by split; [|left]..].
  case_decide; [done|]. by split; [|right].
Qed.

(** A download that waits with nothing in flight can start a part. *)
Lemma waiting_idle g :
  getter_ok g → 1 ≤ Concurrency (g_config g) → g_closed g = false →
  g_queue g = [] → g_err g = None → g_next g ≠ g_count g →
  g_inflight g = ∅ → can_issue g = true.
Proof.
  intros (Hwf & Hcov & Hdr) Hconc Hcl Hq He Hnext Hinfl.
  pose proof (wf_next g Hwf). pose proof (wf_issued g Hwf).
  assert (g_next g = g_issued g) as Heq.
  { destruct (decide (g_next g = g_issued g)) as [|Hne]; [done|].
    destruct (Hcov Hcl He (g_next g)) as [Hi|[? Hb]]; [lia|set_solver|].
    unfold drained in Hdr. congruence. }
  apply bool_decide_eq_true. rewrite quiet_load by done.
  split_and!; [done..|lia|lia].
Qed.

Lemma advance_closer g :
  getter_ok g → 1 ≤ Concurrency (g_config g) → at_end g = false →
  ∃ g', step (advance g) g = Some g' ∧ (remaining g' < remaining g)%nat.
Proof.
  intros Hok Hconc (Hcl & Hwait)%waiting. unfold advance.
  destruct (g_queue g) as [|b q] eqn:Hq.
  - destruct Hwait as [?|[He Hnext]]; [done|].
    destruct (elements (g_inflight g)) as [|i l] eqn:Hl.
    + apply elements_empty_iff, leibniz_equiv in Hl.
      pose proof (waiting_idle g Hok Hconc Hcl Hq He Hnext Hl) as Hcan.
      simpl. unfold Issue at 1. rewrite Hcan. destruct g. eexists.
      split; [done|]. eapply Issue_closer; [apply Hok|].
      unfold Issue. by rewrite Hcan.
    + assert (i ∈ g_inflight g) as Hi by (apply elem_of_elements; rewrite Hl; by left).
      destruct (Finish_enabled server i g Hi) as [g' Hf]. exists g'.
      split; [done|]. by eapply Finish_closer.
  - destruct (Read_closer b q g Hcl Hq) as (g' & Hr & Hlt). exists g'.
    simpl. by rewrite Hr.
Qed.

(** *** The schedule ends the download *)

Lemma approach_ends n g :
  getter_ok g → 1 ≤ Concurrency (g_config g) → (remaining g ≤ n)%nat →
  ∃ g', run (approach n g) g = Some g' ∧ at_end g' = true ∧ getter_ok g'.
Proof.
  revert g. induction n as [|n IH]; intros g Hok Hconc Hn; simpl;
    (destruct (at_end g) eqn:Hend; [by exists g|]);
    destruct (advance_closer g Hok Hconc Hend) as (g1 & Hstep & Hlt); [lia|].
  rewrite Hstep.
  destruct (step_same _ _ _ _ _ Hstep) as (Hc & _).
  destruct (IH g1) as (g' & Hrun & Hend' & Hok');
    [by eapply step_ok|by rewrite Hc|lia|].
  exists g'. split; [|done]. unfold Getter.run.
  by rewrite run_steps_cons, Hstep.
Qed.

(** A download comes to an end, from every state and whatever the server
    answers: with a concurrency of at least one, the steps of [read_out]
    bring it to a state in which [Read] reports the end of the stream or
    the error of the transfer, and does not wait. *)
Theorem download_can_end g :
  getter_ok g → 1 ≤ Concurrency (g_config g) →
  ∃ g', run (read_out g) g = Some g' ∧ at_end g' = true ∧ getter_ok g'.
Proof. intros Hok Hconc. by apply approach_ends. Qed.

End ending.

(** ** Among the other transfers *)

Section among.
Context (digest etag : bytes → string) (net : nat → nat → delivery).

Local Abbreviation exchange := (put_exchange etag net).
Local Abbreviation sound := (sound digest etag net).
Local Abbreviation run := (transfers_run digest etag net).

(** The steps that end the upload behind a writer. *)
Definition writer_finish (w : addr) (u : upload) : list transfer_event :=
  (λ ev, OnWriter w (Upload ev)) <$> finish digest exchange (u_putter u).

(** What a writer that has completed has delivered: all the bytes it was
    given, under its key. *)
Definition delivered (w : addr) (t : transfers) : Prop :=
  ∀ u l d, putters t !! w = Some u →
           p_done (u_putter u) = Some (Completed l d) →
           objects (bucket_at (u_host u) t) !! u_key u = Some (p_hash (u_putter u)).

Lemma run_writer w evs t :
  run (OnWriter w <$> evs) t = writer_run digest etag net w evs t.
Proof.
  unfold transfers_run, writer_run. revert t.
  induction evs as [|ev evs IH]; intros t; [done|].
  rewrite fmap_cons, !run_steps_cons. simpl.
  destruct (writer_step _ _ _ w ev t); simpl; [apply IH|done].
Qed.

(** While a writer takes the steps of its upload and nobody else takes
    one, what it has delivered stays. *)
Lemma delivered_step w ev t t' :
  sound t → delivered w t →
  transfers_step digest etag net (OnWriter w (Upload ev)) t = Some t' →
  delivered w t'.
Proof.
  intros Hs Hdel Hstep u' l d Hw' Hd'.
  destruct (transfers_step_sound _ _ _ _ _ _ Hs Hstep) as [_ Hobj].
  rewrite Hobj. unfold publishes. rewrite Hw', decide_True by done.
  unfold published. rewrite Hd'.
  destruct (decide (ev = PutComplete)) as [->|Hne]; [by rewrite lookup_insert_eq|].
  destruct Hs as [Hat _]. simpl in Hstep.
  apply writer_step_commit in Hstep as (u & wd & Hw & Hstep & ->).
  simpl in Hw'. rewrite lookup_insert_eq in Hw'. injection Hw' as <-.
  pose proof (world_step_put _ _ _ _ _ _ _ _ Hstep) as Hput. simpl in *.
  rewrite (put_step_keeps_done _ _ _ _ _ Hput Hne) in Hd'.
  destruct (put_step_done _ _ _ _ _ _ (proj1 (Hat w u Hw)) Hd' Hput) as [-> ->].
  exact (Hdel u l d Hw Hd').
Qed.

Lemma writer_finish_delivered w evs t t' :
  sound t → delivered w t → run ((λ ev, OnWriter w (Upload ev)) <$> evs) t = Some t' →
  delivered w t'.
Proof.
  intros Hs Hdel Hrun.
  enough (sound t' ∧ delivered w t') as [_ ?] by done.
  eapply (run_steps_invariant_on _ (λ e, ∃ ev, e = OnWriter w (Upload ev))
            (λ t, sound t ∧ delivered w t)); [| |done|exact Hrun].
  - intros e t1 t2 [ev ->] [Hs1 Hd1] Hstep. split.
    + by destruct (transfers_step_sound _ _ _ _ _ _ Hs1 Hstep).
    + by eapply delivered_step.
  - apply Forall_fmap, Forall_true. intros ev. by exists ev.
Qed.

(** An upload keeps its host and its key. *)
Lemma transfers_run_ended_names w t t' u u' :
  sound t → run (writer_finish w u) t = Some t' →
  putters t !! w = Some u → putters t' !! w = Some u' →
  u_host u' = u_host u ∧ u_key u' = u_key u.
Proof.
  intros Hs Hrun Hw Hw'.
  enough (sound t' ∧ ∃ u1, putters t' !! w = Some u1 ∧
                          u_host u1 = u_host u ∧ u_key u1 = u_key u)
    as [_ (u1 & ? & ?)] by (by assert (u1 = u') as -> by congruence).
  eapply (run_steps_invariant _
            (λ t', sound t' ∧ ∃ u1, putters t' !! w = Some u1 ∧
                                    u_host u1 = u_host u ∧ u_key u1 = u_key u));
    [|split; [done|by exists u]|exact Hrun].
  intros e t1 t2 (Hs1 & u1 & Hw1 & Hh1 & Hk1) Hstep.
  destruct (transfers_step_sound _ _ _ _ _ _ Hs1 Hstep) as [Hs2 _].
  destruct (transfers_step_upload _ _ _ _ _ _ _ _ Hs1 Hstep Hw1)
    as (u2 & Hw2 & [= Hh2 Hk2 _] & _).
  split; [done|]. exists u2. split_and!; congruence.
Qed.

(** The steps of [finish] are steps of the writer among the others. *)
Lemma writer_finish_runs w u t p' :
  putters t !! w = Some u →
  put_run digest exchange (finish digest exchange (u_putter u)) (u_putter u)
  = Some p' →
  ∃ t' u', run (writer_finish w u) t = Some t' ∧
           putters t' !! w = Some u' ∧ u_putter u' = p'.
Proof.
  intros Hw Hrun.
  destruct (world_run_uploads digest etag net (u_key u) (u_uid u) _ _ _
              (st_bucket (site_at (u_host u) t)) (u_digest u) Hrun) as [s' Hwrun].
  destruct (writer_run_world digest etag net w _ t u _ Hw Hwrun)
    as (t' & Hrun' & Hw' & _).
  exists t', (upload_after u (mkWorld p' s' (u_digest u))).
  split_and!; [|done..]. unfold writer_finish.
  by rewrite (list_fmap_compose Upload (OnWriter w)), run_writer.
Qed.

(** C26: no writer is held up by the others.  A program drives any
    number of readers and writers in any order, on any network.  In
    every state it reaches, a writer whose upload has not ended and whose
    configuration has a concurrency of at least one can end it by steps
    of its own, whatever the state of the other transfers: the steps of
    [finish] wait for the parts that are uploading, hand out the parts
    that are full, close the writer and send the last request.  They
    take no more bytes from the caller; and when the upload has
    completed, the bucket holds all the bytes given to the writer under
    its key. *)
Theorem writer_can_end evs t0 t w u :
  sound t0 → run evs t0 = Some t →
  putters t !! w = Some u → p_done (u_putter u) = None →
  1 ≤ Concurrency (p_config (u_putter u)) →
  ∃ t' u',
    run (writer_finish w u) t = Some t' ∧ putters t' !! w = Some u' ∧
    is_Some (p_done (u_putter u')) ∧
    p_hash (u_putter u') = p_hash (u_putter u) ∧
    ∀ l d, p_done (u_putter u') = Some (Completed l d) →
           objects (bucket_at (u_host u) t') !! u_key u
           = Some (p_hash (u_putter u)).
Proof.
  intros Hs0 Hrun Hw Hd Hconc.
  pose proof (transfers_run_sound _ _ _ _ _ _ Hs0 Hrun) as Hs.
  destruct (proj1 Hs w u Hw) as (_ & Hst & _).
  destruct (upload_can_end digest exchange (u_putter u) Hconc (ps_size _ _ Hst))
    as (p' & Hprun & Hd' & Hhash).
  destruct (writer_finish_runs w u t p' Hw Hprun) as (t' & u' & Hrun' & Hw' & <-).
  exists t', u'. split_and!; [done..|]. intros l d Hdone.
  assert (delivered w t) as Hdel by (intros u1 l1 d1 ??; congruence).
  pose proof (writer_finish_delivered w _ t t' Hs Hdel Hrun' u' l d Hw' Hdone)
    as Hobj.
  destruct (transfers_run_ended_names w t t' u u' Hs Hrun' Hw Hw') as [<- <-].
  by rewrite <-Hhash.
Qed.

(** *** Readers *)

(** The downloads of the state are well formed. *)
Definition readers_ok (t : transfers) : Prop :=
  map_Forall (λ _ d, getter_ok (d_getter d)) (getters t).

Lemma transfers_step_readers_ok e t t' :
  readers_ok t → transfers_step digest etag net e t = Some t' → readers_ok t'.
Proof.
  intros Hok. unfold readers_ok. destruct e as [w ev|r ev]; simpl.
  - by intros (-> & _)%writer_step_frame.
  - unfold reader_step. destruct (getters t !! r) as [d|] eqn:Hr; [|done].
    simpl. destruct (step _ _ ev _) as [g|] eqn:Hstep; [|done].
    intros [= <-]. apply map_Forall_insert_2; [|done]. simpl.
    eapply step_ok; [|done]. exact (Hok r d Hr).
Qed.

(** The steps that bring the download behind a reader to its end. *)
Definition reader_finish (r : addr) (d : download) (t : transfers)
    : list transfer_event :=
  OnReader r <$> read_out digest (server_of net d t) (d_getter d).

Lemma run_reader r evs t :
  run (OnReader r <$> evs) t = reader_run digest net r evs t.
Proof.
  unfold transfers_run, reader_run. revert t.
  induction evs as [|ev evs IH]; intros t; [done|].
  rewrite fmap_cons, !run_steps_cons. simpl.
  destruct (reader_step _ _ r ev t); simpl; [apply IH|done].
Qed.

(** C32: no reader is held up by the others, and no [Read] waits for
    ever.  A program drives any number of readers and writers in any
    order, on any network.  In every state it reaches, a reader whose
    configuration has a concurrency of at least one comes to the end of
    its download by steps of its own, whatever the other transfers have
    done and whatever the service answers: the caller reads what has
    been delivered, the parts in flight are waited for and the parts that
    are left are started, until [Read] reports the end of the stream or
    the error of the transfer.  The steps change neither the uploads nor
    the service. *)
Theorem reader_can_end evs t0 t r d :
  readers_ok t0 → run evs t0 = Some t → getters t !! r = Some d →
  1 ≤ Concurrency (g_config (d_getter d)) →
  ∃ t' d',
    run (reader_finish r d t) t = Some t' ∧ getters t' !! r = Some d' ∧
    at_end (d_getter d') = true ∧
    putters t' = putters t ∧ sites t' = sites t.
Proof.
  intros Hok0 Hrun Hr Hconc.
  assert (readers_ok t) as Hok.
  { eapply (run_steps_invariant _ readers_ok); [|done..].
    intros e t1 t2. apply transfers_step_readers_ok. }
  destruct (download_can_end digest (server_of net d t) (d_getter d)
              (Hok r d Hr) Hconc) as (g & Hg & Hend & _).
  exists (mkTransfers (<[r := download_after d g]> (getters t)) (putters t)
            (sites t)), (download_after d g).
  unfold reader_finish.
  rewrite run_reader, (reader_run_getter _ _ r _ t d g Hr Hg). simpl.
  by rewrite lookup_insert_eq.
Qed.

End among.

(** ** Examples *)

(** The two writers of [crossed], after both have written and handed out
    their first parts: the first has two parts uploading and two bytes
    pending. *)
Definition midway : transfers :=
  Eval vm_compute in
    default no_transfers
      (transfers_run plain_digest plain_tag hello_net (take 5 crossed)
         two_writers).

Example midway_run :
  transfers_run plain_digest plain_tag hello_net (take 5 crossed) two_writers
  = Some midway.
Proof. by vm_compute. Qed.

Definition midway_writer : upload :=
  Eval vm_compute in
    default (opened_upload small_config logs_host "a.txt" logs_keys ∅ no_transfers)
      (putters midway !! 1%positive).

(** The first writer ends its upload in five steps: it waits for the two
    parts, closes, which hands out the last part, waits for it, and sends
    the completion request. *)
Example midway_finish :
  finish plain_digest (put_exchange plain_tag hello_net) (u_putter midway_writer)
  = [PutUploaded 1; PutUploaded 0; PutCloses; PutUploaded 2; PutComplete].
Proof. by vm_compute. Qed.

Example midway_distance : distance (u_putter midway_writer) = 9%nat.
Proof. by vm_compute. Qed.

(** And the object is there, while the second writer is where it was. *)
Example midway_finished :
  ∃ t', transfers_run plain_digest plain_tag hello_net
          (writer_finish plain_digest plain_tag hello_net 1%positive midway_writer) midway
        = Some t' ∧
        objects (bucket_at logs_host t') = {[ "a.txt"%string := hello ]} ∧
        putters t' !! 2%positive = putters midway !! 2%positive.
Proof. eexists. split; [by vm_compute|]. by vm_compute. Qed.

Lemma writer_can_end_witness :
  ∃ t' u',
    transfers_run plain_digest plain_tag hello_net
      (writer_finish plain_digest plain_tag hello_net 1%positive midway_writer) midway
    = Some t' ∧
    putters t' !! 1%positive = Some u' ∧
    is_Some (p_done (u_putter u')) ∧
    p_hash (u_putter u') = p_hash (u_putter midway_writer) ∧
    ∀ l d, p_done (u_putter u') = Some (Completed l d) →
           objects (bucket_at (u_host midway_writer) t') !! u_key midway_writer
           = Some (p_hash (u_putter midway_writer)).
Proof.
  apply (writer_can_end plain_digest plain_tag hello_net (take 5 crossed)
           two_writers midway 1%positive midway_writer two_writers_sound
           midway_run); [reflexivity|reflexivity|by vm_compute].
Defined.

Lemma upload_can_end_witness :
  ∃ p', put_run plain_digest hello_store
          (finish plain_digest hello_store (u_putter midway_writer))
          (u_putter midway_writer) = Some p' ∧
        is_Some (p_done p') ∧ p_hash p' = p_hash (u_putter midway_writer).
Proof.
  apply (upload_can_end plain_digest hello_store (u_putter midway_writer));
    by vm_compute.
Defined.

(** A configuration without a worker: the upload takes the bytes and then
    no step. *)
Definition idle_config : Config :=
  mkConfig None 0 4 1 true "https".

Lemma upload_stuck_witness :
  put_step plain_digest hello_store PutCloses
    (mkPutter idle_config hello 0 ∅ ∅ hello None false None) = None.
Proof.
  apply (upload_stuck plain_digest hello_store
           (mkPutter idle_config hello 0 ∅ ∅ hello None false None) PutCloses);
    [by vm_compute|done..].
Defined.

(** The reader of [mixed], after it has started two parts and one of
    them has arrived out of order. *)
Definition halfway : transfers :=
  Eval vm_compute in
    default no_transfers
      (transfers_run plain_digest plain_tag hello_net (take 5 mixed) reading).

Example halfway_run :
  transfers_run plain_digest plain_tag hello_net (take 5 mixed) reading
  = Some halfway.
Proof. by vm_compute. Qed.

Definition halfway_download : download :=
  Eval vm_compute in default hello_download (getters halfway !! 1%positive).

Lemma reading_ok : readers_ok reading.
Proof. apply map_Forall_singleton, open_getter_ok. Qed.

(** It waits for the first part, reads the two that are then in order,
    starts the last part, waits for it and reads it. *)
Example halfway_read_out :
  read_out plain_digest (server_of hello_net halfway_download halfway)
    (d_getter halfway_download)
  = [EvFinish 0; EvRead 4; EvRead 4; EvIssue; EvFinish 2; EvRead 2].
Proof. by vm_compute. Qed.

Lemma reader_can_end_witness :
  ∃ t' d',
    transfers_run plain_digest plain_tag hello_net
      (reader_finish plain_digest hello_net 1%positive halfway_download halfway)
      halfway = Some t' ∧
    getters t' !! 1%positive = Some d' ∧ at_end (d_getter d') = true ∧
    putters t' = putters halfway ∧ sites t' = sites halfway.
Proof.
  apply (reader_can_end plain_digest plain_tag hello_net (take 5 mixed) reading
           halfway 1%positive halfway_download reading_ok halfway_run);
    [reflexivity|by vm_compute].
Defined.

Lemma download_can_end_witness :
  ∃ g', Getter.run plain_digest hello_server
          (read_out plain_digest hello_server hello_start) hello_start = Some g' ∧
        at_end g' = true ∧ getter_ok g'.
Proof.
  apply (download_can_end plain_digest hello_server hello_start);
    [apply open_getter_ok|by vm_compute].
Defined.
